(** * Proyecto_SO: the operating-system simulator of [simulator_full.py]

    A shallow embedding of the simulator's classes (memory manager, file
    lock manager, schedulers, tick engine, metrics) and the properties its
    design document states about them.

    Conventions of the embedding:
    - a Python [int] is a [Z]; a [str] is a [string];
    - a Python [dict] whose iteration order the code depends on is an
      insertion-ordered association list ([OrdDict]); a dictionary that is
      only looked up is a [gmap];
    - a [deque] is a [list] (left end = head);
    - a call that can raise returns a [result]; the exception is the error;
    - [Process] objects are shared and mutated through references, so they
      live in an object store and the engine passes references around. *)

From Stdlib Require Import ZArith QArith Lia Ascii String.
From stdpp Require Import base numbers option list gmap strings fin_maps.

Local Open Scope Z_scope.

(** * Part I: the model *)

(** ** Exceptions and the error monad *)

Inductive exn : Type :=
| IndexError | ValueError | KeyError | TypeError | ZeroDivisionError
| OverflowError.

Inductive result (A : Type) : Type :=
| Ok (a : A)
| Raise (e : exn).
Arguments Ok {A} a.
Arguments Raise {A} e.

Definition rbind {A B} (m : result A) (k : A -> result B) : result B :=
  match m with
  | Ok a => k a
  | Raise e => Raise e
  end.

Notation "'let*' x ':=' m 'in' k" := (rbind m (fun x => k))
  (at level 10, x pattern, m at level 100, k at level 200).

(** ** Deques as lists *)

(** The list without the first occurrence of [x] (unchanged when absent). *)
Fixpoint remove1 {A} `{EqDecision A} (x : A) (l : list A) : list A :=
  match l with
  | [] => []
  | y :: l' => if decide (x = y) then l' else y :: remove1 x l'
  end.

(** [dq.popleft()] *)
Definition popleft {A} (dq : list A) : result (A * list A) :=
  match dq with
  | [] => Raise IndexError
  | x :: dq' => Ok (x, dq')
  end.

(** [dq.remove(x)]: raises [ValueError] when [x] is absent. *)
Definition deque_remove {A} `{EqDecision A} (x : A) (dq : list A)
  : result (list A) :=
  if decide (x ∈ dq) then Ok (remove1 x dq) else Raise ValueError.

(** ** Insertion-ordered dictionaries

    Python dictionaries iterate in insertion order; assigning to a key that
    is present keeps its position, assigning to a new key appends it, and
    [pop] removes the entry. *)

Module OrdDict.
Section Defs.
Context {K V : Type} `{EqDecision K}.

Fixpoint get (k : K) (d : list (K * V)) : option V :=
  match d with
  | [] => None
  | (k', v) :: d' => if decide (k = k') then Some v else get k d'
  end.

(** [d[k] = v] *)
Fixpoint set (k : K) (v : V) (d : list (K * V)) : list (K * V) :=
  match d with
  | [] => [(k, v)]
  | (k', v') :: d' =>
      if decide (k = k') then (k', v) :: d' else (k', v') :: set k v d'
  end.

(** [d.pop(k, None)]: the dictionary without [k]. *)
Fixpoint remove (k : K) (d : list (K * V)) : list (K * V) :=
  match d with
  | [] => []
  | (k', v') :: d' =>
      if decide (k = k') then d' else (k', v') :: remove k d'
  end.

Definition keys (d : list (K * V)) : list K := d.*1.

Definition wf (d : list (K * V)) : Prop := NoDup (keys d).

End Defs.
End OrdDict.

(** ** Strings *)

(** [str.upper()] on ASCII letters (the policy names are ASCII).  On a
    name with other letters Python may give another string (a ligature
    becomes two capitals), but never [LRU], the one name that changes what
    the manager does: only the name stored can differ. *)
Definition upper_ascii (c : ascii) : ascii :=
  let n := nat_of_ascii c in
  if (97 <=? n)%nat && (n <=? 122)%nat then ascii_of_nat (n - 32) else c.

Fixpoint upper (s : string) : string :=
  match s with
  | EmptyString => EmptyString
  | String c s' => String (upper_ascii c) (upper s')
  end.

(** ** Memory manager (class [MemoryManager]) *)

Module MemoryManager.

(** A resident page is named by [(pid, page)]. *)
Abbreviation key := (Z * Z)%type.

Record t : Type := mk {
  num_frames : Z;
  replacement : string;
  frames : list (Z * Z * Z);        (* (frame_id, pid, page) *)
  frame_map : gmap key Z;           (* (pid, page) -> frame_id *)
  fifo_queue : list key;
  time : Z;
  last_used : list (key * Z);       (* (pid, page) -> last tick, ordered *)
  page_faults : gmap Z Z;           (* defaultdict(int) *)
}.

(** [__init__]: no argument is checked. *)
Definition init (num_frames : Z) (replacement : string) : result t :=
  Ok {| num_frames := num_frames;
        replacement := upper replacement;
        frames := [];
        frame_map := ∅;
        fifo_queue := [];
        time := 0;
        last_used := [];
        page_faults := ∅ |}.

(** [min(items, key=lambda kv: kv[1])]: the first item of least value. *)
Fixpoint min_scan (best : key * Z) (items : list (key * Z)) : key * Z :=
  match items with
  | [] => best
  | kv :: items' =>
      if kv.2 <? best.2 then min_scan kv items' else min_scan best items'
  end.

Definition min_by_value (items : list (key * Z)) : result (key * Z) :=
  match items with
  | [] => Raise ValueError
  | kv :: items' => Ok (min_scan kv items')
  end.

(** The loop that overwrites the first frame whose id is [victim_frame]. *)
Fixpoint replace_frame (victim_frame pid page : Z) (fs : list (Z * Z * Z))
  : list (Z * Z * Z) :=
  match fs with
  | [] => []
  | (fid, p, v) :: fs' =>
      if decide (fid = victim_frame) then (fid, pid, page) :: fs'
      else (fid, p, v) :: replace_frame victim_frame pid page fs'
  end.

(** The victim chosen by the replacement policy, with the FIFO queue once
    the victim has left it. *)
Definition choose_victim (s : t) : result (key * list key) :=
  if String.eqb (replacement s) "FIFO" then popleft (fifo_queue s)
  else if String.eqb (replacement s) "LRU" then
    let* kv := min_by_value (last_used s) in
    let victim := kv.1 in
    match deque_remove victim (fifo_queue s) with
    | Ok q => Ok (victim, q)
    | Raise _ => Ok (victim, fifo_queue s)      (* except ValueError: pass *)
    end
  else popleft (fifo_queue s).

Definition load_page (s : t) (pid page tick : Z) : result t :=
  let key := (pid, page) in
  if Z.of_nat (length (frames s)) <? num_frames s then
    let frame_id := Z.of_nat (length (frames s)) in
    Ok {| num_frames := num_frames s;
          replacement := replacement s;
          frames := frames s ++ [(frame_id, pid, page)];
          frame_map := <[key := frame_id]> (frame_map s);
          fifo_queue := fifo_queue s ++ [key];
          time := time s;
          last_used := OrdDict.set key tick (last_used s);
          page_faults := page_faults s |}
  else
    let* vq := choose_victim s in
    let victim := vq.1 in
    let* victim_frame :=
      match frame_map s !! victim with
      | Some f => Ok f
      | None => Raise KeyError
      end in
    Ok {| num_frames := num_frames s;
          replacement := replacement s;
          frames := replace_frame victim_frame pid page (frames s);
          frame_map := <[key := victim_frame]> (delete victim (frame_map s));
          fifo_queue := vq.2 ++ [key];
          time := time s;
          last_used := OrdDict.set key tick (OrdDict.remove victim (last_used s));
          page_faults := page_faults s |}.

Definition access_page (s : t) (pid page tick : Z) : result (bool * t) :=
  let key := (pid, page) in
  match frame_map s !! key with
  | Some _ =>
      Ok (true,
          {| num_frames := num_frames s;
             replacement := replacement s;
             frames := frames s;
             frame_map := frame_map s;
             fifo_queue := fifo_queue s;
             time := tick;
             last_used := OrdDict.set key tick (last_used s);
             page_faults := page_faults s |})
  | None =>
      let s1 :=
        {| num_frames := num_frames s;
           replacement := replacement s;
           frames := frames s;
           frame_map := frame_map s;
           fifo_queue := fifo_queue s;
           time := tick;
           last_used := last_used s;
           page_faults :=
             <[pid := default 0 (page_faults s !! pid) + 1]> (page_faults s) |} in
      let* s2 := load_page s1 pid page tick in
      Ok (false, s2)
  end.

(** A sequence of [access_page] calls [(pid, page, tick)]. *)
Fixpoint run (s : t) (calls : list (Z * Z * Z)) : result t :=
  match calls with
  | [] => Ok s
  | (pid, page, tick) :: calls' =>
      let* r := access_page s pid page tick in
      run r.2 calls'
  end.

(** The states the manager can be in: constructed, then accessed. *)
Definition reachable (n : Z) (policy : string) (s : t) : Prop :=
  exists s0 calls, init n policy = Ok s0 /\ run s0 calls = Ok s.

(** Number of resident [(pid, page)] entries: [len(frame_map)]. *)
Definition resident (s : t) : Z := Z.of_nat (size (frame_map s)).

(** Position of a key in load order. *)
Fixpoint index_of (k : key) (l : list key) : nat :=
  match l with
  | [] => 0
  | x :: l' => if decide (k = x) then 0 else S (index_of k l')
  end.

(** [stats()] *)
Record stats_t : Type := mk_stats {
  stats_frames : list (Z * Z * Z);
  stats_page_faults : gmap Z Z;
  stats_num_frames : Z;
  stats_replacement : string;
}.

Definition stats (s : t) : stats_t :=
  {| stats_frames := frames s;
     stats_page_faults := page_faults s;
     stats_num_frames := num_frames s;
     stats_replacement := replacement s |}.

(** [first_min items kv]: [kv] is the first entry of [items] whose
    timestamp is least. *)
Definition first_min (items : list (key * Z)) (kv : key * Z) : Prop :=
  exists l1 l2, items = l1 ++ kv :: l2 /\
    (forall e, e ∈ l1 -> kv.2 < e.2) /\ (forall e, e ∈ l2 -> kv.2 <= e.2).

(** Representation invariant: the FIFO queue lists the resident keys in
    load order, the timestamp table has the same keys in the same order,
    and the frame list is as long as the queue and within capacity. *)
Record inv (s : t) : Prop := mk_inv {
  inv_order : OrdDict.keys (last_used s) = fifo_queue s;
  inv_nodup : NoDup (fifo_queue s);
  inv_dom : forall k, k ∈ fifo_queue s <-> is_Some (frame_map s !! k);
  inv_len : length (frames s) = length (fifo_queue s);
  inv_cap : Z.of_nat (length (frames s)) <= num_frames s;
}.

End MemoryManager.

(** ** File lock manager (class [FileSimulator]) *)

Module FileSimulator.

Abbreviation waiter := (Z * string * Z)%type.              (* (pid, op, duration) *)
Abbreviation log_entry := (Z * Z * string * string * string)%type.

Record t : Type := mk {
  locks : list (string * (Z * Z));     (* filename -> (pid, release), ordered *)
  waiting : gmap string (list waiter); (* defaultdict(deque) *)
  conflicts : Z;
  log : list log_entry;
}.

Definition init : t :=
  {| locks := []; waiting := ∅; conflicts := 0; log := [] |}.

(** The queue read through the [defaultdict]: empty when there is no entry. *)
Definition queue (w : gmap string (list waiter)) (f : string) : list waiter :=
  default [] (w !! f).

Definition request (s : t) (pid : Z) (filename op : string) (tick duration : Z)
  : (bool * option Z) * t :=
  match OrdDict.get filename (locks s) with
  | None =>
      ((true, Some (tick + duration)),
       {| locks := OrdDict.set filename (pid, tick + duration) (locks s);
          waiting := waiting s;
          conflicts := conflicts s;
          log := log s ++ [(tick, pid, filename, op, "granted")] |})
  | Some _ =>
      ((false, None),
       {| locks := locks s;
          waiting :=
            <[filename := queue (waiting s) filename ++ [(pid, op, duration)]]>
              (waiting s);
          conflicts := conflicts s + 1;
          log := log s ++ [(tick, pid, filename, op, "queued")] |})
  end.

(** One turn of the loop of [release_expired] over [to_release]. *)
Definition release_one (tick : Z) (s : t) (fname : string) : t :=
  let locks1 := OrdDict.remove fname (locks s) in
  (* reading [self.waiting[fname]] creates the entry when it is missing *)
  let q := queue (waiting s) fname in
  match q with
  | [] =>
      {| locks := locks1;
         waiting := <[fname := []]> (waiting s);
         conflicts := conflicts s;
         log := log s |}
  | (pid, op, duration) :: q' =>
      {| locks := OrdDict.set fname (pid, tick + duration) locks1;
         waiting := <[fname := q']> (waiting s);
         conflicts := conflicts s;
         log := log s ++ [(tick, pid, fname, op, "granted_from_queue")] |}
  end.

Definition to_release (tick : Z) (locks : list (string * (Z * Z)))
  : list string :=
  (filter (fun e : string * (Z * Z) => e.2.2 <= tick) locks).*1.

Definition release_expired (s : t) (tick : Z) : t :=
  foldl (release_one tick) s (to_release tick (locks s)).

(** [stats()] *)
Record stats_t : Type := mk_stats {
  stats_conflicts : Z;
  stats_locks : list (string * (Z * Z));
  stats_waiting : gmap string Z;
}.

Definition stats (s : t) : stats_t :=
  {| stats_conflicts := conflicts s;
     stats_locks := locks s;
     stats_waiting := (fun q : list waiter => Z.of_nat (length q)) <$> waiting s |}.

(** The log line written when the lock of [fname] passes to the head of
    its queue [q] (none when the queue is empty). *)
Definition handover_log (tick : Z) (fname : string) (q : list waiter)
  : list log_entry :=
  match q with
  | [] => []
  | (pid, op, _) :: _ => [(tick, pid, fname, op, "granted_from_queue")]
  end.

End FileSimulator.

(** ** Processes (dataclasses [IOOperation] and [Process]) *)

Module IOOperation.

Record t : Type := mk {
  time : Z;
  filename : string;
  op : string;              (* "r" or "w" *)
  duration : Z;
}.

#[global] Instance eq_dec : EqDecision t.
Proof. solve_decision. Defined.

End IOOperation.

Module Process.

Record t : Type := mk {
  pid : Z;
  arrival : Z;
  total_cpu : Z;
  priority : Z;
  pages : Z;
  io_ops : list IOOperation.t;
  remaining : Z;
  start_time : option Z;
  finish_time : option Z;
  waiting_time : Z;
  last_run_tick : option Z;
  page_table : list (Z * bool);
}.

#[global] Instance eq_dec : EqDecision t.
Proof. solve_decision. Defined.

(** The generated [__init__] followed by [__post_init__]. *)
Definition make (pid arrival total_cpu priority pages : Z)
  (io_ops : list IOOperation.t) : t :=
  {| pid := pid; arrival := arrival; total_cpu := total_cpu;
     priority := priority; pages := pages; io_ops := io_ops;
     remaining := total_cpu;
     start_time := None; finish_time := None;
     waiting_time := 0; last_run_tick := None;
     page_table := (fun i => (i, false)) <$> seqZ 0 pages |}.

#[global] Instance inhabited : Inhabited t := populate (make 0 0 0 0 0 []).

Definition set_remaining (v : Z) (p : t) : t :=
  {| pid := pid p; arrival := arrival p; total_cpu := total_cpu p;
     priority := priority p; pages := pages p; io_ops := io_ops p;
     remaining := v;
     start_time := start_time p; finish_time := finish_time p;
     waiting_time := waiting_time p; last_run_tick := last_run_tick p;
     page_table := page_table p |}.

Definition set_start_time (v : option Z) (p : t) : t :=
  {| pid := pid p; arrival := arrival p; total_cpu := total_cpu p;
     priority := priority p; pages := pages p; io_ops := io_ops p;
     remaining := remaining p;
     start_time := v; finish_time := finish_time p;
     waiting_time := waiting_time p; last_run_tick := last_run_tick p;
     page_table := page_table p |}.

Definition set_finish_time (v : option Z) (p : t) : t :=
  {| pid := pid p; arrival := arrival p; total_cpu := total_cpu p;
     priority := priority p; pages := pages p; io_ops := io_ops p;
     remaining := remaining p;
     start_time := start_time p; finish_time := v;
     waiting_time := waiting_time p; last_run_tick := last_run_tick p;
     page_table := page_table p |}.

Definition set_waiting_time (v : Z) (p : t) : t :=
  {| pid := pid p; arrival := arrival p; total_cpu := total_cpu p;
     priority := priority p; pages := pages p; io_ops := io_ops p;
     remaining := remaining p;
     start_time := start_time p; finish_time := finish_time p;
     waiting_time := v; last_run_tick := last_run_tick p;
     page_table := page_table p |}.

End Process.

(** A reference to a [Process] object: its index in the object store. *)
Abbreviation ref := nat.
Abbreviation store := (list Process.t).

(** The object behind a reference. *)
Definition deref (st : store) (r : ref) : Process.t := st !!! r.

(** In-place update of the object behind a reference. *)
Definition update (st : store) (r : ref) (f : Process.t -> Process.t) : store :=
  alter f r st.

(** ** The standard module [heapq] on lists of
    [(key, arrival, pid, proc)] tuples *)

Module heapq.

Abbreviation entry := (Z * Z * Z * ref)%type.

(** [a < b] on the tuples: the first component that differs decides.  The
    fourth components are [Process] objects, which are equal when they are
    the same object or have equal fields, and which have no order: asking
    for it raises [TypeError]. *)
Definition entry_lt (st : store) (a b : entry) : result bool :=
  let '(k1, a1, p1, r1) := a in
  let '(k2, a2, p2, r2) := b in
  if negb (k1 =? k2) then Ok (k1 <? k2)
  else if negb (a1 =? a2) then Ok (a1 <? a2)
  else if negb (p1 =? p2) then Ok (p1 <? p2)
  else if bool_decide (r1 = r2) || bool_decide (deref st r1 = deref st r2)
       then Ok false
  else Raise TypeError.

(** The loop of [_siftdown(heap, startpos, pos)]; [newitem] is written
    back where the loop stops. *)
Fixpoint siftdown_loop (fuel : nat) (st : store) (heap : list entry)
  (startpos pos : nat) (newitem : entry) : result (list entry) :=
  match fuel with
  | O => Ok (<[pos := newitem]> heap)
  | S fuel' =>
      if decide (startpos < pos)%nat then
        let parentpos := ((pos - 1) / 2)%nat in
        match heap !! parentpos with
        | None => Raise IndexError
        | Some parent =>
            let* lt := entry_lt st newitem parent in
            if (lt : bool) then
              siftdown_loop fuel' st (<[pos := parent]> heap)
                startpos parentpos newitem
            else Ok (<[pos := newitem]> heap)
        end
      else Ok (<[pos := newitem]> heap)
  end.

Definition siftdown (st : store) (heap : list entry) (startpos pos : nat)
  : result (list entry) :=
  match heap !! pos with
  | None => Raise IndexError
  | Some newitem => siftdown_loop (S pos) st heap startpos pos newitem
  end.

(** The loop of [_siftup(heap, pos)]: the smaller child moves up until a
    leaf is reached; returns the heap and the leaf position. *)
Fixpoint siftup_loop (fuel : nat) (st : store) (heap : list entry)
  (pos : nat) : result (list entry * nat) :=
  match fuel with
  | O => Ok (heap, pos)
  | S fuel' =>
      let endpos := length heap in
      let childpos := (2 * pos + 1)%nat in
      if decide (childpos < endpos)%nat then
        let rightpos := (childpos + 1)%nat in
        let* childpos' :=
          match heap !! childpos, heap !! rightpos with
          | Some c, Some r =>
              let* lt := entry_lt st c r in
              Ok (if (lt : bool) then childpos else rightpos)
          | _, _ => Ok childpos
          end in
        match heap !! childpos' with
        | None => Raise IndexError
        | Some c =>
            siftup_loop fuel' st (<[pos := c]> heap) childpos'
        end
      else Ok (heap, pos)
  end.

Definition siftup (st : store) (heap : list entry) (pos : nat)
  : result (list entry) :=
  match heap !! pos with
  | None => Raise IndexError
  | Some newitem =>
      let* hp := siftup_loop (length heap) st heap pos in
      let heap1 := <[hp.2 := newitem]> hp.1 in
      siftdown st heap1 pos hp.2
  end.

Definition heappush (st : store) (heap : list entry) (item : entry)
  : result (list entry) :=
  let heap1 := heap ++ [item] in
  siftdown st heap1 0 (length heap1 - 1).

Definition heappop (st : store) (heap : list entry)
  : result (entry * list entry) :=
  match last heap with
  | None => Raise IndexError
  | Some lastelt =>
      let heap1 := removelast heap in
      match heap1 with
      | [] => Ok (lastelt, heap1)
      | returnitem :: _ =>
          let* heap2 := siftup st (<[0%nat := lastelt]> heap1) 0 in
          Ok (returnitem, heap2)
      end
  end.

End heapq.

(** ** Schedulers *)

Module RoundRobinScheduler.

Record t : Type := mk {
  quantum : Z;
  queue : list ref;
  current_quantum_left : gmap Z Z;
  running : option ref;
  last_run_pid : option Z;
  pid_to_quantum : gmap Z Z;
}.

Definition init (quantum : Z) : t :=
  {| quantum := quantum; queue := []; current_quantum_left := ∅;
     running := None; last_run_pid := None; pid_to_quantum := ∅ |}.

Definition with_queue (q : list ref) (s : t) : t :=
  {| quantum := quantum s; queue := q;
     current_quantum_left := current_quantum_left s;
     running := running s; last_run_pid := last_run_pid s;
     pid_to_quantum := pid_to_quantum s |}.

Definition add_process (s : t) (proc : ref) : t :=
  with_queue (queue s ++ [proc]) s.

Definition tick (s : t) (current_tick : Z) : option ref * t :=
  match queue s with
  | [] => (None, s)
  | proc :: q => (Some proc, with_queue q s)
  end.

Definition has_ready (s : t) : bool :=
  (0 <? length (queue s))%nat.

End RoundRobinScheduler.

Module SJFScheduler.

Record t : Type := mk {
  preemptive : bool;
  heap : list heapq.entry;
}.

Definition init (preemptive : bool) : t :=
  {| preemptive := preemptive; heap := [] |}.

Definition add_process (s : t) (st : store) (proc : ref) : result t :=
  let p := deref st proc in
  let* h := heapq.heappush st (heap s)
              (Process.remaining p, Process.arrival p, Process.pid p, proc) in
  Ok {| preemptive := preemptive s; heap := h |}.

Definition tick (s : t) (st : store) (current_tick : Z)
  : result (option ref * t) :=
  match heap s with
  | [] => Ok (None, s)
  | _ :: _ =>
      let* eh := heapq.heappop st (heap s) in
      Ok (Some eh.1.2, {| preemptive := preemptive s; heap := eh.2 |})
  end.

Definition has_ready (s : t) : bool :=
  (0 <? length (heap s))%nat.

(** The calls a client can make, and what each returns. *)
Inductive call : Type :=
| AddProcess (proc : ref)
| Tick (current_tick : Z)
| HasReady.

Inductive answer : Type :=
| Added
| Dispatched (proc : option ref)
| Ready (b : bool).

Definition do_call (st : store) (s : t) (c : call) : result (answer * t) :=
  match c with
  | AddProcess proc =>
      let* s' := add_process s st proc in Ok (Added, s')
  | Tick current_tick =>
      let* r := tick s st current_tick in Ok (Dispatched r.1, r.2)
  | HasReady => Ok (Ready (has_ready s), s)
  end.

(** A sequence of calls, up to the first that raises.  The object store
    may change between calls (the engine updates the processes), so each
    call comes with the store it sees.  Returns what the calls returned
    and the scheduler left behind, or the exception. *)
Fixpoint do_calls (s : t) (cs : list (store * call))
  : result (list answer * t) :=
  match cs with
  | [] => Ok ([], s)
  | (st, c) :: cs' =>
      let* r := do_call st s c in
      let* rest := do_calls r.2 cs' in
      Ok (r.1 :: rest.1, rest.2)
  end.

End SJFScheduler.

Module PriorityScheduler.

Record t : Type := mk {
  higher_value : bool;
  heap : list heapq.entry;
}.

Definition init (higher_value_higher_priority : bool) : t :=
  {| higher_value := higher_value_higher_priority; heap := [] |}.

Definition add_process (s : t) (st : store) (proc : ref) : result t :=
  let p := deref st proc in
  let key := if higher_value s then - Process.priority p
             else Process.priority p in
  let* h := heapq.heappush st (heap s)
              (key, Process.arrival p, Process.pid p, proc) in
  Ok {| higher_value := higher_value s; heap := h |}.

Definition tick (s : t) (st : store) (current_tick : Z)
  : result (option ref * t) :=
  match heap s with
  | [] => Ok (None, s)
  | _ :: _ =>
      let* eh := heapq.heappop st (heap s) in
      Ok (Some eh.1.2, {| higher_value := higher_value s; heap := eh.2 |})
  end.

Definition has_ready (s : t) : bool :=
  (0 <? length (heap s))%nat.

End PriorityScheduler.

(** The scheduler of a simulation: one of the three classes. *)
Module Scheduler.

Inductive t : Type :=
| RR (s : RoundRobinScheduler.t)
| SJF (s : SJFScheduler.t)
| Prio (s : PriorityScheduler.t).

Definition add_process (s : t) (st : store) (proc : ref) : result t :=
  match s with
  | RR s => Ok (RR (RoundRobinScheduler.add_process s proc))
  | SJF s => let* s' := SJFScheduler.add_process s st proc in Ok (SJF s')
  | Prio s => let* s' := PriorityScheduler.add_process s st proc in Ok (Prio s')
  end.

Definition tick (s : t) (st : store) (current_tick : Z)
  : result (option ref * t) :=
  match s with
  | RR s =>
      let r := RoundRobinScheduler.tick s current_tick in Ok (r.1, RR r.2)
  | SJF s =>
      let* r := SJFScheduler.tick s st current_tick in Ok (r.1, SJF r.2)
  | Prio s =>
      let* r := PriorityScheduler.tick s st current_tick in Ok (r.1, Prio r.2)
  end.

Definition has_ready (s : t) : bool :=
  match s with
  | RR s => RoundRobinScheduler.has_ready s
  | SJF s => SJFScheduler.has_ready s
  | Prio s => PriorityScheduler.has_ready s
  end.

(** [isinstance(s, RoundRobinScheduler)] *)
Definition is_round_robin (s : t) : bool :=
  match s with RR _ => true | _ => false end.

End Scheduler.

(** ** The engine (class [Simulator]) *)

Module Simulator.

(** [self]: the fields of the [Simulator] object; [metrics] is the pair of
    counters [cpu_busy_ticks] and [total_ticks]. *)
Record t : Type := mk {
  scheduler : Scheduler.t;
  mem : MemoryManager.t;
  fs : FileSimulator.t;
  quantum : Z;
  time : Z;
  all_processes : gmap Z ref;
  ready_list : list ref;
  finished : list ref;
  cpu_busy_ticks : Z;
  total_ticks : Z;
}.

Definition init (scheduler : Scheduler.t) (mem_manager : MemoryManager.t)
  (fs : FileSimulator.t) (quantum : Z) : t :=
  {| scheduler := scheduler; mem := mem_manager; fs := fs;
     quantum := quantum; time := 0;
     all_processes := ∅; ready_list := []; finished := [];
     cpu_busy_ticks := 0; total_ticks := 0 |}.

Definition with_scheduler (v : Scheduler.t) (s : t) : t :=
  mk v (mem s) (fs s) (quantum s) (time s) (all_processes s) (ready_list s)
     (finished s) (cpu_busy_ticks s) (total_ticks s).
Definition with_mem (v : MemoryManager.t) (s : t) : t :=
  mk (scheduler s) v (fs s) (quantum s) (time s) (all_processes s)
     (ready_list s) (finished s) (cpu_busy_ticks s) (total_ticks s).
Definition with_fs (v : FileSimulator.t) (s : t) : t :=
  mk (scheduler s) (mem s) v (quantum s) (time s) (all_processes s)
     (ready_list s) (finished s) (cpu_busy_ticks s) (total_ticks s).
Definition with_time (v : Z) (s : t) : t :=
  mk (scheduler s) (mem s) (fs s) (quantum s) v (all_processes s)
     (ready_list s) (finished s) (cpu_busy_ticks s) (total_ticks s).
Definition with_ready_list (v : list ref) (s : t) : t :=
  mk (scheduler s) (mem s) (fs s) (quantum s) (time s) (all_processes s)
     v (finished s) (cpu_busy_ticks s) (total_ticks s).
Definition with_finished (v : list ref) (s : t) : t :=
  mk (scheduler s) (mem s) (fs s) (quantum s) (time s) (all_processes s)
     (ready_list s) v (cpu_busy_ticks s) (total_ticks s).
Definition with_cpu_busy_ticks (v : Z) (s : t) : t :=
  mk (scheduler s) (mem s) (fs s) (quantum s) (time s) (all_processes s)
     (ready_list s) (finished s) v (total_ticks s).
Definition with_total_ticks (v : Z) (s : t) : t :=
  mk (scheduler s) (mem s) (fs s) (quantum s) (time s) (all_processes s)
     (ready_list s) (finished s) (cpu_busy_ticks s) v.

(** [add_process(proc)] *)
Definition add_process (s : t) (st : store) (proc : ref) : t :=
  mk (scheduler s) (mem s) (fs s) (quantum s) (time s)
     (<[Process.pid (deref st proc) := proc]> (all_processes s))
     (ready_list s ++ [proc]) (finished s)
     (cpu_busy_ticks s) (total_ticks s).

(** The state of [run] at the head of its [while] loop: [self], the
    [Process] objects, the local variables, and the number of draws made
    from the random generator. *)
Record loop_state : Type := mk_loop {
  self : t;
  procs : store;
  pending : list ref;
  running_proc : option ref;
  rr_quantum_left : Z;
  draws : nat;
}.

Definition with_self (v : t) (l : loop_state) : loop_state :=
  mk_loop v (procs l) (pending l) (running_proc l) (rr_quantum_left l)
          (draws l).
Definition with_procs (v : store) (l : loop_state) : loop_state :=
  mk_loop (self l) v (pending l) (running_proc l) (rr_quantum_left l)
          (draws l).
Definition with_pending (v : list ref) (l : loop_state) : loop_state :=
  mk_loop (self l) (procs l) v (running_proc l) (rr_quantum_left l) (draws l).
Definition with_running_proc (v : option ref) (l : loop_state) : loop_state :=
  mk_loop (self l) (procs l) (pending l) v (rr_quantum_left l) (draws l).
Definition with_rr_quantum_left (v : Z) (l : loop_state) : loop_state :=
  mk_loop (self l) (procs l) (pending l) (running_proc l) v (draws l).
Definition with_draws (v : nat) (l : loop_state) : loop_state :=
  mk_loop (self l) (procs l) (pending l) (running_proc l)
          (rr_quantum_left l) v.

(** [list.sort(key=lambda p: p.arrival)]: stable. *)
Fixpoint insert_by_arrival (st : store) (r : ref) (l : list ref) : list ref :=
  match l with
  | [] => [r]
  | x :: l' =>
      if Process.arrival (deref st r) <=? Process.arrival (deref st x)
      then r :: x :: l'
      else x :: insert_by_arrival st r l'
  end.

Definition sort_by_arrival (st : store) (l : list ref) : list ref :=
  foldr (insert_by_arrival st) [] l.

(** [while pending and pending[0].arrival <= self.time: ...] *)
Fixpoint bring_arrivals (st : store) (now : Z) (sched : Scheduler.t)
  (pending : list ref) : result (Scheduler.t * list ref) :=
  match pending with
  | [] => Ok (sched, [])
  | p :: pending' =>
      if Process.arrival (deref st p) <=? now then
        let* sched' := Scheduler.add_process sched st p in
        bring_arrivals st now sched' pending'
      else Ok (sched, pending)
  end.

(** [[io for io in proc.io_ops if io.time == self.time]] *)
Definition io_now (p : Process.t) (now : Z) : list IOOperation.t :=
  filter (fun io => IOOperation.time io = now) (Process.io_ops p).

(** The [for io in io_now] loop.  The boolean tells whether the loop ended
    on a denied request (the process was put back and [proc] is [None]). *)
Fixpoint io_loop (proc : ref) (ios : list IOOperation.t) (l : loop_state)
  : result (bool * loop_state) :=
  match ios with
  | [] => Ok (false, l)
  | io :: ios' =>
      let s := self l in
      let p := deref (procs l) proc in
      let r := FileSimulator.request (fs s) (Process.pid p)
                 (IOOperation.filename io) (IOOperation.op io) (time s)
                 (IOOperation.duration io) in
      let s1 := with_fs r.2 s in
      if r.1.1 then
        let procs1 :=
          update (procs l) proc
            (fun p => Process.set_remaining
                        (Process.remaining p - IOOperation.duration io) p) in
        let s2 := with_time (time s1 + IOOperation.duration io) s1 in
        io_loop proc ios' (with_procs procs1 (with_self s2 l))
      else
        let procs1 :=
          update (procs l) proc
            (fun p => Process.set_waiting_time (Process.waiting_time p + 1) p) in
        let* sched' := Scheduler.add_process (scheduler s1) procs1 proc in
        Ok (true,
            with_running_proc None
              (with_procs procs1 (with_self (with_scheduler sched' s1) l)))
  end.

Section Engine.

(** The random generator: the [n]-th draw of [random.randrange(0, pages)]
    is [rng n mod pages]. *)
Variable rng : nat -> Z.

Definition randrange (n : nat) (start stop : Z) : result Z :=
  if stop <=? start then Raise ValueError
  else Ok (start + rng n mod (stop - start)).

(** First part of the loop body: bring_arrivals the arrivals, release the expired
    locks, and pick the process of this tick. *)
Definition dispatch (l : loop_state) : result (option ref * loop_state) :=
  let s := self l in
  let* ap := bring_arrivals (procs l) (time s) (scheduler s) (pending l) in
  let fs1 := FileSimulator.release_expired (fs s) (time s) in
  let s1 := with_fs fs1 (with_scheduler ap.1 s) in
  let l1 := with_pending ap.2 (with_self s1 l) in
  match running_proc l1 with
  | None =>
      let* ps := Scheduler.tick (scheduler s1) (procs l1) (time s1) in
      match ps.1 with
      | Some proc =>
          let procs1 :=
            match Process.start_time (deref (procs l1) proc) with
            | None =>
                update (procs l1) proc (Process.set_start_time (Some (time s1)))
            | Some _ => procs l1
            end in
          Ok (Some proc,
              with_rr_quantum_left (quantum s1)
                (with_running_proc (Some proc)
                   (with_procs procs1
                      (with_self (with_scheduler ps.2 s1) l1))))
      | None => Ok (None, with_self (with_scheduler ps.2 s1) l1)
      end
  | Some proc => Ok (Some proc, l1)
  end.

(** One tick of CPU for [proc], then the completion check and the
    round-robin quantum. *)
Definition cpu_tick (proc : ref) (l : loop_state) : result loop_state :=
  let procs1 :=
    update (procs l) proc
      (fun p => Process.set_remaining (Process.remaining p - 1) p) in
  let s := self l in
  let s1 :=
    with_time (time s + 1)
      (with_total_ticks (total_ticks s + 1)
         (with_cpu_busy_ticks (cpu_busy_ticks s + 1) s)) in
  if Process.remaining (deref procs1 proc) <=? 0 then
    let procs2 := update procs1 proc (Process.set_finish_time (Some (time s1))) in
    Ok (with_running_proc None
          (with_procs procs2
             (with_self (with_finished (finished s1 ++ [proc]) s1) l)))
  else
    let q := rr_quantum_left l - 1 in
    let l1 := with_rr_quantum_left q (with_procs procs1 (with_self s1 l)) in
    if Scheduler.is_round_robin (scheduler s1) then
      if q <=? 0 then
        let* sched' := Scheduler.add_process (scheduler s1) procs1 proc in
        Ok (with_running_proc None
              (with_self (with_scheduler sched' s1) l1))
      else Ok l1
    else Ok l1.

(** Second part of the loop body, for the process of this tick. *)
Definition execute (proc : option ref) (l : loop_state) : result loop_state :=
  let s := self l in
  match proc with
  | Some proc =>
      let p := deref (procs l) proc in
      let* page := randrange (draws l) 0 (Process.pages p) in
      let l0 := with_draws (S (draws l)) l in
      let* pm := MemoryManager.access_page (mem s) (Process.pid p) page (time s) in
      let s1 := with_mem pm.2 s in
      if negb pm.1 then
        Ok (with_self
              (with_total_ticks (total_ticks s1 + 1)
                 (with_time (time s1 + 1) s1)) l0)
      else
        let* bl := io_loop proc (io_now p (time s1)) (with_self s1 l0) in
        if (bl.1 : bool) then Ok bl.2
        else cpu_tick proc bl.2
  | None =>
      Ok (with_self
            (with_total_ticks (total_ticks s + 1) (with_time (time s + 1) s)) l)
  end.

(** The body of the [while] loop. *)
Definition step (l : loop_state) : result loop_state :=
  let* pl := dispatch l in
  execute pl.1 pl.2.

(** The condition of the [while] loop. *)
Definition loop_cond (max_ticks : Z) (l : loop_state) : bool :=
  (time (self l) <? max_ticks)
  && (match pending l with [] => false | _ => true end
      || Scheduler.has_ready (scheduler (self l))
      || match running_proc l with Some _ => true | None => false end).

(** [n] turns of the loop body, whatever the condition. *)
Fixpoint iterate (n : nat) (l : loop_state) : result loop_state :=
  match n with
  | O => Ok l
  | S n' => let* l' := step l in iterate n' l'
  end.

(** The [while] loop, cut after [fuel] turns: [None] when the loop is
    still running then. *)
Fixpoint loop (fuel : nat) (max_ticks : Z) (l : loop_state)
  : result (option loop_state) :=
  if loop_cond max_ticks l then
    match fuel with
    | O => Ok None
    | S fuel' => let* l' := step l in loop fuel' max_ticks l'
    end
  else Ok (Some l).

(** The state in which [run] enters its loop. *)
Definition start (s : t) (st : store) : loop_state :=
  let sorted := sort_by_arrival st (ready_list s) in
  {| self := with_ready_list sorted s;
     procs := st;
     pending := sorted;
     running_proc := None;
     rr_quantum_left := quantum s;
     draws := 0 |}.

(** The states of the loop of a run. *)
Definition reachable (s : t) (st : store) (l : loop_state) : Prop :=
  exists n, iterate n (start s st) = Ok l.

(** *** Metrics *)

(** Python's [/] on integers gives a float: the quotient rounded to the
    nearest double, and an [OverflowError] (integer division result too
    large for a float) when that double would not be finite.  The largest
    double is [2^1024 - 2^971], and a quotient rounds to a finite double
    when its magnitude is below [2^1024 - 2^970], half a unit in the last
    place above the largest double. *)
Definition float_limit : Z := 2 ^ 1024 - 2 ^ 970.

Definition float_overflow (a b : Z) : bool :=
  float_limit * Z.abs b <=? Z.abs a.

(** The floating-point type and its two operations are parameters:
    [fdiv a b] is the double that [a / b] evaluates to when [b] is not zero
    and the quotient is in range, [fmul x k] is [x * k] (a product of
    floats does not raise: out of range it is an infinity). *)
Context {F : Type}.
Variable fdiv : Z -> Z -> F.
Variable fmul : F -> Z -> F.

Definition truediv (a b : Z) : result F :=
  if b =? 0 then Raise ZeroDivisionError
  else if float_overflow a b then Raise OverflowError
  else Ok (fdiv a b).

(** A value that is an [int] or a [float]. *)
Inductive number : Type :=
| Int (z : Z)
| Float (x : F).

Record metrics : Type := mk_metrics {
  finished_count : Z;
  avg_waiting_time : number;
  avg_turnaround_time : number;
  cpu_utilization_percent : F;
  page_faults : gmap Z Z;
  mem_frames : list (Z * Z * Z);
  file_conflicts : Z;
  time_elapsed : Z;
}.

(** [p.finish_time - p.arrival if p.finish_time is not None else 0] *)
Definition turnaround_of (p : Process.t) : Z :=
  match Process.finish_time p with
  | Some ft => ft - Process.arrival p
  | None => 0
  end.

(** [waiting if waiting >= 0 else 0] *)
Definition waiting_of (p : Process.t) : Z :=
  let waiting := turnaround_of p - Process.total_cpu p in
  if 0 <=? waiting then waiting else 0.

(** The [for p in self.finished] loop of [compute_metrics]. *)
Fixpoint metrics_loop (fin : list ref) (st : store)
  (total_wait total_turnaround : Z) : store * Z * Z :=
  match fin with
  | [] => (st, total_wait, total_turnaround)
  | p :: fin' =>
      let turnaround := turnaround_of (deref st p) in
      let st1 :=
        update st p (Process.set_waiting_time (waiting_of (deref st p))) in
      metrics_loop fin' st1
        (total_wait + Process.waiting_time (deref st1 p))
        (total_turnaround + turnaround)
  end.

Definition compute_metrics (s : t) (st : store) : result (metrics * store) :=
  let n := Z.of_nat (length (finished s)) in
  let '(st', total_wait, total_turnaround) :=
    metrics_loop (finished s) st 0 0 in
  let* avg_wait :=
    if n =? 0 then Ok (Int 0)
    else let* x := truediv total_wait n in Ok (Float x) in
  let* avg_turnaround :=
    if n =? 0 then Ok (Int 0)
    else let* x := truediv total_turnaround n in Ok (Float x) in
  let* u := truediv (cpu_busy_ticks s) (Z.max 1 (total_ticks s)) in
  let cpu_util := fmul u 100 in
  let mem_stats := MemoryManager.stats (mem s) in
  let fs_stats := FileSimulator.stats (fs s) in
  Ok ({| finished_count := n;
         avg_waiting_time := avg_wait;
         avg_turnaround_time := avg_turnaround;
         cpu_utilization_percent := cpu_util;
         page_faults := MemoryManager.stats_page_faults mem_stats;
         mem_frames := MemoryManager.stats_frames mem_stats;
         file_conflicts := FileSimulator.stats_conflicts fs_stats;
         time_elapsed := time s |}, st').

(** [run(max_ticks)], with the loop cut after [fuel] turns. *)
Definition run (fuel : nat) (max_ticks : Z) (s : t) (st : store)
  : result (option (metrics * loop_state)) :=
  let* ol := loop fuel max_ticks (start s st) in
  match ol with
  | None => Ok None
  | Some l =>
      let* ms := compute_metrics (self l) (procs l) in
      Ok (Some (ms.1, with_procs ms.2 l))
  end.

End Engine.

Arguments Int {F} z.
Arguments Float {F} x.

(** A simulator as its constructor and [add_process] leave it. *)
Definition configured (s : t) (st : store) : Prop :=
  exists sched mm fs q refs,
    s = foldl (fun s r => add_process s st r) (init sched mm fs q) refs.

End Simulator.

(** Exact rational arithmetic, to evaluate the metrics of concrete runs. *)
Definition Qdiv_int (a b : Z) : Q := Qred (inject_Z a / inject_Z b)%Q.
Definition Qmul_int (x : Q) (k : Z) : Q := Qred (x * inject_Z k)%Q.

(** ** Notions used to state the properties of the engine *)

Module EngineSpec.
Import Simulator.

(** The events of [ios] whose lock request is granted when a process
    [pid] asks for them in order from the clock [now]: the loop stops at
    the first denial, and each grant moves the clock by the duration. *)
Fixpoint granted_ios (fs : FileSimulator.t) (pid now : Z)
  (ios : list IOOperation.t) : list IOOperation.t :=
  match ios with
  | [] => []
  | io :: ios' =>
      let r := FileSimulator.request fs pid (IOOperation.filename io)
                 (IOOperation.op io) now (IOOperation.duration io) in
      if r.1.1 then
        io :: granted_ios r.2 pid (now + IOOperation.duration io) ios'
      else []
  end.

(** The first event of [ios] whose request is denied, if any. *)
Fixpoint denied_io (fs : FileSimulator.t) (pid now : Z)
  (ios : list IOOperation.t) : option IOOperation.t :=
  match ios with
  | [] => None
  | io :: ios' =>
      let r := FileSimulator.request fs pid (IOOperation.filename io)
                 (IOOperation.op io) now (IOOperation.duration io) in
      if r.1.1 then denied_io r.2 pid (now + IOOperation.duration io) ios'
      else Some io
  end.

(** The sum of [f x] over the list. *)
Definition sumZ {A} (f : A -> Z) (xs : list A) : Z :=
  foldr (fun x acc => f x + acc) 0 xs.

Definition sum_durations (ios : list IOOperation.t) : Z :=
  foldr (fun io acc => IOOperation.duration io + acc) 0 ios.

(** Every scheduled I/O event of every process lasts a non-negative time. *)
Definition durations_nonneg (st : store) : Prop :=
  Forall (fun p => Forall (fun io => 0 <= IOOperation.duration io)
                          (Process.io_ops p)) st.

(** By how much the clock is ahead of the count of ticks. *)
Definition slack (l : loop_state) : Z :=
  time (self l) - total_ticks (self l).

(** [p'] is [p] after the engine has worked on it: the fields given at
    construction are the same. *)
Definition same_job (p p' : Process.t) : Prop :=
  Process.pid p' = Process.pid p /\
  Process.arrival p' = Process.arrival p /\
  Process.total_cpu p' = Process.total_cpu p /\
  Process.pages p' = Process.pages p /\
  Process.io_ops p' = Process.io_ops p.

(** The store [st'] holds the objects of [st] after engine work. *)
Definition same_jobs (st st' : store) : Prop :=
  length st' = length st /\ forall r, same_job (deref st r) (deref st' r).

(** The "granted" log lines of the events [ios] requested in order from
    the clock [now]. *)
Fixpoint granted_log (pid now : Z) (ios : list IOOperation.t)
  : list FileSimulator.log_entry :=
  match ios with
  | [] => []
  | io :: ios' =>
      (now, pid, IOOperation.filename io, IOOperation.op io, "granted")
      :: granted_log pid (now + IOOperation.duration io) ios'
  end.

(** The "queued" log line of a denied event. *)
Definition queued_log (pid now : Z) (io : option IOOperation.t)
  : list FileSimulator.log_entry :=
  match io with
  | Some io =>
      [(now, pid, IOOperation.filename io, IOOperation.op io, "queued")]
  | None => []
  end.

(** The file [f] stays locked while the clock is [T]: it is locked, and
    either its release tick is later than [T] or a waiter of positive
    duration is in its queue (every release at [T] hands the lock on). *)
Definition held_at (T : Z) (f : string) (fs : FileSimulator.t) : Prop :=
  exists p r, OrdDict.get f (FileSimulator.locks fs) = Some (p, r) /\
    (T < r \/
     exists w, w ∈ FileSimulator.queue (FileSimulator.waiting fs) f /\ 0 < w.2).

(** The clock has passed [T], or it is [T] and the file [f] is held. *)
Definition past_or_held (T : Z) (f : string) (l : loop_state) : Prop :=
  T < time (self l) \/ (time (self l) = T /\ held_at T f (fs (self l))).

(** The ways one turn of the loop body can go once the process of the
    tick is known: an idle tick, a page fault, a denied lock request, or a
    tick of CPU. *)
Section Cases.
Variable rng : nat -> Z.

Inductive execute_case (l1 l' : loop_state) : option ref -> Prop :=
| exec_idle :
    l' = with_self
           (with_total_ticks (total_ticks (self l1) + 1)
              (with_time (time (self l1) + 1) (self l1))) l1 ->
    execute_case l1 l' None
| exec_fault proc page m' :
    randrange rng (draws l1) 0 (Process.pages (deref (procs l1) proc)) = Ok page ->
    MemoryManager.access_page (mem (self l1))
      (Process.pid (deref (procs l1) proc)) page (time (self l1))
      = Ok (false, m') ->
    l' = with_self
           (with_total_ticks (total_ticks (self l1) + 1)
              (with_time (time (self l1) + 1) (with_mem m' (self l1))))
           (with_draws (S (draws l1)) l1) ->
    execute_case l1 l' (Some proc)
| exec_blocked proc page m' :
    randrange rng (draws l1) 0 (Process.pages (deref (procs l1) proc)) = Ok page ->
    MemoryManager.access_page (mem (self l1))
      (Process.pid (deref (procs l1) proc)) page (time (self l1))
      = Ok (true, m') ->
    io_loop proc (io_now (deref (procs l1) proc) (time (self l1)))
      (with_self (with_mem m' (self l1)) (with_draws (S (draws l1)) l1))
      = Ok (true, l') ->
    execute_case l1 l' (Some proc)
| exec_cpu proc page m' l2 :
    randrange rng (draws l1) 0 (Process.pages (deref (procs l1) proc)) = Ok page ->
    MemoryManager.access_page (mem (self l1))
      (Process.pid (deref (procs l1) proc)) page (time (self l1))
      = Ok (true, m') ->
    io_loop proc (io_now (deref (procs l1) proc) (time (self l1)))
      (with_self (with_mem m' (self l1)) (with_draws (S (draws l1)) l1))
      = Ok (false, l2) ->
    cpu_tick proc l2 = Ok l' ->
    execute_case l1 l' (Some proc).

(** The memory access of the tick of process [proc]. *)
Definition access_now (proc : ref) (l1 : loop_state)
  : result (bool * MemoryManager.t) :=
  let p := deref (procs l1) proc in
  let* page := randrange rng (draws l1) 0 (Process.pages p) in
  MemoryManager.access_page (mem (self l1)) (Process.pid p) page (time (self l1)).

(** The lock requests of one turn of the loop body.  [requests_now po l1]
    is what the second part asks for the process [po] of the tick: nothing
    on an idle tick or a page fault, otherwise the events of [io_now] in
    order, granted ones first, up to the first denial. *)
Definition requests_now (po : option ref) (l1 : loop_state)
  : list IOOperation.t * option IOOperation.t :=
  match po with
  | None => ([], None)
  | Some proc =>
      let p := deref (procs l1) proc in
      match access_now proc l1 with
      | Ok (true, _) =>
          let ios := io_now p (time (self l1)) in
          (granted_ios (fs (self l1)) (Process.pid p) (time (self l1)) ios,
           denied_io (fs (self l1)) (Process.pid p) (time (self l1)) ios)
      | _ => ([], None)
      end
  end.

(** The events granted in the turn of the loop that starts in [l]. *)
Definition granted_in_step (l : loop_state) : list IOOperation.t :=
  match dispatch l with
  | Ok (po, l1) => (requests_now po l1).1
  | Raise _ => []
  end.

(** The process and the event denied in the turn that starts in [l]. *)
Definition denied_in_step (l : loop_state) : option (ref * IOOperation.t) :=
  match dispatch l with
  | Ok (Some proc, l1) =>
      match (requests_now (Some proc) l1).2 with
      | Some io => Some (proc, io)
      | None => None
      end
  | _ => None
  end.

(** The process of the turn that starts in [l], if any. *)
Definition process_of_step (l : loop_state) : option ref :=
  match dispatch l with
  | Ok (po, _) => po
  | Raise _ => None
  end.

(** The number of CPU ticks run in the turn that starts in [l]: one when
    the memory access hits and no request is denied. *)
Definition cpu_ticks_in_step (l : loop_state) : Z :=
  match dispatch l with
  | Ok (Some proc, l1) =>
      match access_now proc l1, (requests_now (Some proc) l1).2 with
      | Ok (true, _), None => 1
      | _, _ => 0
      end
  | _ => 0
  end.

(** The lines that the lock requests of the turn that starts in [l] add
    to the log of the lock manager. *)
Definition requests_log (l : loop_state) : list FileSimulator.log_entry :=
  match process_of_step l with
  | Some proc =>
      let pid := Process.pid (deref (procs l) proc) in
      granted_log pid (time (self l)) (granted_in_step l)
      ++ queued_log pid (time (self l) + sum_durations (granted_in_step l))
           (snd <$> denied_in_step l)
  | None => []
  end.

End Cases.

End EngineSpec.

(** ** Concrete workloads *)

Module Examples.
Import Simulator.

(** A generator that always draws 0. *)
Definition rng0 : nat -> Z := fun _ => 0.

Definition memory (num_frames : Z) (replacement : string) : MemoryManager.t :=
  match MemoryManager.init num_frames replacement with
  | Ok m => m
  | Raise _ => MemoryManager.mk num_frames replacement [] ∅ [] 0 [] ∅
  end.

(** A simulator with a round-robin scheduler of quantum 2 and one frame,
    to which the processes of [st] have been added in order; the state in
    which [run] enters its loop. *)
Definition simulator (st : store) : t :=
  foldl (fun s r => add_process s st r)
        (init (Scheduler.RR (RoundRobinScheduler.init 2))
              (memory 1 "FIFO") FileSimulator.init 2)
        (seq 0 (length st)).

Definition workload (st : store) : loop_state := start (simulator st) st.

(** One process that asks for no CPU at all. *)
Definition zero_demand_store : store := [Process.make 1 0 0 0 1 []].
Definition zero_demand : loop_state := workload zero_demand_store.

(** One process with three events on the same file: two at tick 1 and one
    at tick 2. *)
Definition event_a := IOOperation.mk 1 "f" "r" 1.
Definition event_b := IOOperation.mk 1 "f" "w" 1.
Definition event_c := IOOperation.mk 2 "f" "r" 1.

Definition contended_store : store :=
  [Process.make 1 0 10 0 1 [event_a; event_b; event_c]].
Definition contended : loop_state := workload contended_store.

(** The same events and one of negative duration at tick 4, for a process
    of two pages whose draws are page 0 three times, then page 1. *)
Definition rng_switch : nat -> Z := fun n => if (n <? 3)%nat then 0 else 1.

Definition rewound_store : store :=
  [Process.make 1 0 20 0 2
     [event_a; event_b; event_c; IOOperation.mk 4 "g" "r" (-3)]].
Definition rewound : loop_state := workload rewound_store.

Definition after_switch (n : nat) (l : loop_state) : loop_state :=
  match iterate rng_switch n l with
  | Ok l' => l'
  | Raise _ => l
  end.

(** One process with an event of negative duration. *)
Definition backwards_store : store :=
  [Process.make 1 0 3 0 1 [IOOperation.mk 1 "f" "r" (-5)]].
Definition backwards : loop_state := workload backwards_store.

(** One process with one event of duration 2 at tick 1. *)
Definition one_io_store : store :=
  [Process.make 1 0 3 0 1 [IOOperation.mk 1 "f" "r" 2]].
Definition one_io : loop_state := workload one_io_store.

(** The state after [n] turns of the loop (the given state when a turn
    raises). *)
Definition after (n : nat) (l : loop_state) : loop_state :=
  match iterate rng0 n l with
  | Ok l' => l'
  | Raise _ => l
  end.

(** [run(max_ticks=100)] takes at least [n] turns of its loop from [l]
    under the generator [rng]: the loop condition holds before each. *)
Definition takes_turns (rng : nat -> Z) (n : nat) (l : loop_state) : bool :=
  forallb (fun k => match iterate rng k l with
                    | Ok l' => loop_cond 100 l'
                    | Raise _ => false
                    end) (seq 0 n).

(** The state between the two parts of the next turn. *)
Definition dispatched (l : loop_state) : loop_state :=
  match dispatch l with
  | Ok (_, l1) => l1
  | Raise _ => l
  end.

End Examples.

(** ** Further notions: the memory manager *)

Module MemorySpec.
Import MemoryManager.

Definition frame_id (fr : Z * Z * Z) : Z := fr.1.1.

(** The frame table and the frame map agree: the frame ids are
    [0, 1, ...] in order, and a key is mapped to a frame id exactly when
    the frame of that id holds the key. *)
Record frames_ok (s : t) : Prop := mk_frames_ok {
  ids_ok : frame_id <$> frames s = Z.of_nat <$> seq 0 (length (frames s));
  map_ok : forall pid page fid,
    frame_map s !! (pid, page) = Some fid <-> (fid, pid, page) ∈ frames s;
}.

(** A sequence of [access_page] calls, with what each returned. *)
Fixpoint run_trace (s : t) (calls : list (Z * Z * Z))
  : result (list bool * t) :=
  match calls with
  | [] => Ok ([], s)
  | (pid, page, tick) :: calls' =>
      let* r := access_page s pid page tick in
      let* rest := run_trace r.2 calls' in
      Ok (r.1 :: rest.1, rest.2)
  end.

(** The number of calls of [pid] that returned [False]. *)
Fixpoint misses_of (pid : Z) (calls : list (Z * Z * Z)) (answers : list bool)
  : Z :=
  match calls, answers with
  | (pid', _, _) :: calls', present :: answers' =>
      (if decide (pid' = pid) then if present then 0 else 1 else 0)
      + misses_of pid calls' answers'
  | _, _ => 0
  end.

(** The fault count of [pid]: [page_faults[pid]] of the [defaultdict]. *)
Definition faults (s : t) (pid : Z) : Z := default 0 (page_faults s !! pid).

(** The same manager under another policy name. *)
Definition with_replacement (r : string) (s : t) : t :=
  mk (num_frames s) r (frames s) (frame_map s) (fifo_queue s) (time s)
     (last_used s) (page_faults s).

End MemorySpec.

(** ** Further notions: the file lock manager *)

Module FileSpec.
Import FileSimulator.

(** The two methods a client calls. *)
Inductive call : Type :=
| Request (pid : Z) (filename op : string) (tick duration : Z)
| ReleaseExpired (tick : Z).

Definition do_call (s : t) (c : call) : t :=
  match c with
  | Request pid filename op tick duration =>
      (request s pid filename op tick duration).2
  | ReleaseExpired tick => release_expired s tick
  end.

(** A sequence of calls on the manager. *)
Definition run (s : t) (cs : list call) : t := foldl do_call s cs.

(** The states the manager can be in: constructed, then called. *)
Definition reachable (s : t) : Prop := exists cs, s = run init cs.

(** The fields of a log line [(tick, pid, filename, op, status)]. *)
Definition log_pid (e : log_entry) : Z := e.1.1.1.2.
Definition log_file (e : log_entry) : string := e.1.1.2.
Definition log_op (e : log_entry) : string := e.1.2.
Definition log_status (e : log_entry) : string := e.2.

(** The [(pid, op)] pairs of the log lines about file [f] that carry
    [status], in log order. *)
Definition logged (status f : string) (l : list log_entry)
  : list (Z * string) :=
  (fun e => (log_pid e, log_op e))
    <$> filter (fun e => log_file e = f /\ log_status e = status) l.

(** The number of log lines that carry [status]. *)
Definition count_status (status : string) (l : list log_entry) : Z :=
  Z.of_nat (length (filter (fun e => log_status e = status) l)).

(** The release ticks asked by the calls of a sequence. *)
Definition release_ticks (cs : list call) : list Z :=
  omap (fun c => match c with
                 | ReleaseExpired tick => Some tick
                 | Request _ _ _ _ _ => None
                 end) cs.

(** The tick of a log line. *)
Definition log_tick (e : log_entry) : Z := e.1.1.1.1.

(** The log is in order of time: no line has a tick earlier than a line
    before it. *)
Fixpoint chronological (l : list log_entry) : Prop :=
  match l with
  | [] => True
  | e :: l' =>
      Forall (fun e' => log_tick e <= log_tick e') l' /\ chronological l'
  end.

End FileSpec.

(** ** Further notions: the schedulers *)

Module SchedulerSpec.

(** The processes a scheduler holds, in the order of its container. *)
Definition members (s : Scheduler.t) : list ref :=
  match s with
  | Scheduler.RR s => RoundRobinScheduler.queue s
  | Scheduler.SJF s => snd <$> SJFScheduler.heap s
  | Scheduler.Prio s => snd <$> PriorityScheduler.heap s
  end.

(** The tuples of a heap can be compared with each other: no comparison
    raises. *)
Definition orderable (st : store) (h : list heapq.entry) : Prop :=
  forall a b, a ∈ h -> b ∈ h -> exists c, heapq.entry_lt st a b = Ok c.

(** The tuple a scheduler pushes for a process. *)
Definition entry_of (s : Scheduler.t) (st : store) (proc : ref) : heapq.entry :=
  let p := deref st proc in
  match s with
  | Scheduler.RR _ => (0, Process.arrival p, Process.pid p, proc)
  | Scheduler.SJF _ =>
      (Process.remaining p, Process.arrival p, Process.pid p, proc)
  | Scheduler.Prio s =>
      (if PriorityScheduler.higher_value s then - Process.priority p
       else Process.priority p, Process.arrival p, Process.pid p, proc)
  end.

(** The heap of a scheduler (none for round robin). *)
Definition heap_of (s : Scheduler.t) : list heapq.entry :=
  match s with
  | Scheduler.RR _ => []
  | Scheduler.SJF s => SJFScheduler.heap s
  | Scheduler.Prio s => PriorityScheduler.heap s
  end.

(** The part of a tuple that orders it: [(key, arrival, pid)]. *)
Definition rank (e : heapq.entry) : Z * Z * Z := e.1.

(** [a < b] on such triples, as Python compares tuples. *)
Definition rank_lt (a b : Z * Z * Z) : Prop :=
  a.1.1 < b.1.1 \/
  (a.1.1 = b.1.1 /\ (a.1.2 < b.1.2 \/ (a.1.2 = b.1.2 /\ a.2 < b.2))).

(** [not b < a]: [a] comes no later than [b]. *)
Definition entry_le (a b : heapq.entry) : Prop := ~ rank_lt (rank b) (rank a).

(** The position of the parent in the implicit tree of [heapq]. *)
Definition parent (i : nat) : nat := ((i - 1) / 2)%nat.

(** The heap invariant of [heapq]: no tuple comes before its parent. *)
Definition heap_ordered (h : list heapq.entry) : Prop :=
  forall i x y, (0 < i)%nat ->
    h !! i = Some x -> h !! parent i = Some y -> entry_le y x.

(** The invariant with a hole at [pos]: the pairs that do not involve
    [pos] are in order, the children of [pos] do not come before its
    parent, and they do not come before [lo]. *)
Definition ordered_but (pos : nat) (h : list heapq.entry) : Prop :=
  forall i x y, (0 < i)%nat -> i ≠ pos -> parent i ≠ pos ->
    h !! i = Some x -> h !! parent i = Some y -> entry_le y x.

Definition grand_ok (pos : nat) (h : list heapq.entry) : Prop :=
  forall i x y, (0 < i)%nat -> parent i = pos -> (0 < pos)%nat ->
    h !! i = Some x -> h !! parent pos = Some y -> entry_le y x.

Definition children_ge (pos : nat) (lo : heapq.entry) (h : list heapq.entry)
  : Prop :=
  forall i x, (0 < i)%nat -> parent i = pos -> h !! i = Some x -> entry_le lo x.

(** The calls that change a scheduler, each with the object store it
    sees (the engine updates the processes between calls). *)
Inductive sched_call : Type :=
| SAdd (proc : ref)
| STick (now : Z).

Definition sched_do (s : Scheduler.t) (c : store * sched_call)
  : result Scheduler.t :=
  match c.2 with
  | SAdd proc => Scheduler.add_process s c.1 proc
  | STick now => let* r := Scheduler.tick s c.1 now in Ok r.2
  end.

Fixpoint sched_run (s : Scheduler.t) (cs : list (store * sched_call))
  : result Scheduler.t :=
  match cs with
  | [] => Ok s
  | c :: cs' => let* s' := sched_do s c in sched_run s' cs'
  end.

(** [n] calls of [tick] in a row on a round-robin scheduler: what they
    return. *)
Fixpoint rr_ticks (n : nat) (s : RoundRobinScheduler.t) (now : Z)
  : list (option ref) :=
  match n with
  | O => []
  | S n' =>
      let r := RoundRobinScheduler.tick s now in
      r.1 :: rr_ticks n' r.2 (now + 1)
  end.

End SchedulerSpec.

(** ** Further notions: the engine *)

Module RunSpec.
Import Simulator.

(** The running process as a list. *)
Definition running_list (l : loop_state) : list ref :=
  match running_proc l with
  | Some p => [p]
  | None => []
  end.

(** The processes of a run, wherever they are: not yet arrived, held by
    the scheduler, running, or finished. *)
Definition population (l : loop_state) : list ref :=
  pending l ++ SchedulerSpec.members (scheduler (self l))
  ++ running_list l ++ finished (self l).

(** The processes that can still be dispatched. *)
Definition active (l : loop_state) : list ref :=
  SchedulerSpec.members (scheduler (self l)) ++ running_list l.

(** No process of the store has an I/O event. *)
Definition no_io (st : store) : Prop :=
  Forall (fun p => Process.io_ops p = []) st.

(** Every process of the store has at least one page. *)
Definition has_pages (st : store) : Prop :=
  Forall (fun p => 0 < Process.pages p) st.

(** Every reference of the list names an object of the store. *)
Definition valid_refs (st : store) (rs : list ref) : Prop :=
  Forall (fun r => (r < length st)%nat) rs.

(** No process of the store has been started or finished. *)
Definition fresh (st : store) : Prop :=
  Forall (fun p => Process.start_time p = None /\
                   Process.finish_time p = None) st.

(** [p'] has the settings of [p]: every field but the four that record
    progress ([remaining], [start_time], [finish_time], [waiting_time]). *)
Definition same_settings (p p' : Process.t) : Prop :=
  Process.pid p' = Process.pid p /\
  Process.arrival p' = Process.arrival p /\
  Process.total_cpu p' = Process.total_cpu p /\
  Process.priority p' = Process.priority p /\
  Process.pages p' = Process.pages p /\
  Process.io_ops p' = Process.io_ops p /\
  Process.last_run_tick p' = Process.last_run_tick p /\
  Process.page_table p' = Process.page_table p.

(** The list is in order of arrival. *)
Fixpoint by_arrival (st : store) (rs : list ref) : Prop :=
  match rs with
  | [] => True
  | r :: rs' =>
      Forall (fun r' => Process.arrival (deref st r)
                        <= Process.arrival (deref st r')) rs' /\
      by_arrival st rs'
  end.

(** The processes of the list that arrive at [a], in list order. *)
Definition arriving_at (st : store) (a : Z) (rs : list ref) : list ref :=
  filter (fun r => Process.arrival (deref st r) = a) rs.

(** The tuples of the scheduler's heap carry the pid of the process
    they name. *)
Definition heap_entries_ok (st : store) (h : list heapq.entry) : Prop :=
  forall e, e ∈ h -> e.1.2 = Process.pid (deref st e.2).

(** A simulator ready to run the processes of [st]: its memory manager
    was built with a positive number of frames, every process has at least
    one page and a pid of its own, each process was added once, and the
    scheduler holds nothing yet. *)
Record ready (s : t) (st : store) : Prop := mk_ready {
  ready_mem : exists n policy,
    0 < n /\ MemoryManager.reachable n policy (mem s);
  ready_pages : has_pages st;
  ready_pids : NoDup (Process.pid <$> st);
  ready_refs : valid_refs st (ready_list s);
  ready_once : NoDup (ready_list s);
  ready_empty : SchedulerSpec.members (scheduler s) = [];
  ready_fin : finished s = [];
}.

(** What a run keeps of that. *)
Record well_formed (l : loop_state) : Prop := mk_well_formed {
  wf_mem : MemoryManager.inv (mem (self l));
  wf_frames : 0 < MemoryManager.num_frames (mem (self l));
  wf_pages : has_pages (procs l);
  wf_pids : NoDup (Process.pid <$> procs l);
  wf_refs : valid_refs (procs l) (population l);
  wf_once : NoDup (population l);
  wf_heap :
    heap_entries_ok (procs l) (SchedulerSpec.heap_of (scheduler (self l)));
}.

(** The recorded times agree with the clock: a process that can be
    dispatched has arrived; a start time lies between the arrival and the
    clock; the running process has started; a finished process started
    before it finished, and finished by the clock. *)
Record timeline (l : loop_state) : Prop := mk_timeline {
  tl_active : forall r, r ∈ active l ->
    Process.arrival (deref (procs l) r) <= time (self l);
  tl_started : forall r t,
    Process.start_time (deref (procs l) r) = Some t ->
    Process.arrival (deref (procs l) r) <= t <= time (self l);
  tl_running : forall r,
    running_proc l = Some r -> (r < length (procs l))%nat ->
    is_Some (Process.start_time (deref (procs l) r));
  tl_finished : forall r,
    r ∈ finished (self l) -> (r < length (procs l))%nat ->
    exists t0 ft,
      Process.start_time (deref (procs l) r) = Some t0 /\
      Process.finish_time (deref (procs l) r) = Some ft /\
      t0 < ft <= time (self l);
}.

End RunSpec.

(** ** More concrete workloads *)

Module Workloads.
Import Simulator.

(** Two processes without I/O; the second arrives at tick 1. *)
Definition pair_store : store :=
  [Process.make 1 0 3 0 1 []; Process.make 2 1 2 0 1 []].

(** The pair under round robin with quantum 2 and one frame. *)
Definition pair_rr : loop_state := Examples.workload pair_store.

(** The pair under SJF with two frames. *)
Definition sjf_simulator (st : store) : t :=
  foldl (fun s r => add_process s st r)
        (init (Scheduler.SJF (SJFScheduler.init false))
              (Examples.memory 2 "LRU") FileSimulator.init 2)
        (seq 0 (length st)).

Definition pair_sjf : loop_state := start (sjf_simulator pair_store) pair_store.


(** Three processes without I/O that arrive together, under round robin. *)
Definition trio_store : store :=
  [Process.make 1 0 2 0 1 []; Process.make 2 0 2 0 1 [];
   Process.make 3 0 1 0 1 []].
Definition trio_rr : loop_state := Examples.workload trio_store.

End Workloads.
(** * Part II: facts about the model *)

(** ** The error monad *)

Lemma rbind_ok {A B} (m : result A) (k : A -> result B) b :
  rbind m k = Ok b -> exists a, m = Ok a /\ k a = Ok b.
Proof. destruct m as [a|e]; simpl; intros H; [eauto | discriminate]. Qed.

(** ** Facts about insertion-ordered dictionaries *)

Section OrdDictFacts.
Context {K V : Type} `{EqDecision K}.
Import OrdDict.
Implicit Types (d : list (K * V)) (k : K) (v : V).

Lemma od_get_None k d : get k d = None <-> k ∉ keys d.
Proof.
  induction d as [|[k' v'] d IH]; simpl.
  - split; [intros _; apply not_elem_of_nil | done].
  - destruct (decide (k = k')) as [->|Hne].
    + split; [done | intros H; exfalso; apply H; left].
    + rewrite IH. unfold keys. simpl. rewrite not_elem_of_cons. tauto.
Qed.

Lemma od_get_Some_elem k v d : get k d = Some v -> (k, v) ∈ d.
Proof.
  induction d as [|[k' v'] d IH]; simpl; [done|].
  destruct (decide (k = k')) as [->|Hne].
  - intros [= ->]. left.
  - intros H. right. auto.
Qed.

Lemma od_get_Some_keys k v d : get k d = Some v -> k ∈ keys d.
Proof.
  intros H. apply od_get_Some_elem in H.
  unfold keys. apply list_elem_of_fmap. by exists (k, v).
Qed.

Lemma od_elem_get k v d : wf d -> (k, v) ∈ d -> get k d = Some v.
Proof.
  unfold wf, keys. induction d as [|[k' v'] d IH]; simpl.
  - intros _ H. by apply elem_of_nil in H.
  - rewrite NoDup_cons. intros [Hnin Hnd] Hin.
    apply elem_of_cons in Hin as [[= -> ->]|Hin].
    + by rewrite decide_True.
    + destruct (decide (k = k')) as [->|Hne]; [|by apply IH].
      exfalso. apply Hnin. apply list_elem_of_fmap. by exists (k', v).
Qed.

Lemma od_keys_set_in k v d : k ∈ keys d -> keys (set k v d) = keys d.
Proof.
  unfold keys. induction d as [|[k' v'] d IH]; simpl.
  - intros H. by apply elem_of_nil in H.
  - intros H. destruct (decide (k = k')) as [->|Hne]; [done|].
    simpl. f_equal. apply IH.
    apply elem_of_cons in H as [?|?]; [done|done].
Qed.

Lemma od_keys_set_notin k v d : k ∉ keys d -> keys (set k v d) = keys d ++ [k].
Proof.
  unfold keys. induction d as [|[k' v'] d IH]; simpl; [done|].
  rewrite not_elem_of_cons. intros [Hne Hnin].
  rewrite decide_False by done. simpl. f_equal. by apply IH.
Qed.

Lemma od_set_notin k v d : k ∉ keys d -> set k v d = d ++ [(k, v)].
Proof.
  unfold keys. induction d as [|[k' v'] d IH]; simpl; [done|].
  rewrite not_elem_of_cons. intros [Hne Hnin].
  rewrite decide_False by done. f_equal. by apply IH.
Qed.

Lemma od_get_set_eq k v d : get k (set k v d) = Some v.
Proof.
  induction d as [|[k' v'] d IH]; simpl.
  - by rewrite decide_True.
  - destruct (decide (k = k')) as [->|Hne]; simpl.
    + by rewrite decide_True.
    + by rewrite decide_False.
Qed.

Lemma od_get_set_ne k k' v d : k ≠ k' -> get k' (set k v d) = get k' d.
Proof.
  intros Hne. induction d as [|[k0 v0] d IH]; simpl.
  - by rewrite decide_False.
  - destruct (decide (k = k0)) as [->|Hne0]; simpl.
    + by rewrite !decide_False.
    + by rewrite IH.
Qed.

Lemma od_keys_remove k d : keys (remove k d) = remove1 k (keys d).
Proof.
  unfold keys. induction d as [|[k' v'] d IH]; simpl; [done|].
  destruct (decide (k = k')); simpl; [done | by f_equal].
Qed.

Lemma od_get_remove_eq k d : wf d -> get k (remove k d) = None.
Proof.
  unfold wf, keys. induction d as [|[k' v'] d IH]; simpl; [done|].
  rewrite NoDup_cons. intros [Hnin Hnd].
  destruct (decide (k = k')) as [->|Hne]; simpl.
  - by apply od_get_None.
  - rewrite decide_False by done. by apply IH.
Qed.

Lemma od_get_remove_ne k k' d : k ≠ k' -> get k' (remove k d) = get k' d.
Proof.
  intros Hne. induction d as [|[k0 v0] d IH]; simpl; [done|].
  destruct (decide (k = k0)) as [->|Hne0]; simpl.
  - by rewrite decide_False.
  - by rewrite IH.
Qed.

Lemma od_remove_elem_of k k' d : k' ∈ keys (remove k d) -> k' ∈ keys d.
Proof.
  unfold keys. induction d as [|[k0 v0] d IH]; simpl; [done|].
  destruct (decide (k = k0)) as [->|Hne0]; simpl.
  - intros H. by right.
  - rewrite !elem_of_cons. intros [?|?]; [by left | right; by apply IH].
Qed.

Lemma od_wf_remove k d : wf d -> wf (remove k d).
Proof.
  unfold wf, keys. induction d as [|[k0 v0] d IH]; simpl; [done|].
  rewrite NoDup_cons. intros [Hnin Hnd].
  destruct (decide (k = k0)) as [->|Hne0]; simpl; [done|].
  apply NoDup_cons. split; [|by apply IH].
  intros H. apply Hnin. by apply (od_remove_elem_of k).
Qed.

Lemma od_wf_set k v d : wf d -> wf (set k v d).
Proof.
  intros Hwf. unfold wf. destruct (decide (k ∈ keys d)) as [Hin|Hnin].
  - by rewrite od_keys_set_in.
  - rewrite od_keys_set_notin by done. apply NoDup_app. split; [done|].
    split; [|apply NoDup_singleton].
    intros x Hx Hx'. apply list_elem_of_singleton in Hx' as ->. done.
Qed.

End OrdDictFacts.

(** ** Deques *)

Section DequeFacts.
Context {A : Type} `{EqDecision A}.
Implicit Types (x y : A) (l : list A).

Lemma remove1_head x l : remove1 x (x :: l) = l.
Proof. simpl. by rewrite decide_True. Qed.

Lemma length_remove1 x l : x ∈ l -> S (length (remove1 x l)) = length l.
Proof.
  induction l as [|y l IH]; simpl.
  - intros H. by apply elem_of_nil in H.
  - intros H. destruct (decide (x = y)) as [->|Hne]; [done|].
    simpl. f_equal. apply IH. apply elem_of_cons in H as [?|?]; done.
Qed.

Lemma elem_of_remove1 x y l :
  NoDup l -> y ∈ remove1 x l <-> y ∈ l /\ y ≠ x.
Proof.
  induction l as [|z l IH]; simpl.
  - intros _. split; [intros H; by apply elem_of_nil in H | intros [H _]; done].
  - rewrite NoDup_cons. intros [Hnin Hnd].
    destruct (decide (x = z)) as [->|Hne].
    + rewrite elem_of_cons. split.
      * intros Hy. split; [by right|]. intros ->. done.
      * intros [[->|Hy] Hyz]; done.
    + rewrite !elem_of_cons, IH by done. split.
      * intros [->|[Hy Hyx]]; [split; [by left | done] | split; [by right | done]].
      * intros [[->|Hy] Hyx]; [by left | right; done].
Qed.

Lemma NoDup_remove1 x l : NoDup l -> NoDup (remove1 x l).
Proof.
  induction l as [|z l IH]; simpl; [done|].
  rewrite NoDup_cons. intros [Hnin Hnd].
  destruct (decide (x = z)) as [->|Hne]; [done|].
  apply NoDup_cons. split; [|by apply IH].
  rewrite elem_of_remove1 by done. intros [? _]. done.
Qed.

Lemma deque_remove_elem x l : x ∈ l -> deque_remove x l = Ok (remove1 x l).
Proof. intros H. unfold deque_remove. by rewrite decide_True. Qed.

End DequeFacts.

(** ** Memory manager *)

Section MemoryManagerFacts.
Import MemoryManager.
Implicit Types (s : t) (k : key).

(** *** Choice of the LRU victim *)

Lemma min_scan_spec (l0 mid : list (key * Z)) best items :
  (forall e, e ∈ l0 -> best.2 < e.2) ->
  (forall e, e ∈ mid -> best.2 <= e.2) ->
  exists l1 l2, l0 ++ best :: mid ++ items = l1 ++ min_scan best items :: l2 /\
    (forall e, e ∈ l1 -> (min_scan best items).2 < e.2) /\
    (forall e, e ∈ l2 -> (min_scan best items).2 <= e.2).
Proof.
  revert l0 mid best.
  induction items as [|kv items IH]; intros l0 mid best Hl0 Hmid; simpl.
  - exists l0, mid. by rewrite app_nil_r.
  - destruct (Z.ltb_spec kv.2 best.2) as [Hlt|Hge].
    + destruct (IH (l0 ++ best :: mid) [] kv) as (l1 & l2 & Heq & H1 & H2).
      { intros e He. apply elem_of_app in He as [He|He].
        - specialize (Hl0 e He). lia.
        - apply elem_of_cons in He as [->|He]; [done|].
          specialize (Hmid e He). lia. }
      { intros e He. by apply elem_of_nil in He. }
      exists l1, l2. split; [|done].
      rewrite <- Heq. simpl. rewrite <- app_assoc. done.
    + destruct (IH l0 (mid ++ [kv]) best Hl0) as (l1 & l2 & Heq & H1 & H2).
      { intros e He. apply elem_of_app in He as [He|He]; [by apply Hmid|].
        apply list_elem_of_singleton in He as ->. done. }
      exists l1, l2. split; [|done].
      rewrite <- Heq, <- app_assoc. done.
Qed.

Lemma min_by_value_first_min items :
  items ≠ [] -> exists kv, min_by_value items = Ok kv /\ first_min items kv.
Proof.
  destruct items as [|kv items]; [done|]. intros _.
  exists (min_scan kv items). split; [done|].
  destruct (min_scan_spec [] [] kv items) as (l1 & l2 & Heq & H1 & H2).
  - intros e He. by apply elem_of_nil in He.
  - intros e He. by apply elem_of_nil in He.
  - exists l1, l2. done.
Qed.

(** *** The representation invariant *)

Lemma replace_frame_length vf pid page fs :
  length (replace_frame vf pid page fs) = length fs.
Proof.
  induction fs as [|[[fid p] v] fs IH]; simpl; [done|].
  destruct (decide (fid = vf)); simpl; [done | by rewrite IH].
Qed.

Lemma size_of_dom (m : gmap key Z) (l : list key) :
  NoDup l -> (forall k, k ∈ l <-> is_Some (m !! k)) -> size m = length l.
Proof.
  intros Hnd Hdom.
  rewrite <- size_dom, <- (size_list_to_set (C:=gset key) l) by done.
  f_equal. apply set_eq. intros k.
  rewrite elem_of_dom, elem_of_list_to_set. symmetry. apply Hdom.
Qed.

Lemma inv_resident s : inv s -> resident s <= num_frames s.
Proof.
  intros [Hord Hnd Hdom Hlen Hcap]. unfold resident.
  rewrite (size_of_dom _ _ Hnd Hdom), <- Hlen. done.
Qed.

Lemma inv_init n policy s0 : 0 <= n -> init n policy = Ok s0 -> inv s0.
Proof.
  intros Hn [= <-]. split; simpl; try done.
  - apply NoDup_nil_2.
  - intros k. rewrite lookup_empty. split.
    + intros H. by apply elem_of_nil in H.
    + intros [? ?]. done.
Qed.

(** With every frame occupied the policy finds a victim among the resident
    keys, and the queue loses exactly that key. *)
Lemma choose_victim_full s :
  inv s -> fifo_queue s ≠ [] ->
  exists victim,
    choose_victim s = Ok (victim, remove1 victim (fifo_queue s)) /\
    victim ∈ fifo_queue s /\
    (replacement s = "LRU" ->
       exists tv, first_min (last_used s) (victim, tv)).
Proof.
  intros [Hord Hnd Hdom Hlen Hcap] Hne. unfold choose_victim.
  assert (Hfifo : exists v, popleft (fifo_queue s)
                            = Ok (v, remove1 v (fifo_queue s))
                          /\ v ∈ fifo_queue s).
  { destruct (fifo_queue s) as [|v q]; [done|].
    exists v. rewrite remove1_head. split; [done | left]. }
  destruct (String.eqb_spec (replacement s) "FIFO") as [HF|HF].
  { destruct Hfifo as (v & Hv & Hin). exists v. rewrite HF.
    split; [done|]. split; [done|]. intros ?. done. }
  destruct (String.eqb_spec (replacement s) "LRU") as [HL|HL].
  2:{ destruct Hfifo as (v & Hv & Hin). exists v.
      split; [done|]. split; [done|]. intros ?. done. }
  destruct (min_by_value_first_min (last_used s)) as ([v tv] & Hmin & Hfirst).
  { intros Hnil. apply Hne. rewrite <- Hord, Hnil. done. }
  rewrite Hmin. simpl.
  assert (Hin : v ∈ fifo_queue s).
  { rewrite <- Hord. destruct Hfirst as (l1 & l2 & -> & _).
    unfold OrdDict.keys. rewrite fmap_app, elem_of_app. right. left. }
  exists v. rewrite deque_remove_elem by done.
  split; [done|]. split; [done|]. intros _. by exists tv.
Qed.

Lemma inv_load_page s pid page tick :
  inv s -> 0 < num_frames s -> frame_map s !! (pid, page) = None ->
  exists s', load_page s pid page tick = Ok s' /\ inv s' /\
             num_frames s' = num_frames s /\ replacement s' = replacement s.
Proof.
  intros Hinv Hpos Hmiss.
  pose proof Hinv as [Hord Hnd Hdom Hlen Hcap].
  assert (Hkey : (pid, page) ∉ fifo_queue s).
  { rewrite Hdom, Hmiss. intros [? ?]. done. }
  unfold load_page.
  destruct (Z.ltb_spec (Z.of_nat (length (frames s))) (num_frames s))
    as [Hfree|Hfull].
  - eexists. split; [done|]. split; [|done]. split; simpl.
    + rewrite od_keys_set_notin by (by rewrite Hord). by rewrite Hord.
    + apply NoDup_app. split; [done|]. split; [|apply NoDup_singleton].
      intros x Hx Hx'. apply list_elem_of_singleton in Hx' as ->. done.
    + intros k. rewrite elem_of_app, list_elem_of_singleton, Hdom.
      destruct (decide (k = (pid, page))) as [->|Hk].
      * rewrite lookup_insert_eq. split; [by eexists | by right].
      * rewrite lookup_insert_ne by done. split; [intros [?|?]; done | by left].
    + rewrite !length_app, Hlen. done.
    + rewrite length_app. simpl. lia.
  - assert (Hne : fifo_queue s ≠ []).
    { intros Hnil. rewrite Hnil in Hlen. simpl in Hlen. lia. }
    destruct (choose_victim_full s Hinv Hne) as (victim & Hcv & Hvin & _).
    rewrite Hcv. simpl.
    destruct (proj1 (Hdom victim) Hvin) as [vf Hvf]. rewrite Hvf. simpl.
    assert (Hvk : victim ≠ (pid, page)) by (intros ->; done).
    assert (Hk' : (pid, page) ∉ OrdDict.keys (OrdDict.remove victim (last_used s))).
    { intros H. apply od_remove_elem_of in H. by rewrite Hord in H. }
    eexists. split; [done|]. split; [|done]. split; simpl.
    + rewrite od_keys_set_notin by done. by rewrite od_keys_remove, Hord.
    + apply NoDup_app. split; [by apply NoDup_remove1|].
      split; [|apply NoDup_singleton].
      intros x Hx Hx'. apply list_elem_of_singleton in Hx' as ->.
      apply elem_of_remove1 in Hx as [? _]; done.
    + intros k. rewrite elem_of_app, list_elem_of_singleton.
      rewrite elem_of_remove1 by done. rewrite Hdom.
      destruct (decide (k = (pid, page))) as [->|Hk].
      * rewrite lookup_insert_eq. split; [by eexists | by right].
      * rewrite lookup_insert_ne by done.
        destruct (decide (k = victim)) as [->|Hkv].
        -- rewrite lookup_delete_eq. split; [intros [[_ ?]|?]; done|].
           intros [? ?]. done.
        -- rewrite lookup_delete_ne by done.
           split; [intros [[? _]|?]; done | intros ?; by left].
    + rewrite replace_frame_length, length_app, Hlen. simpl.
      pose proof (length_remove1 victim (fifo_queue s) Hvin). lia.
    + rewrite replace_frame_length. done.
Qed.

Lemma inv_access_page s pid page tick :
  inv s -> 0 < num_frames s ->
  exists b s', access_page s pid page tick = Ok (b, s') /\ inv s' /\
               num_frames s' = num_frames s /\ replacement s' = replacement s.
Proof.
  intros Hinv Hpos. pose proof Hinv as [Hord Hnd Hdom Hlen Hcap].
  unfold access_page.
  destruct (frame_map s !! (pid, page)) as [f|] eqn:Hlk.
  - eexists _, _. split; [done|]. split; [|done]. split; simpl; try done.
    rewrite od_keys_set_in; [done|]. rewrite Hord. apply Hdom. by eexists.
  - match goal with |- context [load_page ?s1 _ _ _] => set (s1' := s1) end.
    destruct (inv_load_page s1' pid page tick) as (s' & Hl & Hinv' & Hn & Hr);
      [by split | done | done |].
    rewrite Hl. simpl. eexists _, _. done.
Qed.

Lemma inv_run calls : forall s,
  inv s -> 0 < num_frames s ->
  exists s', run s calls = Ok s' /\ inv s' /\
             num_frames s' = num_frames s /\ replacement s' = replacement s.
Proof.
  induction calls as [|[[pid page] tick] calls IH]; intros s Hinv Hpos; simpl.
  - by exists s.
  - destruct (inv_access_page s pid page tick Hinv Hpos)
      as (b & s1 & Ha & Hinv1 & Hn1 & Hr1).
    rewrite Ha. simpl.
    destruct (IH s1 Hinv1) as (s' & Hrun & Hinv' & Hn' & Hr'); [lia|].
    exists s'. split; [done|]. split; [done|]. split; congruence.
Qed.

Lemma reachable_inv n policy s :
  0 < n -> reachable n policy s ->
  inv s /\ num_frames s = n /\ replacement s = upper policy.
Proof.
  intros Hn (s0 & calls & Hinit & Hrun).
  assert (Hinv0 : inv s0) by (apply (inv_init n policy); [lia | done]).
  injection Hinit as <-.
  edestruct (inv_run calls) as (s' & Hrun' & Hinv' & Hn' & Hr'); [exact Hinv0 | simpl; lia |].
  rewrite Hrun in Hrun'. injection Hrun' as <-. done.
Qed.

(** *** Load order *)

Lemma index_of_app_notin k (l1 l2 : list key) :
  k ∉ l1 -> index_of k (l1 ++ l2) = (length l1 + index_of k l2)%nat.
Proof.
  induction l1 as [|x l1 IH]; simpl; [done|].
  rewrite not_elem_of_cons. intros [Hne Hnin].
  rewrite decide_False by done. by rewrite IH.
Qed.

Lemma first_min_least (items : list (key * Z)) victim tv :
  OrdDict.wf items -> first_min items (victim, tv) ->
  OrdDict.get victim items = Some tv /\
  forall k t, OrdDict.get k items = Some t ->
    tv <= t /\
    (t = tv ->
     (index_of victim (OrdDict.keys items) <= index_of k (OrdDict.keys items))%nat).
Proof.
  intros Hwf (l1 & l2 & Heq & H1 & H2). simpl in *.
  assert (Hv : OrdDict.get victim items = Some tv).
  { apply od_elem_get; [done|]. rewrite Heq, elem_of_app. right. left. }
  split; [done|]. intros k t Hk.
  apply od_get_Some_elem in Hk. rewrite Heq in Hk.
  unfold OrdDict.wf, OrdDict.keys in *. rewrite Heq in Hwf |- *.
  rewrite fmap_app, fmap_cons in Hwf |- *. simpl in *.
  apply NoDup_app in Hwf as (Hnd1 & Hdisj & Hnd2).
  apply NoDup_cons in Hnd2 as [Hv2 Hnd2].
  assert (Hv1 : victim ∉ l1.*1).
  { intros Hin. apply (Hdisj victim Hin). left. }
  rewrite (index_of_app_notin victim) by done. simpl.
  rewrite decide_True by done.
  apply elem_of_app in Hk as [Hk|Hk].
  - specialize (H1 _ Hk). simpl in H1. split; [lia|]. intros ->. lia.
  - apply elem_of_cons in Hk as [[= -> ->]|Hk].
    + split; [lia|]. intros _. rewrite index_of_app_notin by done. simpl.
      rewrite decide_True by done. lia.
    + specialize (H2 _ Hk). simpl in H2. split; [lia|]. intros _.
      assert (Hk2 : k ∈ l2.*1).
      { apply list_elem_of_fmap. by exists (k, t). }
      assert (Hk1 : k ∉ l1.*1).
      { intros Hin. apply (Hdisj k Hin). by right. }
      rewrite (index_of_app_notin k) by done. lia.
Qed.

End MemoryManagerFacts.

(** ** File lock manager *)

Section FileSimulatorFacts.
Import FileSimulator.
Implicit Types (s : t) (f g : string).

Lemma release_one_conflicts tick s f :
  conflicts (release_one tick s f) = conflicts s.
Proof.
  unfold release_one. destruct (queue (waiting s) f) as [|[[p o] d] q]; done.
Qed.

Lemma release_one_wf tick s f :
  OrdDict.wf (locks s) -> OrdDict.wf (locks (release_one tick s f)).
Proof.
  intros Hwf. unfold release_one.
  destruct (queue (waiting s) f) as [|[[p o] d] q]; simpl.
  - by apply od_wf_remove.
  - by apply od_wf_set, od_wf_remove.
Qed.

Lemma release_one_other tick s f g :
  f ≠ g ->
  OrdDict.get g (locks (release_one tick s f)) = OrdDict.get g (locks s) /\
  waiting (release_one tick s f) !! g = waiting s !! g.
Proof.
  intros Hne. unfold release_one.
  destruct (queue (waiting s) f) as [|[[p o] d] q]; simpl.
  - rewrite od_get_remove_ne by done. by rewrite lookup_insert_ne.
  - rewrite od_get_set_ne, od_get_remove_ne by done.
    by rewrite lookup_insert_ne.
Qed.

Lemma release_one_log tick s f :
  log (release_one tick s f)
  = log s ++ handover_log tick f (queue (waiting s) f).
Proof.
  unfold release_one.
  destruct (queue (waiting s) f) as [|[[p o] d] q]; simpl;
    [by rewrite app_nil_r | done].
Qed.

(** What one turn does to the file it releases. *)
Lemma release_one_self tick s f :
  OrdDict.wf (locks s) ->
  match queue (waiting s) f with
  | [] =>
      OrdDict.get f (locks (release_one tick s f)) = None /\
      queue (waiting (release_one tick s f)) f = []
  | (p, o, d) :: q =>
      OrdDict.get f (locks (release_one tick s f)) = Some (p, tick + d) /\
      queue (waiting (release_one tick s f)) f = q
  end.
Proof.
  intros Hwf. unfold release_one.
  destruct (queue (waiting s) f) as [|[[p o] d] q]; simpl; unfold queue; simpl.
  - rewrite od_get_remove_eq by done. by rewrite lookup_insert_eq.
  - rewrite od_get_set_eq. by rewrite lookup_insert_eq.
Qed.

Lemma release_fold_other tick fs : forall s g,
  g ∉ fs ->
  OrdDict.get g (locks (foldl (release_one tick) s fs))
    = OrdDict.get g (locks s) /\
  waiting (foldl (release_one tick) s fs) !! g = waiting s !! g.
Proof.
  induction fs as [|f fs IH]; intros s g Hg; simpl; [done|].
  apply not_elem_of_cons in Hg as [Hne Hg].
  destruct (IH (release_one tick s f) g Hg) as [-> ->].
  by apply release_one_other.
Qed.

Lemma release_fold_wf tick fs : forall s,
  OrdDict.wf (locks s) -> OrdDict.wf (locks (foldl (release_one tick) s fs)).
Proof.
  induction fs as [|f fs IH]; intros s Hwf; simpl; [done|].
  by apply IH, release_one_wf.
Qed.

Lemma release_fold_conflicts tick fs : forall s,
  conflicts (foldl (release_one tick) s fs) = conflicts s.
Proof.
  induction fs as [|f fs IH]; intros s; simpl; [done|].
  by rewrite IH, release_one_conflicts.
Qed.

Lemma release_fold_log tick fs : forall s,
  NoDup fs ->
  log (foldl (release_one tick) s fs)
  = log s ++ concat ((fun f => handover_log tick f (queue (waiting s) f)) <$> fs).
Proof.
  induction fs as [|f fs IH]; intros s Hnd; simpl.
  - by rewrite app_nil_r.
  - apply NoDup_cons in Hnd as [Hf Hnd].
    rewrite IH, release_one_log, <- app_assoc by done.
    do 3 f_equal. apply list_fmap_ext. intros i g Hg.
    assert (f ≠ g).
    { intros ->. apply Hf. by apply list_elem_of_lookup_2 in Hg. }
    unfold queue. by rewrite (proj2 (release_one_other tick s f g ltac:(done))).
Qed.

Lemma release_fold_self tick fs s f :
  NoDup fs -> f ∈ fs -> OrdDict.wf (locks s) ->
  match queue (waiting s) f with
  | [] =>
      OrdDict.get f (locks (foldl (release_one tick) s fs)) = None /\
      queue (waiting (foldl (release_one tick) s fs)) f = []
  | (p, o, d) :: q =>
      OrdDict.get f (locks (foldl (release_one tick) s fs))
        = Some (p, tick + d) /\
      queue (waiting (foldl (release_one tick) s fs)) f = q
  end.
Proof.
  intros Hnd Hin Hwf.
  apply list_elem_of_split in Hin as (fs1 & fs2 & ->).
  apply NoDup_app in Hnd as (Hnd1 & Hdisj & Hnd2).
  apply NoDup_cons in Hnd2 as [Hf2 Hnd2].
  assert (Hf1 : f ∉ fs1).
  { intros Hin. apply (Hdisj f Hin). left. }
  rewrite foldl_app. simpl.
  set (s1 := foldl (release_one tick) s fs1).
  destruct (release_fold_other tick fs1 s f Hf1) as [Hl1 Hw1].
  fold s1 in Hl1, Hw1.
  destruct (release_fold_other tick fs2 (release_one tick s1 f) f Hf2)
    as [Hl2 Hw2].
  assert (Hwf1 : OrdDict.wf (locks s1)) by by apply release_fold_wf.
  pose proof (release_one_self tick s1 f Hwf1) as Hself.
  unfold queue in *. rewrite Hw1 in Hself. rewrite Hl2, Hw2.
  exact Hself.
Qed.

Lemma to_release_NoDup tick (l : list (string * (Z * Z))) :
  OrdDict.wf l -> NoDup (to_release tick l).
Proof.
  unfold OrdDict.wf, OrdDict.keys, to_release.
  induction l as [|[f [p r]] l IH]; simpl; [intros _; apply NoDup_nil_2|].
  rewrite NoDup_cons. intros [Hnin Hnd].
  rewrite filter_cons. simpl. destruct (decide (r <= tick)); simpl.
  - apply NoDup_cons. split; [|by apply IH].
    intros Hin. apply Hnin. apply list_elem_of_fmap in Hin as ([f' v] & -> & Hin).
    apply list_elem_of_filter in Hin as [_ Hin].
    apply list_elem_of_fmap. by exists (f', v).
  - by apply IH.
Qed.

Lemma elem_of_to_release tick (l : list (string * (Z * Z))) f :
  OrdDict.wf l ->
  f ∈ to_release tick l <->
  exists p r, OrdDict.get f l = Some (p, r) /\ r <= tick.
Proof.
  intros Hwf. unfold to_release. rewrite list_elem_of_fmap. split.
  - intros ([f' [p r]] & -> & Hin). apply list_elem_of_filter in Hin as [Hr Hin].
    exists p, r. split; [by apply od_elem_get | done].
  - intros (p & r & Hget & Hr). exists (f, (p, r)). split; [done|].
    apply list_elem_of_filter. split; [done | by apply od_get_Some_elem].
Qed.

End FileSimulatorFacts.

(** ** The object store *)

Section StoreFacts.
Implicit Types (st : store) (r : ref) (f : Process.t -> Process.t).

Lemma deref_update_eq st r f :
  (r < length st)%nat -> deref (update st r f) r = f (deref st r).
Proof.
  intros Hr. unfold deref, update.
  destruct (lookup_lt_is_Some_2 st r Hr) as [p Hp].
  rewrite (list_lookup_total_correct _ _ _ Hp).
  apply list_lookup_total_correct.
  by rewrite list_lookup_alter_eq, Hp.
Qed.

Lemma deref_update_ne st r r' f :
  r ≠ r' -> deref (update st r f) r' = deref st r'.
Proof.
  intros Hne. unfold deref, update.
  rewrite !list_lookup_total_alt. by rewrite list_lookup_alter_ne.
Qed.

Lemma length_update st r f : length (update st r f) = length st.
Proof. apply length_alter. Qed.

(** A property of every object that the update function maintains. *)
Lemma deref_update_pres (P : Process.t -> Process.t -> Prop) st r f :
  (forall p, P p p) -> (forall p, P p (f p)) ->
  forall r', P (deref st r') (deref (update st r f) r').
Proof.
  intros Hrefl Hf r'. destruct (decide (r = r')) as [<-|Hne].
  - destruct (decide (r < length st)%nat) as [Hlt|Hge].
    + rewrite deref_update_eq by done. apply Hf.
    + unfold deref, update. rewrite !list_lookup_total_alt.
      rewrite list_lookup_alter_eq.
      rewrite (lookup_ge_None_2 st r) by lia. simpl. apply Hrefl.
  - rewrite deref_update_ne by done. apply Hrefl.
Qed.

End StoreFacts.

(** ** The engine *)

Section EngineFacts.
Import Simulator EngineSpec.
Implicit Types (l : loop_state) (st : store) (proc : ref).

Ltac bind_inv H :=
  repeat match type of H with
  | rbind _ _ = Ok _ =>
      let a := fresh "r" in
      let Ha := fresh "Hr" in
      apply rbind_ok in H as (a & Ha & H)
  end.

Lemma same_job_refl p : same_job p p.
Proof. by repeat split. Qed.

Lemma same_jobs_refl st : same_jobs st st.
Proof. split; [done|]. intros r. apply same_job_refl. Qed.

Lemma same_jobs_trans st1 st2 st3 :
  same_jobs st1 st2 -> same_jobs st2 st3 -> same_jobs st1 st3.
Proof.
  intros [Hl1 H1] [Hl2 H2]. split; [congruence|]. intros r.
  destruct (H1 r) as (?&?&?&?&?), (H2 r) as (?&?&?&?&?).
  repeat split; congruence.
Qed.

Lemma same_jobs_update st r f :
  (forall p, same_job p (f p)) -> same_jobs st (update st r f).
Proof.
  intros Hf. split; [apply length_update|].
  apply (deref_update_pres same_job); [apply same_job_refl | done].
Qed.

Lemma deref_lookup st r p : st !! r = Some p -> deref st r = p.
Proof. intros H. unfold deref. by apply list_lookup_total_correct. Qed.

Lemma durations_nonneg_deref st r :
  durations_nonneg st ->
  Forall (fun io => 0 <= IOOperation.duration io) (Process.io_ops (deref st r)).
Proof.
  intros Hd. unfold deref. rewrite list_lookup_total_alt.
  destruct (st !! r) as [p|] eqn:Hp; simpl.
  - by apply (Forall_lookup_1 _ _ _ _ Hd Hp).
  - apply Forall_nil_2.
Qed.

Lemma durations_nonneg_same_jobs st st' :
  durations_nonneg st -> same_jobs st st' -> durations_nonneg st'.
Proof.
  intros Hd [Hlen Hsame]. apply Forall_lookup_2. intros r p' Hp'.
  destruct (Hsame r) as (_ & _ & _ & _ & Hio).
  rewrite (deref_lookup _ _ _ Hp') in Hio. rewrite Hio.
  by apply durations_nonneg_deref.
Qed.

Lemma sum_durations_nonneg ios :
  Forall (fun io => 0 <= IOOperation.duration io) ios -> 0 <= sum_durations ios.
Proof.
  induction 1 as [|io ios Hio _ IH]; simpl; [done | lia].
Qed.

Lemma granted_ios_sublist fs pid now ios :
  granted_ios fs pid now ios `prefix_of` ios.
Proof.
  revert fs now. induction ios as [|io ios IH]; intros fs now; simpl.
  - done.
  - destruct (FileSimulator.request _ _ _ _ _ _).1.1; [|apply prefix_nil].
    by apply prefix_cons.
Qed.

Lemma granted_ios_Forall (P : IOOperation.t -> Prop) fs pid now ios :
  Forall P ios -> Forall P (granted_ios fs pid now ios).
Proof.
  intros H. destruct (granted_ios_sublist fs pid now ios) as [k Hk].
  rewrite Hk in H. by apply Forall_app in H as [? _].
Qed.

(** *** The I/O loop *)

(** What the loop leaves alone, and how far it moves the clock. *)
Lemma io_loop_self proc ios : forall l b l',
  io_loop proc ios l = Ok (b, l') ->
  time (self l') = time (self l)
    + sum_durations (granted_ios (fs (self l))
                       (Process.pid (deref (procs l) proc)) (time (self l)) ios) /\
  total_ticks (self l') = total_ticks (self l) /\
  cpu_busy_ticks (self l') = cpu_busy_ticks (self l) /\
  finished (self l') = finished (self l) /\
  mem (self l') = mem (self l) /\
  quantum (self l') = quantum (self l) /\
  pending l' = pending l /\
  draws l' = draws l /\
  rr_quantum_left l' = rr_quantum_left l /\
  same_jobs (procs l) (procs l').
Proof.
  induction ios as [|io ios IH]; intros l b l' H; simpl in H.
  - injection H as <- <-. simpl. rewrite Z.add_0_r.
    repeat (split; [done|]). apply same_jobs_refl.
  - simpl.
    destruct (FileSimulator.request (fs (self l)) _ _ _ _ _) as [[g rel] fs']
      eqn:Hreq. simpl in *. destruct g.
    + apply IH in H. simpl in H.
      destruct H as (Ht & Htt & Hb & Hf & Hm & Hq & Hp & Hd & Hrr & Hs).
      assert (Hsj : same_jobs (procs l)
                (update (procs l) proc
                   (fun p => Process.set_remaining
                      (Process.remaining p - IOOperation.duration io) p))).
      { apply same_jobs_update. intros p. by repeat split. }
      destruct (proj2 Hsj proc) as (Hpid & _).
      rewrite Hpid in Ht.
      split; [simpl; lia|]. repeat (split; [done|]).
      by eapply same_jobs_trans.
    + bind_inv H. injection H as <- <-. simpl.
      rewrite Z.add_0_r. repeat (split; [done|]).
      apply same_jobs_update. intros p. by repeat split.
Qed.

Lemma request_cases (s : FileSimulator.t) pid f o now d :
  let r := FileSimulator.request s pid f o now d in
  (r.1.1 = true /\
   FileSimulator.log r.2 = FileSimulator.log s ++ [(now, pid, f, o, "granted")] /\
   FileSimulator.conflicts r.2 = FileSimulator.conflicts s) \/
  (r.1.1 = false /\
   FileSimulator.log r.2 = FileSimulator.log s ++ [(now, pid, f, o, "queued")] /\
   FileSimulator.conflicts r.2 = FileSimulator.conflicts s + 1).
Proof.
  unfold FileSimulator.request.
  destruct (OrdDict.get f (FileSimulator.locks s)); simpl; [right | left]; done.
Qed.

(** How the loop ends, and what it writes in the log of the lock manager. *)
Lemma io_loop_outcome proc ios : forall l b l',
  io_loop proc ios l = Ok (b, l') ->
  let pid := Process.pid (deref (procs l) proc) in
  let now := time (self l) in
  let G := granted_ios (fs (self l)) pid now ios in
  let d := denied_io (fs (self l)) pid now ios in
  (b = true <-> is_Some d) /\
  FileSimulator.log (fs (self l'))
    = FileSimulator.log (fs (self l)) ++ granted_log pid now G
        ++ queued_log pid (now + sum_durations G) d /\
  FileSimulator.conflicts (fs (self l'))
    = FileSimulator.conflicts (fs (self l)) + (if b then 1 else 0) /\
  (b = false ->
     running_proc l' = running_proc l /\
     scheduler (self l') = scheduler (self l) /\ G = ios) /\
  (b = true ->
     running_proc l' = None /\
     Scheduler.add_process (scheduler (self l)) (procs l') proc
       = Ok (scheduler (self l'))).
Proof.
  induction ios as [|io ios IH]; intros l b l' H; simpl in H.
  - injection H as <- <-. simpl. rewrite !app_nil_r, Z.add_0_r.
    split; [split; [done | intros [? ?]; done]|].
    repeat (split; [done|]). done.
  - simpl.
    pose proof (request_cases (fs (self l)) (Process.pid (deref (procs l) proc))
                  (IOOperation.filename io) (IOOperation.op io) (time (self l))
                  (IOOperation.duration io)) as Hcases.
    simpl in Hcases.
    destruct (FileSimulator.request (fs (self l)) _ _ _ _ _) as [[g rel] fs']
      eqn:Hreq. simpl in *.
    destruct Hcases as [(-> & Hlog & Hconf)|(-> & Hlog & Hconf)].
    + apply IH in H. simpl in H.
      assert (Hpid : Process.pid (deref (update (procs l) proc
                (fun p => Process.set_remaining
                   (Process.remaining p - IOOperation.duration io) p)) proc)
              = Process.pid (deref (procs l) proc)).
      { apply (deref_update_pres
                 (fun p p' => Process.pid p' = Process.pid p)); done. }
      rewrite Hpid in H.
      destruct H as (Hb & Hl & Hc & Hf & Ht).
      split; [done|]. split.
      { rewrite Hl, Hlog. simpl. rewrite <- !app_assoc. simpl.
        do 3 f_equal. f_equal. lia. }
      split; [lia|]. split.
      { intros Hbf. destruct (Hf Hbf) as (? & ? & ->). done. }
      done.
    + bind_inv H. injection H as <- <-. simpl.
      split; [split; [by eexists | done]|].
      split; [by rewrite Z.add_0_r, Hlog|].
      split; [done|]. split; [done|]. done.
Qed.

(** What the loop does to the processes. *)
Lemma io_loop_procs proc ios : forall l b l',
  io_loop proc ios l = Ok (b, l') ->
  (proc < length (procs l))%nat ->
  let G := granted_ios (fs (self l)) (Process.pid (deref (procs l) proc))
             (time (self l)) ios in
  Process.remaining (deref (procs l') proc)
    = Process.remaining (deref (procs l) proc) - sum_durations G /\
  Process.waiting_time (deref (procs l') proc)
    = Process.waiting_time (deref (procs l) proc) + (if b then 1 else 0) /\
  Process.finish_time (deref (procs l') proc)
    = Process.finish_time (deref (procs l) proc) /\
  (forall r, r ≠ proc -> deref (procs l') r = deref (procs l) r).
Proof.
  induction ios as [|io ios IH]; intros l b l' H Hv; simpl in H.
  - injection H as <- <-. simpl. split; [lia|]. split; [lia|]. done.
  - simpl.
    destruct (FileSimulator.request (fs (self l)) _ _ _ _ _) as [[g rel] fs']
      eqn:Hreq. simpl in *. destruct g.
    + apply IH in H; [|simpl; by rewrite length_update]. simpl in H.
      rewrite !deref_update_eq in H by done. simpl in H.
      destruct H as (Hr & Hw & Hf & Ho).
      split; [simpl; lia|]. split; [done|]. split; [done|].
      intros r Hne. rewrite Ho by done. by apply deref_update_ne.
    + bind_inv H. injection H as <- <-. simpl.
      rewrite !deref_update_eq by done. simpl.
      split; [lia|]. split; [done|]. split; [done|].
      intros r' Hne. by apply deref_update_ne.
Qed.

(** *** The first part of the loop body *)

Lemma dispatch_spec l po l1 :
  dispatch l = Ok (po, l1) ->
  time (self l1) = time (self l) /\
  total_ticks (self l1) = total_ticks (self l) /\
  cpu_busy_ticks (self l1) = cpu_busy_ticks (self l) /\
  finished (self l1) = finished (self l) /\
  mem (self l1) = mem (self l) /\
  quantum (self l1) = quantum (self l) /\
  fs (self l1) = FileSimulator.release_expired (fs (self l)) (time (self l)) /\
  draws l1 = draws l /\
  running_proc l1 = po /\
  (forall p, running_proc l = Some p -> po = Some p) /\
  same_jobs (procs l) (procs l1) /\
  (forall r,
     Process.remaining (deref (procs l1) r) = Process.remaining (deref (procs l) r) /\
     Process.finish_time (deref (procs l1) r)
       = Process.finish_time (deref (procs l) r) /\
     Process.waiting_time (deref (procs l1) r)
       = Process.waiting_time (deref (procs l) r)).
Proof.
  unfold dispatch. intros H. bind_inv H. simpl in H.
  destruct (running_proc l) as [p|] eqn:Hrun.
  - injection H as <- <-. simpl.
    split_and!; try done; try apply same_jobs_refl.
  - bind_inv H. destruct r0 as [[proc|] sched']; simpl in H.
    + injection H as <- <-. simpl. split_and!; try done.
      * destruct (Process.start_time (deref (procs l) proc));
          [apply same_jobs_refl|].
        apply same_jobs_update. intros p. by repeat split.
      * intros r'.
        destruct (Process.start_time (deref (procs l) proc)); [done|].
        apply (deref_update_pres (fun p p' =>
                 Process.remaining p' = Process.remaining p /\
                 Process.finish_time p' = Process.finish_time p /\
                 Process.waiting_time p' = Process.waiting_time p)); done.
    + injection H as <- <-. simpl.
      split_and!; try done; try apply same_jobs_refl.
Qed.

(** *** The CPU tick *)

Lemma cpu_tick_spec proc l l' :
  cpu_tick proc l = Ok l' ->
  time (self l') = time (self l) + 1 /\
  total_ticks (self l') = total_ticks (self l) + 1 /\
  cpu_busy_ticks (self l') = cpu_busy_ticks (self l) + 1 /\
  mem (self l') = mem (self l) /\
  fs (self l') = fs (self l) /\
  quantum (self l') = quantum (self l) /\
  draws l' = draws l /\
  same_jobs (procs l) (procs l').
Proof.
  unfold cpu_tick. intros H.
  set (procs1 := update (procs l) proc _) in H.
  assert (Hs1 : same_jobs (procs l) procs1).
  { apply same_jobs_update. intros p. by repeat split. }
  destruct (Process.remaining (deref procs1 proc) <=? 0).
  - injection H as <-. simpl. split_and!; try done.
    eapply same_jobs_trans; [exact Hs1|].
    apply same_jobs_update. intros p. by repeat split.
  - simpl in H.
    destruct (Scheduler.is_round_robin (scheduler (self l)));
      [destruct (rr_quantum_left l - 1 <=? 0)|].
    + bind_inv H. injection H as <-. simpl. split_and!; done.
    + injection H as <-. simpl. split_and!; done.
    + injection H as <-. simpl. split_and!; done.
Qed.

(** A process whose remaining demand is at most one finishes with this
    tick. *)
Lemma cpu_tick_finish proc l :
  (proc < length (procs l))%nat ->
  Process.remaining (deref (procs l) proc) <= 1 ->
  exists l', cpu_tick proc l = Ok l' /\
    finished (self l') = finished (self l) ++ [proc] /\
    Process.finish_time (deref (procs l') proc) = Some (time (self l')) /\
    Process.remaining (deref (procs l') proc)
      = Process.remaining (deref (procs l) proc) - 1 /\
    running_proc l' = None.
Proof.
  intros Hv Hrem. unfold cpu_tick.
  rewrite deref_update_eq by done. simpl.
  destruct (Z.leb_spec (Process.remaining (deref (procs l) proc) - 1) 0); [|lia].
  eexists. split; [done|]. simpl.
  rewrite !deref_update_eq by (by rewrite ?length_update). simpl.
  done.
Qed.

(** *** The second part of the loop body, by cases *)

Variable rng : nat -> Z.

Lemma execute_cases po l1 l' :
  execute rng po l1 = Ok l' -> execute_case rng l1 l' po.
Proof.
  unfold execute. destruct po as [proc|].
  - intros H. bind_inv H. destruct r0 as [present m']. simpl in H.
    destruct present; simpl in H.
    + bind_inv H. destruct r0 as [b l2]. simpl in H. destruct b.
      * injection H as <-. by eapply exec_blocked.
      * by eapply exec_cpu.
    + injection H as <-. by eapply exec_fault.
  - intros [= <-]. by apply exec_idle.
Qed.

(** *** One turn of the loop *)

Lemma execute_slack po l1 l' :
  execute rng po l1 = Ok l' ->
  slack l' = slack l1 + sum_durations (requests_now rng po l1).1 /\
  cpu_busy_ticks (self l') <= cpu_busy_ticks (self l1) + 1 /\
  same_jobs (procs l1) (procs l').
Proof.
  intros H. apply execute_cases in H. unfold slack, requests_now, access_now.
  destruct H as [->|proc page m' Hrand Hacc ->|proc page m' Hrand Hacc Hio
                 |proc page m' l2 Hrand Hacc Hio Hcpu]; simpl.
  - split_and!; try lia. apply same_jobs_refl.
  - rewrite Hrand; simpl; rewrite Hacc; simpl. split_and!; try lia. apply same_jobs_refl.
  - rewrite Hrand; simpl; rewrite Hacc; simpl.
    apply io_loop_self in Hio. simpl in Hio.
    destruct Hio as (Ht & Htt & Hb & _ & _ & _ & _ & _ & _ & Hs).
    split_and!; [lia | lia | done].
  - rewrite Hrand; simpl; rewrite Hacc; simpl.
    apply io_loop_self in Hio. simpl in Hio.
    destruct Hio as (Ht & Htt & Hb & _ & _ & _ & _ & _ & _ & Hs).
    apply cpu_tick_spec in Hcpu.
    destruct Hcpu as (Ht' & Htt' & Hb' & _ & _ & _ & _ & Hs').
    split_and!; [lia | lia | by eapply same_jobs_trans].
Qed.

Lemma step_slack l l' :
  step rng l = Ok l' ->
  slack l' = slack l + sum_durations (granted_in_step rng l) /\
  same_jobs (procs l) (procs l').
Proof.
  unfold step, granted_in_step. intros H. bind_inv H.
  destruct r as [po l1]. rewrite Hr. simpl in *.
  apply dispatch_spec in Hr.
  destruct Hr as (Ht & Htt & _ & _ & _ & _ & _ & _ & _ & _ & Hs & _).
  apply execute_slack in H. destruct H as (Hsl & _ & Hs').
  split; [|by eapply same_jobs_trans].
  unfold slack in *. lia.
Qed.

Lemma io_now_Forall (P : IOOperation.t -> Prop) p now :
  Forall P (Process.io_ops p) -> Forall P (io_now p now).
Proof.
  intros H. unfold io_now. apply Forall_forall. intros io Hio.
  apply list_elem_of_filter in Hio as [_ Hio].
  by apply (proj1 (Forall_forall _ _) H).
Qed.

Lemma io_now_time p now io : io ∈ io_now p now -> IOOperation.time io = now.
Proof. unfold io_now. intros H. by apply list_elem_of_filter in H as [? _]. Qed.

Lemma requests_now_granted_Forall (P : IOOperation.t -> Prop) po l1 :
  (forall r, Forall P (Process.io_ops (deref (procs l1) r))) ->
  Forall P (requests_now rng po l1).1.
Proof.
  intros HP. unfold requests_now. destruct po as [proc|]; [|done].
  destruct (access_now rng proc l1) as [[[] m']|]; try done.
  simpl. apply granted_ios_Forall, io_now_Forall, HP.
Qed.

Lemma granted_in_step_nonneg l :
  durations_nonneg (procs l) ->
  Forall (fun io => 0 <= IOOperation.duration io) (granted_in_step rng l).
Proof.
  intros Hd. unfold granted_in_step.
  destruct (dispatch l) as [[po l1]|] eqn:Hdis; [|done].
  apply dispatch_spec in Hdis.
  destruct Hdis as (_ & _ & _ & _ & _ & _ & _ & _ & _ & _ & Hs & _).
  apply requests_now_granted_Forall. intros r.
  apply durations_nonneg_deref. by eapply durations_nonneg_same_jobs.
Qed.

(** The clock never loses ground on the tick count when no duration is
    negative. *)
Lemma step_slack_mono l l' :
  durations_nonneg (procs l) -> step rng l = Ok l' ->
  slack l <= slack l' /\ durations_nonneg (procs l').
Proof.
  intros Hd H. destruct (step_slack l l' H) as [Hsl Hs].
  split; [|by eapply durations_nonneg_same_jobs].
  pose proof (sum_durations_nonneg _ (granted_in_step_nonneg l Hd)). lia.
Qed.

Lemma iterate_slack_mono n : forall l l',
  durations_nonneg (procs l) -> iterate rng n l = Ok l' ->
  slack l <= slack l' /\ durations_nonneg (procs l').
Proof.
  induction n as [|n IH]; intros l l' Hd H; simpl in H.
  - by injection H as <-.
  - bind_inv H. destruct (step_slack_mono l r Hd Hr) as [H1 Hd1].
    destruct (IH r l' Hd1 H) as [H2 Hd2]. split; [lia | done].
Qed.

Lemma iterate_app n m l l' l'' :
  iterate rng n l = Ok l' -> iterate rng m l' = Ok l'' ->
  iterate rng (n + m) l = Ok l''.
Proof.
  revert l. induction n as [|n IH]; intros l H1 H2; simpl in *.
  - by injection H1 as ->.
  - bind_inv H1. rewrite Hr. simpl. by apply IH.
Qed.

Lemma configured_fresh s st :
  configured s st ->
  time s = 0 /\ total_ticks s = 0 /\ cpu_busy_ticks s = 0 /\ finished s = [].
Proof.
  intros (sched & mm & fs0 & q & refs & ->).
  induction refs as [|r refs IH] using rev_ind; simpl; [done|].
  rewrite foldl_app. simpl. done.
Qed.

Lemma step_inv l l' :
  step rng l = Ok l' ->
  exists po l1, dispatch l = Ok (po, l1) /\ execute rng po l1 = Ok l'.
Proof.
  unfold step. intros H. bind_inv H. destruct r as [po l1]. by exists po, l1.
Qed.

Lemma access_now_inv proc l1 b m' :
  access_now rng proc l1 = Ok (b, m') ->
  exists page,
    randrange rng (draws l1) 0 (Process.pages (deref (procs l1) proc)) = Ok page /\
    MemoryManager.access_page (mem (self l1))
      (Process.pid (deref (procs l1) proc)) page (time (self l1)) = Ok (b, m').
Proof.
  unfold access_now. intros H. bind_inv H. by exists r.
Qed.

(** A tick whose memory access faults: nothing else happens. *)
Lemma execute_fault proc l1 l' m' :
  execute rng (Some proc) l1 = Ok l' ->
  access_now rng proc l1 = Ok (false, m') ->
  finished (self l') = finished (self l1) /\
  cpu_busy_ticks (self l') = cpu_busy_ticks (self l1) /\
  total_ticks (self l') = total_ticks (self l1) + 1 /\
  time (self l') = time (self l1) + 1 /\
  running_proc l' = running_proc l1 /\
  procs l' = procs l1.
Proof.
  intros H Ha. apply access_now_inv in Ha as (page & Hrand & Hacc).
  apply execute_cases in H.
  inversion H as [|proc' page' m'' Hrand' Hacc' ->
                  |proc' page' m'' Hrand' Hacc' Hio
                  |proc' page' m'' l2 Hrand' Hacc' Hio Hcpu]; subst;
    rewrite Hrand in Hrand'; injection Hrand' as <-;
    rewrite Hacc in Hacc'; try discriminate Hacc'.
  done.
Qed.

(** A tick whose memory access hits: the lock requests, then the CPU tick
    unless a request was denied. *)
Lemma execute_hit proc l1 l' m' :
  execute rng (Some proc) l1 = Ok l' ->
  access_now rng proc l1 = Ok (true, m') ->
  exists b l2,
    io_loop proc (io_now (deref (procs l1) proc) (time (self l1)))
      (with_self (with_mem m' (self l1)) (with_draws (S (draws l1)) l1))
      = Ok (b, l2) /\
    (if b then l' = l2 else cpu_tick proc l2 = Ok l') /\
    (requests_now rng (Some proc) l1).1
      = granted_ios (fs (self l1)) (Process.pid (deref (procs l1) proc))
          (time (self l1)) (io_now (deref (procs l1) proc) (time (self l1))) /\
    (requests_now rng (Some proc) l1).2
      = denied_io (fs (self l1)) (Process.pid (deref (procs l1) proc))
          (time (self l1)) (io_now (deref (procs l1) proc) (time (self l1))).
Proof.
  intros H Ha. unfold requests_now. rewrite Ha. simpl.
  apply access_now_inv in Ha as (page & Hrand & Hacc).
  apply execute_cases in H.
  inversion H as [|proc' page' m'' Hrand' Hacc' ->
                  |proc' page' m'' Hrand' Hacc' Hio
                  |proc' page' m'' l2 Hrand' Hacc' Hio Hcpu]; subst;
    rewrite Hrand in Hrand'; injection Hrand' as <-;
    rewrite Hacc in Hacc'; try discriminate Hacc';
    injection Hacc' as <-.
  - by exists true, l'.
  - by exists false, l2.
Qed.

Lemma sum_durations_elem ios io :
  Forall (fun io => 0 <= IOOperation.duration io) ios -> io ∈ ios ->
  IOOperation.duration io <= sum_durations ios.
Proof.
  induction 1 as [|io' ios Hio Hall IH]; intros Hin.
  - by apply elem_of_nil in Hin.
  - simpl. pose proof (sum_durations_nonneg ios Hall).
    apply elem_of_cons in Hin as [->|Hin]; [lia|]. specialize (IH Hin). lia.
Qed.

Lemma reachable_slack s st l :
  configured s st -> durations_nonneg st -> reachable rng s st l ->
  0 <= slack l /\ durations_nonneg (procs l).
Proof.
  intros Hc Hd [n Hn].
  destruct (configured_fresh s st Hc) as (Ht & Htt & _).
  destruct (iterate_slack_mono n (start s st) l) as [Hs Hd']; [done | done |].
  split; [|done]. unfold slack in *. simpl in Hs. lia.
Qed.

(** *** The lock requests of a turn *)

Lemma denied_io_elem fs0 pid now ios io :
  denied_io fs0 pid now ios = Some io -> io ∈ ios.
Proof.
  revert fs0 now. induction ios as [|io' ios IH]; intros fs0 now; simpl; [done|].
  destruct (FileSimulator.request _ _ _ _ _ _).1.1.
  - intros H. right. by eapply IH.
  - intros [= ->]. left.
Qed.

Lemma granted_ios_elem fs0 pid now ios io :
  io ∈ granted_ios fs0 pid now ios -> io ∈ ios.
Proof.
  intros H. destruct (granted_ios_sublist fs0 pid now ios) as [k Hk].
  rewrite Hk. apply elem_of_app. by left.
Qed.

Lemma requests_now_hit proc l1 m' :
  access_now rng proc l1 = Ok (true, m') ->
  requests_now rng (Some proc) l1
  = (granted_ios (fs (self l1)) (Process.pid (deref (procs l1) proc))
       (time (self l1)) (io_now (deref (procs l1) proc) (time (self l1))),
     denied_io (fs (self l1)) (Process.pid (deref (procs l1) proc))
       (time (self l1)) (io_now (deref (procs l1) proc) (time (self l1)))).
Proof.
  intros Ha. unfold requests_now. by rewrite Ha.
Qed.

Lemma requests_now_inv po l1 io :
  io ∈ (requests_now rng po l1).1 \/ (requests_now rng po l1).2 = Some io ->
  exists proc m', po = Some proc /\
    access_now rng proc l1 = Ok (true, m') /\
    io ∈ io_now (deref (procs l1) proc) (time (self l1)).
Proof.
  unfold requests_now.
  destruct po as [proc|];
    [|intros [H|H]; [by apply elem_of_nil in H | done]].
  destruct (access_now rng proc l1) as [[[] m']|e] eqn:Ha;
    try (intros [H|H]; [by apply elem_of_nil in H | done]).
  intros [H|H]; exists proc, m'; (split; [done|]); (split; [done|]);
    simpl in H.
  - by eapply granted_ios_elem.
  - by eapply denied_io_elem.
Qed.

(** A turn in which a request is denied. *)
Lemma step_denied l l' proc io :
  step rng l = Ok l' -> denied_in_step rng l = Some (proc, io) ->
  (proc < length (procs l))%nat ->
  exists l1, dispatch l = Ok (Some proc, l1) /\
    running_proc l' = None /\
    Scheduler.add_process (scheduler (self l1)) (procs l') proc
      = Ok (scheduler (self l')) /\
    Process.waiting_time (deref (procs l') proc)
      = Process.waiting_time (deref (procs l) proc) + 1 /\
    time (self l') = time (self l) + sum_durations (granted_in_step rng l) /\
    total_ticks (self l') = total_ticks (self l) /\
    cpu_busy_ticks (self l') = cpu_busy_ticks (self l) /\
    Process.remaining (deref (procs l') proc)
      = Process.remaining (deref (procs l) proc)
        - sum_durations (granted_in_step rng l) /\
    FileSimulator.conflicts (fs (self l'))
      = FileSimulator.conflicts
          (FileSimulator.release_expired (fs (self l)) (time (self l))) + 1.
Proof.
  intros Hstep Hden Hv.
  destruct (step_inv l l' Hstep) as (po & l1 & Hdis & Hexec).
  unfold denied_in_step, granted_in_step in *. rewrite Hdis in *.
  destruct po as [proc'|]; [|done].
  destruct (requests_now rng (Some proc') l1) as [G d] eqn:Hreq.
  simpl in Hden. destruct d as [io'|]; [|done]. injection Hden as -> ->.
  destruct (requests_now_inv (Some proc) l1 io) as (? & m' & [= <-] & Ha & _).
  { right. by rewrite Hreq. }
  rewrite (requests_now_hit proc l1 m' Ha) in Hreq.
  injection Hreq as HG HD.
  destruct (execute_hit proc l1 l' m' Hexec Ha) as (b & l2 & Hio & Hl' & _).
  pose proof (dispatch_spec l _ l1 Hdis)
    as (Ht & Htt & Hb & _ & _ & _ & Hfs & _ & _ & _ & Hsj & Hkeep).
  assert (Hv1 : (proc < length (procs l1))%nat).
  { destruct Hsj as [-> _]. done. }
  pose proof (io_loop_outcome proc _ _ b l2 Hio) as (Hbd & _ & Hconf & _ & Hq).
  pose proof (io_loop_self proc _ _ _ _ Hio) as (Ht2 & Htt2 & Hb2 & _).
  pose proof (io_loop_procs proc _ _ _ _ Hio Hv1) as (Hrem2 & Hw2 & _).
  simpl in *. rewrite HD in Hbd. rewrite HG in Ht2, Hrem2.
  assert (b = true) as -> by (apply Hbd; by eexists).
  subst l2. destruct (Hq eq_refl) as [Hrun Hadd].
  destruct (Hkeep proc) as (Hr1 & _ & Hw1).
  exists l1. split_and!; try done; try congruence; try lia.
Qed.

(** *** A denied event stays denied while the clock stands still *)

Lemma release_expired_held T f (s : FileSimulator.t) :
  OrdDict.wf (FileSimulator.locks s) -> held_at T f s ->
  held_at T f (FileSimulator.release_expired s T).
Proof.
  intros Hwf (p & r & Hget & Hwhy). unfold FileSimulator.release_expired.
  pose proof (to_release_NoDup T _ Hwf) as Hnd.
  destruct (decide (r <= T)) as [Hr|Hr].
  - destruct Hwhy as [?|(w & Hw & Hpos)]; [lia|].
    assert (Hin : f ∈ FileSimulator.to_release T (FileSimulator.locks s)).
    { apply elem_of_to_release; [done|]. by exists p, r. }
    pose proof (release_fold_self T _ s f Hnd Hin Hwf) as Hself.
    destruct (FileSimulator.queue (FileSimulator.waiting s) f)
      as [|[[p' o'] d'] q] eqn:Hq; [by apply elem_of_nil in Hw|].
    destruct Hself as [Hl Hq']. exists p', (T + d'). split; [done|].
    apply elem_of_cons in Hw as [->|Hw].
    + left. simpl in Hpos. lia.
    + right. exists w. by rewrite Hq'.
  - assert (Hnin : f ∉ FileSimulator.to_release T (FileSimulator.locks s)).
    { rewrite elem_of_to_release by done. intros (p' & r' & Hg & Hr').
      rewrite Hget in Hg. injection Hg as <- <-. lia. }
    destruct (release_fold_other T _ s f Hnin) as [Hl Hw].
    exists p, r. split; [by rewrite Hl|]. unfold FileSimulator.queue.
    rewrite Hw. destruct Hwhy as [?|?]; [left; lia | by right].
Qed.

Lemma request_held T f (s : FileSimulator.t) pid g o now d :
  held_at T f s ->
  held_at T f (FileSimulator.request s pid g o now d).2 /\
  (g = f -> (FileSimulator.request s pid g o now d).1.1 = false).
Proof.
  intros (p & r & Hget & Hwhy). unfold FileSimulator.request.
  destruct (OrdDict.get g (FileSimulator.locks s)) as [v|] eqn:Hg; simpl.
  - split; [|done]. exists p, r. split; [done|].
    destruct Hwhy as [?|(w & Hw & Hpos)]; [by left|]. right. exists w.
    split; [|done]. unfold FileSimulator.queue in *. simpl.
    destruct (decide (g = f)) as [->|Hne].
    + rewrite lookup_insert_eq. simpl. apply elem_of_app. by left.
    + by rewrite lookup_insert_ne.
  - assert (g ≠ f) by (intros ->; congruence).
    split; [|done]. exists p, r. simpl. split; [|done].
    by rewrite od_get_set_ne.
Qed.

Lemma request_wf (s : FileSimulator.t) pid g o now d :
  OrdDict.wf (FileSimulator.locks s) ->
  OrdDict.wf (FileSimulator.locks (FileSimulator.request s pid g o now d).2).
Proof.
  intros Hwf. unfold FileSimulator.request.
  destruct (OrdDict.get g (FileSimulator.locks s)); simpl; [done|].
  by apply od_wf_set.
Qed.

(** A denied request leaves the file held, whatever the clock, when the
    event lasts a positive time: its waiter is in the queue. *)
Lemma request_denied_held T (s : FileSimulator.t) pid g o now d :
  (FileSimulator.request s pid g o now d).1.1 = false -> 0 < d ->
  held_at T g (FileSimulator.request s pid g o now d).2.
Proof.
  unfold FileSimulator.request.
  destruct (OrdDict.get g (FileSimulator.locks s)) as [[p r]|] eqn:Hg; simpl;
    [|done].
  intros _ Hd. exists p, r. split; [done|]. right. exists (pid, o, d).
  split; [|done]. unfold FileSimulator.queue. simpl.
  rewrite lookup_insert_eq. simpl. apply elem_of_app. right. left.
Qed.

Lemma io_loop_held T f proc ios : forall l b l',
  io_loop proc ios l = Ok (b, l') ->
  OrdDict.wf (FileSimulator.locks (fs (self l))) ->
  OrdDict.wf (FileSimulator.locks (fs (self l'))) /\
  (held_at T f (fs (self l)) ->
   held_at T f (fs (self l')) /\
   Forall (fun io => IOOperation.filename io ≠ f)
     (granted_ios (fs (self l)) (Process.pid (deref (procs l) proc))
        (time (self l)) ios)) /\
  (forall io,
     denied_io (fs (self l)) (Process.pid (deref (procs l) proc))
       (time (self l)) ios = Some io ->
     0 < IOOperation.duration io ->
     held_at T (IOOperation.filename io) (fs (self l'))).
Proof.
  induction ios as [|io ios IH]; intros l b l' H Hwf; simpl in H.
  - injection H as <- <-. simpl. split; [done|]. split; [|done].
    intros Hh. split; [done | apply Forall_nil_2].
  - simpl.
    pose proof (request_held T f (fs (self l))
                  (Process.pid (deref (procs l) proc))
                  (IOOperation.filename io) (IOOperation.op io) (time (self l))
                  (IOOperation.duration io)) as Hheld.
    pose proof (request_wf (fs (self l))
                  (Process.pid (deref (procs l) proc))
                  (IOOperation.filename io) (IOOperation.op io) (time (self l))
                  (IOOperation.duration io) Hwf) as Hwf'.
    pose proof (request_denied_held T (fs (self l))
                  (Process.pid (deref (procs l) proc))
                  (IOOperation.filename io) (IOOperation.op io) (time (self l))
                  (IOOperation.duration io)) as Hden.
    destruct (FileSimulator.request (fs (self l)) _ _ _ _ _) as [[g rel] fs']
      eqn:Hreq. simpl in *. destruct g.
    + apply IH in H; [|done]. simpl in H.
      assert (Hpid : Process.pid (deref (update (procs l) proc
                (fun p => Process.set_remaining
                   (Process.remaining p - IOOperation.duration io) p)) proc)
              = Process.pid (deref (procs l) proc)).
      { apply (deref_update_pres
                 (fun p p' => Process.pid p' = Process.pid p)); done. }
      rewrite Hpid in H. destruct H as (Hwf2 & Hh2 & Hd2).
      split; [done|]. split; [|done].
      intros Hh. destruct (Hheld Hh) as [Hh' Hf].
      destruct (Hh2 Hh') as [Hh'' Hall]. split; [done|].
      apply Forall_cons. split; [|done]. intros Heq. by specialize (Hf Heq).
    + bind_inv H. injection H as <- <-. simpl.
      split; [done|]. split.
      * intros Hh. destruct (Hheld Hh) as [Hh' _]. split; [done|].
        apply Forall_nil_2.
      * intros io' [= <-] Hpos. by apply Hden.
Qed.

Lemma access_now_intro proc l1 page r :
  randrange rng (draws l1) 0 (Process.pages (deref (procs l1) proc)) = Ok page ->
  MemoryManager.access_page (mem (self l1))
    (Process.pid (deref (procs l1) proc)) page (time (self l1)) = Ok r ->
  access_now rng proc l1 = Ok r.
Proof. intros Hrand Hacc. unfold access_now. by rewrite Hrand. Qed.

(** The second part of a turn, as far as the clock and the lock manager
    are concerned. *)
Lemma execute_clock_fs T f po l1 l' :
  execute rng po l1 = Ok l' ->
  OrdDict.wf (FileSimulator.locks (fs (self l1))) ->
  let G := (requests_now rng po l1).1 in
  OrdDict.wf (FileSimulator.locks (fs (self l'))) /\
  time (self l1) + sum_durations G <= time (self l') /\
  ((requests_now rng po l1).2 = None -> time (self l') = time (self l1) + sum_durations G + 1) /\
  (is_Some (requests_now rng po l1).2 -> time (self l') = time (self l1) + sum_durations G) /\
  (held_at T f (fs (self l1)) ->
   held_at T f (fs (self l')) /\
   Forall (fun io => IOOperation.filename io ≠ f) G) /\
  (forall io, (requests_now rng po l1).2 = Some io ->
     0 < IOOperation.duration io ->
     held_at T (IOOperation.filename io) (fs (self l'))).
Proof.
  intros H Hwf. apply execute_cases in H.
  destruct H as [->|proc page m' Hrand Hacc ->|proc page m' Hrand Hacc Hio
                 |proc page m' l2 Hrand Hacc Hio Hcpu].
  - simpl. split_and!; try done; try lia; try (by intros [? ?]).
  - pose proof (access_now_intro proc l1 page _ Hrand Hacc) as Ha.
    unfold requests_now. rewrite Ha. simpl.
    split_and!; try done; try lia; try (by intros [? ?]).
  - pose proof (access_now_intro proc l1 page _ Hrand Hacc) as Ha.
    rewrite (requests_now_hit proc l1 m' Ha). simpl.
    pose proof (io_loop_self proc _ _ _ _ Hio) as (Ht & _).
    pose proof (io_loop_outcome proc _ _ _ _ Hio) as (Hbd & _).
    pose proof (io_loop_held T f proc _ _ _ _ Hio Hwf) as (Hwf' & Hh & Hd).
    simpl in *. split_and!; try done; try lia.
    intros Hnone. destruct (proj1 Hbd eq_refl) as [? Hsome].
    by rewrite Hnone in Hsome.
  - pose proof (access_now_intro proc l1 page _ Hrand Hacc) as Ha.
    rewrite (requests_now_hit proc l1 m' Ha). simpl.
    pose proof (io_loop_self proc _ _ _ _ Hio) as (Ht & _).
    pose proof (io_loop_outcome proc _ _ _ _ Hio) as (Hbd & _).
    pose proof (io_loop_held T f proc _ _ _ _ Hio Hwf) as (Hwf' & Hh & Hd).
    pose proof (cpu_tick_spec proc l2 l' Hcpu) as (Ht' & _ & _ & _ & Hfs & _).
    simpl in *. rewrite Hfs. split_and!; try done; try lia.
    intros Hsome. apply Hbd in Hsome. done.
Qed.

Lemma step_past_or_held T f l l' :
  OrdDict.wf (FileSimulator.locks (fs (self l))) ->
  durations_nonneg (procs l) ->
  step rng l = Ok l' ->
  OrdDict.wf (FileSimulator.locks (fs (self l'))) /\
  durations_nonneg (procs l') /\
  time (self l) <= time (self l') /\
  (past_or_held T f l ->
   past_or_held T f l' /\
   Forall (fun io => ~ (IOOperation.time io = T /\ IOOperation.filename io = f))
          (granted_in_step rng l)) /\
  (forall proc io, denied_in_step rng l = Some (proc, io) ->
     0 < IOOperation.duration io ->
     past_or_held (IOOperation.time io) (IOOperation.filename io) l').
Proof.
  intros Hwf Hd Hstep.
  destruct (step_slack_mono l l' Hd Hstep) as [_ Hd'].
  pose proof (granted_in_step_nonneg l Hd) as Hnn.
  apply sum_durations_nonneg in Hnn as Hsum.
  destruct (step_inv l l' Hstep) as (po & l1 & Hdis & Hexec).
  pose proof (dispatch_spec l _ l1 Hdis)
    as (Ht & _ & _ & _ & _ & _ & Hfs & _ & _ & _ & _ & _).
  assert (Hwf1 : OrdDict.wf (FileSimulator.locks (fs (self l1)))).
  { rewrite Hfs. by apply release_fold_wf. }
  unfold granted_in_step, denied_in_step in *. rewrite Hdis in *.
  pose proof (execute_clock_fs T f po l1 l' Hexec Hwf1)
    as (Hwf' & Hmono & Hnone & Hsome & Hheld & _).
  cbv zeta in *. split_and!; try done; try lia.
  - intros [Hpast|[Hnow Hh]].
    + split; [left; lia|]. apply Forall_forall. intros io Hio [Hio1 _].
      destruct (requests_now_inv po l1 io) as (proc & m' & _ & _ & Hin);
        [by left|].
      apply io_now_time in Hin. lia.
    + assert (Hh1 : held_at T f (fs (self l1))).
      { rewrite Hfs, Hnow. by apply release_expired_held. }
      destruct (Hheld Hh1) as [Hh' Hall]. split.
      * destruct (decide (time (self l') = T)) as [?|?];
          [right; done | left; lia].
      * eapply Forall_impl; [exact Hall|]. intros io Hio [_ ?]. done.
  - intros proc io Hden Hpos. destruct po as [proc'|]; [|done].
    destruct (requests_now rng (Some proc') l1).2 as [io'|] eqn:Hreq; [|done].
    injection Hden as -> ->.
    destruct (requests_now_inv (Some proc) l1 io) as (? & m' & _ & _ & Hin);
      [right; done|].
    apply io_now_time in Hin.
    pose proof (execute_clock_fs (IOOperation.time io) (IOOperation.filename io)
                  (Some proc) l1 l' Hexec Hwf1)
      as (_ & _ & _ & _ & _ & Hden').
    specialize (Hden' io Hreq Hpos).
    destruct (decide (time (self l') = IOOperation.time io)) as [?|?];
      [right; done | left; lia].
Qed.

Lemma granted_ios_held T f fs0 pid now ios :
  held_at T f fs0 ->
  Forall (fun io => IOOperation.filename io ≠ f) (granted_ios fs0 pid now ios).
Proof.
  revert fs0 now. induction ios as [|io ios IH]; intros fs0 now Hh; simpl.
  - apply Forall_nil_2.
  - destruct (request_held T f fs0 pid (IOOperation.filename io)
                (IOOperation.op io) now (IOOperation.duration io) Hh)
      as [Hh' Hf].
    destruct (FileSimulator.request fs0 _ _ _ _ _).1.1 eqn:Hg;
      [|apply Forall_nil_2].
    apply Forall_cons. split; [|by apply IH].
    intros Heq. specialize (Hf Heq). congruence.
Qed.

(** While the clock has passed [T] or [f] is held at [T], no event
    scheduled at [T] on [f] is granted. *)
Lemma granted_in_step_held T f l :
  OrdDict.wf (FileSimulator.locks (fs (self l))) ->
  past_or_held T f l ->
  Forall (fun io => ~ (IOOperation.time io = T /\ IOOperation.filename io = f))
         (granted_in_step rng l).
Proof.
  intros Hwf Hp. unfold granted_in_step.
  destruct (dispatch l) as [[po l1]|] eqn:Hdis; [|apply Forall_nil_2].
  pose proof (dispatch_spec l _ l1 Hdis)
    as (Ht & _ & _ & _ & _ & _ & Hfs & _ & _ & _ & _ & _).
  apply Forall_forall. intros io Hio [Hio1 Hio2].
  destruct (requests_now_inv po l1 io) as (proc & m' & -> & Ha & Hin);
    [by left|].
  apply io_now_time in Hin.
  destruct Hp as [?|[Hnow Hh]]; [lia|].
  assert (Hh1 : held_at T f (fs (self l1))).
  { rewrite Hfs, Hnow. by apply release_expired_held. }
  rewrite (requests_now_hit proc l1 m' Ha) in Hio. simpl in Hio.
  pose proof (granted_ios_held T f _ (Process.pid (deref (procs l1) proc))
                (time (self l1))
                (io_now (deref (procs l1) proc) (time (self l1))) Hh1) as Hall.
  by apply (proj1 (Forall_forall _ _) Hall io Hio).
Qed.

Lemma iterate_past_or_held T f n : forall l l',
  OrdDict.wf (FileSimulator.locks (fs (self l))) ->
  durations_nonneg (procs l) ->
  past_or_held T f l ->
  iterate rng n l = Ok l' ->
  OrdDict.wf (FileSimulator.locks (fs (self l'))) /\ past_or_held T f l'.
Proof.
  induction n as [|n IH]; intros l l' Hwf Hd Hp H; simpl in H.
  - by injection H as <-.
  - bind_inv H.
    destruct (step_past_or_held T f l r Hwf Hd Hr) as (Hwf' & Hd' & _ & Hk & _).
    destruct (Hk Hp) as [Hp' _]. by eapply IH.
Qed.

(** The log of the lock manager after a turn: the hand-overs of
    [release_expired], then the lines of the requests. *)
Lemma step_log l l' :
  step rng l = Ok l' ->
  FileSimulator.log (fs (self l'))
  = FileSimulator.log
      (FileSimulator.release_expired (fs (self l)) (time (self l)))
    ++ requests_log rng l.
Proof.
  intros Hstep.
  destruct (step_inv l l' Hstep) as (po & l1 & Hdis & Hexec).
  pose proof (dispatch_spec l _ l1 Hdis)
    as (Ht & _ & _ & _ & _ & _ & Hfs & _ & _ & _ & Hsj & _).
  unfold requests_log, process_of_step, granted_in_step, denied_in_step.
  rewrite Hdis, <- Hfs, <- Ht.
  apply execute_cases in Hexec.
  destruct Hexec as [->|proc page m' Hrand Hacc ->|proc page m' Hrand Hacc Hio
                     |proc page m' l2 Hrand Hacc Hio Hcpu].
  - simpl. by rewrite app_nil_r.
  - pose proof (access_now_intro proc l1 page _ Hrand Hacc) as Ha.
    unfold requests_now. rewrite Ha. simpl. by rewrite app_nil_r.
  - pose proof (access_now_intro proc l1 page _ Hrand Hacc) as Ha.
    rewrite (requests_now_hit proc l1 m' Ha). simpl.
    pose proof (io_loop_outcome proc _ _ _ _ Hio) as (_ & Hlog & _).
    simpl in Hlog. rewrite Hlog.
    destruct (proj2 Hsj proc) as (Hpid & _). rewrite <- Hpid.
    destruct (denied_io _ _ _ _); reflexivity.
  - pose proof (access_now_intro proc l1 page _ Hrand Hacc) as Ha.
    rewrite (requests_now_hit proc l1 m' Ha). simpl.
    pose proof (io_loop_outcome proc _ _ _ _ Hio) as (_ & Hlog & _).
    pose proof (cpu_tick_spec proc l2 l' Hcpu) as (_ & _ & _ & _ & -> & _).
    simpl in Hlog. rewrite Hlog.
    destruct (proj2 Hsj proc) as (Hpid & _). rewrite <- Hpid.
    destruct (denied_io _ _ _ _); reflexivity.
Qed.

(** *** What a turn does to the remaining demand *)

Lemma io_loop_others proc ios : forall l b l' r,
  io_loop proc ios l = Ok (b, l') -> r ≠ proc ->
  deref (procs l') r = deref (procs l) r.
Proof.
  induction ios as [|io ios IH]; intros l b l' r H Hne; simpl in H.
  - by injection H as <- <-.
  - destruct (FileSimulator.request (fs (self l)) _ _ _ _ _) as [[g rel] fs'].
    simpl in H. destruct g.
    + rewrite (IH _ _ _ r H Hne). simpl. by apply deref_update_ne.
    + bind_inv H. injection H as <- <-. simpl. by apply deref_update_ne.
Qed.

Lemma cpu_tick_remaining proc l l' :
  cpu_tick proc l = Ok l' ->
  ((proc < length (procs l))%nat ->
   Process.remaining (deref (procs l') proc)
     = Process.remaining (deref (procs l) proc) - 1) /\
  (forall r, r ≠ proc ->
     Process.remaining (deref (procs l') r) = Process.remaining (deref (procs l) r)).
Proof.
  unfold cpu_tick. intros H.
  set (procs1 := update (procs l) proc _) in H.
  assert (H1 : (proc < length (procs l))%nat ->
               Process.remaining (deref procs1 proc)
               = Process.remaining (deref (procs l) proc) - 1).
  { intros Hv. unfold procs1. by rewrite deref_update_eq. }
  assert (H2 : forall r, r ≠ proc -> deref procs1 r = deref (procs l) r).
  { intros r Hne. unfold procs1. by apply deref_update_ne. }
  destruct (Process.remaining (deref procs1 proc) <=? 0).
  - injection H as <-. simpl. split.
    + intros Hv.
      rewrite deref_update_eq by (unfold procs1; by rewrite length_update).
      simpl. by apply H1.
    + intros r Hne. rewrite deref_update_ne by done. by rewrite H2.
  - simpl in H.
    destruct (Scheduler.is_round_robin (scheduler (self l)));
      [destruct (rr_quantum_left l - 1 <=? 0)|].
    + bind_inv H. injection H as <-. simpl. split; [done|].
      intros r' Hne. by rewrite H2.
    + injection H as <-. simpl. split; [done|]. intros r Hne. by rewrite H2.
    + injection H as <-. simpl. split; [done|]. intros r Hne. by rewrite H2.
Qed.

(** The remaining demand of a process changes only in a turn of which it
    is the process, and then by the durations granted and the CPU tick. *)
Lemma step_remaining l l' r :
  step rng l = Ok l' -> (r < length (procs l))%nat ->
  Process.remaining (deref (procs l') r)
  = Process.remaining (deref (procs l) r)
    - (if decide (process_of_step l = Some r)
       then sum_durations (granted_in_step rng l) + cpu_ticks_in_step rng l
       else 0).
Proof.
  intros Hstep Hv.
  destruct (step_inv l l' Hstep) as (po & l1 & Hdis & Hexec).
  pose proof (dispatch_spec l _ l1 Hdis)
    as (_ & _ & _ & _ & _ & _ & _ & _ & _ & _ & Hsj & Hkeep).
  assert (Hv1 : (r < length (procs l1))%nat).
  { destruct Hsj as [-> _]. done. }
  destruct (Hkeep r) as (<- & _).
  unfold process_of_step, granted_in_step, cpu_ticks_in_step. rewrite Hdis.
  apply execute_cases in Hexec.
  destruct Hexec as [->|proc page m' Hrand Hacc ->|proc page m' Hrand Hacc Hio
                     |proc page m' l2 Hrand Hacc Hio Hcpu].
  - case_decide; [done|]. simpl. lia.
  - pose proof (access_now_intro proc l1 page _ Hrand Hacc) as Ha.
    unfold requests_now. rewrite Ha. case_decide; simpl; lia.
  - pose proof (access_now_intro proc l1 page _ Hrand Hacc) as Ha.
    rewrite (requests_now_hit proc l1 m' Ha). rewrite Ha. simpl.
    pose proof (io_loop_outcome proc _ _ _ _ Hio) as (Hbd & _).
    simpl in Hbd. destruct (proj1 Hbd eq_refl) as [io Hd]. rewrite Hd.
    destruct (decide (Some proc = Some r)) as [[= ->]|Hne].
    + pose proof (io_loop_procs r _ _ _ _ Hio Hv1) as (Hrem & _).
      simpl in Hrem. lia.
    + rewrite (io_loop_others proc _ _ _ _ r Hio) by congruence. simpl. lia.
  - pose proof (access_now_intro proc l1 page _ Hrand Hacc) as Ha.
    rewrite (requests_now_hit proc l1 m' Ha). rewrite Ha. simpl.
    pose proof (io_loop_outcome proc _ _ _ _ Hio) as (Hbd & _).
    simpl in Hbd.
    destruct (denied_io _ _ _ _) as [io|] eqn:Hd.
    { assert (false = true) by (apply Hbd; by eexists). done. }
    pose proof (io_loop_self proc _ _ _ _ Hio)
      as (_ & _ & _ & _ & _ & _ & _ & _ & _ & Hs2).
    destruct (cpu_tick_remaining proc l2 l' Hcpu) as [Hc1 Hc2].
    destruct (decide (Some proc = Some r)) as [[= ->]|Hne].
    + pose proof (io_loop_procs r _ _ _ _ Hio Hv1) as (Hrem & _).
      simpl in Hrem. rewrite Hc1; [lia|]. destruct Hs2 as [-> _]. done.
    + rewrite Hc2 by congruence.
      rewrite (io_loop_others proc _ _ _ _ r Hio) by congruence. simpl. lia.
Qed.

End EngineFacts.

(** ** Metrics *)

Section MetricsFacts.
Import Simulator EngineSpec.
Context {F : Type} (fdiv : Z -> Z -> F) (fmul : F -> Z -> F).

Lemma waiting_of_max p :
  waiting_of p = Z.max 0 (turnaround_of p - Process.total_cpu p).
Proof. unfold waiting_of. destruct (Z.leb_spec 0 (turnaround_of p - Process.total_cpu p)); lia. Qed.

Lemma set_waiting_time_keeps v p :
  turnaround_of (Process.set_waiting_time v p) = turnaround_of p /\
  waiting_of (Process.set_waiting_time v p) = waiting_of p.
Proof. done. Qed.

Lemma metrics_loop_spec fin : forall st total_wait total_turnaround,
  Forall (fun r => (r < length st)%nat) fin ->
  let '(st', tw, tu) := metrics_loop fin st total_wait total_turnaround in
  tw = total_wait + sumZ (fun r => waiting_of (deref st r)) fin /\
  tu = total_turnaround + sumZ (fun r => turnaround_of (deref st r)) fin /\
  length st' = length st /\
  (forall r, turnaround_of (deref st' r) = turnaround_of (deref st r) /\
             waiting_of (deref st' r) = waiting_of (deref st r)) /\
  (forall r, r ∈ fin ->
     Process.waiting_time (deref st' r) = waiting_of (deref st r)) /\
  (forall r, r ∉ fin -> deref st' r = deref st r).
Proof.
  induction fin as [|p fin IH]; intros st tw0 tu0 Hv; simpl.
  - split_and!; try done; try lia. intros r Hr. by apply elem_of_nil in Hr.
  - apply Forall_cons in Hv as [Hp Hv].
    set (st1 := update st p (Process.set_waiting_time (waiting_of (deref st p)))).
    assert (Hkeep : forall r, turnaround_of (deref st1 r) = turnaround_of (deref st r)
                              /\ waiting_of (deref st1 r) = waiting_of (deref st r)).
    { apply (deref_update_pres (fun q q' =>
               turnaround_of q' = turnaround_of q /\ waiting_of q' = waiting_of q));
        done. }
    assert (Hlen1 : length st1 = length st) by apply length_update.
    specialize (IH st1 (tw0 + Process.waiting_time (deref st1 p))
                  (tu0 + turnaround_of (deref st p))).
    destruct (metrics_loop fin st1 _ _) as [[st' tw] tu].
    destruct IH as (Htw & Htu & Hlen & Hk & Hin & Hout).
    { by rewrite Hlen1. }
    assert (Hwp : Process.waiting_time (deref st1 p) = waiting_of (deref st p)).
    { unfold st1. by rewrite deref_update_eq. }
    assert (Hs1 : sumZ (fun r => waiting_of (deref st1 r)) fin
                  = sumZ (fun r => waiting_of (deref st r)) fin).
    { clear -Hkeep. induction fin as [|q fin IH]; simpl; [done|].
      rewrite IH. by rewrite (proj2 (Hkeep q)). }
    assert (Hs2 : sumZ (fun r => turnaround_of (deref st1 r)) fin
                  = sumZ (fun r => turnaround_of (deref st r)) fin).
    { clear -Hkeep. induction fin as [|q fin IH]; simpl; [done|].
      rewrite IH. by rewrite (proj1 (Hkeep q)). }
    split_and!.
    + rewrite Htw, Hs1, Hwp. lia.
    + rewrite Htu, Hs2. lia.
    + congruence.
    + intros r. destruct (Hk r) as [-> ->]. apply Hkeep.
    + intros r Hr. destruct (decide (r ∈ fin)) as [Hrin|Hrout].
      * rewrite Hin by done. apply Hkeep.
      * rewrite Hout by done. apply elem_of_cons in Hr as [->|?]; done.
    + intros r Hr. apply not_elem_of_cons in Hr as [Hne Hr].
      rewrite Hout by done. unfold st1. by apply deref_update_ne.
Qed.

(** *** The range of floats *)

Lemma float_limit_gt_1 : 1 < float_limit.
Proof. unfold float_limit. vm_compute. reflexivity. Qed.

Lemma float_overflow_false a b M :
  b ≠ 0 -> Z.abs a <= M * Z.abs b -> M < float_limit ->
  float_overflow a b = false.
Proof.
  intros Hb Ha HM. unfold float_overflow. apply Z.leb_gt.
  assert (0 < Z.abs b) by lia.
  assert (M * Z.abs b < float_limit * Z.abs b).
  { by apply Z.mul_lt_mono_pos_r. }
  lia.
Qed.

Lemma sumZ_bounds {A} (f : A -> Z) (xs : list A) lo hi :
  (forall x, x ∈ xs -> lo <= f x <= hi) ->
  Z.of_nat (length xs) * lo <= sumZ f xs <= Z.of_nat (length xs) * hi.
Proof.
  induction xs as [|x xs IH]; intros H; simpl; [lia|].
  pose proof (H x ltac:(left)) as Hx.
  assert (Hxs : forall y, y ∈ xs -> lo <= f y <= hi).
  { intros y Hy. apply H. by right. }
  specialize (IH Hxs). rewrite Nat2Z.inj_succ. lia.
Qed.

(** *** What [compute_metrics] returns, and when it raises *)

Lemma compute_metrics_char (s : t) (st : store) :
  Forall (fun r => (r < length st)%nat) (finished s) ->
  let n := Z.of_nat (length (finished s)) in
  let waits :=
    sumZ (fun r => Z.max 0 (turnaround_of (deref st r)
                            - Process.total_cpu (deref st r))) (finished s) in
  let turns := sumZ (fun r => turnaround_of (deref st r)) (finished s) in
  let ticks := Z.max 1 (total_ticks s) in
  (forall r ft, r ∈ finished s ->
     Process.finish_time (deref st r) = Some ft ->
     turnaround_of (deref st r) = ft - Process.arrival (deref st r)) /\
  ticks ≠ 0 /\
  compute_metrics fdiv fmul s st ≠ Raise ZeroDivisionError /\
  if negb (n =? 0) && (float_overflow waits n || float_overflow turns n)
     || float_overflow (cpu_busy_ticks s) ticks
  then compute_metrics fdiv fmul s st = Raise OverflowError
  else
    exists m st', compute_metrics fdiv fmul s st = Ok (m, st') /\
      finished_count m = n /\
      (forall r, r ∈ finished s ->
         Process.waiting_time (deref st' r)
         = Z.max 0 (turnaround_of (deref st r)
                    - Process.total_cpu (deref st r))) /\
      avg_waiting_time m = (if n =? 0 then Int 0 else Float (fdiv waits n)) /\
      avg_turnaround_time m
        = (if n =? 0 then Int 0 else Float (fdiv turns n)) /\
      cpu_utilization_percent m = fmul (fdiv (cpu_busy_ticks s) ticks) 100.
Proof.
  intros Hv n waits turns ticks.
  assert (Hmax : ticks ≠ 0) by (unfold ticks; lia).
  split.
  { intros r ft _ Hft. unfold turnaround_of. by rewrite Hft. }
  split; [exact Hmax|].
  unfold compute_metrics.
  pose proof (metrics_loop_spec (finished s) st 0 0 Hv) as Hloop.
  destruct (metrics_loop (finished s) st 0 0) as [[st' tw] tu].
  destruct Hloop as (Htw & Htu & Hlen & Hk & Hin & Hout).
  assert (Hsum : sumZ (fun r => waiting_of (deref st r)) (finished s) = waits).
  { unfold waits. clear. induction (finished s) as [|q fin IH]; simpl; [done|].
    by rewrite IH, waiting_of_max. }
  assert (Hw : tw = waits) by (rewrite Htw, Hsum; lia).
  assert (Hu : tu = turns) by (rewrite Htu; unfold turns; lia).
  clear Htw Htu Hsum. subst tw tu. fold n. fold ticks.
  unfold truediv.
  destruct (Z.eqb_spec ticks 0) as [?|_]; [done|].
  destruct (Z.eqb_spec n 0) as [Hn|Hn]; simpl.
  - destruct (float_overflow (cpu_busy_ticks s) ticks); simpl.
    + done.
    + split; [done|]. eexists _, _. split; [reflexivity|]. simpl.
      split_and!; try done.
      intros r Hr. rewrite Hin by done. apply waiting_of_max.
  - destruct (float_overflow waits n); simpl; [done|].
    destruct (float_overflow turns n); simpl; [done|].
    destruct (float_overflow (cpu_busy_ticks s) ticks); simpl; [done|].
    split; [done|]. eexists _, _. split; [reflexivity|]. simpl.
    split_and!; try done.
    intros r Hr. rewrite Hin by done. apply waiting_of_max.
Qed.

Lemma compute_metrics_cases (s : t) (st : store) :
  compute_metrics fdiv fmul s st = Raise OverflowError \/
  exists m st', compute_metrics fdiv fmul s st = Ok (m, st') /\
    time_elapsed m = time s.
Proof.
  unfold compute_metrics, truediv.
  destruct (metrics_loop _ _ _ _) as [[st' tw] tu].
  destruct (Z.eqb_spec (Z.max 1 (total_ticks s)) 0) as [?|_]; [lia|].
  destruct (Z.eqb_spec (Z.of_nat (length (finished s))) 0) as [Hn|Hn]; simpl;
    repeat (destruct (float_overflow _ _); simpl; [by left|]);
    right; by eexists _, _.
Qed.

Lemma compute_metrics_in_range (s : t) (st : store) (M : Z) :
  Forall (fun r => (r < length st)%nat) (finished s) ->
  (forall r, r ∈ finished s ->
     0 <= turnaround_of (deref st r) <= M /\
     Z.max 0 (turnaround_of (deref st r) - Process.total_cpu (deref st r))
     <= M) ->
  0 <= cpu_busy_ticks s <= total_ticks s ->
  M < float_limit ->
  exists m st', compute_metrics fdiv fmul s st = Ok (m, st') /\
    time_elapsed m = time s.
Proof.
  intros Hv Hb Hc HM.
  destruct (compute_metrics_cases s st) as [Hraise|H]; [|done].
  exfalso.
  pose proof (compute_metrics_char s st Hv) as (_ & _ & _ & H).
  cbv zeta in H.
  set (n := Z.of_nat (length (finished s))) in *.
  assert (Hw : n ≠ 0 -> float_overflow
            (sumZ (fun r => Z.max 0 (turnaround_of (deref st r)
                                     - Process.total_cpu (deref st r)))
                  (finished s)) n = false).
  { intros Hn. apply (float_overflow_false _ _ M); [done| |done].
    pose proof (sumZ_bounds
      (fun r => Z.max 0 (turnaround_of (deref st r)
                         - Process.total_cpu (deref st r)))
      (finished s) 0 M) as Hs.
    fold n in Hs. destruct Hs as [Hlo Hhi].
    { intros r Hr. destruct (Hb r Hr). lia. }
    rewrite Z.abs_eq by lia. rewrite Z.abs_eq by lia. lia. }
  assert (Ht : n ≠ 0 -> float_overflow
            (sumZ (fun r => turnaround_of (deref st r)) (finished s)) n
            = false).
  { intros Hn. apply (float_overflow_false _ _ M); [done| |done].
    pose proof (sumZ_bounds (fun r => turnaround_of (deref st r))
                  (finished s) 0 M) as Hs.
    fold n in Hs. destruct Hs as [Hlo Hhi].
    { intros r Hr. destruct (Hb r Hr). lia. }
    rewrite Z.abs_eq by lia. rewrite Z.abs_eq by lia. lia. }
  assert (Hu : float_overflow (cpu_busy_ticks s) (Z.max 1 (total_ticks s))
               = false).
  { apply (float_overflow_false _ _ 1); [lia|lia|apply float_limit_gt_1]. }
  rewrite Hu in H. rewrite orb_false_r in H.
  destruct (Z.eqb_spec n 0) as [Hn|Hn]; simpl in H.
  - destruct H as (m & st' & H & _). congruence.
  - rewrite (Hw Hn), (Ht Hn) in H. simpl in H.
    destruct H as (m & st' & H & _). congruence.
Qed.

End MetricsFacts.

(** * Part III: the properties of the design document *)

Section MemoryManagerProperties.
Import MemoryManager.

(** C1. With a positive frame capacity, every finite sequence of
    [access_page] calls after construction runs without raising, and in
    the state it reaches the number of resident [(pid, page)] entries (the
    size of the frame map) is at most [num_frames]. *)
Theorem resident_never_exceeds_num_frames
  (n : Z) (policy : string) (calls : list (Z * Z * Z)) :
  0 < n ->
  exists s0 s, init n policy = Ok s0 /\ run s0 calls = Ok s /\
               num_frames s = n /\ resident s <= num_frames s.
Proof.
  intros Hn. destruct (init n policy) as [s0|e] eqn:Hinit; [|done].
  assert (Hinv0 : inv s0) by (apply (inv_init n policy); [lia | done]).
  assert (Hn0 : num_frames s0 = n) by (by injection Hinit as <-).
  destruct (inv_run calls s0 Hinv0) as (s & Hrun & Hinv & Hns & _); [lia|].
  exists s0, s. split; [done|]. split; [done|]. split; [congruence|].
  by apply inv_resident.
Qed.

Lemma resident_never_exceeds_num_frames_witness :
  exists s0 s, init 2 "FIFO" = Ok s0 /\
    run s0 [(1, 0, 0); (1, 1, 1); (1, 2, 2); (2, 0, 3)] = Ok s /\
    num_frames s = 2 /\ resident s <= num_frames s.
Proof.
  apply (resident_never_exceeds_num_frames 2 "FIFO"
           [(1, 0, 0); (1, 1, 1); (1, 2, 2); (2, 0, 3)]).
  lia.
Defined.

(** C2. Under LRU, a miss with every frame occupied evicts the resident key
    with the smallest last-access timestamp, and among keys with that
    timestamp the one loaded earliest; with 2 frames and pages 0, 1, 0, 2
    accessed on successive ticks, loading page 2 evicts page 1, not 0. *)
Theorem lru_evicts_least_recently_used :
  (forall (n : Z) (policy : string) (s : t) (pid page tick : Z),
     0 < n -> upper policy = "LRU" -> reachable n policy s ->
     frame_map s !! (pid, page) = None ->
     Z.of_nat (length (frames s)) = num_frames s ->
     exists victim tv s',
       access_page s pid page tick = Ok (false, s') /\
       is_Some (frame_map s !! victim) /\
       OrdDict.get victim (last_used s) = Some tv /\
       (forall k t, is_Some (frame_map s !! k) ->
          OrdDict.get k (last_used s) = Some t ->
          tv <= t /\
          (t = tv ->
           (index_of victim (fifo_queue s) <= index_of k (fifo_queue s))%nat)) /\
       frame_map s' !! victim = None /\
       is_Some (frame_map s' !! (pid, page)) /\
       (forall k, k ≠ victim -> k ≠ (pid, page) ->
          frame_map s' !! k = frame_map s !! k)) /\
  (exists s0 s3 s4,
     init 2 "LRU" = Ok s0 /\
     run s0 [(1, 0, 0); (1, 1, 1); (1, 0, 2)] = Ok s3 /\
     access_page s3 1 2 3 = Ok (false, s4) /\
     frame_map s4 !! (1, 1) = None /\
     is_Some (frame_map s4 !! (1, 0)) /\
     is_Some (frame_map s4 !! (1, 2))).
Proof.
  split.
  - intros n policy s pid page tick Hn Hpol Hreach Hmiss Hfull.
    destruct (reachable_inv n policy s Hn Hreach) as (Hinv & Hns & Hrepl).
    pose proof Hinv as [Hord Hnd Hdom Hlen Hcap].
    assert (Hne : fifo_queue s ≠ []).
    { intros Hnil. rewrite Hnil in Hlen. simpl in Hlen. lia. }
    destruct (choose_victim_full s Hinv Hne) as (victim & Hcv & Hvin & Hlru).
    destruct Hlru as [tv Hfirst]; [congruence|].
    destruct (first_min_least (last_used s) victim tv) as [Hget Hleast];
      [unfold OrdDict.wf; by rewrite Hord | done |].
    destruct (proj1 (Hdom victim) Hvin) as [vf Hvf].
    assert (Hvk : victim ≠ (pid, page)) by (intros ->; congruence).
    exists victim, tv. eexists.
    split.
    { unfold access_page. rewrite Hmiss. unfold load_page. simpl.
      destruct (Z.ltb_spec (Z.of_nat (length (frames s))) (num_frames s));
        [lia|].
      unfold choose_victim in *. simpl. rewrite Hcv. simpl.
      rewrite Hvf. simpl. reflexivity. }
    simpl. split; [by eexists|]. split; [done|]. split.
    { intros k t _ Hk. rewrite <- Hord. by apply Hleast. }
    split.
    { rewrite lookup_insert_ne by done. apply lookup_delete_eq. }
    split.
    { rewrite lookup_insert_eq. by eexists. }
    intros k Hk1 Hk2. rewrite lookup_insert_ne by done.
    by rewrite lookup_delete_ne.
  - eexists _, _, _. split; [reflexivity|].
    split; [vm_compute; reflexivity|].
    split; [vm_compute; reflexivity|].
    split; [vm_compute; reflexivity|].
    split; eexists; vm_compute; reflexivity.
Qed.

Lemma lru_evicts_least_recently_used_witness :
  exists s, reachable 2 "lru" s /\
  exists victim tv s',
    access_page s 1 2 3 = Ok (false, s') /\
    is_Some (frame_map s !! victim) /\
    OrdDict.get victim (last_used s) = Some tv /\
    (forall k t, is_Some (frame_map s !! k) ->
       OrdDict.get k (last_used s) = Some t ->
       tv <= t /\
       (t = tv ->
        (index_of victim (fifo_queue s) <= index_of k (fifo_queue s))%nat)) /\
    frame_map s' !! victim = None /\
    is_Some (frame_map s' !! (1, 2)) /\
    (forall k, k ≠ victim -> k ≠ (1, 2) ->
       frame_map s' !! k = frame_map s !! k).
Proof.
  assert (Hr : exists s, run (mk 2 "LRU" [] ∅ [] 0 [] ∅)
                             [(1, 0, 0); (1, 1, 1); (1, 0, 2)] = Ok s).
  { eexists. vm_compute. reflexivity. }
  destruct Hr as [s Hs]. exists s.
  assert (Hreach : reachable 2 "lru" s).
  { eexists _, _. split; [reflexivity | exact Hs]. }
  split; [exact Hreach|].
  apply (proj1 lru_evicts_least_recently_used 2 "lru" s 1 2 3).
  - lia.
  - reflexivity.
  - exact Hreach.
  - revert Hs. vm_compute. intros [= <-]. reflexivity.
  - revert Hs. vm_compute. intros [= <-]. reflexivity.
Defined.

End MemoryManagerProperties.

Section ZeroCapacity.
Import MemoryManager.

(** C5 fails on the code: the constructor checks nothing, so a capacity of
    zero is accepted, and the fault comes from the first [access_page]. *)
Lemma zero_capacity_is_accepted :
  (~ exists e, init 0 "FIFO" = Raise e) /\
  (exists s, init 0 "FIFO" = Ok s /\ access_page s 1 0 0 = Raise IndexError).
Proof.
  split.
  - intros [e He]. discriminate He.
  - eexists. split; [reflexivity|]. vm_compute. reflexivity.
Qed.

(** C5 (amended). Constructing a manager with frame capacity zero succeeds
    for every policy name; the first [access_page] on it, whatever the
    page, misses and raises inside [load_page]: [ValueError] under LRU
    (minimum of an empty table), [IndexError] under FIFO and under any
    other policy name (pop from an empty queue). *)
Theorem zero_capacity_faults_at_first_access
  (policy : string) (pid page tick : Z) :
  exists s, init 0 policy = Ok s /\
    access_page s pid page tick =
      Raise (if String.eqb (upper policy) "FIFO" then IndexError
             else if String.eqb (upper policy) "LRU" then ValueError
             else IndexError).
Proof.
  eexists. split; [reflexivity|].
  unfold access_page. simpl. rewrite lookup_empty.
  unfold load_page, choose_victim. simpl.
  destruct (String.eqb (upper policy) "FIFO"); [done|].
  destruct (String.eqb (upper policy) "LRU"); done.
Qed.

End ZeroCapacity.

Section FileSimulatorProperties.
Import FileSimulator.

(** C3. [request] on a file that is not locked records the caller as
    holder until [tick + duration], appends a "granted" log entry, returns
    granted with that release tick, and leaves the conflict counter and
    the wait queues unchanged; on a locked file it appends
    [(pid, op, duration)] to the file's wait queue, adds exactly one to the
    conflict counter, appends a "queued" log entry, returns not granted,
    and leaves the lock table unchanged. *)
Theorem request_grants_or_queues
  (s : t) (pid : Z) (filename op : string) (tick duration : Z) :
  let r := request s pid filename op tick duration in
  (OrdDict.get filename (locks s) = None ->
     r.1 = (true, Some (tick + duration)) /\
     OrdDict.get filename (locks r.2) = Some (pid, tick + duration) /\
     (forall f, f ≠ filename ->
        OrdDict.get f (locks r.2) = OrdDict.get f (locks s)) /\
     log r.2 = log s ++ [(tick, pid, filename, op, "granted")] /\
     conflicts r.2 = conflicts s /\
     waiting r.2 = waiting s) /\
  (is_Some (OrdDict.get filename (locks s)) ->
     r.1 = (false, None) /\
     queue (waiting r.2) filename
       = queue (waiting s) filename ++ [(pid, op, duration)] /\
     (forall f, f ≠ filename -> waiting r.2 !! f = waiting s !! f) /\
     conflicts r.2 = conflicts s + 1 /\
     log r.2 = log s ++ [(tick, pid, filename, op, "queued")] /\
     locks r.2 = locks s).
Proof.
  intros r. subst r. unfold request. split.
  - intros ->. simpl. split; [done|]. split; [apply od_get_set_eq|].
    split; [|done]. intros f Hf. by apply od_get_set_ne.
  - intros [v ->]. simpl. split; [done|]. split.
    { unfold queue at 1. by rewrite lookup_insert_eq. }
    split; [|done]. intros f Hf. by rewrite lookup_insert_ne.
Qed.

Lemma request_grants_or_queues_witness :
  let s := (request init 1 "fileA" "r" 0 2).2 in
  (let r := request init 1 "fileA" "r" 0 2 in
   r.1 = (true, Some 2) /\
   OrdDict.get "fileA" (locks r.2) = Some (1, 2) /\
   log r.2 = [(0, 1, "fileA", "r", "granted")] /\
   conflicts r.2 = 0) /\
  (let r := request s 2 "fileA" "w" 0 3 in
   r.1 = (false, None) /\
   queue (waiting r.2) "fileA" = [(2, "w", 3)] /\
   conflicts r.2 = 1 /\
   locks r.2 = locks s).
Proof.
  intros s. split.
  - destruct (request_grants_or_queues init 1 "fileA" "r" 0 2) as [Hfree _].
    destruct Hfree as (H1 & H2 & _ & H4 & H5 & _); [reflexivity|].
    repeat split; assumption.
  - destruct (request_grants_or_queues s 2 "fileA" "w" 0 3) as [_ Hheld].
    destruct Hheld as (H1 & H2 & _ & H4 & _ & H6);
      [eexists; reflexivity|].
    repeat split; assumption.
Defined.

(** C4. [release_expired tick] releases every lock whose release tick is
    at most [tick]; when the released file has waiters, the head
    [(pid, op, duration)] leaves the queue and holds a fresh lock until
    [tick + duration], with a "granted_from_queue" log entry; locks with a
    later release tick, and the queues of the files that were not
    released, are unchanged.  The new log entries are exactly those
    hand-overs, in lock-table order, and the conflict counter is kept. *)
Theorem release_expired_hands_over (s : t) (tick : Z) :
  OrdDict.wf (locks s) ->
  let s' := release_expired s tick in
  (forall f p r, OrdDict.get f (locks s) = Some (p, r) -> r <= tick ->
     match queue (waiting s) f with
     | [] => OrdDict.get f (locks s') = None /\ queue (waiting s') f = []
     | (p', o', d') :: q =>
         OrdDict.get f (locks s') = Some (p', tick + d') /\
         queue (waiting s') f = q /\
         (tick, p', f, o', "granted_from_queue") ∈ log s'
     end) /\
  (forall f p r, OrdDict.get f (locks s) = Some (p, r) -> tick < r ->
     OrdDict.get f (locks s') = Some (p, r) /\
     waiting s' !! f = waiting s !! f) /\
  (forall f, OrdDict.get f (locks s) = None ->
     OrdDict.get f (locks s') = None /\ waiting s' !! f = waiting s !! f) /\
  conflicts s' = conflicts s /\
  log s' = log s ++
    concat ((fun f => handover_log tick f (queue (waiting s) f))
              <$> to_release tick (locks s)).
Proof.
  intros Hwf s'. subst s'. unfold release_expired.
  pose proof (to_release_NoDup tick (locks s) Hwf) as Hnd.
  assert (Hlog := release_fold_log tick (to_release tick (locks s)) s Hnd).
  split; [|split; [|split; [|split]]].
  - intros f p r Hget Hr.
    assert (Hin : f ∈ to_release tick (locks s)).
    { apply elem_of_to_release; [done|]. by exists p, r. }
    pose proof (release_fold_self tick _ s f Hnd Hin Hwf) as Hself.
    destruct (queue (waiting s) f) as [|[[p' o'] d'] q] eqn:Hq; [done|].
    destruct Hself as [Hl Hw]. split; [done|]. split; [done|].
    rewrite Hlog. apply elem_of_app. right.
    apply list_elem_of_In, in_concat.
    exists [(tick, p', f, o', "granted_from_queue")].
    split; [|by left]. apply list_elem_of_In, list_elem_of_fmap. exists f.
    by rewrite Hq.
  - intros f p r Hget Hr.
    assert (Hnin : f ∉ to_release tick (locks s)).
    { rewrite elem_of_to_release by done. intros (p' & r' & Hg & Hr').
      rewrite Hget in Hg. injection Hg as <- <-. lia. }
    destruct (release_fold_other tick _ s f Hnin) as [-> ->]. done.
  - intros f Hget.
    assert (Hnin : f ∉ to_release tick (locks s)).
    { rewrite elem_of_to_release by done. intros (p' & r' & Hg & Hr').
      congruence. }
    destruct (release_fold_other tick _ s f Hnin) as [-> ->]. done.
  - apply release_fold_conflicts.
  - done.
Qed.

Lemma release_expired_hands_over_witness :
  let s := (request (request init 1 "fileA" "r" 0 2).2 2 "fileA" "w" 0 3).2 in
  let s' := release_expired s 2 in
  OrdDict.get "fileA" (locks s') = Some (2, 5) /\
  queue (waiting s') "fileA" = [] /\
  (2, 2, "fileA", "w", "granted_from_queue") ∈ log s' /\
  conflicts s' = 1.
Proof.
  intros s s'.
  assert (Hwf : OrdDict.wf (locks s)).
  { unfold OrdDict.wf. vm_compute. apply NoDup_singleton. }
  destruct (release_expired_hands_over s 2 Hwf)
    as (Hrel & _ & _ & Hconf & _).
  specialize (Hrel "fileA" 1 2 ltac:(reflexivity) ltac:(lia)).
  change (queue (waiting s) "fileA") with [(2, "w", 3)] in Hrel.
  destruct Hrel as (H1 & H2 & H3).
  split; [exact H1|]. split; [exact H2|]. split; [exact H3|].
  exact Hconf.
Defined.

End FileSimulatorProperties.

Section MetricsProperties.
Import Simulator EngineSpec.

(** C7. [compute_metrics] never divides by zero, and it computes what the
    formulas say.  For a finished process with finish time [ft], the
    turnaround is [ft - arrival] and the waiting time stored is
    [max 0 (turnaround - total_cpu)]; the two averages are the quotient of
    the sum over the finished processes by their number, and are 0 when no
    process finished; the CPU utilisation is
    [cpu_busy_ticks / max 1 total_ticks * 100], whose divisor is not zero.
    The call returns these metrics unless one of the quotients it takes is
    too large for a float, in which case the division raises
    [OverflowError]; it raises nothing else. *)
Theorem compute_metrics_formulas {F : Type} (fdiv : Z -> Z -> F)
  (fmul : F -> Z -> F) (s : t) (st : store) :
  Forall (fun r => (r < length st)%nat) (finished s) ->
  let n := Z.of_nat (length (finished s)) in
  let waits :=
    sumZ (fun r => Z.max 0 (turnaround_of (deref st r)
                            - Process.total_cpu (deref st r))) (finished s) in
  let turns := sumZ (fun r => turnaround_of (deref st r)) (finished s) in
  let ticks := Z.max 1 (total_ticks s) in
  (forall r ft, r ∈ finished s ->
     Process.finish_time (deref st r) = Some ft ->
     turnaround_of (deref st r) = ft - Process.arrival (deref st r)) /\
  ticks ≠ 0 /\
  compute_metrics fdiv fmul s st ≠ Raise ZeroDivisionError /\
  if negb (n =? 0) && (float_overflow waits n || float_overflow turns n)
     || float_overflow (cpu_busy_ticks s) ticks
  then compute_metrics fdiv fmul s st = Raise OverflowError
  else
    exists m st', compute_metrics fdiv fmul s st = Ok (m, st') /\
      finished_count m = n /\
      (forall r, r ∈ finished s ->
         Process.waiting_time (deref st' r)
         = Z.max 0 (turnaround_of (deref st r)
                    - Process.total_cpu (deref st r))) /\
      avg_waiting_time m = (if n =? 0 then Int 0 else Float (fdiv waits n)) /\
      avg_turnaround_time m
        = (if n =? 0 then Int 0 else Float (fdiv turns n)) /\
      cpu_utilization_percent m = fmul (fdiv (cpu_busy_ticks s) ticks) 100.
Proof. apply compute_metrics_char. Qed.

Lemma compute_metrics_formulas_witness :
  let s := mk (Scheduler.RR (RoundRobinScheduler.init 2))
              (Examples.memory 1 "FIFO") FileSimulator.init 2 9 ∅ [0%nat; 1%nat]
              [0%nat; 1%nat] 6 8 in
  let st := [Process.mk 1 0 2 0 1 [] 0 (Some 0) (Some 5) 0 None [];
             Process.mk 2 1 4 0 1 [] 0 (Some 2) (Some 9) 0 None []] in
  let late := [Process.mk 1 0 2 0 1 [] 0 (Some 0) (Some (10 ^ 400)) 0 None [];
               Process.mk 2 1 4 0 1 [] 0 (Some 2) (Some 9) 0 None []] in
  (exists m st', compute_metrics Qdiv_int Qmul_int s st = Ok (m, st') /\
     finished_count m = 2 /\
     avg_waiting_time m = Float (Qdiv_int 7 2) /\
     avg_turnaround_time m = Float (Qdiv_int 13 2) /\
     cpu_utilization_percent m = Qmul_int (Qdiv_int 6 8) 100) /\
  compute_metrics Qdiv_int Qmul_int s late = Raise OverflowError.
Proof.
  intros s st late. split.
  - pose proof (compute_metrics_formulas Qdiv_int Qmul_int s st
                  ltac:(repeat constructor)) as (_ & _ & _ & H).
    vm_compute (negb _ && _ || _) in H. cbv iota in H.
    destruct H as (m & st' & Hm & Hn & _ & Hw & Ht & Hu).
    exists m, st'. split; [exact Hm|]. split; [exact Hn|].
    split; [exact Hw|]. split; [exact Ht | exact Hu].
  - pose proof (compute_metrics_formulas Qdiv_int Qmul_int s late
                  ltac:(repeat constructor)) as (_ & _ & _ & H).
    vm_compute (negb _ && _ || _) in H. cbv iota in H. exact H.
Defined.

End MetricsProperties.

Section SJFProperties.
Import SJFScheduler.

Lemma sjf_do_call_flag st (s1 s2 : t) c :
  heap s1 = heap s2 ->
  match do_call st s1 c, do_call st s2 c with
  | Ok (a1, s1'), Ok (a2, s2') =>
      a1 = a2 /\ heap s1' = heap s2' /\
      preemptive s1' = preemptive s1 /\ preemptive s2' = preemptive s2
  | Raise e1, Raise e2 => e1 = e2
  | _, _ => False
  end.
Proof.
  intros Hh. destruct c as [proc|now|]; simpl.
  - unfold add_process. rewrite Hh.
    destruct (heapq.heappush st (heap s2) _); simpl; done.
  - unfold tick. rewrite Hh. destruct (heap s2) as [|e h] eqn:Hheap; simpl.
    + rewrite Hh. done.
    + destruct (heapq.heappop st (e :: h)); simpl; done.
  - unfold has_ready. rewrite Hh. done.
Qed.

Lemma sjf_do_calls_flag cs : forall (s1 s2 : t),
  heap s1 = heap s2 ->
  match do_calls s1 cs, do_calls s2 cs with
  | Ok (out1, s1'), Ok (out2, s2') =>
      out1 = out2 /\ heap s1' = heap s2' /\
      preemptive s1' = preemptive s1 /\ preemptive s2' = preemptive s2
  | Raise e1, Raise e2 => e1 = e2
  | _, _ => False
  end.
Proof.
  induction cs as [|[st c] cs IH]; intros s1 s2 Hh; simpl; [done|].
  pose proof (sjf_do_call_flag st s1 s2 c Hh) as Hc.
  destruct (do_call st s1 c) as [[a1 s1']|e1],
           (do_call st s2 c) as [[a2 s2']|e2]; simpl; try done.
  destruct Hc as (-> & Hh' & Hp1 & Hp2).
  specialize (IH s1' s2' Hh').
  destruct (do_calls s1' cs) as [[out1 s1'']|e1],
           (do_calls s2' cs) as [[out2 s2'']|e2]; simpl; try done.
  destruct IH as (-> & Hh'' & Hp1' & Hp2'). split_and!; congruence.
Qed.

(** C8. Any sequence of [add_process], [tick] and [has_ready] calls on the
    same processes gives the same results on a scheduler built with
    [preemptive=True] and on one built with [preemptive=False], and leaves
    the same heap; the two schedulers differ only in the stored flag, which
    no method reads.  If a call raises on one, it raises the same exception
    on the other. *)
Theorem sjf_preemptive_flag_has_no_effect (cs : list (store * call)) :
  match do_calls (init true) cs, do_calls (init false) cs with
  | Ok (out1, s1), Ok (out2, s2) =>
      out1 = out2 /\ s1 = mk true (heap s2) /\ s2 = mk false (heap s1)
  | Raise e1, Raise e2 => e1 = e2
  | _, _ => False
  end.
Proof.
  pose proof (sjf_do_calls_flag cs (init true) (init false) eq_refl) as H.
  destruct (do_calls (init true) cs) as [[out1 s1]|e1],
           (do_calls (init false) cs) as [[out2 s2]|e2]; try done.
  destruct H as (-> & Hh & Hp1 & Hp2). simpl in *.
  destruct s1 as [p1 h1], s2 as [p2 h2]. simpl in *. subst. done.
Qed.

End SJFProperties.

Section EngineProperties.
Import Simulator EngineSpec.

(** C6 fails on the code: the loop has no test of [remaining] before the
    CPU tick.  A lone process with [total_cpu = 0] faults on its first
    dispatch tick and is still unfinished after it; the next tick runs one
    CPU tick for it and only then finishes it, with [cpu_busy_ticks = 1]. *)
Lemma zero_demand_runs_one_cpu_tick :
  let l1 := Examples.after 1 Examples.zero_demand in
  let l2 := Examples.after 2 Examples.zero_demand in
  Process.total_cpu (deref (procs Examples.zero_demand) 0%nat) = 0 /\
  Examples.takes_turns Examples.rng0 2 Examples.zero_demand = true /\
  step Examples.rng0 Examples.zero_demand = Ok l1 /\
  Process.start_time (deref (procs l1) 0%nat) = Some 0 /\
  running_proc l1 = Some 0%nat /\
  finished (self l1) = [] /\
  step Examples.rng0 l1 = Ok l2 /\
  finished (self l2) = [0%nat] /\
  Process.finish_time (deref (procs l2) 0%nat) = Some 2 /\
  cpu_busy_ticks (self l2) = 1.
Proof.
  vm_compute. repeat split.
Qed.

(** C6 (amended). A process whose remaining CPU demand is not positive,
    and whose I/O durations are not negative, is finished by the first
    turn of the loop in which it is the process of the tick, its memory
    access hits and none of its lock requests is denied; that turn runs
    one CPU tick for it: [cpu_busy_ticks] and [total_ticks] grow by one,
    and it joins [finished] with [finish_time] the clock after the tick.
    A turn whose memory access faults leaves it running, unfinished, with
    [cpu_busy_ticks] unchanged. *)
Theorem nonpositive_demand_costs_one_cpu_tick
  (rng : nat -> Z) (l l1 l' : loop_state) (proc : ref) :
  dispatch l = Ok (Some proc, l1) ->
  (proc < length (procs l1))%nat ->
  Process.remaining (deref (procs l1) proc) <= 0 ->
  Forall (fun io => 0 <= IOOperation.duration io)
         (Process.io_ops (deref (procs l1) proc)) ->
  step rng l = Ok l' ->
  (forall m', access_now rng proc l1 = Ok (false, m') ->
     finished (self l') = finished (self l) /\
     cpu_busy_ticks (self l') = cpu_busy_ticks (self l) /\
     running_proc l' = Some proc) /\
  (forall m', access_now rng proc l1 = Ok (true, m') ->
     denied_in_step rng l = None ->
     finished (self l') = finished (self l) ++ [proc] /\
     cpu_busy_ticks (self l') = cpu_busy_ticks (self l) + 1 /\
     total_ticks (self l') = total_ticks (self l) + 1 /\
     Process.finish_time (deref (procs l') proc) = Some (time (self l')) /\
     running_proc l' = None).
Proof.
  intros Hdis Hv Hrem Hdur Hstep.
  destruct (step_inv rng l l' Hstep) as (po & l1' & Hdis' & Hexec).
  rewrite Hdis in Hdis'. injection Hdis' as <- <-.
  pose proof (dispatch_spec l _ l1 Hdis)
    as (Ht & Htt & Hb & Hf & _ & _ & _ & _ & Hrun & _).
  split.
  - intros m' Ha.
    destruct (execute_fault rng proc l1 l' m' Hexec Ha)
      as (Hf' & Hb' & _ & _ & Hrun' & _).
    split_and!; congruence.
  - intros m' Ha Hden.
    destruct (execute_hit rng proc l1 l' m' Hexec Ha)
      as (b & l2 & Hio & Hl' & HG & HD).
    unfold denied_in_step in Hden. rewrite Hdis, HD in Hden.
    pose proof (io_loop_outcome proc _ _ b l2 Hio) as (Hbd & _). simpl in Hbd.
    destruct (denied_io _ _ _ _) as [io|] eqn:Hd; [done|].
    assert (b = false) as ->.
    { destruct b; [|done]. destruct (proj1 Hbd eq_refl) as [? ?]. done. }
    pose proof (io_loop_self proc _ _ _ _ Hio)
      as (_ & Htt2 & Hb2 & Hf2 & _ & _ & _ & _ & _ & Hs2).
    pose proof (io_loop_procs proc _ _ _ _ Hio Hv) as (Hrem2 & _).
    simpl in *.
    assert (0 <= sum_durations
              (granted_ios (fs (self l1)) (Process.pid (deref (procs l1) proc))
                 (time (self l1))
                 (io_now (deref (procs l1) proc) (time (self l1))))).
    { by apply sum_durations_nonneg, granted_ios_Forall, io_now_Forall. }
    destruct (cpu_tick_finish proc l2) as (l'' & Hcpu & Hfin & Hft & _ & Hrun2).
    { destruct Hs2 as [-> _]. done. }
    { lia. }
    rewrite Hl' in Hcpu. injection Hcpu as <-.
    apply cpu_tick_spec in Hl' as (_ & Htt3 & Hb3 & _).
    split_and!; try done; congruence.
Qed.

Lemma nonpositive_demand_costs_one_cpu_tick_witness :
  let l := Examples.after 1 Examples.zero_demand in
  let l' := Examples.after 2 Examples.zero_demand in
  finished (self l') = finished (self l) ++ [0%nat] /\
  cpu_busy_ticks (self l') = cpu_busy_ticks (self l) + 1.
Proof.
  intros l l'.
  assert (Hdis : dispatch l = Ok (Some 0%nat, Examples.dispatched l))
    by (vm_compute; reflexivity).
  assert (Hv : (0 < length (procs (Examples.dispatched l)))%nat)
    by (vm_compute; lia).
  assert (Hrem : Process.remaining (deref (procs (Examples.dispatched l)) 0%nat)
                 <= 0) by (vm_compute; discriminate).
  assert (Hdur : Forall (fun io => 0 <= IOOperation.duration io)
            (Process.io_ops (deref (procs (Examples.dispatched l)) 0%nat)))
    by (vm_compute; constructor).
  assert (Hstep : step Examples.rng0 l = Ok l') by (vm_compute; reflexivity).
  assert (Ha : access_now Examples.rng0 0%nat (Examples.dispatched l)
               = Ok (true, mem (self l'))) by (vm_compute; reflexivity).
  assert (Hden : denied_in_step Examples.rng0 l = None)
    by (vm_compute; reflexivity).
  destruct (nonpositive_demand_costs_one_cpu_tick Examples.rng0 l
              (Examples.dispatched l) l' 0%nat Hdis Hv Hrem Hdur Hstep)
    as [_ Hfin].
  destruct (Hfin _ Ha Hden) as (H1 & H2 & _). split; [exact H1 | exact H2].
Defined.

(** C9 fails on the code: a denial does not move the clock.  With one
    process and events A, B at tick 1 and C at tick 2 on the same file, B
    is denied in the second turn, its queued request is granted from the
    queue in the third turn, and C is denied in the third turn at clock 2;
    the fourth turn starts at clock 2 again, dispatches the process again
    and requests C again.  And when durations may be negative the lost
    event can even be granted later: in the second workload C is denied in
    the third turn and granted in the seventh, after an event of duration
    -3 has moved the clock back to 2, and the remaining demand drops by
    C's duration and the CPU tick (20 to 18). *)
Lemma denied_io_is_requested_again :
  (let l2 := Examples.after 2 Examples.contended in
   let l3 := Examples.after 3 Examples.contended in
   let l4 := Examples.after 4 Examples.contended in
   Examples.takes_turns Examples.rng0 4 Examples.contended = true /\
   step Examples.rng0 l2 = Ok l3 /\ step Examples.rng0 l3 = Ok l4 /\
   denied_in_step Examples.rng0 l2 = Some (0%nat, Examples.event_c) /\
   denied_in_step Examples.rng0 l3 = Some (0%nat, Examples.event_c) /\
   time (self l2) = 2 /\ time (self l3) = 2 /\ time (self l4) = 2 /\
   FileSimulator.log (fs (self l4))
   = [(1, 1, "f", "r", "granted"); (2, 1, "f", "w", "queued");
      (2, 1, "f", "w", "granted_from_queue");
      (2, 1, "f", "r", "queued"); (2, 1, "f", "r", "queued")]) /\
  (let l2 := Examples.after_switch 2 Examples.rewound in
   let l6 := Examples.after_switch 6 Examples.rewound in
   let l7 := Examples.after_switch 7 Examples.rewound in
   Examples.takes_turns Examples.rng_switch 7 Examples.rewound = true /\
   iterate Examples.rng_switch 4 l2 = Ok l6 /\
   step Examples.rng_switch l6 = Ok l7 /\
   denied_in_step Examples.rng_switch l2 = Some (0%nat, Examples.event_c) /\
   granted_in_step Examples.rng_switch l6 = [Examples.event_c] /\
   Process.remaining (deref (procs l6) 0%nat) = 20 /\
   Process.remaining (deref (procs l7) 0%nat) = 18).
Proof.
  vm_compute. repeat split.
Qed.

(** C9 (amended). When a lock request of the running process is denied,
    the process is put back in the scheduler and is no longer running, its
    waiting time grows by one, and the denial moves neither the clock nor
    the remaining demand (both change only by the durations granted
    earlier in the same turn).  Events are matched by equality of their
    scheduled time with the clock at the start of the turn, so a turn only
    requests events scheduled at its clock, and the lines it adds to the
    log are those of the events it grants and of the one it denies; the
    denied event is requested
    again whenever the process is the process of a later turn that starts
    at the same clock, hits memory and denies no earlier event.  The first
    part of a turn, where [release_expired] hands locks to queued
    requests, changes no remaining demand; a turn changes the remaining
    demand of its process by the durations granted in it and its CPU tick
    and of no other process.  When no duration is negative and the denied
    event lasts a positive time, no event scheduled at that time on that
    file, and so not the denied event, is granted in any later turn. *)
Theorem denied_io_requeues_and_may_be_retried (rng : nat -> Z) :
  (forall l l' proc io,
     step rng l = Ok l' -> denied_in_step rng l = Some (proc, io) ->
     (proc < length (procs l))%nat ->
     exists l1, dispatch l = Ok (Some proc, l1) /\
       running_proc l' = None /\
       Scheduler.add_process (scheduler (self l1)) (procs l') proc
         = Ok (scheduler (self l')) /\
       Process.waiting_time (deref (procs l') proc)
         = Process.waiting_time (deref (procs l) proc) + 1 /\
       time (self l') = time (self l) + sum_durations (granted_in_step rng l) /\
       total_ticks (self l') = total_ticks (self l) /\
       cpu_busy_ticks (self l') = cpu_busy_ticks (self l) /\
       Process.remaining (deref (procs l') proc)
         = Process.remaining (deref (procs l) proc)
           - sum_durations (granted_in_step rng l) /\
       FileSimulator.conflicts (fs (self l'))
         = FileSimulator.conflicts
             (FileSimulator.release_expired (fs (self l)) (time (self l))) + 1) /\
  (forall l l',
     step rng l = Ok l' ->
     FileSimulator.log (fs (self l'))
     = FileSimulator.log
         (FileSimulator.release_expired (fs (self l)) (time (self l)))
       ++ requests_log rng l) /\
  (forall l io,
     io ∈ granted_in_step rng l \/
     (exists proc, denied_in_step rng l = Some (proc, io)) ->
     IOOperation.time io = time (self l)) /\
  (forall l proc l1 m' io ios,
     dispatch l = Ok (Some proc, l1) ->
     access_now rng proc l1 = Ok (true, m') ->
     io_now (deref (procs l1) proc) (time (self l)) = io :: ios ->
     (exists G, granted_in_step rng l = io :: G) \/
     denied_in_step rng l = Some (proc, io)) /\
  (forall l po l1 r,
     dispatch l = Ok (po, l1) ->
     Process.remaining (deref (procs l1) r)
       = Process.remaining (deref (procs l) r)) /\
  (forall l l' r,
     step rng l = Ok l' -> (r < length (procs l))%nat ->
     Process.remaining (deref (procs l') r)
     = Process.remaining (deref (procs l) r)
       - (if decide (process_of_step l = Some r)
          then sum_durations (granted_in_step rng l) + cpu_ticks_in_step rng l
          else 0)) /\
  (forall l l' proc io n l'' io',
     OrdDict.wf (FileSimulator.locks (fs (self l))) ->
     durations_nonneg (procs l) ->
     step rng l = Ok l' -> denied_in_step rng l = Some (proc, io) ->
     0 < IOOperation.duration io ->
     iterate rng n l' = Ok l'' ->
     IOOperation.time io' = IOOperation.time io ->
     IOOperation.filename io' = IOOperation.filename io ->
     io' ∉ granted_in_step rng l'').
Proof.
  split_and!.
  - intros l l' proc io Hstep Hden Hv. by apply (step_denied rng l l' proc io).
  - intros l l' Hstep. by apply step_log.
  - intros l io Hreq. unfold granted_in_step, denied_in_step in Hreq.
    destruct (dispatch l) as [[po l1]|e] eqn:Hdis.
    2:{ destruct Hreq as [H|[? H]]; [by apply elem_of_nil in H | done]. }
    pose proof (dispatch_spec l _ l1 Hdis) as (Ht & _).
    destruct (requests_now_inv rng po l1 io) as (proc & m' & _ & _ & Hin).
    { destruct Hreq as [H|[proc H]]; [by left|]. right.
      destruct po as [proc'|]; [|done].
      destruct (requests_now rng (Some proc') l1).2; [|done].
      by injection H as _ ->. }
    apply io_now_time in Hin. lia.
  - intros l proc l1 m' io ios Hdis Ha Hnow.
    pose proof (dispatch_spec l _ l1 Hdis) as (Ht & _).
    unfold granted_in_step, denied_in_step. rewrite Hdis.
    rewrite (requests_now_hit rng proc l1 m' Ha). rewrite Ht, Hnow. simpl.
    destruct (FileSimulator.request _ _ _ _ _ _).1.1; [left | right];
      [by eexists | done].
  - intros l po l1 r Hdis.
    pose proof (dispatch_spec l _ l1 Hdis)
      as (_ & _ & _ & _ & _ & _ & _ & _ & _ & _ & _ & Hkeep).
    by destruct (Hkeep r) as [? _].
  - intros l l' r Hstep Hv. by apply step_remaining.
  - intros l l' proc io n l'' io' Hwf Hd Hstep Hden Hpos Hiter Ht Hf Hin.
    destruct (step_past_or_held rng (IOOperation.time io)
                (IOOperation.filename io) l l' Hwf Hd Hstep)
      as (Hwf' & Hd' & _ & _ & Hheld).
    specialize (Hheld proc io Hden Hpos).
    destruct (iterate_past_or_held rng _ _ n l' l'' Hwf' Hd' Hheld Hiter)
      as [Hwf'' Hheld''].
    pose proof (granted_in_step_held rng _ _ l'' Hwf'' Hheld'') as Hall.
    by apply (proj1 (Forall_forall _ _) Hall io' Hin).
Qed.

Lemma denied_io_requeues_and_may_be_retried_witness :
  let l := Examples.after 2 Examples.contended in
  let l' := Examples.after 3 Examples.contended in
  let l'' := Examples.after 5 Examples.contended in
  (running_proc l' = None /\ time (self l') = time (self l) /\
   total_ticks (self l') = total_ticks (self l)) /\
  Examples.event_c ∉ granted_in_step Examples.rng0 l''.
Proof.
  intros l l' l''.
  assert (Hstep : step Examples.rng0 l = Ok l') by (vm_compute; reflexivity).
  assert (Hden : denied_in_step Examples.rng0 l
                 = Some (0%nat, Examples.event_c)) by (vm_compute; reflexivity).
  assert (Hv : (0 < length (procs l))%nat) by (vm_compute; lia).
  assert (Hwf : OrdDict.wf (FileSimulator.locks (fs (self l)))).
  { vm_compute. apply NoDup_singleton. }
  assert (Hd : durations_nonneg (procs l)).
  { vm_compute. repeat constructor; discriminate. }
  assert (Hiter : iterate Examples.rng0 2 l' = Ok l'')
    by (vm_compute; reflexivity).
  destruct (denied_io_requeues_and_may_be_retried Examples.rng0)
    as (Hreq & _ & _ & _ & _ & _ & Hnever).
  split.
  - destruct (Hreq l l' 0%nat Examples.event_c Hstep Hden Hv)
      as (l1 & _ & Hrun & _ & _ & Htime & Htot & _).
    split; [exact Hrun|]. split; [|exact Htot].
    rewrite Htime. vm_compute. reflexivity.
  - apply (Hnever l l' 0%nat Examples.event_c 2%nat l'' Examples.event_c
             Hwf Hd Hstep Hden).
    + vm_compute. reflexivity.
    + exact Hiter.
    + reflexivity.
    + reflexivity.
Defined.

(** C10 fails on the code as stated: a granted event of negative duration
    moves the clock back.  With one process whose event at tick 1 lasts
    -5, the second turn of the loop leaves the clock at -3 and
    [total_ticks] at 2. *)
Lemma negative_duration_puts_clock_behind :
  let l := Examples.after 2 Examples.backwards in
  configured (Examples.simulator Examples.backwards_store)
             Examples.backwards_store /\
  reachable Examples.rng0 (Examples.simulator Examples.backwards_store)
            Examples.backwards_store l /\
  Examples.takes_turns Examples.rng0 2 Examples.backwards = true /\
  time (self l) = -3 /\ total_ticks (self l) = 2 /\
  ~ total_ticks (self l) <= time (self l).
Proof.
  intros l. split.
  { eexists _, _, _, _, _. reflexivity. }
  split.
  { exists 2%nat. vm_compute. reflexivity. }
  vm_compute. repeat split. intros H. apply H. reflexivity.
Qed.

(** C10 (amended). A granted I/O event moves the clock by its duration
    and leaves [total_ticks] alone, so each turn of the loop changes
    [time - total_ticks] by the sum of the durations granted in it.  When
    no I/O duration is negative, [time >= total_ticks] holds in every
    state of a run, strictly from the turn that grants an event of
    positive duration onwards.  [compute_metrics] reports [time] as
    [time_elapsed] and computes the CPU utilisation against [total_ticks];
    in the run of a process with one event of duration 2, [time_elapsed]
    is 4 and [total_ticks] is 2. *)
Theorem clock_keeps_ahead_of_total_ticks
  (rng : nat -> Z) {F : Type} (fdiv : Z -> Z -> F) (fmul : F -> Z -> F) :
  (forall proc io ios l,
     (FileSimulator.request (fs (self l)) (Process.pid (deref (procs l) proc))
        (IOOperation.filename io) (IOOperation.op io) (time (self l))
        (IOOperation.duration io)).1.1 = true ->
     exists l1,
       io_loop proc (io :: ios) l = io_loop proc ios l1 /\
       time (self l1) = time (self l) + IOOperation.duration io /\
       total_ticks (self l1) = total_ticks (self l)) /\
  (forall l l', step rng l = Ok l' ->
     time (self l') - total_ticks (self l')
     = time (self l) - total_ticks (self l)
       + sum_durations (granted_in_step rng l)) /\
  (forall s st l,
     configured s st -> durations_nonneg st -> reachable rng s st l ->
     total_ticks (self l) <= time (self l)) /\
  (forall s st l io l' n l'',
     configured s st -> durations_nonneg st -> reachable rng s st l ->
     io ∈ granted_in_step rng l -> 0 < IOOperation.duration io ->
     step rng l = Ok l' -> iterate rng n l' = Ok l'' ->
     total_ticks (self l'') < time (self l'')) /\
  (forall s st m st',
     compute_metrics fdiv fmul s st = Ok (m, st') ->
     time_elapsed m = time s /\
     cpu_utilization_percent m
       = fmul (fdiv (cpu_busy_ticks s) (Z.max 1 (total_ticks s))) 100) /\
  (exists m l,
     run Examples.rng0 Qdiv_int Qmul_int 10 100
         (Examples.simulator Examples.one_io_store) Examples.one_io_store
       = Ok (Some (m, l)) /\
     time_elapsed m = 4 /\ total_ticks (self l) = 2).
Proof.
  split_and!.
  - intros proc io ios l Hg. eexists. simpl. rewrite Hg.
    split; [reflexivity|]. done.
  - intros l l' Hstep. destruct (step_slack rng l l' Hstep) as [Hs _].
    exact Hs.
  - intros s st l Hc Hd Hr.
    destruct (reachable_slack rng s st l Hc Hd Hr) as [Hs _].
    unfold slack in Hs. lia.
  - intros s st l io l' n l'' Hc Hd Hr Hin Hpos Hstep Hiter.
    destruct (reachable_slack rng s st l Hc Hd Hr) as [Hs Hdl].
    destruct (step_slack rng l l' Hstep) as [Hs' Hsj].
    pose proof (sum_durations_elem _ io (granted_in_step_nonneg rng l Hdl) Hin).
    destruct (iterate_slack_mono rng n l' l'') as [Hs'' _];
      [by eapply durations_nonneg_same_jobs | done |].
    unfold slack in *. lia.
  - intros s st m st' H. unfold compute_metrics in H.
    destruct (metrics_loop _ _ _ _) as [[st1 tw] tu].
    unfold truediv in H.
    destruct (Z.eqb_spec (Z.max 1 (total_ticks s)) 0) as [?|_]; [lia|].
    destruct (Z.of_nat (length (finished s)) =? 0); simpl in H;
      repeat (destruct (float_overflow _ _); simpl in H; [done|]);
      injection H as <- <-; done.
  - eexists _, _. split; [vm_compute; reflexivity|]. done.
Qed.

Lemma clock_keeps_ahead_of_total_ticks_witness :
  let s := Examples.simulator Examples.one_io_store in
  let l := Examples.after 1 Examples.one_io in
  let l'' := Examples.after 3 Examples.one_io in
  total_ticks (self l) <= time (self l) /\
  total_ticks (self l'') < time (self l'').
Proof.
  intros s l l''.
  assert (Hc : configured s Examples.one_io_store).
  { eexists _, _, _, _, _. reflexivity. }
  assert (Hd : durations_nonneg Examples.one_io_store).
  { repeat constructor. simpl. lia. }
  assert (Hr : reachable Examples.rng0 s Examples.one_io_store l).
  { exists 1%nat. vm_compute. reflexivity. }
  destruct (clock_keeps_ahead_of_total_ticks Examples.rng0 Qdiv_int Qmul_int)
    as (_ & _ & Hinv & Hstrict & _).
  split.
  - exact (Hinv s Examples.one_io_store l Hc Hd Hr).
  - apply (Hstrict s Examples.one_io_store l (IOOperation.mk 1 "f" "r" 2)
             (Examples.after 2 Examples.one_io) 1%nat l'' Hc Hd Hr).
    + vm_compute. left.
    + simpl. lia.
    + vm_compute. reflexivity.
    + vm_compute. reflexivity.
Defined.

End EngineProperties.

(** * Part IV: further properties of the code *)

(** ** Memory manager: the frame table *)

Section MemoryExtra.
Import MemoryManager MemorySpec.
Implicit Types (s : t) (fs : list (Z * Z * Z)).

Lemma replace_frame_ids vf pid page fs :
  frame_id <$> replace_frame vf pid page fs = frame_id <$> fs.
Proof.
  induction fs as [|[[fid p] v] fs IH]; csimpl; [done|].
  destruct (decide (fid = vf)); csimpl; [done | by rewrite IH].
Qed.

Lemma elem_of_replace_frame vf pid page fs x :
  NoDup (frame_id <$> fs) ->
  x ∈ replace_frame vf pid page fs <->
  (x = (vf, pid, page) /\ vf ∈ frame_id <$> fs) \/ (x ∈ fs /\ frame_id x ≠ vf).
Proof.
  induction fs as [|[[fid p] v] fs IH]; simpl.
  - intros _. split.
    + intros H. by apply elem_of_nil in H.
    + intros [[_ H]|[H _]]; by apply elem_of_nil in H.
  - rewrite NoDup_cons. intros [Hnin Hnd]. unfold frame_id at 1 in Hnin.
    simpl in Hnin. destruct (decide (fid = vf)) as [->|Hne].
    + rewrite !elem_of_cons. split.
      * intros [->|Hx]; [left; split; [done | by left]|].
        right. split; [by right|]. intros Heq. apply Hnin.
        apply list_elem_of_fmap. by exists x.
      * intros [[-> _]|[[->|Hx] Hid]]; [by left | done | by right].
    + rewrite !elem_of_cons, IH by done. unfold frame_id at 2. simpl. split.
      * intros [->|[[-> Hin]|[Hx Hid]]].
        -- right. split; [by left | done].
        -- left. split; [done | by right].
        -- right. split; [by right | done].
      * intros [[-> [?|Hin]]|[[->|Hx] Hid]]; [done | | by left |].
        -- right. left. done.
        -- right. right. done.
Qed.

Lemma ids_NoDup s : frames_ok s -> NoDup (frame_id <$> frames s).
Proof.
  intros [Hids _]. rewrite Hids. apply NoDup_fmap_2; [apply _ | apply NoDup_seq].
Qed.

Lemma same_id_same_frame fs x y :
  NoDup (frame_id <$> fs) -> x ∈ fs -> y ∈ fs -> frame_id x = frame_id y ->
  x = y.
Proof.
  induction fs as [|z fs IH]; simpl.
  - intros _ H. by apply elem_of_nil in H.
  - rewrite NoDup_cons. intros [Hnin Hnd] Hx Hy Heq.
    apply elem_of_cons in Hx as [->|Hx], Hy as [->|Hy]; [done | | | by apply IH].
    + exfalso. apply Hnin. rewrite Heq. apply list_elem_of_fmap. by exists y.
    + exfalso. apply Hnin. rewrite <- Heq. apply list_elem_of_fmap. by exists x.
Qed.

Lemma frames_ok_init n policy s0 : init n policy = Ok s0 -> frames_ok s0.
Proof.
  intros [= <-]. split; simpl; [done|].
  intros pid page fid. rewrite lookup_empty. split; [done|].
  intros H. by apply elem_of_nil in H.
Qed.

Lemma frames_ok_load_page s pid page tick s' :
  frames_ok s -> frame_map s !! (pid, page) = None ->
  load_page s pid page tick = Ok s' -> frames_ok s'.
Proof.
  intros Hok Hmiss. pose proof (ids_NoDup s Hok) as Hnd.
  destruct Hok as [Hids Hmap]. unfold load_page.
  destruct (Z.of_nat (length (frames s)) <? num_frames s).
  - intros [= <-]. split; simpl.
    + rewrite fmap_app, length_app, Hids. simpl.
      rewrite Nat.add_1_r, seq_S, fmap_app. done.
    + intros pid' page' fid. rewrite elem_of_app, list_elem_of_singleton.
      destruct (decide ((pid, page) = (pid', page'))) as [[= <- <-]|Hne].
      * rewrite lookup_insert_eq. split.
        -- intros [= <-]. by right.
        -- intros [Hin|[= -> ]]; [|done].
           apply Hmap in Hin. congruence.
      * rewrite lookup_insert_ne by done. rewrite Hmap. split; [by left|].
        intros [?|[= -> -> ->]]; done.
  - intros H. apply rbind_ok in H as ([victim q] & _ & H). simpl in H.
    destruct (frame_map s !! victim) as [vf|] eqn:Hvf; [|done].
    simpl in H. injection H as <-.
    destruct victim as [vpid vpage].
    assert (Hvin : (vf, vpid, vpage) ∈ frames s) by by apply Hmap.
    assert (Hvid : vf ∈ frame_id <$> frames s).
    { apply list_elem_of_fmap. by exists (vf, vpid, vpage). }
    assert (Hvk : (vpid, vpage) ≠ (pid, page)) by congruence.
    split; simpl.
    + by rewrite replace_frame_length, replace_frame_ids.
    + intros pid' page' fid. rewrite elem_of_replace_frame by done.
      destruct (decide ((pid, page) = (pid', page'))) as [[= <- <-]|Hne].
      * rewrite lookup_insert_eq. split.
        -- intros [= <-]. by left.
        -- intros [[[= ->] _]|[Hin _]]; [done|].
           apply Hmap in Hin. congruence.
      * rewrite lookup_insert_ne by done.
        destruct (decide ((vpid, vpage) = (pid', page'))) as [[= <- <-]|Hne'].
        -- rewrite lookup_delete_eq. split; [done|].
           intros [[[= -> -> ->] _]|[Hin Hid]]; [done|].
           apply Hmap in Hin. unfold frame_id in Hid. simpl in Hid. congruence.
        -- rewrite lookup_delete_ne by done. rewrite Hmap. split.
           ++ intros Hin. right. split; [done|]. intros Hid.
              assert ((fid, pid', page') = (vf, vpid, vpage)) as [= _ -> ->];
                [|done].
              by apply (same_id_same_frame (frames s)).
           ++ intros [[[= -> -> ->] _]|[Hin _]]; done.
Qed.

Lemma frames_ok_access_page s pid page tick b s' :
  frames_ok s -> access_page s pid page tick = Ok (b, s') -> frames_ok s'.
Proof.
  intros Hok. unfold access_page.
  destruct (frame_map s !! (pid, page)) eqn:Hlk.
  - intros [= <- <-]. destruct Hok as [Hids Hmap]. by split.
  - intros H. apply rbind_ok in H as (s2 & Hload & [= <- <-]).
    eapply frames_ok_load_page; [| |exact Hload]; [|done].
    destruct Hok as [Hids Hmap]. by split.
Qed.

Lemma frames_ok_run calls : forall s s',
  frames_ok s -> run s calls = Ok s' -> frames_ok s'.
Proof.
  induction calls as [|[[pid page] tick] calls IH]; intros s s' Hok H;
    simpl in H.
  - by injection H as <-.
  - apply rbind_ok in H as ([b s1] & Ha & H). simpl in H.
    eapply IH; [|exact H]. by eapply frames_ok_access_page.
Qed.

(** X1. After any sequence of [access_page] calls on a manager of positive
    capacity, the frame ids are [0, 1, ...] in order, a key is mapped to a
    frame id exactly when the frame of that id holds it, the FIFO queue
    holds each resident key once, the timestamp table has the same keys in
    the same order, and the frames in use are as many as the resident
    keys. *)
Theorem frame_table_matches_frame_map
  (n : Z) (policy : string) (calls : list (Z * Z * Z)) :
  0 < n ->
  exists s0 s, init n policy = Ok s0 /\ run s0 calls = Ok s /\
    frame_id <$> frames s = Z.of_nat <$> seq 0 (length (frames s)) /\
    (forall pid page fid,
       frame_map s !! (pid, page) = Some fid <-> (fid, pid, page) ∈ frames s) /\
    NoDup (fifo_queue s) /\
    (forall k, k ∈ fifo_queue s <-> is_Some (frame_map s !! k)) /\
    OrdDict.keys (last_used s) = fifo_queue s /\
    length (frames s) = size (frame_map s).
Proof.
  intros Hn. destruct (init n policy) as [s0|e] eqn:Hinit; [|done].
  assert (Hinv0 : inv s0) by (apply (inv_init n policy); [lia | done]).
  assert (Hn0 : num_frames s0 = n) by (by injection Hinit as <-).
  destruct (inv_run calls s0 Hinv0) as (s & Hrun & Hinv & _); [lia|].
  pose proof (frames_ok_run calls s0 s (frames_ok_init n policy s0 Hinit) Hrun)
    as [Hids Hmap].
  destruct Hinv as [Hord Hnd Hdom Hlen Hcap].
  exists s0, s. split_and!; try done.
  by rewrite (size_of_dom _ _ Hnd Hdom).
Qed.

Lemma frame_table_matches_frame_map_witness :
  exists s0 s, init 2 "LRU" = Ok s0 /\
    run s0 [(1, 0, 0); (1, 1, 1); (2, 0, 2); (1, 1, 3)] = Ok s /\
    length (frames s) = size (frame_map s).
Proof.
  destruct (frame_table_matches_frame_map 2 "LRU"
              [(1, 0, 0); (1, 1, 1); (2, 0, 2); (1, 1, 3)])
    as (s0 & s & H0 & Hrun & _ & _ & _ & _ & _ & Hlen); [lia|].
  exists s0, s. split; [exact H0|]. split; [exact Hrun | exact Hlen].
Defined.

(** ** Memory manager: what one access does *)

(** What one call of [access_page] leaves behind. *)
Lemma access_page_effect
  (s s' : t) (pid page tick : Z) (present : bool) :
  access_page s pid page tick = Ok (present, s') ->
  present = bool_decide (is_Some (frame_map s !! (pid, page))) /\
  is_Some (frame_map s' !! (pid, page)) /\
  OrdDict.get (pid, page) (last_used s') = Some tick /\
  time s' = tick /\
  faults s' pid = faults s pid + (if present then 0 else 1) /\
  (forall pid', pid' ≠ pid -> faults s' pid' = faults s pid').
Proof.
  unfold access_page, faults.
  destruct (frame_map s !! (pid, page)) as [f|] eqn:Hlk.
  - intros [= <- <-]. simpl. rewrite Hlk. split_and!; try done.
    + apply od_get_set_eq.
    + lia.
  - intros H. apply rbind_ok in H as (s2 & Hload & [= <- <-]).
    assert (Hfaults : page_faults s2
              = <[pid := default 0 (page_faults s !! pid) + 1]> (page_faults s)
            /\ time s2 = tick
            /\ is_Some (frame_map s2 !! (pid, page))
            /\ OrdDict.get (pid, page) (last_used s2) = Some tick).
    { unfold load_page in Hload. simpl in Hload.
      destruct (Z.of_nat (length (frames s)) <? num_frames s).
      - injection Hload as <-. simpl. rewrite lookup_insert_eq, od_get_set_eq.
        split_and!; try done; by eexists.
      - apply rbind_ok in Hload as (vq & _ & Hload).
        apply rbind_ok in Hload as (vf & _ & [= <-]). simpl.
        rewrite lookup_insert_eq, od_get_set_eq.
        split_and!; try done; by eexists. }
    destruct Hfaults as (Hpf & Ht & Hres & Hlu). rewrite Hpf.
    split_and!; try done.
    + by rewrite lookup_insert_eq.
    + intros pid' Hne. by rewrite lookup_insert_ne.
Qed.

(** X2. When [access_page] returns, it has returned whether the page was
    resident before the call; afterwards the page is resident, its
    timestamp is [tick], the manager's clock is [tick], and the fault
    count of [pid] has grown by one on a miss and not at all on a hit,
    the counts of the other pids being unchanged. *)
Theorem access_page_makes_resident
  (s s' : t) (pid page tick : Z) (present : bool) :
  access_page s pid page tick = Ok (present, s') ->
  present = bool_decide (is_Some (frame_map s !! (pid, page))) /\
  is_Some (frame_map s' !! (pid, page)) /\
  OrdDict.get (pid, page) (last_used s') = Some tick /\
  time s' = tick /\
  faults s' pid = faults s pid + (if present then 0 else 1) /\
  (forall pid', pid' ≠ pid -> faults s' pid' = faults s pid').
Proof. apply access_page_effect. Qed.

Lemma access_page_makes_resident_witness :
  exists s s',
    access_page s 1 0 7 = Ok (false, s') /\
    is_Some (frame_map s' !! (1, 0)) /\ faults s' 1 = faults s 1 + 1.
Proof.
  exists (mk 1 "FIFO" [] ∅ [] 0 [] ∅). eexists.
  assert (H : access_page (mk 1 "FIFO" [] ∅ [] 0 [] ∅) 1 0 7
              = Ok (false, mk 1 "FIFO" [(0, 1, 0)] {[(1, 0) := 0]} [(1, 0)] 7
                             [((1, 0), 7)] {[1 := 1]})).
  { vm_compute. reflexivity. }
  split; [exact H|].
  destruct (access_page_makes_resident _ _ 1 0 7 false H)
    as (_ & Hres & _ & _ & Hf & _).
  split; [exact Hres | exact Hf].
Defined.

(** ** Memory manager: fault counts *)

Lemma run_trace_faults calls : forall s answers s',
  run_trace s calls = Ok (answers, s') ->
  length answers = length calls /\
  forall pid, faults s' pid = faults s pid + misses_of pid calls answers.
Proof.
  induction calls as [|[[pid page] tick] calls IH]; intros s answers s' H;
    simpl in H.
  - injection H as <- <-. split; [done|]. intros pid. simpl. lia.
  - apply rbind_ok in H as ([b s1] & Ha & H). simpl in H.
    apply rbind_ok in H as ([rest s2] & Hrest & [= <- <-]).
    destruct (IH _ _ _ Hrest) as [Hlen Hf].
    destruct (access_page_effect _ _ _ _ _ _ Ha)
      as (_ & _ & _ & _ & Hpid & Hother).
    split; [simpl; by rewrite Hlen|]. intros pid'. simpl.
    rewrite Hf. destruct (decide (pid = pid')) as [<-|Hne].
    + rewrite Hpid. lia.
    + rewrite Hother by done. lia.
Qed.

(** X3. After a sequence of [access_page] calls on a fresh manager, the
    fault count of each pid is the number of that pid's calls that
    returned [False], and there is one answer per call. *)
Theorem page_faults_count_misses
  (n : Z) (policy : string) (calls : list (Z * Z * Z))
  (s0 s : t) (answers : list bool) :
  init n policy = Ok s0 ->
  run_trace s0 calls = Ok (answers, s) ->
  length answers = length calls /\
  forall pid, faults s pid = misses_of pid calls answers.
Proof.
  intros [= <-] Hrun.
  destruct (run_trace_faults calls _ _ _ Hrun) as [Hlen Hf].
  split; [done|]. intros pid. rewrite Hf. unfold faults. simpl.
  rewrite lookup_empty. simpl. lia.
Qed.

Lemma page_faults_count_misses_witness :
  exists s0 s,
    init 2 "FIFO" = Ok s0 /\
    run_trace s0 [(1, 0, 0); (2, 0, 1); (1, 0, 2); (1, 1, 3)]
      = Ok ([false; false; true; false], s) /\
    faults s 1 = 2 /\ faults s 2 = 1.
Proof.
  eexists _, _. split; [reflexivity|].
  assert (H : exists s, run_trace (mk 2 "FIFO" [] ∅ [] 0 [] ∅)
                [(1, 0, 0); (2, 0, 1); (1, 0, 2); (1, 1, 3)]
              = Ok ([false; false; true; false], s)).
  { eexists. vm_compute. reflexivity. }
  destruct H as [s Hs].
  destruct (page_faults_count_misses 2 "FIFO" _ _ s _ eq_refl Hs) as [_ Hf].
  assert (Hs' := Hs). revert Hs'. vm_compute. intros [= <-].
  split; [vm_compute; reflexivity|].
  split; [exact (Hf 1) | exact (Hf 2)].
Defined.

(** ** Memory manager: eviction *)

(** The frame of id [i + k] is the entry at index [i] of a table whose ids
    count up from [k], and [replace_frame] overwrites that entry alone. *)
Lemma lookup_frame_id fs k i fr :
  frame_id <$> fs = Z.of_nat <$> seq k (length fs) ->
  fs !! i = Some fr -> frame_id fr = Z.of_nat (k + i).
Proof.
  intros Hids Hi.
  assert (H : (frame_id <$> fs) !! i = Some (frame_id fr)).
  { by rewrite list_lookup_fmap, Hi. }
  rewrite Hids, list_lookup_fmap in H.
  destruct (seq k (length fs) !! i) as [j|] eqn:Hj; [|done].
  apply lookup_seq in Hj as [-> _]. simpl in H. by injection H as <-.
Qed.

Lemma replace_frame_insert pid page fs : forall k i fr,
  frame_id <$> fs = Z.of_nat <$> seq k (length fs) ->
  fs !! i = Some fr ->
  replace_frame (frame_id fr) pid page fs
  = <[i := (frame_id fr, pid, page)]> fs.
Proof.
  induction fs as [|[[fid p] v] fs IH]; intros k i fr Hids Hi; [done|].
  destruct i as [|i]; simpl in Hi.
  - injection Hi as <-. simpl. unfold frame_id. simpl.
    by rewrite decide_True.
  - pose proof (lookup_frame_id _ k (S i) fr Hids Hi) as Hfr.
    csimpl in Hids. injection Hids as Hfid Hids.
    unfold frame_id in Hfid. simpl in Hfid. simpl.
    rewrite decide_False by lia. f_equal. by apply (IH (S k)).
Qed.

(** X4. On a miss with every frame occupied, the new page takes the frame
    of the victim: the frame map loses the victim and maps the new key to
    the victim's frame id [vf]; in the frame table the entry at index [vf],
    which held the victim under the id [vf], now holds the new key under
    the same id, and every other entry is as it was; the queue loses the
    victim and gains the new key at its end.  Under FIFO, and under any
    policy name other than LRU, the victim is the head of the queue, the
    key loaded longest ago; with two frames and pages 0, 1, 2 accessed in
    turn, page 0 is the one evicted and page 2 is in its frame. *)
Theorem eviction_reuses_victim_frame :
  (forall (n : Z) (policy : string) (s : t) (pid page tick : Z),
     0 < n -> reachable n policy s ->
     frame_map s !! (pid, page) = None ->
     Z.of_nat (length (frames s)) = num_frames s ->
     exists victim vf s',
       access_page s pid page tick = Ok (false, s') /\
       frame_map s !! victim = Some vf /\
       frame_map s' = <[(pid, page) := vf]> (delete victim (frame_map s)) /\
       0 <= vf < num_frames s /\
       frames s !! Z.to_nat vf = Some (vf, victim.1, victim.2) /\
       frames s' !! Z.to_nat vf = Some (vf, pid, page) /\
       length (frames s') = length (frames s) /\
       (forall i, i ≠ Z.to_nat vf -> frames s' !! i = frames s !! i) /\
       fifo_queue s' = remove1 victim (fifo_queue s) ++ [(pid, page)] /\
       (upper policy ≠ "LRU" -> exists q, fifo_queue s = victim :: q)) /\
  (exists s0 s,
     init 2 "FIFO" = Ok s0 /\
     run s0 [(1, 0, 0); (1, 1, 1); (1, 2, 2)] = Ok s /\
     frame_map s !! (1, 0) = None /\
     is_Some (frame_map s !! (1, 1)) /\ is_Some (frame_map s !! (1, 2)) /\
     frames s = [(0, 1, 2); (1, 1, 1)]).
Proof.
  split.
  - intros n policy s pid page tick Hn Hreach Hmiss Hfull.
    destruct (reachable_inv n policy s Hn Hreach) as (Hinv & Hns & Hrepl).
    pose proof Hinv as [Hord Hnd Hdom Hlen Hcap].
    assert (Hok : frames_ok s).
    { destruct Hreach as (s0 & calls & Hinit & Hrun).
      exact (frames_ok_run calls s0 s (frames_ok_init n policy s0 Hinit) Hrun). }
    destruct Hok as [Hids Hmap].
    assert (Hne : fifo_queue s ≠ []).
    { intros Hnil. rewrite Hnil in Hlen. simpl in Hlen. lia. }
    destruct (choose_victim_full s Hinv Hne) as (victim & Hcv & Hvin & _).
    destruct (proj1 (Hdom victim) Hvin) as [vf Hvf].
    assert (Hin : (vf, victim.1, victim.2) ∈ frames s).
    { apply Hmap. by destruct victim. }
    apply list_elem_of_lookup in Hin as [i Hi].
    pose proof (lookup_frame_id _ 0 i _ Hids Hi) as Hid.
    unfold frame_id in Hid. simpl in Hid.
    assert (Hiv : i = Z.to_nat vf) by lia. subst i.
    pose proof (lookup_lt_Some _ _ _ Hi) as Hlt.
    pose proof (replace_frame_insert pid page _ 0 _ _ Hids Hi) as Hrep.
    unfold frame_id in Hrep. simpl in Hrep.
    exists victim, vf. eexists. split.
    { unfold access_page. rewrite Hmiss. unfold load_page. simpl.
      destruct (Z.ltb_spec (Z.of_nat (length (frames s))) (num_frames s));
        [lia|].
      unfold choose_victim in *. simpl. rewrite Hcv. simpl.
      rewrite Hvf. simpl. reflexivity. }
    simpl. rewrite Hrep. split_and!; try done; try lia.
    + by apply list_lookup_insert_eq.
    + by rewrite length_insert.
    + intros i Hi'. by apply list_lookup_insert_ne.
    + intros Hpol. unfold choose_victim in Hcv. rewrite Hrepl in Hcv.
      destruct (fifo_queue s) as [|v q] eqn:Hq; [done|].
      destruct (String.eqb (upper policy) "FIFO").
      * injection Hcv as <- _. by exists q.
      * destruct (String.eqb_spec (upper policy) "LRU") as [?|_]; [done|].
        injection Hcv as <- _. by exists q.
  - eexists _, _. split; [reflexivity|].
    split; [vm_compute; reflexivity|].
    split; [vm_compute; reflexivity|].
    split; [eexists; vm_compute; reflexivity|].
    split; [eexists; vm_compute; reflexivity|].
    vm_compute. reflexivity.
Qed.

Lemma eviction_reuses_victim_frame_witness :
  exists s victim vf s',
    reachable 1 "fifo" s /\
    frames s = [(0, 1, 0)] /\
    access_page s 1 1 5 = Ok (false, s') /\
    frame_map s !! victim = Some vf /\
    frame_map s' = <[(1, 1) := vf]> (delete victim (frame_map s)) /\
    frames s !! Z.to_nat vf = Some (vf, victim.1, victim.2) /\
    frames s' !! Z.to_nat vf = Some (vf, 1, 1) /\
    length (frames s') = length (frames s).
Proof.
  assert (Hr : exists s, run (mk 1 "FIFO" [] ∅ [] 0 [] ∅) [(1, 0, 0)] = Ok s).
  { eexists. vm_compute. reflexivity. }
  destruct Hr as [s Hs].
  assert (Hreach : reachable 1 "fifo" s).
  { eexists _, _. split; [reflexivity | exact Hs]. }
  destruct (proj1 eviction_reuses_victim_frame 1 "fifo" s 1 1 5)
    as (victim & vf & s' & Ha & Hv & Hm & _ & Hold & Hnew & Hlen & _).
  - lia.
  - exact Hreach.
  - revert Hs. vm_compute. intros [= <-]. reflexivity.
  - revert Hs. vm_compute. intros [= <-]. reflexivity.
  - exists s, victim, vf, s'. split; [exact Hreach|].
    split; [revert Hs; vm_compute; intros [= <-]; reflexivity|].
    split; [exact Ha|]. split; [exact Hv|]. split; [exact Hm|].
    split; [exact Hold|]. split; [exact Hnew | exact Hlen].
Defined.

(** ** Memory manager: unknown policy names *)

Lemma choose_victim_fallback r s :
  r ≠ "LRU" -> replacement s = "FIFO" ->
  choose_victim (with_replacement r s) = choose_victim s.
Proof.
  intros Hr Hs. unfold choose_victim. simpl. rewrite Hs. simpl.
  destruct (String.eqb r "FIFO"); [done|].
  by destruct (String.eqb_spec r "LRU").
Qed.

Lemma load_page_fallback r s pid page tick :
  r ≠ "LRU" -> replacement s = "FIFO" ->
  load_page (with_replacement r s) pid page tick
  = match load_page s pid page tick with
    | Ok s' => Ok (with_replacement r s')
    | Raise e => Raise e
    end /\
  forall s', load_page s pid page tick = Ok s' -> replacement s' = "FIFO".
Proof.
  intros Hr Hs. unfold load_page.
  rewrite (choose_victim_fallback r s Hr Hs). simpl.
  destruct (Z.of_nat (length (frames s)) <? num_frames s).
  { split; [done | by intros s' [= <-]]. }
  destruct (choose_victim s) as [[victim q]|e]; simpl;
    [|split; [done | by intros s' ?]].
  destruct (frame_map s !! victim); simpl;
    [|split; [done | by intros s' ?]].
  split; [done | by intros s' [= <-]].
Qed.

Lemma access_page_fallback r s pid page tick :
  r ≠ "LRU" -> replacement s = "FIFO" ->
  access_page (with_replacement r s) pid page tick
  = match access_page s pid page tick with
    | Ok (b, s') => Ok (b, with_replacement r s')
    | Raise e => Raise e
    end /\
  forall b s', access_page s pid page tick = Ok (b, s') ->
               replacement s' = "FIFO".
Proof.
  intros Hr Hs. unfold access_page.
  change (frame_map (with_replacement r s)) with (frame_map s).
  destruct (frame_map s !! (pid, page)).
  { split; [done | by intros b s' [= <- <-]]. }
  match goal with
  | |- _ /\ (forall b s', rbind (load_page ?a pid page tick) _ = _ -> _) =>
      set (s1 := a)
  end.
  destruct (load_page_fallback r s1 pid page tick Hr Hs) as [Heq Hkeep].
  match goal with
  | |- rbind ?L _ = _ /\ _ =>
      change L with (load_page (with_replacement r s1) pid page tick)
  end.
  rewrite Heq.
  destruct (load_page s1 pid page tick) as [s2|e]; simpl;
    [|split; [done | by intros b s' ?]].
  split; [done|]. intros b s' [= <- <-]. by apply Hkeep.
Qed.

Lemma run_trace_fallback r calls : forall s,
  r ≠ "LRU" -> replacement s = "FIFO" ->
  match run_trace (with_replacement r s) calls, run_trace s calls with
  | Ok (answers1, s1'), Ok (answers2, s2') =>
      answers1 = answers2 /\ s1' = with_replacement r s2'
  | Raise e1, Raise e2 => e1 = e2
  | _, _ => False
  end.
Proof.
  induction calls as [|[[pid page] tick] calls IH]; intros s Hr Hs; simpl;
    [done|].
  destruct (access_page_fallback r s pid page tick Hr Hs) as [-> Hkeep].
  destruct (access_page s pid page tick) as [[b s']|e]; simpl; [|done].
  specialize (IH s' Hr (Hkeep b s' eq_refl)).
  destruct (run_trace (with_replacement r s') calls) as [[a1 t1]|e1],
           (run_trace s' calls) as [[a2 t2]|e2]; simpl; try done.
  destruct IH as [-> ->]. done.
Qed.

(** X5. A policy name that is neither FIFO nor LRU (in any letter case)
    gives the FIFO behaviour: the same calls return the same answers,
    raise the same exception if any, and leave the same manager but for
    the stored policy name. *)
Theorem unknown_policy_is_fifo
  (n : Z) (policy : string) (calls : list (Z * Z * Z)) (s1 s2 : t) :
  upper policy ≠ "LRU" ->
  init n policy = Ok s1 -> init n "FIFO" = Ok s2 ->
  match run_trace s1 calls, run_trace s2 calls with
  | Ok (answers1, s1'), Ok (answers2, s2') =>
      answers1 = answers2 /\ s1' = with_replacement (upper policy) s2'
  | Raise e1, Raise e2 => e1 = e2
  | _, _ => False
  end.
Proof.
  intros Hpol H1 H2.
  assert (Hs1 : s1 = with_replacement (upper policy) s2).
  { unfold init in *. injection H1 as <-. injection H2 as <-. reflexivity. }
  assert (Hs2 : replacement s2 = "FIFO").
  { unfold init in H2. injection H2 as <-. reflexivity. }
  rewrite Hs1. by apply run_trace_fallback.
Qed.

Lemma unknown_policy_is_fifo_witness :
  match run_trace (mk 1 "CLOCK" [] ∅ [] 0 [] ∅) [(1, 0, 0); (1, 1, 1)],
        run_trace (mk 1 "FIFO" [] ∅ [] 0 [] ∅) [(1, 0, 0); (1, 1, 1)] with
  | Ok (answers1, s1'), Ok (answers2, s2') =>
      answers1 = answers2 /\ s1' = with_replacement "CLOCK" s2'
  | Raise e1, Raise e2 => e1 = e2
  | _, _ => False
  end.
Proof.
  apply (unknown_policy_is_fifo 1 "clock" [(1, 0, 0); (1, 1, 1)]).
  - vm_compute. discriminate.
  - reflexivity.
  - reflexivity.
Defined.

(** ** Memory manager: LRU keeps what was just used *)

Lemma run_snoc calls : forall s s1 pid page tick b s2,
  run s calls = Ok s1 -> access_page s1 pid page tick = Ok (b, s2) ->
  run s (calls ++ [(pid, page, tick)]) = Ok s2.
Proof.
  induction calls as [|[[p g] t0] calls IH]; intros s s1 pid page tick b s2 H Ha;
    simpl in *.
  - injection H as <-. by rewrite Ha.
  - apply rbind_ok in H as (r & Hr & H). rewrite Hr. simpl. by eapply IH.
Qed.

Lemma reachable_access n policy s pid page tick b s' :
  reachable n policy s -> access_page s pid page tick = Ok (b, s') ->
  reachable n policy s'.
Proof.
  intros (s0 & calls & Hinit & Hrun) Ha.
  exists s0, (calls ++ [(pid, page, tick)]). split; [done|].
  by eapply run_snoc.
Qed.

Lemma od_get_remove_Some {K V} `{EqDecision K} (d : list (K * V)) k v x :
  OrdDict.wf d -> OrdDict.get k (OrdDict.remove v d) = Some x ->
  OrdDict.get k d = Some x.
Proof.
  intros Hwf. destruct (decide (v = k)) as [->|Hne].
  - by rewrite od_get_remove_eq.
  - by rewrite od_get_remove_ne.
Qed.

(** The timestamps of the other keys after an access are timestamps they
    had before. *)
Lemma access_page_other_timestamps s pid page tick b s' k tk :
  inv s -> access_page s pid page tick = Ok (b, s') ->
  k ≠ (pid, page) -> OrdDict.get k (last_used s') = Some tk ->
  OrdDict.get k (last_used s) = Some tk.
Proof.
  intros [Hord Hnd _ _ _] Ha Hk.
  assert (Hwf : OrdDict.wf (last_used s)).
  { unfold OrdDict.wf. by rewrite Hord. }
  unfold access_page in Ha.
  destruct (frame_map s !! (pid, page)).
  - injection Ha as <- <-. simpl. by rewrite od_get_set_ne.
  - apply rbind_ok in Ha as (s2 & Hload & [= <- <-]).
    unfold load_page in Hload. simpl in Hload.
    destruct (Z.of_nat (length (frames s)) <? num_frames s).
    + injection Hload as <-. simpl. by rewrite od_get_set_ne.
    + apply rbind_ok in Hload as (vq & _ & Hload).
      apply rbind_ok in Hload as (vf & _ & [= <-]). simpl.
      rewrite od_get_set_ne by done. by apply od_get_remove_Some.
Qed.

(** X6. Under LRU with at least two frames, a page accessed at a tick
    later than every timestamp of the table is still resident after the
    next access, whatever that access is: the next eviction takes another
    page. *)
Theorem lru_keeps_most_recent
  (n : Z) (policy : string) (s s1 s2 : t)
  (pid page tick pid' page' tick' : Z) (b b' : bool) :
  2 <= n -> upper policy = "LRU" -> reachable n policy s ->
  (forall k tk, OrdDict.get k (last_used s) = Some tk -> tk < tick) ->
  access_page s pid page tick = Ok (b, s1) ->
  access_page s1 pid' page' tick' = Ok (b', s2) ->
  is_Some (frame_map s2 !! (pid, page)).
Proof.
  intros Hn Hpol Hreach Hold Ha1 Ha2.
  destruct (reachable_inv n policy s ltac:(lia) Hreach) as (Hinv & _ & _).
  pose proof (reachable_access _ _ _ _ _ _ _ _ Hreach Ha1) as Hreach1.
  destruct (reachable_inv n policy s1 ltac:(lia) Hreach1)
    as (Hinv1 & Hn1 & Hrepl1).
  destruct (access_page_effect _ _ _ _ _ _ Ha1)
    as (_ & Hres1 & Hts1 & _).
  pose proof Hinv1 as [Hord Hnd Hdom Hlen Hcap].
  unfold access_page in Ha2.
  destruct (frame_map s1 !! (pid', page')) as [f|] eqn:Hlk2.
  { by injection Ha2 as <- <-. }
  assert (Hkk : (pid', page') ≠ (pid, page)).
  { intros Heq. rewrite Heq in Hlk2. rewrite Hlk2 in Hres1.
    by destruct Hres1. }
  apply rbind_ok in Ha2 as (s3 & Hload & [= <- <-]).
  unfold load_page in Hload. simpl in Hload.
  destruct (Z.ltb_spec (Z.of_nat (length (frames s1))) (num_frames s1))
    as [Hfree|Hfull].
  { injection Hload as <-. simpl. by rewrite lookup_insert_ne. }
  assert (Hne : fifo_queue s1 ≠ []).
  { intros Hnil. rewrite Hnil in Hlen. simpl in Hlen. lia. }
  destruct (choose_victim_full s1 Hinv1 Hne) as (victim & Hcv & Hvin & Hlru).
  destruct Hlru as [tv Hfirst]; [congruence|].
  unfold choose_victim in Hload, Hcv. simpl in Hload. rewrite Hcv in Hload.
  simpl in Hload.
  destruct (proj1 (Hdom victim) Hvin) as [vf Hvf]. rewrite Hvf in Hload.
  injection Hload as <-. simpl.
  rewrite lookup_insert_ne by done.
  assert (Hvk : victim ≠ (pid, page)); [|by rewrite lookup_delete_ne].
  intros ->.
  destruct (first_min_least (last_used s1) (pid, page) tv) as [Hget Hleast];
    [unfold OrdDict.wf; by rewrite Hord | done |].
  assert (tv = tick) as -> by congruence.
  (* another resident key exists, with an older timestamp *)
  assert (Hother : exists k, k ∈ fifo_queue s1 /\ k ≠ (pid, page)).
  { destruct (fifo_queue s1) as [|k1 [|k2 q]] eqn:Hq.
    - done.
    - simpl in Hlen. lia.
    - apply NoDup_cons in Hnd as [Hk1 _].
      destruct (decide (k1 = (pid, page))) as [->|?].
      + exists k2. split; [right; left|]. intros ->. apply Hk1. left.
      + exists k1. split; [left | done]. }
  destruct Hother as (k & Hkin & Hkne).
  rewrite <- Hord in Hkin.
  destruct (OrdDict.get k (last_used s1)) as [tk|] eqn:Hgk.
  2:{ by apply od_get_None in Hgk. }
  destruct (Hleast k tk Hgk) as [Hle _].
  pose proof (access_page_other_timestamps s pid page tick b s1 k tk
                Hinv Ha1 Hkne Hgk) as Hgk0.
  specialize (Hold k tk Hgk0). lia.
Qed.

Lemma lru_keeps_most_recent_witness :
  exists s s1 s2,
    reachable 2 "LRU" s /\
    access_page s 1 0 2 = Ok (true, s1) /\
    access_page s1 1 2 3 = Ok (false, s2) /\
    is_Some (frame_map s2 !! (1, 0)).
Proof.
  assert (Hr : exists s, run (mk 2 "LRU" [] ∅ [] 0 [] ∅)
                             [(1, 0, 0); (1, 1, 1)] = Ok s).
  { eexists. vm_compute. reflexivity. }
  destruct Hr as [s Hs].
  assert (Hreach : reachable 2 "LRU" s).
  { eexists _, _. split; [reflexivity | exact Hs]. }
  assert (H1 : exists s1, access_page s 1 0 2 = Ok (true, s1)).
  { revert Hs. vm_compute. intros [= <-]. eexists. reflexivity. }
  destruct H1 as [s1 H1].
  assert (H2 : exists s2, access_page s1 1 2 3 = Ok (false, s2)).
  { revert H1. revert Hs. vm_compute. intros [= <-] [= <-]. eexists.
    reflexivity. }
  destruct H2 as [s2 H2].
  exists s, s1, s2. split; [exact Hreach|]. split; [exact H1|].
  split; [exact H2|].
  apply (lru_keeps_most_recent 2 "LRU" s s1 s2 1 0 2 1 2 3 true false).
  - lia.
  - reflexivity.
  - exact Hreach.
  - assert (Hlu : last_used s = [((1, 0), 0); ((1, 1), 1)]).
    { revert Hs. vm_compute. by intros [= <-]. }
    rewrite Hlu. intros k tk. unfold OrdDict.get. simpl.
    repeat case_decide; intros [= <-]; lia.
  - exact H1.
  - exact H2.
Defined.

End MemoryExtra.

(** * Part IV: further properties of the file lock manager *)

Section FileExtra.
Import FileSimulator FileSpec.
Implicit Types (s : t) (f g : string).

Lemma logged_app status f (l1 l2 : list log_entry) :
  logged status f (l1 ++ l2) = logged status f l1 ++ logged status f l2.
Proof. unfold logged. by rewrite filter_app, fmap_app. Qed.

Lemma logged_one status f tick pid g op status' :
  logged status f [(tick, pid, g, op, status')]
  = if decide (g = f /\ status' = status) then [(pid, op)] else [].
Proof.
  unfold logged. rewrite filter_cons, filter_nil.
  unfold log_file, log_status. simpl. by destruct (decide _).
Qed.

Lemma count_status_app status (l1 l2 : list log_entry) :
  count_status status (l1 ++ l2)
  = count_status status l1 + count_status status l2.
Proof. unfold count_status. rewrite filter_app, length_app. lia. Qed.

Lemma count_status_one status tick pid g op status' :
  count_status status [(tick, pid, g, op, status')]
  = if decide (status' = status) then 1 else 0.
Proof.
  unfold count_status. rewrite filter_cons, filter_nil.
  unfold log_status. simpl. by destruct (decide _).
Qed.

Lemma run_snoc_call s cs c : run s (cs ++ [c]) = do_call (run s cs) c.
Proof. unfold run. by rewrite foldl_app. Qed.

(** A property kept by both methods holds in every reachable state. *)
Lemma reachable_ind (P : t -> Prop) :
  P init ->
  (forall s pid g op tick d, P s -> P (request s pid g op tick d).2) ->
  (forall s tick f, P s -> P (release_one tick s f)) ->
  forall s, reachable s -> P s.
Proof.
  intros Hinit Hreq Hrel s [cs ->].
  induction cs as [|c cs IH] using rev_ind; [done|].
  rewrite run_snoc_call. destruct c as [pid g op tick d|tick]; simpl.
  - by apply Hreq.
  - unfold release_expired. generalize (to_release tick (locks (run init cs))).
    intros fs. revert IH. generalize (run init cs).
    induction fs as [|f fs IHfs]; intros s0 Hs0; simpl; [done|].
    by apply IHfs, Hrel.
Qed.

Lemma reachable_wf s : reachable s -> OrdDict.wf (locks s).
Proof.
  apply (reachable_ind (fun s => OrdDict.wf (locks s))).
  - apply NoDup_nil_2.
  - intros s0 pid g op tick d Hwf. unfold request.
    destruct (OrdDict.get g (locks s0)) eqn:Hg; simpl; [done|].
    by apply od_wf_set.
  - intros s0 tick f Hwf. by apply release_one_wf.
Qed.

Lemma reachable_do_call s c : reachable s -> reachable (do_call s c).
Proof. intros [cs ->]. exists (cs ++ [c]). by rewrite run_snoc_call. Qed.

Lemma reachable_run s cs : reachable s -> reachable (run s cs).
Proof.
  revert s. induction cs as [|c cs IH]; intros s Hs; simpl; [done|].
  by apply IH, reachable_do_call.
Qed.

(** ** Waiters are served in the order of their requests *)

(** X7. In every state of a lock manager, for each file, the requests
    logged as queued are, in order, those logged as granted from the queue
    followed by those still waiting: waiters get the file in the order in
    which they asked for it, none is skipped, and none is served twice. *)
Theorem waiters_are_served_in_request_order (s : t) (f : string) :
  reachable s ->
  logged "queued" f (log s)
  = logged "granted_from_queue" f (log s) ++ (fst <$> queue (waiting s) f).
Proof.
  intros Hs. revert f.
  apply (reachable_ind (fun s => forall f,
    logged "queued" f (log s)
    = logged "granted_from_queue" f (log s) ++ (fst <$> queue (waiting s) f)));
    [done | | | exact Hs]; clear s Hs.
  - intros s pid g op tick d IH f. unfold request.
    destruct (OrdDict.get g (locks s)); simpl;
      rewrite !logged_app, !logged_one, IH.
    + destruct (decide (g = f)) as [->|Hne].
      * unfold queue. rewrite lookup_insert_eq. simpl.
        rewrite decide_True by done.
        rewrite decide_False by (intros [_ ?]; discriminate).
        by rewrite fmap_app, app_nil_r, app_assoc.
      * unfold queue. rewrite lookup_insert_ne by done.
        rewrite !decide_False by (intros [? _]; done).
        by rewrite !app_nil_r.
    + rewrite !decide_False by (intros [_ ?]; discriminate).
      by rewrite !app_nil_r.
  - intros s tick f0 IH f.
    destruct (decide (f0 = f)) as [->|Hne].
    + unfold release_one. specialize (IH f).
      destruct (queue (waiting s) f) as [|[[p o] d] q] eqn:Hq; simpl;
        unfold queue; rewrite lookup_insert_eq; simpl.
      * by rewrite IH.
      * rewrite !logged_app, !logged_one, IH.
        rewrite decide_False by (intros [_ ?]; discriminate).
        rewrite decide_True by done.
        by rewrite app_nil_r, <- app_assoc.
    + assert (Hq : queue (waiting (release_one tick s f0)) f
                   = queue (waiting s) f).
      { unfold queue. by rewrite (proj2 (release_one_other tick s f0 f Hne)). }
      rewrite Hq, release_one_log, !logged_app, IH.
      assert (Hnone : forall status,
        logged status f (handover_log tick f0 (queue (waiting s) f0)) = []).
      { intros status. destruct (queue (waiting s) f0) as [|[[p o] d] q];
          [done|]. simpl. rewrite logged_one.
        by rewrite decide_False by (intros [? _]; done). }
      by rewrite !Hnone, !app_nil_r.
Qed.

(** ** The conflict counter counts the queued requests *)

(** X8. In every state of a lock manager the conflict counter is the
    number of "queued" lines of the log: each denied request counts once,
    and neither a grant nor a hand-over from a queue changes the count. *)
Theorem conflicts_count_queued_lines (s : t) :
  reachable s -> conflicts s = count_status "queued" (log s).
Proof.
  apply (reachable_ind (fun s => conflicts s = count_status "queued" (log s)));
    [done | |].
  - intros s0 pid g op tick d IH. unfold request.
    destruct (OrdDict.get g (locks s0)); simpl;
      rewrite count_status_app, count_status_one, IH.
    + by rewrite decide_True by done.
    + rewrite decide_False by discriminate. lia.
  - intros s0 tick f IH.
    rewrite release_one_conflicts, release_one_log, count_status_app, IH.
    destruct (queue (waiting s0) f) as [|[[p o] d] q]; simpl.
    { unfold count_status at 3. simpl. lia. }
    rewrite count_status_one, decide_False by discriminate. lia.
Qed.

(** ** Nobody waits for a free file *)

(** X9. In every state of a lock manager, a file with a waiter in its
    queue is locked: a release hands the file to the head of the queue at
    once, so no request stays queued on a file that nobody holds. *)
Theorem waited_file_is_locked (s : t) (f : string) :
  reachable s -> queue (waiting s) f ≠ [] ->
  is_Some (OrdDict.get f (locks s)).
Proof.
  intros Hs. revert f.
  apply (reachable_ind (fun s => forall f,
    queue (waiting s) f ≠ [] -> is_Some (OrdDict.get f (locks s))));
    [done | | | exact Hs]; clear s Hs.
  - intros s pid g op tick d IH f. unfold request.
    destruct (OrdDict.get g (locks s)) eqn:Hg; simpl.
    + destruct (decide (g = f)) as [->|Hne]; [by rewrite Hg|].
      unfold queue. rewrite lookup_insert_ne by done. apply IH.
    + intros Hq. destruct (decide (g = f)) as [->|Hne].
      * by rewrite od_get_set_eq.
      * rewrite od_get_set_ne by done. by apply IH.
  - intros s tick f0 IH f. destruct (decide (f0 = f)) as [->|Hne].
    + unfold release_one.
      destruct (queue (waiting s) f) as [|[[p o] d] q] eqn:Hq; simpl.
      * unfold queue. by rewrite lookup_insert_eq.
      * intros _. by rewrite od_get_set_eq.
    + destruct (release_one_other tick s f0 f Hne) as [Hl Hw].
      unfold queue. rewrite Hl, Hw. apply IH.
Qed.

Lemma waited_file_is_locked_witness :
  let s := run init [Request 1 "f" "r" 0 2; Request 2 "f" "w" 0 1;
                     Request 3 "f" "r" 1 1; ReleaseExpired 2] in
  reachable s /\ queue (waiting s) "f" = [(3, "r", 1)] /\
  is_Some (OrdDict.get "f" (locks s)).
Proof.
  intros s. assert (Hs : reachable s) by (by eexists).
  assert (Hq : queue (waiting s) "f" = [(3, "r", 1)]) by (by vm_compute).
  split; [exact Hs|]. split; [exact Hq|].
  apply (waited_file_is_locked s "f" Hs). by rewrite Hq.
Defined.

Lemma waiters_are_served_in_request_order_witness :
  let s := run init [Request 1 "f" "r" 0 2; Request 2 "f" "w" 0 1;
                     Request 3 "f" "r" 1 1; ReleaseExpired 2] in
  reachable s /\
  logged "queued" "f" (log s)
  = logged "granted_from_queue" "f" (log s) ++ (fst <$> queue (waiting s) "f").
Proof.
  intros s. assert (Hs : reachable s) by (by eexists).
  split; [exact Hs|]. exact (waiters_are_served_in_request_order s "f" Hs).
Defined.

Lemma conflicts_count_queued_lines_witness :
  let s := run init [Request 1 "f" "r" 0 2; Request 2 "f" "w" 0 1;
                     Request 3 "g" "r" 1 1; Request 3 "f" "r" 1 1] in
  reachable s /\ conflicts s = count_status "queued" (log s).
Proof.
  intros s. assert (Hs : reachable s) by (by eexists).
  split; [exact Hs|]. exact (conflicts_count_queued_lines s Hs).
Defined.

(** ** A second release at the same tick changes nothing *)

Lemma to_release_nil tick (l : list (string * (Z * Z))) :
  (forall e, e ∈ l -> tick < e.2.2) -> to_release tick l = [].
Proof.
  intros H. unfold to_release.
  induction l as [|e l IH]; [done|].
  rewrite filter_cons. rewrite decide_False.
  - apply IH. intros e' He'. apply H. by right.
  - specialize (H e ltac:(left)). lia.
Qed.

Lemma release_expired_later tick s :
  OrdDict.wf (locks s) ->
  (forall f w, w ∈ queue (waiting s) f -> 0 < w.2) ->
  forall f p r,
    OrdDict.get f (locks (release_expired s tick)) = Some (p, r) -> tick < r.
Proof.
  intros Hwf Hpos f p r Hget. unfold release_expired in Hget.
  pose proof (to_release_NoDup tick (locks s) Hwf) as Hnd.
  destruct (decide (f ∈ to_release tick (locks s))) as [Hin|Hnin].
  - pose proof (release_fold_self tick _ s f Hnd Hin Hwf) as Hself.
    destruct (queue (waiting s) f) as [|[[p' o'] d'] q] eqn:Hq.
    + destruct Hself as [Hnone _]. congruence.
    + destruct Hself as [Hsome _]. rewrite Hsome in Hget.
      injection Hget as <- <-.
      specialize (Hpos f (p', o', d')). rewrite Hq in Hpos.
      specialize (Hpos ltac:(left)). simpl in Hpos. lia.
  - destruct (release_fold_other tick _ s f Hnin) as [Hl _].
    rewrite Hl in Hget.
    destruct (Z_lt_le_dec tick r) as [|Hle]; [done|].
    exfalso. apply Hnin. apply elem_of_to_release; [done|]. by exists p, r.
Qed.

(** X10. When every queued request asks for a positive duration, calling
    [release_expired] twice with the same tick is the same as calling it
    once: after the first call no lock is due at that tick. *)
Theorem release_expired_twice_is_once (s : t) (tick : Z) :
  reachable s ->
  (forall f w, w ∈ queue (waiting s) f -> 0 < w.2) ->
  release_expired (release_expired s tick) tick = release_expired s tick.
Proof.
  intros Hs Hpos. pose proof (reachable_wf s Hs) as Hwf.
  assert (Hwf' : OrdDict.wf (locks (release_expired s tick))).
  { by apply release_fold_wf. }
  unfold release_expired at 1. rewrite to_release_nil; [done|].
  intros [f [p r]] He. simpl.
  apply (release_expired_later tick s Hwf Hpos f p r).
  by apply od_elem_get.
Qed.

Lemma release_expired_twice_is_once_witness :
  let s := run init [Request 1 "f" "r" 0 1; Request 2 "f" "w" 0 2] in
  release_expired (release_expired s 1) 1 = release_expired s 1.
Proof.
  apply release_expired_twice_is_once.
  - by eexists.
  - intros f w. unfold queue. simpl.
    destruct (decide (f = "f")) as [->|Hne].
    + vm_compute. intros Hin.
      apply list_elem_of_singleton in Hin. by subst w.
    + unfold request. simpl. rewrite lookup_insert_ne by done.
      rewrite lookup_empty. simpl. by intros ?%elem_of_nil.
Defined.

(** ** A lock is kept until its release tick *)

Lemma do_call_keeps_lock s c f p r :
  OrdDict.wf (locks s) ->
  OrdDict.get f (locks s) = Some (p, r) ->
  match c with ReleaseExpired tick => tick < r | _ => True end ->
  OrdDict.get f (locks (do_call s c)) = Some (p, r).
Proof.
  intros Hwf Hget Hc. destruct c as [pid g op tick d|tick]; simpl.
  - unfold request. destruct (OrdDict.get g (locks s)) eqn:Hg; simpl; [done|].
    rewrite od_get_set_ne; [done|]. intros ->. congruence.
  - unfold release_expired.
    assert (Hnin : f ∉ to_release tick (locks s)).
    { intros Hin.
      apply elem_of_to_release in Hin as (p' & r' & Hget' & Hr'); [|done].
      rewrite Hget in Hget'. injection Hget' as <- <-. lia. }
    by rewrite (proj1 (release_fold_other tick _ s f Hnin)).
Qed.

(** X11. A lock is exclusive until its release tick: whatever requests
    are made, and whatever releases are asked at ticks earlier than the
    release tick of the holder, the file keeps its holder and release
    tick, and a request for it is denied. *)
Theorem lock_is_kept_until_release_tick
  (s : t) (f : string) (p r : Z) (cs : list call)
  (pid : Z) (op : string) (tick d : Z) :
  reachable s ->
  OrdDict.get f (locks s) = Some (p, r) ->
  Forall (fun t => t < r) (release_ticks cs) ->
  OrdDict.get f (locks (run s cs)) = Some (p, r) /\
  (request (run s cs) pid f op tick d).1 = (false, None).
Proof.
  intros Hs Hget Hcs.
  assert (H : OrdDict.get f (locks (run s cs)) = Some (p, r)).
  { revert s Hs Hget. induction cs as [|c cs IH]; intros s Hs Hget; [done|].
    simpl. apply IH.
    - destruct c; simpl in Hcs; [done|]. by apply Forall_cons in Hcs as [_ ?].
    - by apply reachable_do_call.
    - apply do_call_keeps_lock; [by apply reachable_wf | done |].
      destruct c; [done|]. simpl in Hcs. by apply Forall_cons in Hcs as [? _]. }
  split; [done|]. unfold request. by rewrite H.
Qed.

Lemma lock_is_kept_until_release_tick_witness :
  let s := run init [Request 1 "f" "r" 0 5] in
  let cs := [ReleaseExpired 1; Request 2 "f" "w" 2 1; ReleaseExpired 4] in
  OrdDict.get "f" (locks (run s cs)) = Some (1, 5) /\
  (request (run s cs) 3 "f" "r" 4 1).1 = (false, None).
Proof.
  apply lock_is_kept_until_release_tick.
  - by eexists.
  - reflexivity.
  - simpl. repeat constructor; lia.
Defined.

End FileExtra.

(** * Part V: further properties of the schedulers *)

(** ** The heap operations keep the tuples *)

Section HeapFacts.
Import heapq.
Implicit Types (st : store) (heap h : list entry).

#[local] Arguments Nat.div : simpl never.
#[local] Arguments Nat.mul : simpl never.

Lemma insert_head_perm {A} (l : list A) j (a b : A) :
  l !! j = Some b -> b :: <[j := a]> l ≡ₚ a :: l.
Proof.
  revert j. induction l as [|x l IH]; intros [|j] H; simpl in *; try done.
  - injection H as ->. apply perm_swap.
  - etrans; [apply perm_swap|]. etrans; [|apply perm_swap].
    constructor. by apply IH.
Qed.

Lemma insert_swap_perm {A} (l : list A) i j (a b : A) :
  i ≠ j -> l !! i = Some a -> l !! j = Some b ->
  <[i := b]> (<[j := a]> l) ≡ₚ l.
Proof.
  revert i j. induction l as [|x l IH]; intros [|i] [|j] Hne Hi Hj;
    simpl in *; try done.
  - injection Hi as ->. by apply insert_head_perm.
  - injection Hj as ->. by apply insert_head_perm.
  - constructor. apply IH; auto.
Qed.

(** Moving the hole from [j] to [i], where [c] is. *)
Lemma move_hole_perm {A} (l : list A) i j (c x : A) :
  i ≠ j -> (j < length l)%nat -> l !! i = Some c ->
  <[i := x]> (<[j := c]> l) ≡ₚ <[j := x]> l.
Proof.
  intros Hne Hj Hi.
  rewrite <- (list_insert_insert_eq l j c x).
  apply insert_swap_perm; [done | |].
  - by rewrite list_lookup_insert_ne.
  - by apply list_lookup_insert_eq.
Qed.

Lemma parent_lt (pos : nat) : (0 < pos -> (pos - 1) / 2 < pos)%nat.
Proof. intros. apply Nat.Div0.div_lt_upper_bound. lia. Qed.

Lemma siftdown_loop_perm fuel st : forall heap startpos pos newitem h',
  (pos < length heap)%nat ->
  siftdown_loop fuel st heap startpos pos newitem = Ok h' ->
  h' ≡ₚ <[pos := newitem]> heap.
Proof.
  induction fuel as [|fuel IH]; intros heap startpos pos newitem h' Hpos H;
    simpl in H.
  - by injection H as <-.
  - destruct (decide (startpos < pos)%nat) as [Hlt|]; [|by injection H as <-].
    destruct (heap !! ((pos - 1) / 2)%nat) as [parent|] eqn:Hpar; [|done].
    apply rbind_ok in H as (lt & _ & H).
    destruct lt; [|by injection H as <-].
    apply IH in H.
    + rewrite H. apply move_hole_perm; [|done..].
      pose proof (parent_lt pos). lia.
    + rewrite length_insert. by apply lookup_lt_Some in Hpar.
Qed.

Lemma siftdown_perm st heap startpos pos h' :
  siftdown st heap startpos pos = Ok h' -> h' ≡ₚ heap.
Proof.
  unfold siftdown. destruct (heap !! pos) as [newitem|] eqn:Hnew; [|done].
  intros H. apply siftdown_loop_perm in H.
  - by rewrite list_insert_id in H.
  - by apply lookup_lt_Some in Hnew.
Qed.

Lemma siftup_loop_perm fuel st : forall heap pos h p,
  (pos < length heap)%nat ->
  siftup_loop fuel st heap pos = Ok (h, p) ->
  length h = length heap /\ (p < length heap)%nat /\
  forall x, <[p := x]> h ≡ₚ <[pos := x]> heap.
Proof.
  induction fuel as [|fuel IH]; intros heap pos h p Hpos H; simpl in H.
  - by injection H as <- <-.
  - destruct (decide (2 * pos + 1 < length heap)%nat) as [Hc|];
      [|by injection H as <- <-].
    apply rbind_ok in H as (cp & Hcp & H).
    destruct (heap !! cp) as [c|] eqn:Hcpl; [|done].
    assert (Hne : cp ≠ pos).
    { destruct (heap !! (2 * pos + 1)%nat) as [c0|];
        [destruct (heap !! (2 * pos + 1 + 1)%nat) as [r0|]|].
      - apply rbind_ok in Hcp as ([] & _ & [= <-]); lia.
      - injection Hcp as <-. lia.
      - injection Hcp as <-. lia. }
    apply IH in H; [|rewrite length_insert; by apply lookup_lt_Some in Hcpl].
    rewrite length_insert in H. destruct H as (Hlen & Hp & Hperm).
    split_and!; [done..|].
    intros x. rewrite Hperm. by apply move_hole_perm.
Qed.

Lemma siftup_perm st heap pos h' :
  siftup st heap pos = Ok h' -> h' ≡ₚ heap.
Proof.
  unfold siftup. destruct (heap !! pos) as [newitem|] eqn:Hnew; [|done].
  intros H. apply rbind_ok in H as ([h p] & Hloop & H). simpl in H.
  apply siftup_loop_perm in Hloop as (_ & _ & Hperm);
    [|by apply lookup_lt_Some in Hnew].
  apply siftdown_perm in H. rewrite H, Hperm.
  by rewrite list_insert_id.
Qed.

Lemma heappush_perm st heap item h' :
  heappush st heap item = Ok h' -> h' ≡ₚ heap ++ [item].
Proof. unfold heappush. apply siftdown_perm. Qed.

Lemma heappop_perm st heap e h' :
  heappop st heap = Ok (e, h') -> heap ≡ₚ e :: h'.
Proof.
  unfold heappop. destruct (last heap) as [lastelt|] eqn:Hlast; [|done].
  apply last_Some in Hlast as [heap1 ->]. rewrite removelast_last.
  destruct heap1 as [|returnitem heap1]; simpl.
  - by intros [= <- <-].
  - intros H. apply rbind_ok in H as (heap2 & Hup & [= <- <-]).
    apply siftup_perm in Hup. rewrite Hup.
    constructor. by rewrite Permutation_app_comm.
Qed.

(** *** The heap operations raise only when a comparison does *)

Lemma elem_of_insert_inv {A} (l : list A) i (x y : A) :
  x ∈ <[i := y]> l -> x = y \/ x ∈ l.
Proof.
  intros Hx. apply list_elem_of_lookup in Hx as [j Hj].
  apply list_lookup_insert_Some in Hj as [(_ & -> & _)|[_ Hj]]; [by left|].
  right. by apply list_elem_of_lookup_2 in Hj.
Qed.

Lemma siftdown_loop_ok fuel st : forall heap startpos pos newitem,
  (pos < length heap)%nat ->
  (forall x, x ∈ heap -> exists c, entry_lt st newitem x = Ok c) ->
  exists h', siftdown_loop fuel st heap startpos pos newitem = Ok h'.
Proof.
  induction fuel as [|fuel IH]; intros heap startpos pos newitem Hpos Hcmp;
    simpl; [by eexists|].
  destruct (decide (startpos < pos)%nat) as [Hlt|]; [|by eexists].
  pose proof (parent_lt pos ltac:(lia)) as Hpar.
  destruct (lookup_lt_is_Some_2 heap ((pos - 1) / 2)%nat ltac:(lia))
    as [parent Hparent].
  rewrite Hparent.
  destruct (Hcmp parent) as [c Hc]; [by apply list_elem_of_lookup_2 in Hparent|].
  rewrite Hc. simpl. destruct c; [|by eexists].
  apply IH.
  - rewrite length_insert. lia.
  - intros x Hx. apply elem_of_insert_inv in Hx as [->|Hx]; [|by apply Hcmp].
    by eexists.
Qed.

Lemma siftdown_ok st heap startpos pos :
  (pos < length heap)%nat -> SchedulerSpec.orderable st heap ->
  exists h', siftdown st heap startpos pos = Ok h'.
Proof.
  intros Hpos Hord. unfold siftdown.
  destruct (lookup_lt_is_Some_2 heap pos Hpos) as [newitem Hnew].
  rewrite Hnew. apply siftdown_loop_ok; [done|].
  intros x Hx. apply Hord; [|done]. by apply list_elem_of_lookup_2 in Hnew.
Qed.

Lemma siftup_loop_ok fuel st : forall heap pos,
  SchedulerSpec.orderable st heap ->
  exists r, siftup_loop fuel st heap pos = Ok r.
Proof.
  induction fuel as [|fuel IH]; intros heap pos Hord; simpl; [by eexists|].
  destruct (decide (2 * pos + 1 < length heap)%nat) as [Hc|]; [|by eexists].
  destruct (lookup_lt_is_Some_2 heap (2 * pos + 1)%nat Hc) as [c0 Hc0].
  rewrite Hc0.
  assert (Hcp : exists cp c,
    match heap !! (2 * pos + 1 + 1)%nat with
    | Some r => let* lt := entry_lt st c0 r in
                Ok (if (lt : bool) then (2 * pos + 1)%nat
                    else (2 * pos + 1 + 1)%nat)
    | None => Ok (2 * pos + 1)%nat
    end = Ok cp /\ heap !! cp = Some c).
  { destruct (heap !! (2 * pos + 1 + 1)%nat) as [r0|] eqn:Hr0.
    - destruct (Hord c0 r0) as [lt Hlt];
        [by apply list_elem_of_lookup_2 in Hc0
        |by apply list_elem_of_lookup_2 in Hr0|].
      rewrite Hlt. simpl. destruct lt; eauto.
    - eauto. }
  destruct Hcp as (cp & c & -> & Hcpl). simpl. rewrite Hcpl.
  apply IH. intros a b Ha Hb. apply Hord.
  - apply elem_of_insert_inv in Ha as [->|Ha]; [|done].
    by apply list_elem_of_lookup_2 in Hcpl.
  - apply elem_of_insert_inv in Hb as [->|Hb]; [|done].
    by apply list_elem_of_lookup_2 in Hcpl.
Qed.

Lemma orderable_perm st heap h :
  h ≡ₚ heap -> SchedulerSpec.orderable st heap -> SchedulerSpec.orderable st h.
Proof. intros Hp Hord a b Ha Hb. apply Hord; by rewrite <- Hp. Qed.

Lemma siftup_ok st heap pos :
  (pos < length heap)%nat -> SchedulerSpec.orderable st heap ->
  exists h', siftup st heap pos = Ok h'.
Proof.
  intros Hpos Hord. unfold siftup.
  destruct (lookup_lt_is_Some_2 heap pos Hpos) as [newitem Hnew].
  rewrite Hnew.
  destruct (siftup_loop_ok (length heap) st heap pos Hord) as [[h p] Hloop].
  rewrite Hloop. simpl.
  apply siftup_loop_perm in Hloop as (Hlen & Hp & Hperm); [|done].
  apply siftdown_ok; [rewrite length_insert; lia|].
  apply (orderable_perm st heap); [|done].
  by rewrite Hperm, list_insert_id.
Qed.

Lemma heappush_ok st heap item :
  SchedulerSpec.orderable st (heap ++ [item]) ->
  exists h', heappush st heap item = Ok h'.
Proof.
  intros Hord. unfold heappush. apply siftdown_ok; [|done].
  rewrite length_app. simpl. lia.
Qed.

Lemma heappop_ok st heap :
  heap ≠ [] -> SchedulerSpec.orderable st heap ->
  exists r, heappop st heap = Ok r.
Proof.
  intros Hne Hord. unfold heappop.
  destruct (last heap) as [lastelt|] eqn:Hlast.
  2:{ by apply last_None in Hlast. }
  apply last_Some in Hlast as [heap1 ->]. rewrite removelast_last.
  destruct heap1 as [|returnitem heap1]; [by eexists|].
  destruct (siftup_ok st (<[0%nat := lastelt]> (returnitem :: heap1)) 0)
    as [h' Hh'].
  - simpl. lia.
  - simpl. intros a b Ha Hb. apply Hord.
    + apply elem_of_cons in Ha as [->|Ha];
        [apply elem_of_app; right; left | by right; apply elem_of_app; left].
    + apply elem_of_cons in Hb as [->|Hb];
        [apply elem_of_app; right; left | by right; apply elem_of_app; left].
  - rewrite Hh'. by eexists.
Qed.

(** Tuples with different process ids can be compared. *)
Lemma entry_lt_pids st (a b : entry) :
  a.1.2 ≠ b.1.2 -> exists c, entry_lt st a b = Ok c.
Proof.
  destruct a as [[[k1 a1] p1] r1], b as [[[k2 a2] p2] r2]. simpl.
  intros Hne. unfold entry_lt.
  destruct (negb (k1 =? k2)); [by eexists|].
  destruct (negb (a1 =? a2)); [by eexists|].
  destruct (Z.eqb_spec p1 p2); [done|]. by eexists.
Qed.

Lemma entry_lt_refl st (a : entry) : exists c, entry_lt st a a = Ok c.
Proof.
  destruct a as [[[k1 a1] p1] r1]. unfold entry_lt.
  rewrite !Z.eqb_refl. simpl. rewrite bool_decide_eq_true_2 by done.
  by eexists.
Qed.

End HeapFacts.

(** ** The heap operations keep the heap in order *)

Section HeapOrder.
Import heapq SchedulerSpec.
Implicit Types (st : store) (heap h : list entry) (a b c x y : entry).

#[local] Arguments Nat.div : simpl never.
#[local] Arguments Nat.mul : simpl never.

Lemma entry_le_refl a : entry_le a a.
Proof. unfold entry_le, rank_lt. lia. Qed.

Lemma entry_le_trans a b c : entry_le a b -> entry_le b c -> entry_le a c.
Proof. unfold entry_le, rank_lt. lia. Qed.

Lemma rank_lt_le a b : rank_lt (rank a) (rank b) -> entry_le a b.
Proof. unfold entry_le, rank_lt. lia. Qed.

Lemma rank_lt_le_trans a b c :
  rank_lt (rank a) (rank b) -> entry_le b c -> entry_le a c.
Proof. unfold entry_le, rank_lt. lia. Qed.

(** When a comparison returns, it is the order of the triples. *)
Lemma entry_lt_rank st a b r :
  entry_lt st a b = Ok r ->
  if r then rank_lt (rank a) (rank b) else entry_le b a.
Proof.
  destruct a as [[[k1 a1] p1] r1], b as [[[k2 a2] p2] r2].
  unfold entry_lt, entry_le, rank_lt, rank. simpl.
  destruct (Z.eqb_spec k1 k2); simpl.
  2:{ intros [= <-]. destruct (Z.ltb_spec k1 k2); lia. }
  destruct (Z.eqb_spec a1 a2); simpl.
  2:{ intros [= <-]. destruct (Z.ltb_spec a1 a2); lia. }
  destruct (Z.eqb_spec p1 p2); simpl.
  2:{ intros [= <-]. destruct (Z.ltb_spec p1 p2); lia. }
  destruct (_ || _); [|done]. intros [= <-]. lia.
Qed.

Lemma parent_lt_self i : (0 < i -> parent i < i)%nat.
Proof. apply parent_lt. Qed.

Lemma parent_child i :
  (0 < i -> i = 2 * parent i + 1 \/ i = 2 * parent i + 2)%nat.
Proof.
  unfold parent. intros Hi.
  pose proof (Nat.div_mod_eq (i - 1) 2) as Hdm.
  pose proof (Nat.mod_upper_bound (i - 1) 2 ltac:(lia)) as Hm.
  remember ((i - 1) / 2)%nat as q. remember ((i - 1) mod 2)%nat as r.
  lia.
Qed.

Lemma parent_of_child p i :
  (i = 2 * p + 1 \/ i = 2 * p + 2)%nat -> parent i = p.
Proof.
  unfold parent. intros [->| ->].
  - replace (2 * p + 1 - 1)%nat with (p * 2)%nat by lia.
    apply Nat.div_mul. lia.
  - replace (2 * p + 2 - 1)%nat with (p * 2 + 1)%nat by lia.
    rewrite Nat.div_add_l by lia. rewrite Nat.div_small by lia. lia.
Qed.

(** Filling the hole with a tuple that fits gives a heap in order. *)
Lemma fill_hole_ordered heap pos newitem :
  (pos < length heap)%nat ->
  ordered_but pos heap -> children_ge pos newitem heap ->
  ((0 < pos)%nat -> forall y, heap !! parent pos = Some y ->
                               entry_le y newitem) ->
  heap_ordered (<[pos := newitem]> heap).
Proof.
  intros Hpos Hord Hch Hpar i x y Hi Hx Hy.
  apply list_lookup_insert_Some in Hx as [(<- & <- & _)|[Hne Hx]].
  - pose proof (parent_lt_self pos Hi).
    rewrite list_lookup_insert_ne in Hy by lia. by apply Hpar.
  - apply list_lookup_insert_Some in Hy as [(Hp & <- & _)|[Hnp Hy]].
    + by apply (Hch i).
    + by apply (Hord i).
Qed.

(** Moving the parent of the hole down keeps the three invariants. *)
Lemma move_up_inv heap pos newitem y :
  (0 < pos)%nat -> (pos < length heap)%nat ->
  heap !! parent pos = Some y -> rank_lt (rank newitem) (rank y) ->
  ordered_but pos heap -> grand_ok pos heap ->
  children_ge pos newitem heap ->
  ordered_but (parent pos) (<[pos := y]> heap) /\
  grand_ok (parent pos) (<[pos := y]> heap) /\
  children_ge (parent pos) newitem (<[pos := y]> heap).
Proof.
  intros Hp0 Hpos Hy Hlt Hord Hgr Hch.
  pose proof (parent_lt_self pos Hp0) as Hpp.
  split_and!.
  - intros i x y' Hi Hne Hnp Hx Hy'.
    assert (i ≠ pos) by (intros ->; done).
    rewrite list_lookup_insert_ne in Hx by done.
    apply list_lookup_insert_Some in Hy' as [(Hpi & <- & _)|[Hnpi Hy']].
    + by apply (Hgr i).
    + by apply (Hord i).
  - intros i x z Hi Hpi Hpp0 Hx Hz.
    rewrite list_lookup_insert_ne in Hz
      by (pose proof (parent_lt_self (parent pos) Hpp0); lia).
    assert (Hzy : entry_le z y).
    { apply (Hord (parent pos)); try done; try lia.
      pose proof (parent_lt_self (parent pos) Hpp0). lia. }
    apply list_lookup_insert_Some in Hx as [(<- & <- & _)|[Hne Hx]];
      [done|].
    apply (entry_le_trans _ y); [done|].
    apply (Hord i); try done; try lia. by rewrite Hpi.
  - intros i x Hi Hpi Hx.
    apply list_lookup_insert_Some in Hx as [(<- & <- & _)|[Hne Hx]].
    + by apply rank_lt_le.
    + apply (rank_lt_le_trans _ y); [done|].
      apply (Hord i); try done; try lia. by rewrite Hpi.
Qed.

Lemma siftdown_loop_ordered fuel st : forall heap pos newitem h',
  (pos < fuel)%nat -> (pos < length heap)%nat ->
  ordered_but pos heap -> grand_ok pos heap ->
  children_ge pos newitem heap ->
  siftdown_loop fuel st heap 0 pos newitem = Ok h' ->
  heap_ordered h'.
Proof.
  induction fuel as [|fuel IH];
    intros heap pos newitem h' Hfuel Hpos Hord Hgr Hch H; [lia|].
  simpl in H. destruct (decide (0 < pos)%nat) as [Hp0|Hp0].
  - fold (parent pos) in H.
    destruct (heap !! parent pos) as [y|] eqn:Hy; [|done].
    apply rbind_ok in H as (lt & Hlt & H). apply entry_lt_rank in Hlt.
    destruct lt.
    + destruct (move_up_inv heap pos newitem y) as (Ho & Hg & Hc); try done.
      apply IH in H; try done.
      * pose proof (parent_lt_self pos Hp0). lia.
      * rewrite length_insert. pose proof (parent_lt_self pos Hp0). lia.
    + injection H as <-. apply fill_hole_ordered; try done.
      intros _ y' Hy'. congruence.
  - injection H as <-. apply fill_hole_ordered; try done; lia.
Qed.

(** The choice of the smaller child. *)
Lemma smaller_child st heap pos cp :
  match heap !! (2 * pos + 1)%nat, heap !! (2 * pos + 1 + 1)%nat with
  | Some c, Some r =>
      let* lt := entry_lt st c r in
      Ok (if (lt : bool) then (2 * pos + 1)%nat else (2 * pos + 1 + 1)%nat)
  | _, _ => Ok (2 * pos + 1)%nat
  end = Ok cp ->
  (cp = 2 * pos + 1 \/ cp = 2 * pos + 2)%nat /\
  forall c i x, heap !! cp = Some c -> (0 < i)%nat -> parent i = pos ->
    i ≠ cp -> heap !! i = Some x -> entry_le c x.
Proof.
  intros H.
  assert (Hsib : forall i, (0 < i)%nat -> parent i = pos ->
            (i = 2 * pos + 1 \/ i = 2 * pos + 1 + 1)%nat).
  { intros i Hi <-. pose proof (parent_child i Hi). lia. }
  destruct (heap !! (2 * pos + 1)%nat) as [c0|] eqn:Hc0.
  - destruct (heap !! (2 * pos + 1 + 1)%nat) as [r0|] eqn:Hr0.
    + apply rbind_ok in H as (lt & Hlt & [= <-]).
      apply entry_lt_rank in Hlt. destruct lt.
      * split; [lia|]. intros c i x Hc Hi Hpi Hne Hx.
        destruct (Hsib i Hi Hpi) as [->| ->]; [done|].
        rewrite Hc0 in Hc. rewrite Hr0 in Hx.
        injection Hc as <-. injection Hx as <-. by apply rank_lt_le.
      * split; [lia|]. intros c i x Hc Hi Hpi Hne Hx.
        destruct (Hsib i Hi Hpi) as [->| ->]; [|done].
        rewrite Hr0 in Hc. rewrite Hc0 in Hx.
        injection Hc as <-. by injection Hx as <-.
    + injection H as <-. split; [lia|]. intros c i x Hc Hi Hpi Hne Hx.
      destruct (Hsib i Hi Hpi) as [->| ->]; [done | congruence].
  - injection H as <-. split; [lia|]. intros c i x Hc Hi Hpi Hne Hx.
    destruct (Hsib i Hi Hpi) as [->| ->]; [done|].
    apply lookup_lt_Some in Hx. apply lookup_ge_None in Hc0. lia.
Qed.

Lemma siftup_loop_ordered fuel st : forall heap pos h p,
  (length heap <= pos + fuel)%nat ->
  ordered_but pos heap -> grand_ok pos heap ->
  siftup_loop fuel st heap pos = Ok (h, p) ->
  ordered_but p h /\ (length h <= 2 * p + 1)%nat.
Proof.
  induction fuel as [|fuel IH]; intros heap pos h p Hfuel Hord Hgr H;
    simpl in H.
  - injection H as <- <-. split; [done | lia].
  - destruct (decide (2 * pos + 1 < length heap)%nat) as [Hc|Hc].
    2:{ injection H as <- <-. split; [done | lia]. }
    apply rbind_ok in H as (cp & Hcp & H).
    apply smaller_child in Hcp as [Hcpos Hsib].
    destruct (heap !! cp) as [c|] eqn:Hcl; [|done].
    assert (Hpc : parent cp = pos) by (by apply parent_of_child).
    apply IH in H; [done | rewrite length_insert; lia | |].
    + intros i x y Hi Hne Hnp Hx Hy.
      apply list_lookup_insert_Some in Hx as [(<- & <- & Hlen)|[Hnpos Hx]].
      * rewrite list_lookup_insert_ne in Hy
          by (pose proof (parent_lt_self pos Hi); lia).
        apply (Hgr cp); try done. lia.
      * apply list_lookup_insert_Some in Hy as [(Hpi & <- & _)|[Hnpi Hy]].
        -- by apply (Hsib c i x).
        -- by apply (Hord i).
    + intros i x z Hi Hpi Hcp0 Hx Hz. rewrite Hpc in Hz.
      rewrite list_lookup_insert_eq in Hz by lia. injection Hz as <-.
      assert (i ≠ pos).
      { pose proof (parent_child i Hi). lia. }
      rewrite list_lookup_insert_ne in Hx by done.
      apply (Hord i); try done; try lia. by rewrite Hpi.
Qed.

Lemma ordered_but_insert heap p x :
  ordered_but p heap -> ordered_but p (<[p := x]> heap).
Proof.
  intros Hord i a b Hi Hne Hnp Ha Hb.
  rewrite list_lookup_insert_ne in Ha by done.
  rewrite list_lookup_insert_ne in Hb by done.
  by apply (Hord i).
Qed.

Lemma siftup_ordered st heap h' :
  ordered_but 0 heap -> siftup st heap 0 = Ok h' -> heap_ordered h'.
Proof.
  intros Hord. unfold siftup.
  destruct (heap !! 0%nat) as [newitem|] eqn:Hnew; [|done].
  intros H. apply rbind_ok in H as ([h p] & Hloop & H). simpl in H.
  pose proof (siftup_loop_perm _ _ _ _ _ _
                ltac:(by apply lookup_lt_Some in Hnew) Hloop)
    as (Hlen & Hp & _).
  apply siftup_loop_ordered in Hloop as [Hordp Hleaf]; [|lia|done|].
  2:{ intros i x y _ _ Hp0. lia. }
  unfold siftdown in H. rewrite list_lookup_insert_eq in H by lia.
  apply siftdown_loop_ordered in H; try done.
  - lia.
  - rewrite length_insert. lia.
  - by apply ordered_but_insert.
  - intros i x y Hi Hpi _ Hx _. apply lookup_lt_Some in Hx.
    rewrite length_insert in Hx. pose proof (parent_child i Hi). lia.
  - intros i x Hi Hpi Hx. apply lookup_lt_Some in Hx.
    rewrite length_insert in Hx. pose proof (parent_child i Hi). lia.
Qed.

Lemma heappush_ordered st heap item h' :
  heap_ordered heap -> heappush st heap item = Ok h' -> heap_ordered h'.
Proof.
  intros Hord H. unfold heappush, siftdown in H.
  assert (Hpos : (length (heap ++ [item]) - 1 = length heap)%nat).
  { rewrite length_app. simpl. lia. }
  rewrite Hpos in H.
  destruct ((heap ++ [item]) !! length heap) as [newitem|] eqn:Hnew; [|done].
  assert (Hlen : length (heap ++ [item]) = S (length heap)).
  { rewrite length_app. simpl. lia. }
  apply siftdown_loop_ordered in H; try done.
  - lia.
  - lia.
  - intros i x y Hi Hne Hnp Hx Hy.
    assert (i < length heap)%nat.
    { apply lookup_lt_Some in Hx. lia. }
    pose proof (parent_lt_self i Hi).
    rewrite lookup_app_l in Hx by lia. rewrite lookup_app_l in Hy by lia.
    by apply (Hord i).
  - intros i x y Hi Hpi _ Hx _. apply lookup_lt_Some in Hx.
    pose proof (parent_child i Hi). lia.
  - intros i x Hi Hpi Hx. apply lookup_lt_Some in Hx.
    pose proof (parent_child i Hi). lia.
Qed.

(** The root of a heap in order comes first. *)
Lemma heap_root_least heap r :
  heap_ordered heap -> heap !! 0%nat = Some r ->
  forall x, x ∈ heap -> entry_le r x.
Proof.
  intros Hord Hr x Hx. apply list_elem_of_lookup in Hx as [i Hi].
  revert x Hi. induction i as [i IH] using lt_wf_ind. intros x Hi.
  destruct (decide (0 < i)%nat) as [Hpos|Hz].
  - pose proof (parent_lt_self i Hpos) as Hp.
    destruct (lookup_lt_is_Some_2 heap (parent i)) as [y Hy].
    { apply lookup_lt_Some in Hi. lia. }
    apply (entry_le_trans _ y); [by apply (IH (parent i)) | by apply (Hord i)].
  - assert (i = 0%nat) as -> by lia. rewrite Hr in Hi. injection Hi as <-.
    apply entry_le_refl.
Qed.

Lemma heappop_ordered st heap e h' :
  heap_ordered heap -> heappop st heap = Ok (e, h') ->
  heap_ordered h' /\ forall x, x ∈ heap -> entry_le e x.
Proof.
  intros Hord. unfold heappop.
  destruct (last heap) as [lastelt|] eqn:Hlast; [|done].
  apply last_Some in Hlast as [heap1 ->]. rewrite removelast_last.
  destruct heap1 as [|returnitem heap1].
  - intros [= <- <-]. split.
    + intros i x y _ Hx. by rewrite lookup_nil in Hx.
    + intros x Hx%list_elem_of_singleton. subst. apply entry_le_refl.
  - intros H. apply rbind_ok in H as (heap2 & Hup & [= <- <-]). split.
    + apply siftup_ordered in Hup; [done|].
      intros i x y Hi _ Hnp Hx Hy. simpl in Hx, Hy.
      destruct i as [|i]; [lia|]. simpl in Hx.
      destruct (parent (S i)) as [|j] eqn:Hj; [done|]. simpl in Hy.
      apply (Hord (S i)); [lia | |].
      * simpl. apply lookup_app_l_Some. done.
      * rewrite Hj. simpl. by apply lookup_app_l_Some.
    + by apply heap_root_least.
Qed.

End HeapOrder.

(** ** The schedulers neither lose nor duplicate a process *)

Section SchedulerExtra.
Import SchedulerSpec.
Implicit Types (st : store) (s : Scheduler.t) (proc : ref).

Lemma add_process_members s st proc s' :
  Scheduler.add_process s st proc = Ok s' ->
  members s' ≡ₚ members s ++ [proc].
Proof.
  destruct s as [s|s|s]; simpl.
  - by intros [= <-].
  - intros H. apply rbind_ok in H as (s1 & H & [= <-]).
    unfold SJFScheduler.add_process in H.
    apply rbind_ok in H as (h & H & [= <-]). simpl.
    apply heappush_perm in H. rewrite H. by rewrite fmap_app.
  - intros H. apply rbind_ok in H as (s1 & H & [= <-]).
    unfold PriorityScheduler.add_process in H.
    apply rbind_ok in H as (h & H & [= <-]). simpl.
    apply heappush_perm in H. rewrite H. by rewrite fmap_app.
Qed.

Lemma tick_members s st now po s' :
  Scheduler.tick s st now = Ok (po, s') ->
  match po with
  | Some proc => members s ≡ₚ proc :: members s'
  | None => members s = [] /\ s' = s
  end.
Proof.
  destruct s as [s|s|s]; simpl.
  - unfold RoundRobinScheduler.tick.
    destruct (RoundRobinScheduler.queue s) as [|p q] eqn:Hq; simpl.
    + by intros [= <- <-].
    + by intros [= <- <-].
  - intros H. apply rbind_ok in H as ([o s1] & H & [= <- <-]).
    unfold SJFScheduler.tick in H.
    destruct (SJFScheduler.heap s) as [|e h] eqn:Hh.
    + by injection H as <- <-.
    + apply rbind_ok in H as ([e' h'] & H & [= <- <-]).
      apply heappop_perm in H. apply (fmap_Permutation snd) in H. exact H.
  - intros H. apply rbind_ok in H as ([o s1] & H & [= <- <-]).
    unfold PriorityScheduler.tick in H.
    destruct (PriorityScheduler.heap s) as [|e h] eqn:Hh.
    + by injection H as <- <-.
    + apply rbind_ok in H as ([e' h'] & H & [= <- <-]).
      apply heappop_perm in H. apply (fmap_Permutation snd) in H. exact H.
Qed.

Lemma has_ready_members s : Scheduler.has_ready s = true <-> members s ≠ [].
Proof.
  destruct s as [s|s|s]; simpl.
  - unfold RoundRobinScheduler.has_ready.
    by destruct (RoundRobinScheduler.queue s).
  - unfold SJFScheduler.has_ready. by destruct (SJFScheduler.heap s).
  - unfold PriorityScheduler.has_ready. by destruct (PriorityScheduler.heap s).
Qed.

Lemma add_process_heap s st proc s' :
  Scheduler.add_process s st proc = Ok s' ->
  heap_of s' ≡ₚ (if Scheduler.is_round_robin s then []
                 else heap_of s ++ [entry_of s st proc]).
Proof.
  destruct s as [s|s|s]; simpl.
  - by intros [= <-].
  - intros H. apply rbind_ok in H as (s1 & H & [= <-]).
    unfold SJFScheduler.add_process in H.
    apply rbind_ok in H as (h & H & [= <-]). simpl.
    by apply heappush_perm in H.
  - intros H. apply rbind_ok in H as (s1 & H & [= <-]).
    unfold PriorityScheduler.add_process in H.
    apply rbind_ok in H as (h & H & [= <-]). simpl.
    by apply heappush_perm in H.
Qed.

Lemma add_process_ok s st proc :
  orderable st (heap_of s ++ [entry_of s st proc]) ->
  exists s', Scheduler.add_process s st proc = Ok s'.
Proof.
  destruct s as [s|s|s]; simpl; intros Hord.
  - by eexists.
  - unfold SJFScheduler.add_process.
    destruct (heappush_ok st _ _ Hord) as [h' ->]. by eexists.
  - unfold PriorityScheduler.add_process.
    destruct (heappush_ok st _ _ Hord) as [h' ->]. by eexists.
Qed.

Lemma tick_ok s st now :
  orderable st (heap_of s) -> exists r, Scheduler.tick s st now = Ok r.
Proof.
  destruct s as [s|s|s]; simpl; intros Hord.
  - by eexists.
  - unfold SJFScheduler.tick.
    destruct (SJFScheduler.heap s) as [|e h] eqn:Hh; [by eexists|].
    destruct (heappop_ok st (e :: h) ltac:(done) Hord) as [r ->]. by eexists.
  - unfold PriorityScheduler.tick.
    destruct (PriorityScheduler.heap s) as [|e h] eqn:Hh; [by eexists|].
    destruct (heappop_ok st (e :: h) ltac:(done) Hord) as [r ->]. by eexists.
Qed.

(** X12. The three schedulers neither lose nor duplicate a process:
    [add_process] adds exactly the given process to those held, [tick]
    takes exactly the returned process out of them and returns [None]
    only when none is held (leaving the scheduler as it was), and
    [has_ready] tells whether one is held.  The calls return whenever the
    tuples involved can be compared, always for round robin. *)
Theorem schedulers_conserve_processes (s : Scheduler.t) (st : store) :
  (forall proc,
     orderable st (heap_of s ++ [entry_of s st proc]) ->
     exists s', Scheduler.add_process s st proc = Ok s') /\
  (forall proc s', Scheduler.add_process s st proc = Ok s' ->
     members s' ≡ₚ members s ++ [proc]) /\
  (forall now,
     orderable st (heap_of s) -> exists r, Scheduler.tick s st now = Ok r) /\
  (forall now proc s', Scheduler.tick s st now = Ok (Some proc, s') ->
     members s ≡ₚ proc :: members s') /\
  (forall now s', Scheduler.tick s st now = Ok (None, s') ->
     members s = [] /\ s' = s) /\
  (Scheduler.has_ready s = true <-> members s ≠ []).
Proof.
  split_and!.
  - intros proc. apply add_process_ok.
  - intros proc s'. apply add_process_members.
  - intros now. apply tick_ok.
  - intros now proc s' H. by apply tick_members in H.
  - intros now s' H. by apply tick_members in H.
  - apply has_ready_members.
Qed.

Lemma schedulers_conserve_processes_witness :
  let st := [Process.make 1 0 5 0 1 []; Process.make 2 0 3 0 1 []] in
  let s0 := Scheduler.SJF (SJFScheduler.init false) in
  exists s1 s2 s3,
    Scheduler.add_process s0 st 0%nat = Ok s1 /\
    members s1 ≡ₚ members s0 ++ [0%nat] /\
    Scheduler.add_process s1 st 1%nat = Ok s2 /\
    members s2 ≡ₚ members s1 ++ [1%nat] /\
    Scheduler.tick s2 st 0 = Ok (Some 1%nat, s3) /\
    members s2 ≡ₚ 1%nat :: members s3.
Proof.
  intros st s0.
  assert (H1 : exists s1, Scheduler.add_process s0 st 0%nat = Ok s1).
  { apply (schedulers_conserve_processes s0 st).
    intros a b Ha Hb. simpl in Ha, Hb.
    apply list_elem_of_singleton in Ha as ->.
    apply list_elem_of_singleton in Hb as ->. apply entry_lt_refl. }
  destruct H1 as [s1 H1].
  assert (H2 : exists s2, Scheduler.add_process s1 st 1%nat = Ok s2).
  { revert H1. vm_compute. intros [= <-]. by eexists. }
  destruct H2 as [s2 H2].
  assert (H3 : exists s3, Scheduler.tick s2 st 0 = Ok (Some 1%nat, s3)).
  { revert H2. revert H1. vm_compute. intros [= <-] [= <-]. by eexists. }
  destruct H3 as [s3 H3].
  exists s1, s2, s3.
  destruct (schedulers_conserve_processes s0 st) as (_ & Ha0 & _).
  destruct (schedulers_conserve_processes s1 st) as (_ & Ha1 & _).
  destruct (schedulers_conserve_processes s2 st) as (_ & _ & _ & Ht2 & _).
  split_and!; [exact H1 | by apply Ha0 | exact H2 | by apply Ha1 | exact H3
              | by apply (Ht2 0)].
Defined.

(** ** Round robin serves in the order of arrival in its queue *)

Lemma rr_ticks_empty n : forall (s : RoundRobinScheduler.t) now,
  RoundRobinScheduler.queue s = [] -> rr_ticks n s now = replicate n None.
Proof.
  induction n as [|n IH]; intros s now Hq; simpl; [done|].
  unfold RoundRobinScheduler.tick. rewrite Hq. simpl. by rewrite IH.
Qed.

Lemma rr_ticks_queue k : forall (s : RoundRobinScheduler.t) now,
  rr_ticks (length (RoundRobinScheduler.queue s) + k) s now
  = (Some <$> RoundRobinScheduler.queue s) ++ replicate k None.
Proof.
  intros s. remember (RoundRobinScheduler.queue s) as q eqn:Hq.
  revert s Hq. induction q as [|p q IH]; intros s Hq now; simpl.
  - by apply rr_ticks_empty.
  - unfold RoundRobinScheduler.tick. rewrite <- Hq. simpl. f_equal.
    by apply IH.
Qed.

Lemma rr_add_queue ps : forall (s : RoundRobinScheduler.t),
  RoundRobinScheduler.queue (foldl RoundRobinScheduler.add_process s ps)
  = RoundRobinScheduler.queue s ++ ps.
Proof.
  induction ps as [|p ps IH]; intros s; simpl; [by rewrite app_nil_r|].
  rewrite IH. simpl. by rewrite <- app_assoc.
Qed.

(** X13. A round-robin scheduler is a first-in first-out queue: after
    the processes [ps] are added to a scheduler that holds [q], successive
    calls of [tick] return the processes of [q], then those of [ps], each
    once and in that order, and [None] from then on, whatever the tick
    numbers passed and whatever the quantum the scheduler was built
    with. *)
Theorem round_robin_is_first_in_first_out
  (s : RoundRobinScheduler.t) (ps : list ref) (k : nat) (now : Z) :
  rr_ticks (length (RoundRobinScheduler.queue s) + length ps + k)
           (foldl RoundRobinScheduler.add_process s ps) now
  = (Some <$> (RoundRobinScheduler.queue s ++ ps)) ++ replicate k None.
Proof.
  rewrite <- rr_add_queue, <- length_app, <- rr_add_queue.
  apply rr_ticks_queue.
Qed.

(** ** SJF and the priority scheduler pick the least tuple *)

Lemma entry_of_snd (s : Scheduler.t) st proc :
  (entry_of s st proc).1.2 = Process.pid (deref st proc) /\
  (entry_of s st proc).2 = proc.
Proof. by destruct s. Qed.

Lemma heap_ordered_nil : heap_ordered [].
Proof. intros i x y _ Hx. by rewrite lookup_nil in Hx. Qed.

Lemma add_process_ordered s st proc s' :
  heap_ordered (heap_of s) -> Scheduler.add_process s st proc = Ok s' ->
  heap_ordered (heap_of s').
Proof.
  destruct s as [s|s|s]; simpl; intros Hord.
  - intros [= <-]. apply heap_ordered_nil.
  - intros H. apply rbind_ok in H as (s1 & H & [= <-]).
    unfold SJFScheduler.add_process in H.
    apply rbind_ok in H as (h & H & [= <-]). simpl.
    by eapply heappush_ordered.
  - intros H. apply rbind_ok in H as (s1 & H & [= <-]).
    unfold PriorityScheduler.add_process in H.
    apply rbind_ok in H as (h & H & [= <-]). simpl.
    by eapply heappush_ordered.
Qed.

Lemma tick_ordered s st now po s' :
  heap_ordered (heap_of s) -> Scheduler.tick s st now = Ok (po, s') ->
  heap_ordered (heap_of s') /\
  (forall proc, po = Some proc -> Scheduler.is_round_robin s = false ->
     exists e, heap_of s ≡ₚ e :: heap_of s' /\ e.2 = proc /\
       forall x, x ∈ heap_of s -> entry_le e x).
Proof.
  destruct s as [s|s|s]; simpl; intros Hord.
  - intros [= <- <-]. split; [apply heap_ordered_nil | done].
  - intros H. apply rbind_ok in H as ([o s1] & H & [= <- <-]).
    unfold SJFScheduler.tick in H.
    destruct (SJFScheduler.heap s) as [|e0 h] eqn:Hh.
    + injection H as <- <-. simpl. rewrite Hh. by split.
    + apply rbind_ok in H as ([e h'] & H & [= <- <-]). simpl.
      pose proof (heappop_perm _ _ _ _ H) as Hperm.
      apply heappop_ordered in H as [Hord' Hmin]; [|done].
      split; [done|]. intros proc [= <-] _. by exists e.
  - intros H. apply rbind_ok in H as ([o s1] & H & [= <- <-]).
    unfold PriorityScheduler.tick in H.
    destruct (PriorityScheduler.heap s) as [|e0 h] eqn:Hh.
    + injection H as <- <-. simpl. rewrite Hh. by split.
    + apply rbind_ok in H as ([e h'] & H & [= <- <-]). simpl.
      pose proof (heappop_perm _ _ _ _ H) as Hperm.
      apply heappop_ordered in H as [Hord' Hmin]; [|done].
      split; [done|]. intros proc [= <-] _. by exists e.
Qed.

Lemma add_process_entry_of s st proc s' :
  Scheduler.add_process s st proc = Ok s' ->
  forall st' p, entry_of s' st' p = entry_of s st' p.
Proof.
  destruct s as [s|s|s]; simpl.
  - by intros [= <-].
  - intros H. by apply rbind_ok in H as (s1 & _ & [= <-]).
  - intros H. apply rbind_ok in H as (s1 & H & [= <-]).
    unfold PriorityScheduler.add_process in H.
    by apply rbind_ok in H as (h & _ & [= <-]).
Qed.

Lemma tick_entry_of s st now po s' :
  Scheduler.tick s st now = Ok (po, s') ->
  forall st' p, entry_of s' st' p = entry_of s st' p.
Proof.
  destruct s as [s|s|s]; simpl.
  - by intros [= <- <-].
  - intros H. by apply rbind_ok in H as (s1 & _ & [= <- <-]).
  - intros H. apply rbind_ok in H as ([o s1] & H & [= <- <-]).
    unfold PriorityScheduler.tick in H.
    destruct (PriorityScheduler.heap s); [by injection H as <- <-|].
    by apply rbind_ok in H as (eh & _ & [= <- <-]).
Qed.

Lemma add_process_round_robin s st proc s' :
  Scheduler.add_process s st proc = Ok s' ->
  Scheduler.is_round_robin s' = Scheduler.is_round_robin s.
Proof.
  destruct s as [s|s|s]; simpl.
  - by intros [= <-].
  - intros H. by apply rbind_ok in H as (s1 & _ & [= <-]).
  - intros H. by apply rbind_ok in H as (s1 & _ & [= <-]).
Qed.

Lemma tick_round_robin s st now po s' :
  Scheduler.tick s st now = Ok (po, s') ->
  Scheduler.is_round_robin s' = Scheduler.is_round_robin s.
Proof.
  destruct s as [s|s|s]; simpl.
  - by intros [= <- <-].
  - intros H. by apply rbind_ok in H as (s1 & _ & [= <- <-]).
  - intros H. by apply rbind_ok in H as (s1 & _ & [= <- <-]).
Qed.

Lemma sched_run_snoc cs : forall s c,
  sched_run s (cs ++ [c]) = let* s' := sched_run s cs in sched_do s' c.
Proof.
  induction cs as [|c0 cs IH]; intros s c; simpl.
  - by destruct (sched_do s c).
  - destruct (sched_do s c0); simpl; [apply IH | done].
Qed.

Lemma sched_run_inv s0 cs s :
  heap_of s0 = [] -> sched_run s0 cs = Ok s ->
  heap_ordered (heap_of s) /\
  (forall x, x ∈ heap_of s ->
     exists st', (st', SAdd x.2) ∈ cs /\ x = entry_of s0 st' x.2) /\
  (forall st' p, entry_of s st' p = entry_of s0 st' p) /\
  Scheduler.is_round_robin s = Scheduler.is_round_robin s0.
Proof.
  intros Hempty. revert s.
  induction cs as [|c cs IH] using rev_ind; intros s H.
  - injection H as <-. rewrite Hempty.
    split_and!; try done; try apply heap_ordered_nil;
      by intros x Hx%elem_of_nil.
  - rewrite sched_run_snoc in H. apply rbind_ok in H as (s1 & Hrun & Hdo).
    destruct (IH s1 Hrun) as (Hord & Hent & Heo & Hrr).
    destruct c as [st [proc|now]]; unfold sched_do in Hdo; simpl in Hdo.
    + pose proof (add_process_heap _ _ _ _ Hdo) as Hheap.
      split_and!.
      * by eapply add_process_ordered.
      * intros x Hx. rewrite Hheap in Hx.
        destruct (Scheduler.is_round_robin s1); [by apply elem_of_nil in Hx|].
        apply elem_of_app in Hx as [Hx|Hx%list_elem_of_singleton].
        -- destruct (Hent x Hx) as (st' & Hin & Heq).
           exists st'. split; [|done]. apply elem_of_app. by left.
        -- subst x. destruct (entry_of_snd s1 st proc) as [Hxp Hx2].
           exists st. rewrite Hx2. split; [|by rewrite Heo].
           apply elem_of_app. right. by left.
      * intros st' p. by rewrite (add_process_entry_of _ _ _ _ Hdo), Heo.
      * by rewrite (add_process_round_robin _ _ _ _ Hdo).
    + apply rbind_ok in Hdo as ([po s2] & Htick & [= <-]). simpl.
      destruct (tick_ordered _ _ _ _ _ Hord Htick) as [Hord' Hmin].
      split_and!; try done.
      * intros x Hx.
        assert (Hx1 : x ∈ heap_of s1).
        { destruct po as [proc|].
          - destruct (Scheduler.is_round_robin s1) eqn:Hk.
            + apply tick_round_robin in Htick. rewrite Hk in Htick.
              destruct s2 as [?|?|?]; try done. by apply elem_of_nil in Hx.
            + destruct (Hmin proc eq_refl eq_refl) as (e & Hperm & _).
              rewrite Hperm. by right.
          - apply tick_members in Htick as [_ ->]. done. }
        destruct (Hent x Hx1) as (st' & Hin & Heq).
        exists st'. split; [|done]. apply elem_of_app. by left.
      * intros st' p. by rewrite (tick_entry_of _ _ _ _ _ Htick), Heo.
      * by rewrite (tick_round_robin _ _ _ _ _ Htick).
Qed.

(** X23. SJF and the priority scheduler hand out the least tuple: after
    any calls on a scheduler built empty, [tick] returns the process of a
    held tuple that no held tuple precedes in the order of
    [(key, arrival, pid)], and every held tuple is the one pushed by an
    earlier [add_process], with the key read from the process at that
    call (the remaining time for SJF; the priority, negated when higher
    values win, for the priority scheduler). *)
Theorem heap_schedulers_pick_the_least_tuple
  (s0 s s' : Scheduler.t) (cs : list (store * sched_call))
  (st : store) (now : Z) (proc : ref) :
  heap_of s0 = [] -> Scheduler.is_round_robin s0 = false ->
  sched_run s0 cs = Ok s ->
  Scheduler.tick s st now = Ok (Some proc, s') ->
  exists e, e ∈ heap_of s /\ e.2 = proc /\
    (forall x, x ∈ heap_of s -> entry_le e x) /\
    (forall x, x ∈ heap_of s ->
       exists st', (st', SAdd x.2) ∈ cs /\ x = entry_of s0 st' x.2).
Proof.
  intros Hempty Hrr Hrun Htick.
  destruct (sched_run_inv s0 cs s Hempty Hrun) as (Hord & Hent & _ & Hk).
  destruct (tick_ordered _ _ _ _ _ Hord Htick) as [_ Hmin].
  destruct (Hmin proc eq_refl ltac:(congruence)) as (e & Hperm & He & Hle).
  exists e. split_and!; try done. rewrite Hperm. by left.
Qed.

Lemma heap_schedulers_pick_the_least_tuple_witness :
  let st := [Process.make 1 0 5 0 1 []; Process.make 2 0 3 0 1 []] in
  let s0 := Scheduler.SJF (SJFScheduler.init false) in
  let cs := [(st, SAdd 0%nat); (st, SAdd 1%nat)] in
  exists s s',
    sched_run s0 cs = Ok s /\
    Scheduler.tick s st 0 = Ok (Some 1%nat, s') /\
    exists e, e ∈ heap_of s /\ e.2 = 1%nat /\
      (forall x, x ∈ heap_of s -> entry_le e x) /\
      (forall x, x ∈ heap_of s ->
         exists st', (st', SAdd x.2) ∈ cs /\ x = entry_of s0 st' x.2).
Proof.
  intros st s0 cs.
  assert (H1 : exists s, sched_run s0 cs = Ok s).
  { vm_compute. by eexists. }
  destruct H1 as [s H1].
  assert (H2 : exists s', Scheduler.tick s st 0 = Ok (Some 1%nat, s')).
  { revert H1. vm_compute. intros [= <-]. by eexists. }
  destruct H2 as [s' H2].
  exists s, s'. split; [exact H1|]. split; [exact H2|].
  exact (heap_schedulers_pick_the_least_tuple s0 s s' cs st 0 1%nat
           eq_refl eq_refl H1 H2).
Defined.

End SchedulerExtra.

(** * Part VI: further properties of the engine *)

Section EngineExtra.
Import Simulator EngineSpec SchedulerSpec RunSpec.
Implicit Types (l : loop_state) (st : store) (proc : ref).

Variable rng : nat -> Z.

(** ** What the parts of a turn do to the containers *)

Lemma add_process_kind (s : Scheduler.t) st proc s' :
  Scheduler.add_process s st proc = Ok s' ->
  Scheduler.is_round_robin s' = Scheduler.is_round_robin s.
Proof.
  destruct s as [s|s|s]; simpl.
  - by intros [= <-].
  - intros H. by apply rbind_ok in H as (s1 & _ & [= <-]).
  - intros H. by apply rbind_ok in H as (s1 & _ & [= <-]).
Qed.

Lemma tick_kind (s : Scheduler.t) st now po s' :
  Scheduler.tick s st now = Ok (po, s') ->
  Scheduler.is_round_robin s' = Scheduler.is_round_robin s.
Proof.
  destruct s as [s|s|s]; simpl.
  - by intros [= <- <-].
  - intros H. by apply rbind_ok in H as (s1 & _ & [= <- <-]).
  - intros H. by apply rbind_ok in H as (s1 & _ & [= <- <-]).
Qed.

(** The arrivals loop moves a prefix of [pending] into the scheduler:
    the processes that have arrived, up to the first that has not. *)
Lemma bring_arrivals_spec st now : forall pend sched sched' pend',
  bring_arrivals st now sched pend = Ok (sched', pend') ->
  exists adm, pend = adm ++ pend' /\
    members sched' ≡ₚ members sched ++ adm /\
    Forall (fun r => Process.arrival (deref st r) <= now) adm /\
    (forall r, head pend' = Some r -> now < Process.arrival (deref st r)) /\
    Scheduler.is_round_robin sched' = Scheduler.is_round_robin sched.
Proof.
  induction pend as [|p pend IH]; intros sched sched' pend' H; simpl in H.
  - injection H as <- <-. exists []. split_and!; try done.
    by rewrite app_nil_r.
  - destruct (Z.leb_spec (Process.arrival (deref st p)) now) as [Hle|Hgt].
    + apply rbind_ok in H as (sched1 & Hadd & H).
      apply IH in H as (adm & -> & Hmem & Hadm & Hhead & Hkind).
      exists (p :: adm). split_and!; try done.
      * rewrite Hmem, (add_process_members _ _ _ _ Hadd).
        by rewrite <- app_assoc.
      * by constructor.
      * by rewrite Hkind, (add_process_kind _ _ _ _ Hadd).
    + injection H as <- <-. exists []. split_and!; try done.
      * by rewrite app_nil_r.
      * intros r [= <-]. lia.
Qed.

(** The two ways the first part of a turn goes: the running process
    goes on, or the scheduler is asked for the next one. *)
Lemma dispatch_cases l po l1 :
  dispatch l = Ok (po, l1) ->
  exists sched1 pend1,
    bring_arrivals (procs l) (time (self l)) (scheduler (self l)) (pending l)
      = Ok (sched1, pend1) /\
    pending l1 = pend1 /\
    ((exists p, running_proc l = Some p /\ po = Some p /\
        scheduler (self l1) = sched1 /\
        rr_quantum_left l1 = rr_quantum_left l /\ procs l1 = procs l) \/
     (running_proc l = None /\
      Scheduler.tick sched1 (procs l) (time (self l))
        = Ok (po, scheduler (self l1)) /\
      match po with
      | Some proc =>
          rr_quantum_left l1 = quantum (self l) /\
          procs l1 =
            match Process.start_time (deref (procs l) proc) with
            | None =>
                update (procs l) proc
                  (Process.set_start_time (Some (time (self l))))
            | Some _ => procs l
            end
      | None => rr_quantum_left l1 = rr_quantum_left l /\ procs l1 = procs l
      end)).
Proof.
  unfold dispatch. intros H.
  apply rbind_ok in H as ([sched1 pend1] & Hadm & H). simpl in H.
  exists sched1, pend1. split; [done|].
  destruct (running_proc l) as [p|] eqn:Hrun.
  - injection H as <- <-. simpl. split; [done|]. left. by exists p.
  - apply rbind_ok in H as ([[proc|] sched2] & Htick & H); simpl in H;
      injection H as <- <-; simpl; (split; [done|]); right; by split_and!.
Qed.

Lemma dispatch_population l po l1 :
  dispatch l = Ok (po, l1) -> population l1 ≡ₚ population l.
Proof.
  intros H. pose proof (dispatch_spec _ _ _ H)
    as (_ & _ & _ & Hfin & _ & _ & _ & _ & Hrun & _).
  apply dispatch_cases in H as (sched1 & pend1 & Hadm & Hpend & Hcase).
  apply bring_arrivals_spec in Hadm as (adm & Hsplit & Hmem & _).
  unfold population, running_list. rewrite Hfin, Hrun, Hpend, Hsplit.
  destruct Hcase as [(p & Hr & -> & -> & _)|(Hr & Htick & _)]; rewrite Hr.
  - rewrite Hmem. solve_Permutation.
  - apply tick_members in Htick. destruct po as [proc|].
    + transitivity (pend1 ++ (proc :: members (scheduler (self l1)))
                    ++ finished (self l)); [solve_Permutation|].
      rewrite <- Htick, Hmem. solve_Permutation.
    + destruct Htick as [Hnil ->]. rewrite Hmem. solve_Permutation.
Qed.

(** The three ways a CPU tick ends: the process finishes, goes back to
    the round-robin queue, or keeps the CPU. *)
Lemma cpu_tick_cases proc l l' :
  cpu_tick proc l = Ok l' ->
  pending l' = pending l /\
  ((Process.remaining (deref (procs l) proc) <= 1 \/
      ~ (proc < length (procs l))%nat) /\
   running_proc l' = None /\
   scheduler (self l') = scheduler (self l) /\
   finished (self l') = finished (self l) ++ [proc] /\
   rr_quantum_left l' = rr_quantum_left l
   \/
   Scheduler.is_round_robin (scheduler (self l)) = true /\
   rr_quantum_left l <= 1 /\
   running_proc l' = None /\
   Scheduler.add_process (scheduler (self l)) (procs l') proc
     = Ok (scheduler (self l')) /\
   finished (self l') = finished (self l) /\
   rr_quantum_left l' = rr_quantum_left l - 1
   \/
   (Scheduler.is_round_robin (scheduler (self l)) = true ->
    1 < rr_quantum_left l) /\
   running_proc l' = running_proc l /\
   scheduler (self l') = scheduler (self l) /\
   finished (self l') = finished (self l) /\
   rr_quantum_left l' = rr_quantum_left l - 1).
Proof.
  unfold cpu_tick. intros H.
  set (procs1 := update (procs l) proc _) in H.
  destruct (Z.leb_spec (Process.remaining (deref procs1 proc)) 0) as [Hle|Hgt].
  - injection H as <-. simpl. split; [done|]. left. split_and!; try done.
    destruct (decide (proc < length (procs l))%nat) as [Hv|Hv]; [|by right].
    left. unfold procs1 in Hle. rewrite deref_update_eq in Hle by done.
    simpl in Hle. lia.
  - simpl in H.
    destruct (Scheduler.is_round_robin (scheduler (self l))) eqn:Hrr.
    + destruct (Z.leb_spec (rr_quantum_left l - 1) 0) as [Hq|Hq].
      * apply rbind_ok in H as (sched' & Hadd & [= <-]). simpl.
        split; [done|]. right. left. split_and!; try done. lia.
      * injection H as <-. simpl. split; [done|]. right. right.
        split_and!; try done. intros _. lia.
    + injection H as <-. simpl. split; [done|]. right. right.
      by split_and!.
Qed.

Lemma execute_population po l1 l' :
  execute rng po l1 = Ok l' -> running_proc l1 = po ->
  population l' ≡ₚ population l1.
Proof.
  intros H Hrun. apply execute_cases in H.
  destruct H as [->|proc page m' Hrand Hacc ->
                 |proc page m' Hrand Hacc Hio
                 |proc page m' l2 Hrand Hacc Hio Hcpu]; try done.
  - pose proof (io_loop_self _ _ _ _ _ Hio)
      as (_ & _ & _ & Hfin & _ & _ & Hpend & _).
    pose proof (io_loop_outcome _ _ _ _ _ Hio) as (_ & _ & _ & _ & Hb).
    destruct (Hb eq_refl) as [Hnone Hadd]. simpl in *.
    apply add_process_members in Hadd.
    unfold population, running_list.
    rewrite Hfin, Hpend, Hnone, Hadd, Hrun. solve_Permutation.
  - pose proof (io_loop_self _ _ _ _ _ Hio)
      as (_ & _ & _ & Hfin & _ & _ & Hpend & _).
    pose proof (io_loop_outcome _ _ _ _ _ Hio) as (_ & _ & _ & Hb & _).
    destruct (Hb eq_refl) as (Hrun2 & Hsched2 & _). simpl in *.
    apply cpu_tick_cases in Hcpu as (Hpend' & Hcase).
    unfold population, running_list. rewrite Hpend', Hpend.
    destruct Hcase as [(_ & Hr & Hs & Hf & _)
                      |[(_ & _ & Hr & Hadd & Hf & _)|(_ & Hr & Hs & Hf & _)]].
    + rewrite Hr, Hs, Hf, Hsched2, Hfin, Hrun. solve_Permutation.
    + apply add_process_members in Hadd.
      rewrite Hr, Hadd, Hf, Hsched2, Hfin, Hrun. solve_Permutation.
    + by rewrite Hr, Hs, Hf, Hrun2, Hsched2, Hfin.
Qed.

Lemma step_population l l' :
  step rng l = Ok l' -> population l' ≡ₚ population l.
Proof.
  intros H. apply step_inv in H as (po & l1 & Hd & He).
  pose proof (dispatch_spec _ _ _ Hd)
    as (_ & _ & _ & _ & _ & _ & _ & _ & Hrun & _).
  rewrite (execute_population _ _ _ He Hrun).
  by apply dispatch_population in Hd.
Qed.

Lemma iterate_population n : forall l l',
  iterate rng n l = Ok l' -> population l' ≡ₚ population l.
Proof.
  induction n as [|n IH]; intros l l' H; simpl in H.
  - by injection H as <-.
  - apply rbind_ok in H as (l1 & Hstep & H).
    rewrite (IH _ _ H). by apply step_population.
Qed.

Lemma sort_by_arrival_perm st (rs : list ref) : sort_by_arrival st rs ≡ₚ rs.
Proof.
  unfold sort_by_arrival. induction rs as [|r rs IH]; simpl; [done|].
  rewrite <- IH at 2. generalize (foldr (insert_by_arrival st) [] rs).
  intros srt. induction srt as [|x srt IHs]; simpl; [done|].
  destruct (_ <=? _); [done|].
  rewrite IHs. apply perm_swap.
Qed.

Lemma loop_iterate fuel : forall max_ticks l l',
  loop rng fuel max_ticks l = Ok (Some l') ->
  exists n, (n <= fuel)%nat /\ iterate rng n l = Ok l' /\
            loop_cond max_ticks l' = false.
Proof.
  induction fuel as [|fuel IH]; intros max_ticks l l' H; simpl in H.
  - destruct (loop_cond max_ticks l) eqn:Hc; [done|].
    injection H as <-. by exists 0%nat.
  - destruct (loop_cond max_ticks l) eqn:Hc.
    + apply rbind_ok in H as (l1 & Hstep & H).
      apply IH in H as (n & Hn & Hit & Hc').
      exists (S n). split_and!; [lia | | done]. simpl. by rewrite Hstep.
    + injection H as <-. exists 0%nat. split_and!; [lia | done..].
Qed.

(** ** No process is lost or run twice *)

Lemma processes_conserved_aux (s : Simulator.t) st l n :
  iterate rng n (start s st) = Ok l ->
  population l ≡ₚ ready_list s ++ members (scheduler s) ++ finished s.
Proof.
  intros Hn. rewrite (iterate_population _ _ _ Hn).
  unfold population, running_list, start. simpl.
  by rewrite sort_by_arrival_perm.
Qed.

(** X14. The engine neither loses nor duplicates a process: in every
    state of a run, the processes not yet arrived, those held by the
    scheduler, the running one and the finished ones are together exactly
    the processes added to the simulator (with those the scheduler held
    before the run), each as many times as it was added. *)
Theorem processes_are_conserved
  (s : Simulator.t) (st : store) (l : loop_state) :
  reachable rng s st l ->
  population l ≡ₚ ready_list s ++ members (scheduler s) ++ finished s.
Proof.
  intros [n Hn]. by eapply processes_conserved_aux.
Qed.

(** X15. When [run] leaves its loop with the clock still below
    [max_ticks], nothing is left to do: every process added to the
    simulator has finished, each once, and [finished_count] is their
    number. *)
Theorem early_exit_means_all_finished
  {F : Type} (fdiv : Z -> Z -> F) (fmul : F -> Z -> F)
  (fuel : nat) (max_ticks : Z) (s : Simulator.t) (st : store)
  (m : metrics) (l : loop_state) :
  run rng fdiv fmul fuel max_ticks s st = Ok (Some (m, l)) ->
  time_elapsed m < max_ticks ->
  pending l = [] /\ running_proc l = None /\
  members (scheduler (self l)) = [] /\
  finished (self l) ≡ₚ ready_list s ++ members (scheduler s) ++ finished s /\
  finished_count m
  = Z.of_nat (length (ready_list s ++ members (scheduler s) ++ finished s)).
Proof.
  unfold run. intros H Ht.
  apply rbind_ok in H as ([l0|] & Hloop & H); [|done].
  apply rbind_ok in H as ([m0 st0] & Hm & [= <- <-]). simpl.
  apply loop_iterate in Hloop as (n & _ & Hn & Hcond).
  assert (Hfields : time_elapsed m0 = time (self l0) /\
            finished_count m0 = Z.of_nat (length (finished (self l0)))).
  { unfold compute_metrics in Hm.
    destruct (metrics_loop _ _ _ _) as [[st' tw] tu].
    apply rbind_ok in Hm as (aw & _ & Hm).
    apply rbind_ok in Hm as (at' & _ & Hm).
    apply rbind_ok in Hm as (u & _ & [= <- _]). done. }
  destruct Hfields as [Htime Hcount]. rewrite Htime in Ht.
  unfold loop_cond in Hcond.
  destruct (Z.ltb_spec (time (self l0)) max_ticks) as [_|?]; [|lia].
  simpl in Hcond.
  destruct (pending l0) as [|? ?] eqn:Hpend; [|done].
  destruct (Scheduler.has_ready (scheduler (self l0))) eqn:Hready; [done|].
  destruct (running_proc l0) as [?|] eqn:Hrun; [done|].
  assert (Hmem : members (scheduler (self l0)) = []).
  { destruct (members (scheduler (self l0))) eqn:Hmem; [done|].
    assert (Scheduler.has_ready (scheduler (self l0)) = true); [|congruence].
    apply has_ready_members. by rewrite Hmem. }
  pose proof (processes_conserved_aux s st l0 n Hn) as Hpop.
  unfold population, running_list in Hpop.
  rewrite Hpend, Hmem, Hrun in Hpop. simpl in Hpop.
  split_and!; try done. by rewrite Hcount, Hpop.
Qed.

(** ** The counters of a run *)

Lemma step_counters l l' :
  step rng l = Ok l' ->
  exists dc dt,
    cpu_busy_ticks (self l') = cpu_busy_ticks (self l) + dc /\
    total_ticks (self l') = total_ticks (self l) + dt /\
    0 <= dc <= dt /\ dt <= 1.
Proof.
  intros H. apply step_inv in H as (po & l1 & Hd & He).
  apply dispatch_spec in Hd as (_ & Ht1 & Hc1 & _).
  apply execute_cases in He.
  destruct He as [->|proc page m' Hrand Hacc ->|proc page m' Hrand Hacc Hio
                 |proc page m' l2 Hrand Hacc Hio Hcpu]; simpl.
  - exists 0, 1. split_and!; lia.
  - exists 0, 1. split_and!; lia.
  - apply io_loop_self in Hio as (_ & Ht & Hc & _). simpl in *.
    exists 0, 0. split_and!; lia.
  - apply io_loop_self in Hio as (_ & Ht & Hc & _). simpl in *.
    apply cpu_tick_spec in Hcpu as (_ & Ht' & Hc' & _).
    exists 1, 1. split_and!; lia.
Qed.

(** X16. A turn of the loop counts at most one tick, and a busy tick is
    always a counted tick: after [n] turns of a run,
    [0 <= cpu_busy_ticks <= total_ticks <= n]. *)
Theorem busy_ticks_are_counted_ticks
  (s : Simulator.t) (st : store) (n : nat) (l : loop_state) :
  configured s st -> iterate rng n (start s st) = Ok l ->
  0 <= cpu_busy_ticks (self l) <= total_ticks (self l) /\
  total_ticks (self l) <= Z.of_nat n.
Proof.
  intros Hc. apply configured_fresh in Hc as (_ & Ht & Hb & _).
  assert (Hgen : forall k l0 l1, iterate rng k l0 = Ok l1 ->
    0 <= cpu_busy_ticks (self l1) - cpu_busy_ticks (self l0)
      <= total_ticks (self l1) - total_ticks (self l0) /\
    total_ticks (self l1) - total_ticks (self l0) <= Z.of_nat k).
  { induction k as [|k IH]; intros l0 l1 H; simpl in H.
    - injection H as <-. lia.
    - apply rbind_ok in H as (l2 & Hstep & H).
      apply IH in H. apply step_counters in Hstep as (dc & dt & ? & ? & ? & ?).
      lia. }
  intros H. apply Hgen in H. simpl in H. lia.
Qed.

(** ** The quantum of round robin *)

Lemma io_loop_kind proc ios : forall l b l',
  io_loop proc ios l = Ok (b, l') ->
  Scheduler.is_round_robin (scheduler (self l'))
  = Scheduler.is_round_robin (scheduler (self l)).
Proof.
  intros l b l' H.
  pose proof (io_loop_outcome _ _ _ _ _ H) as (_ & _ & _ & Hf & Ht).
  destruct b.
  - destruct (Ht eq_refl) as [_ Hadd]. by apply add_process_kind in Hadd.
  - by destruct (Hf eq_refl) as (_ & -> & _).
Qed.

Lemma step_quantum l l' :
  step rng l = Ok l' ->
  Scheduler.is_round_robin (scheduler (self l')) 
  = Scheduler.is_round_robin (scheduler (self l)) /\
  quantum (self l') = quantum (self l) /\
  (Scheduler.is_round_robin (scheduler (self l)) = true ->
   1 <= quantum (self l) ->
   (is_Some (running_proc l) ->
    1 <= rr_quantum_left l <= quantum (self l)) ->
   is_Some (running_proc l') ->
   1 <= rr_quantum_left l' <= quantum (self l)).
Proof.
  intros H. apply step_inv in H as (po & l1 & Hd & He).
  pose proof (dispatch_spec _ _ _ Hd)
    as (_ & _ & _ & _ & _ & Hq1 & _ & _ & Hrun1 & _).
  apply dispatch_cases in Hd as (sched1 & pend1 & Hadm & _ & Hcase).
  apply bring_arrivals_spec in Hadm as (_ & _ & _ & _ & _ & Hk1).
  assert (Hkind1 : Scheduler.is_round_robin (scheduler (self l1))
                   = Scheduler.is_round_robin (scheduler (self l))).
  { destruct Hcase as [(p & _ & _ & -> & _)|(_ & Htick & _)]; [done|].
    apply tick_kind in Htick. congruence. }
  assert (Hleft1 : 1 <= quantum (self l) ->
            (is_Some (running_proc l) ->
             1 <= rr_quantum_left l <= quantum (self l)) ->
            is_Some po -> 1 <= rr_quantum_left l1 <= quantum (self l)).
  { intros Hq Hinv Hpo.
    destruct Hcase as [(p & Hr & _ & _ & -> & _)|(_ & _ & Hm)].
    - apply Hinv. by rewrite Hr.
    - destruct po as [proc|]; [|by destruct Hpo].
      destruct Hm as [-> _]. lia. }
  apply execute_cases in He.
  destruct He as [->|proc page m' Hrand Hacc ->|proc page m' Hrand Hacc Hio
                 |proc page m' l2 Hrand Hacc Hio Hcpu]; simpl.
  - split_and!; try done. intros _ _ _ Hsome. rewrite Hrun1 in Hsome.
    by destruct Hsome.
  - split_and!; try done. intros _ Hq Hinv _. by apply Hleft1.
  - pose proof (io_loop_kind _ _ _ _ _ Hio) as Hk. simpl in Hk.
    pose proof (io_loop_self _ _ _ _ _ Hio)
      as (_ & _ & _ & _ & _ & Hq & _). simpl in Hq.
    pose proof (io_loop_outcome _ _ _ _ _ Hio) as (_ & _ & _ & _ & Hb).
    destruct (Hb eq_refl) as [Hnone _].
    split_and!; [congruence | congruence |].
    intros _ _ _ Hsome. rewrite Hnone in Hsome. by destruct Hsome.
  - pose proof (io_loop_kind _ _ _ _ _ Hio) as Hk. simpl in Hk.
    pose proof (io_loop_self _ _ _ _ _ Hio)
      as (_ & _ & _ & _ & _ & Hq & _ & _ & Hleft & _). simpl in Hq, Hleft.
    pose proof (cpu_tick_spec _ _ _ Hcpu) as (_ & _ & _ & _ & _ & Hq' & _).
    apply cpu_tick_cases in Hcpu as (_ & Hcase').
    assert (Hkind' : Scheduler.is_round_robin (scheduler (self l'))
                     = Scheduler.is_round_robin (scheduler (self l2))).
    { destruct Hcase' as [(_ & _ & -> & _)
                         |[(_ & _ & _ & Hadd & _)|(_ & _ & -> & _)]];
        try done. by apply add_process_kind in Hadd. }
    split_and!; [congruence | congruence |].
    intros Hrr Hq0 Hinv Hsome.
    specialize (Hleft1 Hq0 Hinv ltac:(done)).
    destruct Hcase' as [(_ & Hr & _)
                       |[(_ & _ & Hr & _)|(Hgt & _ & _ & _ & Hl')]].
    + rewrite Hr in Hsome. by destruct Hsome.
    + rewrite Hr in Hsome. by destruct Hsome.
    + rewrite Hl', Hleft. rewrite Hk, Hkind1 in Hgt.
      specialize (Hgt Hrr). lia.
Qed.

(** ** The heap schedulers do not preempt *)

Lemma execute_some_cases proc l1 l' :
  execute rng (Some proc) l1 = Ok l' ->
  exists page m',
    randrange rng (draws l1) 0 (Process.pages (deref (procs l1) proc))
      = Ok page /\
    ((MemoryManager.access_page (mem (self l1))
        (Process.pid (deref (procs l1) proc)) page (time (self l1))
        = Ok (false, m') /\
      l' = with_self
             (with_total_ticks (total_ticks (self l1) + 1)
                (with_time (time (self l1) + 1) (with_mem m' (self l1))))
             (with_draws (S (draws l1)) l1)) \/
     (MemoryManager.access_page (mem (self l1))
        (Process.pid (deref (procs l1) proc)) page (time (self l1))
        = Ok (true, m') /\
      exists b l2,
        io_loop proc (io_now (deref (procs l1) proc) (time (self l1)))
          (with_self (with_mem m' (self l1)) (with_draws (S (draws l1)) l1))
          = Ok (b, l2) /\
        if b then l' = l2 else cpu_tick proc l2 = Ok l')).
Proof.
  intros H. apply execute_cases in H.
  inversion H; subst; eexists _, _; (split; [eassumption|]).
  - left. by split.
  - right. split; [eassumption|]. by exists true, l'.
  - right. split; [eassumption|]. eexists false, _. by split.
Qed.

(** X18. Under SJF and under the priority scheduler, whatever flag they
    were built with, the running process keeps the CPU from one turn to
    the next until it finishes or one of its lock requests is denied:
    a process that arrives with a shorter job or a better priority waits
    in the heap. *)
Theorem heap_schedulers_do_not_preempt
  (l l' : loop_state) (p : ref) :
  step rng l = Ok l' ->
  Scheduler.is_round_robin (scheduler (self l)) = false ->
  running_proc l = Some p ->
  running_proc l' = Some p \/
  (running_proc l' = None /\
   (finished (self l') = finished (self l) ++ [p] \/
    exists io, denied_in_step rng l = Some (p, io))).
Proof.
  intros H Hrr Hrun. unfold denied_in_step.
  apply step_inv in H as (po & l1 & Hd & He). rewrite Hd.
  pose proof (dispatch_spec _ _ _ Hd)
    as (_ & _ & _ & Hfin1 & _ & _ & _ & _ & Hrun1 & Hkeep & _).
  pose proof (Hkeep p Hrun) as ->. clear Hkeep.
  pose proof Hd as Hd'.
  apply dispatch_cases in Hd' as (sched1 & pend1 & Hadm & _ & Hcase).
  apply bring_arrivals_spec in Hadm as (_ & _ & _ & _ & _ & Hk1).
  assert (Hkind1 : Scheduler.is_round_robin (scheduler (self l1)) = false).
  { destruct Hcase as [(? & _ & _ & -> & _)|(Hnone & _)]; congruence. }
  apply execute_some_cases in He
    as (page & m' & Hrand & [[Hacc ->]|(Hacc & b & l2 & Hio & Hb)]).
  - by left.
  - pose proof (io_loop_outcome _ _ _ _ _ Hio) as (Hbd & _ & _ & Hf & Ht).
    pose proof (io_loop_self _ _ _ _ _ Hio) as (_ & _ & _ & Hfin2 & _).
    simpl in Hbd, Hf, Ht, Hfin2. destruct b.
    + subst l2. right. destruct (Ht eq_refl) as [Hnone _].
      split; [done|]. right.
      pose proof (access_now_intro rng _ _ _ _ Hrand Hacc) as Hnow.
      rewrite (requests_now_hit rng _ _ _ Hnow). simpl.
      destruct (proj1 Hbd eq_refl) as [io Hio']. rewrite Hio'. by exists io.
    + destruct (Hf eq_refl) as (Hrun2 & Hsched2 & _).
      apply cpu_tick_cases in Hb as (_ & Hcase').
      destruct Hcase' as [(_ & Hr & _ & Hf' & _)
                         |[(Hrr' & _)|(_ & Hr & _)]].
      * right. split; [done|]. left. congruence.
      * congruence.
      * left. congruence.
Qed.

(** ** The turn of a process under round robin *)

Lemma rr_add_process_members (sch : Scheduler.t) st proc sch' :
  Scheduler.is_round_robin sch = true ->
  Scheduler.add_process sch st proc = Ok sch' ->
  members sch' = members sch ++ [proc].
Proof. destruct sch as [q|q|q]; simpl; try done. by intros _ [= <-]. Qed.

Lemma iterate_snoc n : forall l l',
  iterate rng (S n) l = Ok l' ->
  exists l0, iterate rng n l = Ok l0 /\ step rng l0 = Ok l'.
Proof.
  induction n as [|n IH]; intros l l' H.
  - simpl in H. apply rbind_ok in H as (l1 & Hs & [= <-]). by exists l.
  - change (iterate rng (S (S n)) l)
      with (let* l1 := step rng l in iterate rng (S n) l1) in H.
    apply rbind_ok in H as (l1 & Hs & H).
    destruct (IH l1 l' H) as (l2 & H2 & Hs2).
    exists l2. split; [|done]. simpl. by rewrite Hs.
Qed.

Lemma iterate_quantum n : forall l l',
  iterate rng n l = Ok l' ->
  Scheduler.is_round_robin (scheduler (self l'))
  = Scheduler.is_round_robin (scheduler (self l)) /\
  quantum (self l') = quantum (self l) /\
  (Scheduler.is_round_robin (scheduler (self l)) = true ->
   1 <= quantum (self l) ->
   (is_Some (running_proc l) ->
    1 <= rr_quantum_left l <= quantum (self l)) ->
   is_Some (running_proc l') ->
   1 <= rr_quantum_left l' <= quantum (self l)).
Proof.
  induction n as [|n IH]; intros l l' H; simpl in H.
  - injection H as <-. done.
  - apply rbind_ok in H as (l2 & Hstep & H).
    apply step_quantum in Hstep as (Hk & Hqq & Hstep).
    destruct (IH _ _ H) as (Hk' & Hq' & Hinv').
    split_and!; [congruence | congruence |].
    intros Hrr Hq Hinv Hsome. rewrite <- Hqq.
    apply Hinv'; [congruence | lia | | done].
    rewrite Hqq. by apply Hstep.
Qed.

(** A turn that leaves a process running has lowered its count by the
    CPU ticks of the turn, from the quantum when it was dispatched in
    this turn. *)
Lemma step_turn l l' :
  step rng l = Ok l' -> is_Some (running_proc l') ->
  rr_quantum_left l'
  = match running_proc l with
    | Some _ => rr_quantum_left l
    | None => quantum (self l)
    end - (cpu_busy_ticks (self l') - cpu_busy_ticks (self l)).
Proof.
  intros H Hsome. apply step_inv in H as (po & l1 & Hd & He).
  pose proof (dispatch_spec _ _ _ Hd)
    as (_ & _ & Hc1 & _ & _ & _ & _ & _ & Hrun1 & _).
  apply dispatch_cases in Hd as (sched1 & pend1 & _ & _ & Hcase).
  destruct po as [proc|].
  - assert (Hleft1 : rr_quantum_left l1
              = match running_proc l with
                | Some _ => rr_quantum_left l
                | None => quantum (self l)
                end).
    { destruct Hcase as [(p & -> & _ & _ & -> & _)|(-> & _ & Hm)]; [done|].
      by destruct Hm as [-> _]. }
    apply execute_some_cases in He
      as (page & m' & Hrand & [[Ha ->]|(Ha & b & l2 & Hio & Hb)]).
    + simpl. rewrite Hleft1, Hc1. lia.
    + pose proof (io_loop_self _ _ _ _ _ Hio)
        as (_ & _ & Hc2 & _ & _ & _ & _ & _ & Hleft2 & _).
      simpl in Hc2, Hleft2.
      pose proof (io_loop_outcome _ _ _ _ _ Hio) as (_ & _ & _ & _ & Ht).
      destruct b.
      * subst l'. destruct (Ht eq_refl) as [Hnone _].
        rewrite Hnone in Hsome. by destruct Hsome.
      * pose proof (cpu_tick_spec _ _ _ Hb) as (_ & _ & Hc' & _).
        apply cpu_tick_cases in Hb as (_ & Hcase').
        destruct Hcase' as [(_ & Hr & _)
                           |[(_ & _ & Hr & _)|(_ & _ & _ & _ & Hl')]].
        -- rewrite Hr in Hsome. by destruct Hsome.
        -- rewrite Hr in Hsome. by destruct Hsome.
        -- rewrite Hl', Hleft2, Hleft1, Hc', Hc2, Hc1. lia.
  - unfold execute in He. injection He as <-. simpl in Hsome.
    rewrite Hrun1 in Hsome. by destruct Hsome.
Qed.

(** Over turns that all leave a process running, the count has dropped
    by the CPU ticks taken. *)
Lemma stay_count n : forall l l',
  iterate rng (S n) l = Ok l' ->
  (forall k lk, (1 <= k <= n)%nat -> iterate rng k l = Ok lk ->
     is_Some (running_proc lk)) ->
  is_Some (running_proc l') ->
  rr_quantum_left l'
  = match running_proc l with
    | Some _ => rr_quantum_left l
    | None => quantum (self l)
    end - (cpu_busy_ticks (self l') - cpu_busy_ticks (self l)).
Proof.
  induction n as [|n IH]; intros l l' H Hmid Hsome.
  - simpl in H. apply rbind_ok in H as (l1 & Hs & [= <-]).
    by apply step_turn.
  - change (iterate rng (S (S n)) l)
      with (let* l1 := step rng l in iterate rng (S n) l1) in H.
    apply rbind_ok in H as (l1 & Hs & H).
    assert (H1 : is_Some (running_proc l1)).
    { apply (Hmid 1%nat); [lia|]. simpl. by rewrite Hs. }
    rewrite (IH l1 l' H); [| |done].
    + rewrite (step_turn _ _ Hs H1). destruct H1 as [p ->]. lia.
    + intros k lk Hk Hlk. apply (Hmid (S k)); [lia|].
      change (iterate rng (S k) l)
        with (let* l1 := step rng l in iterate rng k l1).
      by rewrite Hs.
Qed.

(** How the turn of a process at the CPU ends under round robin. *)
Lemma turn_ends l p l1 l' :
  Scheduler.is_round_robin (scheduler (self l)) = true ->
  dispatch l = Ok (Some p, l1) -> execute rng (Some p) l1 = Ok l' ->
  running_proc l' = None ->
  finished (self l') = finished (self l) ++ [p] \/
  (finished (self l') = finished (self l) /\
   exists q, members (scheduler (self l')) = q ++ [p]).
Proof.
  intros Hrr Hd He Hnone.
  pose proof (dispatch_spec _ _ _ Hd)
    as (_ & _ & _ & Hfin1 & _ & _ & _ & _ & Hrun1 & _).
  apply dispatch_cases in Hd as (sched1 & pend1 & Hadm & _ & Hcase).
  apply bring_arrivals_spec in Hadm as (_ & _ & _ & _ & _ & Hk1).
  assert (Hkind1 : Scheduler.is_round_robin (scheduler (self l1)) = true).
  { destruct Hcase as [(p0 & _ & _ & Hs1 & _)|(_ & Htick & _)].
    - rewrite Hs1. congruence.
    - apply tick_kind in Htick. congruence. }
  apply execute_some_cases in He
    as (page & m' & Hrand & [[Ha ->]|(Ha & b & l2 & Hio & Hb)]).
  - simpl in Hnone. congruence.
  - pose proof (io_loop_self _ _ _ _ _ Hio) as (_ & _ & _ & Hfin2 & _).
    simpl in Hfin2.
    pose proof (io_loop_outcome _ _ _ _ _ Hio) as (_ & _ & _ & Hf & Ht).
    destruct b.
    + subst l'. destruct (Ht eq_refl) as [_ Hadd]. simpl in Hadd.
      right. split; [congruence|].
      exists (members (scheduler (self l1))).
      by apply (rr_add_process_members _ _ _ _ Hkind1 Hadd).
    + destruct (Hf eq_refl) as (Hr2 & Hs2 & _). simpl in Hr2, Hs2.
      apply cpu_tick_cases in Hb as (_ & Hcase').
      destruct Hcase' as [(_ & _ & _ & Hfin' & _)
                         |[(_ & _ & _ & Hadd & Hfin' & _)|(_ & Hr' & _)]].
      * left. congruence.
      * right. split; [congruence|].
        exists (members (scheduler (self l2))).
        assert (Hkind2 : Scheduler.is_round_robin (scheduler (self l2)) = true)
          by congruence.
        apply (rr_add_process_members _ _ _ _ Hkind2 Hadd).
      * congruence.
Qed.

(** X17. Under round robin with a quantum of at least one, a process gets
    at most [quantum] CPU ticks before it is put back in the queue.  The
    count [rr_quantum_left] of the running process is always between one
    and the simulator's quantum (whatever quantum the scheduler itself was
    built with).  Over consecutive turns that start with the CPU free and
    each leave a process running, the CPU ticks taken are at most
    [quantum], and while the process is still running after them its
    count is [quantum] less those ticks: so it is no longer running once
    it has had [quantum] of them.  And when the process that has the CPU
    in a turn is not running after it, either it has finished or it has
    been put back and is the last of the queue. *)
Theorem round_robin_turn_is_within_quantum
  (s : Simulator.t) (st : store) (l : loop_state) :
  reachable rng s st l ->
  Scheduler.is_round_robin (scheduler s) = true -> 1 <= quantum s ->
  (is_Some (running_proc l) -> 1 <= rr_quantum_left l <= quantum s) /\
  (forall n l',
     running_proc l = None -> iterate rng (S n) l = Ok l' ->
     (forall k lk, (1 <= k <= n)%nat -> iterate rng k l = Ok lk ->
        is_Some (running_proc lk)) ->
     cpu_busy_ticks (self l') - cpu_busy_ticks (self l) <= quantum s /\
     (is_Some (running_proc l') ->
      rr_quantum_left l'
      = quantum s - (cpu_busy_ticks (self l') - cpu_busy_ticks (self l)) /\
      cpu_busy_ticks (self l') - cpu_busy_ticks (self l) < quantum s)) /\
  (forall p l1 l',
     dispatch l = Ok (Some p, l1) -> execute rng (Some p) l1 = Ok l' ->
     running_proc l' = None ->
     step rng l = Ok l' /\
     (finished (self l') = finished (self l) ++ [p] \/
      (finished (self l') = finished (self l) /\
       exists q, members (scheduler (self l')) = q ++ [p]))).
Proof.
  intros [n0 Hn0] Hrr Hq.
  destruct (iterate_quantum n0 _ _ Hn0) as (Hk0 & Hq0 & Hinv0).
  simpl in Hk0, Hq0, Hinv0.
  assert (Hrrl : Scheduler.is_round_robin (scheduler (self l)) = true)
    by congruence.
  assert (Hinv : is_Some (running_proc l) ->
                 1 <= rr_quantum_left l <= quantum s).
  { apply Hinv0; [done | done |]. by intros [? ?]. }
  split_and!.
  - exact Hinv.
  - intros n l' Hfree Hn Hmid.
    assert (Hsome : is_Some (running_proc l') ->
      rr_quantum_left l'
      = quantum s - (cpu_busy_ticks (self l') - cpu_busy_ticks (self l)) /\
      cpu_busy_ticks (self l') - cpu_busy_ticks (self l) < quantum s).
    { intros Hs'. pose proof (stay_count n l l' Hn Hmid Hs') as Hcount.
      rewrite Hfree, Hq0 in Hcount. split; [done|].
      destruct (iterate_quantum (S n) _ _ Hn) as (_ & _ & Hinv').
      rewrite Hq0 in Hinv'.
      specialize (Hinv' Hrrl Hq Hinv Hs'). lia. }
    split; [|exact Hsome].
    destruct (iterate_snoc n l l' Hn) as (ln & Hln & Hlast).
    apply step_counters in Hlast as (dc & dt & Hc & _ & Hdc & Hdt).
    destruct n as [|n].
    + simpl in Hln. injection Hln as <-. lia.
    + assert (Hs' : is_Some (running_proc ln)).
      { apply (Hmid (S n)); [lia | done]. }
      assert (Hmid' : forall k lk, (1 <= k <= n)%nat ->
                iterate rng k l = Ok lk -> is_Some (running_proc lk)).
      { intros k lk Hk. apply Hmid. lia. }
      pose proof (stay_count n l ln Hln Hmid' Hs') as Hcount.
      rewrite Hfree, Hq0 in Hcount.
      destruct (iterate_quantum (S n) _ _ Hln) as (_ & _ & Hinv').
      rewrite Hq0 in Hinv'.
      specialize (Hinv' Hrrl Hq Hinv Hs'). lia.
  - intros p l1 l' Hd He Hnone. split.
    + unfold step. rewrite Hd. simpl. exact He.
    + by apply (turn_ends l p l1 l').
Qed.

(** ** A run on a well-formed workload never raises *)

Lemma same_jobs_Forall (P : Process.t -> Prop) st st' :
  (forall p p', same_job p p' -> P p -> P p') ->
  same_jobs st st' -> Forall P st -> Forall P st'.
Proof.
  intros HP [Hlen Hsame] H. apply Forall_lookup_2. intros i p' Hp'.
  destruct (lookup_lt_is_Some_2 st i) as [p Hp].
  { rewrite <- Hlen. by apply lookup_lt_Some in Hp'. }
  specialize (Hsame i).
  rewrite (deref_lookup _ _ _ Hp), (deref_lookup _ _ _ Hp') in Hsame.
  apply (HP p p' Hsame). by apply (Forall_lookup_1 _ _ _ _ H Hp).
Qed.

Lemma same_jobs_pages st st' :
  same_jobs st st' -> has_pages st -> has_pages st'.
Proof.
  apply same_jobs_Forall. intros p p' (_ & _ & _ & Hp & _). by rewrite Hp.
Qed.

Lemma same_jobs_no_io st st' :
  same_jobs st st' -> no_io st -> no_io st'.
Proof.
  apply same_jobs_Forall. intros p p' (_ & _ & _ & _ & Hp). by rewrite Hp.
Qed.

Lemma same_jobs_pids st st' :
  same_jobs st st' -> Process.pid <$> st' = Process.pid <$> st.
Proof.
  intros [Hlen Hsame]. apply list_eq. intros i. rewrite !list_lookup_fmap.
  destruct (st' !! i) as [p'|] eqn:Hp'; simpl.
  - destruct (lookup_lt_is_Some_2 st i) as [p Hp].
    { rewrite <- Hlen. by apply lookup_lt_Some in Hp'. }
    rewrite Hp. simpl. specialize (Hsame i).
    rewrite (deref_lookup _ _ _ Hp), (deref_lookup _ _ _ Hp') in Hsame.
    by destruct Hsame as (-> & _).
  - apply lookup_ge_None in Hp'. rewrite Hlen in Hp'.
    apply lookup_ge_None in Hp'. by rewrite Hp'.
Qed.

Lemma same_jobs_heap st st' (h : list heapq.entry) :
  same_jobs st st' -> heap_entries_ok st h -> heap_entries_ok st' h.
Proof.
  intros [_ Hsame] H e He. destruct (Hsame e.2) as (-> & _). by apply H.
Qed.

Lemma same_jobs_valid st st' (rs : list ref) :
  same_jobs st st' -> valid_refs st rs -> valid_refs st' rs.
Proof. intros [Hlen _]. unfold valid_refs. by rewrite Hlen. Qed.

Lemma same_jobs_sym st st' : same_jobs st st' -> same_jobs st' st.
Proof.
  intros [Hlen Hsame]. split; [done|]. intros r.
  destruct (Hsame r) as (?&?&?&?&?). by repeat split.
Qed.

Lemma pid_inj st (r r' : ref) :
  NoDup (Process.pid <$> st) -> (r < length st)%nat -> (r' < length st)%nat ->
  Process.pid (deref st r) = Process.pid (deref st r') -> r = r'.
Proof.
  intros Hnd Hr Hr' Heq.
  destruct (lookup_lt_is_Some_2 st r Hr) as [p Hp].
  destruct (lookup_lt_is_Some_2 st r' Hr') as [p' Hp'].
  rewrite (deref_lookup _ _ _ Hp), (deref_lookup _ _ _ Hp') in Heq.
  apply (NoDup_lookup _ r r' (Process.pid p) Hnd).
  - by rewrite list_lookup_fmap, Hp.
  - by rewrite list_lookup_fmap, Hp', Heq.
Qed.

Lemma NoDup_fmap_eq {A B} (f : A -> B) (l : list A) (a b : A) :
  NoDup (f <$> l) -> a ∈ l -> b ∈ l -> f a = f b -> a = b.
Proof.
  induction l as [|x l IH]; intros Hnd Ha Hb Heq; [by apply elem_of_nil in Ha|].
  rewrite fmap_cons in Hnd. apply NoDup_cons in Hnd as [Hx Hnd].
  apply elem_of_cons in Ha as [->|Ha], Hb as [->|Hb]; try done.
  - exfalso. apply Hx. rewrite Heq. by apply list_elem_of_fmap_2.
  - exfalso. apply Hx. rewrite <- Heq. by apply list_elem_of_fmap_2.
  - by apply IH.
Qed.

Lemma heap_orderable st (h : list heapq.entry) :
  NoDup (Process.pid <$> st) -> heap_entries_ok st h ->
  valid_refs st (snd <$> h) -> NoDup (snd <$> h) -> orderable st h.
Proof.
  intros Hpids Hok Hv Hnd a b Ha Hb.
  destruct (decide (a.1.2 = b.1.2)) as [Heq|Hne]; [|by apply entry_lt_pids].
  assert (a = b) as ->; [|apply entry_lt_refl].
  apply (NoDup_fmap_eq snd h); try done.
  apply (pid_inj st); try done.
  - apply (proj1 (Forall_forall _ _) Hv). by apply list_elem_of_fmap_2.
  - apply (proj1 (Forall_forall _ _) Hv). by apply list_elem_of_fmap_2.
  - by rewrite <- !Hok.
Qed.

Lemma members_heap_of (s : Scheduler.t) :
  Scheduler.is_round_robin s = false -> members s = snd <$> heap_of s.
Proof. by destruct s. Qed.

Lemma heap_of_round_robin (s : Scheduler.t) :
  Scheduler.is_round_robin s = true -> heap_of s = [].
Proof. by destruct s. Qed.

Lemma entry_of_fields (s : Scheduler.t) st proc :
  (entry_of s st proc).1.2 = Process.pid (deref st proc) /\
  (entry_of s st proc).2 = proc.
Proof. by destruct s. Qed.

Lemma add_process_total (s : Scheduler.t) st proc :
  NoDup (Process.pid <$> st) -> heap_entries_ok st (heap_of s) ->
  valid_refs st (members s ++ [proc]) -> NoDup (members s ++ [proc]) ->
  exists s', Scheduler.add_process s st proc = Ok s' /\
             heap_entries_ok st (heap_of s').
Proof.
  intros Hpids Hok Hv Hnd.
  destruct (entry_of_fields s st proc) as [Hpid Href].
  destruct (Scheduler.is_round_robin s) eqn:Hrr.
  - destruct (add_process_ok s st proc) as [s' Hs'].
    { rewrite heap_of_round_robin by done. simpl.
      intros a b Ha%list_elem_of_singleton Hb%list_elem_of_singleton.
      subst. apply entry_lt_refl. }
    exists s'. split; [done|].
    apply add_process_kind in Hs' as Hk. rewrite Hrr in Hk.
    rewrite heap_of_round_robin by done. by intros e He%elem_of_nil.
  - assert (Hok' : heap_entries_ok st (heap_of s ++ [entry_of s st proc])).
    { intros e [He|He%list_elem_of_singleton]%elem_of_app; [by apply Hok|].
      subst e. by rewrite Href. }
    destruct (add_process_ok s st proc) as [s' Hs'].
    { apply heap_orderable; try done.
      - by rewrite fmap_app, <- members_heap_of, fmap_cons, Href.
      - by rewrite fmap_app, <- members_heap_of, fmap_cons, Href. }
    exists s'. split; [done|].
    apply add_process_heap in Hs'. rewrite Hrr in Hs'.
    intros e He. apply Hok'. by rewrite <- Hs'.
Qed.

Lemma add_process_heap_ok (s : Scheduler.t) st proc s' :
  Scheduler.add_process s st proc = Ok s' ->
  heap_entries_ok st (heap_of s) -> heap_entries_ok st (heap_of s').
Proof.
  intros H Hok. apply add_process_heap in H.
  destruct (Scheduler.is_round_robin s).
  - intros e He. rewrite H in He. by apply elem_of_nil in He.
  - intros e He. rewrite H in He.
    apply elem_of_app in He as [He|He%list_elem_of_singleton];
      [by apply Hok|].
    subst e. destruct (entry_of_fields s st proc) as [-> ->]. done.
Qed.

Lemma tick_heap_sub (s : Scheduler.t) st now po s' :
  Scheduler.tick s st now = Ok (po, s') ->
  forall e, e ∈ heap_of s' -> e ∈ heap_of s.
Proof.
  destruct s as [s|s|s]; simpl.
  - by intros [= <- <-].
  - intros H. apply rbind_ok in H as ([o s1] & H & [= <- <-]).
    unfold SJFScheduler.tick in H.
    destruct (SJFScheduler.heap s) as [|e0 h] eqn:Hh.
    + injection H as <- <-. simpl. by rewrite Hh.
    + apply rbind_ok in H as ([e' h'] & H & [= <- <-]). simpl.
      apply heappop_perm in H. intros e He. rewrite H. by right.
  - intros H. apply rbind_ok in H as ([o s1] & H & [= <- <-]).
    unfold PriorityScheduler.tick in H.
    destruct (PriorityScheduler.heap s) as [|e0 h] eqn:Hh.
    + injection H as <- <-. simpl. by rewrite Hh.
    + apply rbind_ok in H as ([e' h'] & H & [= <- <-]). simpl.
      apply heappop_perm in H. intros e He. rewrite H. by right.
Qed.

Lemma tick_total (s : Scheduler.t) st now :
  NoDup (Process.pid <$> st) -> heap_entries_ok st (heap_of s) ->
  valid_refs st (members s) -> NoDup (members s) ->
  exists r, Scheduler.tick s st now = Ok r.
Proof.
  intros Hpids Hok Hv Hnd. apply tick_ok.
  destruct (Scheduler.is_round_robin s) eqn:Hrr.
  - rewrite heap_of_round_robin by done. by intros a b Ha%elem_of_nil.
  - apply heap_orderable; try done; by rewrite <- members_heap_of.
Qed.

Lemma bring_arrivals_total st now : forall pend sched,
  NoDup (Process.pid <$> st) -> heap_entries_ok st (heap_of sched) ->
  valid_refs st (pend ++ members sched) -> NoDup (pend ++ members sched) ->
  exists sched' pend', bring_arrivals st now sched pend = Ok (sched', pend') /\
    heap_entries_ok st (heap_of sched').
Proof.
  induction pend as [|p pend IH]; intros sched Hpids Hok Hv Hnd; simpl.
  - by eexists _, _.
  - destruct (_ <=? _); [|by eexists _, _].
    destruct (add_process_total sched st p) as (sched1 & Hadd & Hok1);
      try done.
    + unfold valid_refs in *. simpl in Hv.
      apply Forall_cons in Hv as [Hp Hv]. apply Forall_app in Hv as [_ Hv].
      apply Forall_app. split; [done|]. by constructor.
    + simpl in Hnd. apply NoDup_cons in Hnd as [Hp Hnd].
      apply NoDup_app in Hnd as (_ & _ & Hnd).
      rewrite Permutation_app_comm. simpl. apply NoDup_cons. split; [|done].
      intros Hin. apply Hp. apply elem_of_app. by right.
    + rewrite Hadd. simpl.
      pose proof (add_process_members _ _ _ _ Hadd) as Hmem.
      apply IH; try done.
      * unfold valid_refs in *. rewrite Hmem.
        assert (Hperm : pend ++ members sched ++ [p]
                        ≡ₚ (p :: pend) ++ members sched)
          by solve_Permutation.
        by rewrite Hperm.
      * rewrite Hmem.
        assert (Hperm : pend ++ members sched ++ [p]
                        ≡ₚ (p :: pend) ++ members sched)
          by solve_Permutation.
        by rewrite Hperm.
Qed.

Lemma dispatch_same_jobs l po l1 :
  dispatch l = Ok (po, l1) -> same_jobs (procs l) (procs l1).
Proof.
  intros H. by apply dispatch_spec in H as (_&_&_&_&_&_&_&_&_&_& H & _).
Qed.

Lemma dispatch_wf l po l1 :
  dispatch l = Ok (po, l1) -> well_formed l -> well_formed l1.
Proof.
  intros H [Hmem Hfr Hpg Hpids Hrefs Honce Hheap].
  pose proof (dispatch_same_jobs _ _ _ H) as Hsame.
  pose proof (dispatch_population _ _ _ H) as Hpop.
  pose proof (dispatch_spec _ _ _ H) as (_ & _ & _ & _ & Hm & _).
  split.
  - by rewrite Hm.
  - by rewrite Hm.
  - by apply (same_jobs_pages _ _ Hsame).
  - by rewrite (same_jobs_pids _ _ Hsame).
  - apply (same_jobs_valid _ _ _ Hsame). unfold valid_refs. by rewrite Hpop.
  - by rewrite Hpop.
  - apply (same_jobs_heap _ _ _ Hsame).
    apply dispatch_cases in H as (sched1 & pend1 & Hadm & _ & Hcase).
    assert (Hok1 : heap_entries_ok (procs l) (heap_of sched1)).
    { clear Hcase. revert Hheap Hadm. generalize (scheduler (self l)).
      generalize (pending l). intros pend. 
      induction pend as [|p pend IH]; intros sched Hheap Hadm; simpl in Hadm.
      - by injection Hadm as <- _.
      - destruct (_ <=? _); [|by injection Hadm as <- _].
        apply rbind_ok in Hadm as (sched2 & Hadd & Hadm).
        apply (IH sched2); [|done]. by eapply add_process_heap_ok. }
    destruct Hcase as [(p & _ & _ & -> & _)|(_ & Htick & _)]; [done|].
    intros e He. apply Hok1. by eapply tick_heap_sub.
Qed.

Lemma dispatch_total l :
  well_formed l -> exists po l1, dispatch l = Ok (po, l1).
Proof.
  intros [Hmem Hfr Hpg Hpids Hrefs Honce Hheap]. unfold dispatch.
  unfold population in Hrefs, Honce.
  destruct (bring_arrivals_total (procs l) (time (self l)) (pending l)
              (scheduler (self l))) as (sched1 & pend1 & Hadm & Hok1);
    try done.
  { unfold valid_refs in *. rewrite app_assoc in Hrefs.
    by apply Forall_app in Hrefs as [? _]. }
  { rewrite app_assoc in Honce. by apply NoDup_app in Honce as (? & _). }
  rewrite Hadm. simpl.
  destruct (running_proc l) as [p|] eqn:Hrun; [by eexists _, _|].
  apply bring_arrivals_spec in Hadm as (adm & Hsplit & Hmem1 & _).
  assert (Hperm : members sched1 ++ pend1 ++ finished (self l)
                  ≡ₚ pending l ++ members (scheduler (self l))
                     ++ running_list l ++ finished (self l)).
  { unfold running_list. rewrite Hrun, Hmem1, Hsplit. solve_Permutation. }
  destruct (tick_total sched1 (procs l) (time (self l))) as [[po sched2] Htick];
    try done.
  { unfold valid_refs in *. rewrite <- Hperm in Hrefs.
    by apply Forall_app in Hrefs as [? _]. }
  { rewrite <- Hperm in Honce. by apply NoDup_app in Honce as (? & _). }
  rewrite Htick. simpl. destruct po; by eexists _, _.
Qed.

Lemma io_loop_total proc ios : forall l,
  (forall st', same_jobs (procs l) st' ->
     exists s', Scheduler.add_process (scheduler (self l)) st' proc = Ok s') ->
  exists r, io_loop proc ios l = Ok r.
Proof.
  induction ios as [|io ios IH]; intros l Hadd; simpl; [by eexists|].
  destruct (FileSimulator.request _ _ _ _ _ _) as [[g rel] fs']. simpl.
  destruct g.
  - apply IH. simpl. intros st' Hsame. apply Hadd.
    eapply same_jobs_trans; [|exact Hsame].
    apply same_jobs_update. intros p. by repeat split.
  - destruct (Hadd (update (procs l) proc
                 (fun p => Process.set_waiting_time
                             (Process.waiting_time p + 1) p))) as [s' Hs'].
    { apply same_jobs_update. intros p. by repeat split. }
    simpl. rewrite Hs'. by eexists.
Qed.

Lemma cpu_tick_total proc l :
  (forall st', same_jobs (procs l) st' ->
     exists s', Scheduler.add_process (scheduler (self l)) st' proc = Ok s') ->
  exists l', cpu_tick proc l = Ok l'.
Proof.
  intros Hadd. unfold cpu_tick.
  destruct (_ <=? 0); [by eexists|]. simpl.
  destruct (Scheduler.is_round_robin _); [|by eexists].
  destruct (_ <=? 0); [|by eexists].
  destruct (Hadd (update (procs l) proc
               (fun p => Process.set_remaining (Process.remaining p - 1) p)))
    as [s' Hs'].
  { apply same_jobs_update. intros p. by repeat split. }
  rewrite Hs'. by eexists.
Qed.

Lemma execute_same_jobs po l1 l' :
  execute rng po l1 = Ok l' -> same_jobs (procs l1) (procs l').
Proof. intros H. by apply execute_slack in H as (_ & _ & H). Qed.

Lemma execute_mem_inv po l1 l' :
  execute rng po l1 = Ok l' ->
  MemoryManager.inv (mem (self l1)) ->
  0 < MemoryManager.num_frames (mem (self l1)) ->
  MemoryManager.inv (mem (self l')) /\
  0 < MemoryManager.num_frames (mem (self l')).
Proof.
  intros H Hinv Hfr.
  assert (Hacc : forall pid page tick b m',
    MemoryManager.access_page (mem (self l1)) pid page tick = Ok (b, m') ->
    MemoryManager.inv m' /\ 0 < MemoryManager.num_frames m').
  { intros pid page tick b m' Ha.
    destruct (inv_access_page (mem (self l1)) pid page tick Hinv Hfr)
      as (b0 & s0 & Ha0 & Hinv0 & Hn0 & _).
    rewrite Ha in Ha0. injection Ha0 as <- <-. split; [done | lia]. }
  destruct po as [proc|].
  - apply execute_some_cases in H
      as (page & m' & Hrand & [[Ha ->]|(Ha & b & l2 & Hio & Hb)]).
    + simpl. by eapply Hacc.
    + apply io_loop_self in Hio as (_ & _ & _ & _ & Hm & _). simpl in Hm.
      destruct b.
      * subst l2. rewrite Hm. by eapply Hacc.
      * apply cpu_tick_spec in Hb as (_ & _ & _ & Hm' & _).
        rewrite Hm', Hm. by eapply Hacc.
  - unfold execute in H. by injection H as <-.
Qed.

Lemma execute_heap_ok po l1 l' :
  execute rng po l1 = Ok l' ->
  heap_entries_ok (procs l1) (heap_of (scheduler (self l1))) ->
  heap_entries_ok (procs l') (heap_of (scheduler (self l'))).
Proof.
  intros H Hok. pose proof (execute_same_jobs _ _ _ H) as Hsame.
  apply (same_jobs_heap _ _ _ Hsame) in Hok.
  destruct po as [proc|].
  - apply execute_some_cases in H
      as (page & m' & Hrand & [[Ha ->]|(Ha & b & l2 & Hio & Hb)]); [done|].
    pose proof (io_loop_outcome _ _ _ _ _ Hio) as (_ & _ & _ & Hf & Ht).
    simpl in Hf, Ht. destruct b.
    + subst l2. destruct (Ht eq_refl) as [_ Hadd].
      by eapply add_process_heap_ok.
    + destruct (Hf eq_refl) as (_ & Hs2 & _).
      apply cpu_tick_cases in Hb as (_ & Hcase).
      destruct Hcase as [(_ & _ & -> & _)
                        |[(_ & _ & _ & Hadd & _)|(_ & _ & -> & _)]].
      * by rewrite Hs2.
      * rewrite Hs2 in Hadd. by eapply add_process_heap_ok.
      * by rewrite Hs2.
  - unfold execute in H. by injection H as <-.
Qed.

Lemma execute_wf po l1 l' :
  execute rng po l1 = Ok l' -> running_proc l1 = po ->
  well_formed l1 -> well_formed l'.
Proof.
  intros H Hrun [Hmem Hfr Hpg Hpids Hrefs Honce Hheap].
  pose proof (execute_same_jobs _ _ _ H) as Hsame.
  pose proof (execute_population _ _ _ H Hrun) as Hpop.
  destruct (execute_mem_inv _ _ _ H Hmem Hfr) as [Hmem' Hfr'].
  split; try done.
  - by apply (same_jobs_pages _ _ Hsame).
  - by rewrite (same_jobs_pids _ _ Hsame).
  - apply (same_jobs_valid _ _ _ Hsame). unfold valid_refs. by rewrite Hpop.
  - by rewrite Hpop.
  - by eapply execute_heap_ok.
Qed.

Lemma execute_total po l1 :
  well_formed l1 -> running_proc l1 = po ->
  exists l', execute rng po l1 = Ok l'.
Proof.
  intros [Hmem Hfr Hpg Hpids Hrefs Honce Hheap] Hrun.
  destruct po as [proc|]; [|by eexists].
  unfold population, running_list in Hrefs, Honce. rewrite Hrun in Hrefs, Honce.
  assert (Hperm : pending l1 ++ members (scheduler (self l1)) ++ [proc]
                    ++ finished (self l1)
                  ≡ₚ (members (scheduler (self l1)) ++ [proc])
                     ++ pending l1 ++ finished (self l1))
    by solve_Permutation.
  unfold valid_refs in Hrefs. rewrite Hperm in Hrefs, Honce.
  apply Forall_app in Hrefs as [Hrefs _].
  apply NoDup_app in Honce as (Honce & _).
  assert (Hv : (proc < length (procs l1))%nat).
  { pose proof Hrefs as Hp. apply Forall_app in Hp as [_ Hp].
    by apply Forall_inv in Hp. }
  assert (Hpages : 0 < Process.pages (deref (procs l1) proc)).
  { destruct (lookup_lt_is_Some_2 _ _ Hv) as [p Hp].
    rewrite (deref_lookup _ _ _ Hp).
    by apply (Forall_lookup_1 _ _ _ _ Hpg Hp). }
  assert (Hadd : forall (l0 : loop_state) st',
    scheduler (self l0) = scheduler (self l1) ->
    same_jobs (procs l1) st' ->
    exists s', Scheduler.add_process (scheduler (self l0)) st' proc = Ok s').
  { intros l0 st' -> Hsame.
    destruct (add_process_total (scheduler (self l1)) st' proc)
      as (s' & Hs' & _); try done.
    - by rewrite (same_jobs_pids _ _ Hsame).
    - by apply (same_jobs_heap _ _ _ Hsame).
    - by apply (same_jobs_valid _ _ _ Hsame).
    - by exists s'. }
  unfold execute, randrange.
  destruct (Z.leb_spec (Process.pages (deref (procs l1) proc)) 0); [lia|].
  simpl.
  destruct (inv_access_page (mem (self l1))
              (Process.pid (deref (procs l1) proc))
              (0 + rng (draws l1) mod (Process.pages (deref (procs l1) proc) - 0))
              (time (self l1)) Hmem Hfr) as (b & m' & Ha & _).
  rewrite Ha. simpl. destruct b; simpl; [|by eexists].
  set (l0 := with_self _ _).
  destruct (io_loop_total proc
              (io_now (deref (procs l1) proc) (time (self l1))) l0)
    as [[b l2] Hio].
  { intros st' Hsame. by apply Hadd. }
  rewrite Hio. simpl. destruct b; [by eexists|].
  apply cpu_tick_total. intros st' Hsame.
  pose proof (io_loop_self _ _ _ _ _ Hio) as (_&_&_&_&_&_&_&_&_& Hs2).
  pose proof (io_loop_outcome _ _ _ _ _ Hio) as (_ & _ & _ & Hf & _).
  destruct (Hf eq_refl) as (_ & Hsched & _).
  apply Hadd; [by rewrite Hsched|].
  eapply same_jobs_trans; [exact Hs2 | exact Hsame].
Qed.

Lemma step_total l :
  well_formed l -> exists l', step rng l = Ok l' /\ well_formed l'.
Proof.
  intros Hwf. destruct (dispatch_total l Hwf) as (po & l1 & Hd).
  pose proof (dispatch_wf _ _ _ Hd Hwf) as Hwf1.
  pose proof (dispatch_spec _ _ _ Hd)
    as (_ & _ & _ & _ & _ & _ & _ & _ & Hrun & _).
  destruct (execute_total po l1 Hwf1 Hrun) as [l' He].
  exists l'. split; [|by eapply execute_wf].
  unfold step. rewrite Hd. simpl. exact He.
Qed.

Lemma iterate_total n : forall l,
  well_formed l -> exists l', iterate rng n l = Ok l' /\ well_formed l'.
Proof.
  induction n as [|n IH]; intros l Hwf; simpl; [by exists l|].
  destruct (step_total l Hwf) as (l1 & -> & Hwf1). simpl. by apply IH.
Qed.


Lemma start_wf (s : Simulator.t) st : ready s st -> well_formed (start s st).
Proof.
  intros [(n & policy & Hn & Hreach) Hpg Hpids Hrefs Honce Hempty Hfin].
  destruct (reachable_inv n policy (mem s) Hn Hreach) as (Hinv & Hnf & _).
  assert (Hpop : population (start s st) ≡ₚ ready_list s).
  { unfold population, running_list, start. simpl.
    rewrite Hempty, Hfin, sort_by_arrival_perm. simpl.
    by rewrite app_nil_r. }
  split; simpl; try done.
  - lia.
  - unfold valid_refs. by rewrite Hpop.
  - by rewrite Hpop.
  - destruct (scheduler s) as [r|r|r]; simpl in *.
    + by intros e He%elem_of_nil.
    + apply fmap_nil_inv in Hempty. rewrite Hempty.
      by intros e He%elem_of_nil.
    + apply fmap_nil_inv in Hempty. rewrite Hempty.
      by intros e He%elem_of_nil.
Qed.


(** ** A workload without I/O runs to the end *)

Lemma step_no_io l l' :
  no_io (procs l) -> step rng l = Ok l' ->
  time (self l') = time (self l) + 1 /\ no_io (procs l').
Proof.
  intros Hno H.
  pose proof (step_slack _ _ _ H) as [_ Hsame].
  split.
  2:{ by apply (same_jobs_no_io _ _ Hsame). }
  apply step_inv in H as (po & l1 & Hd & He).
  pose proof (dispatch_same_jobs _ _ _ Hd) as Hsame1.
  apply dispatch_spec in Hd as (Ht1 & _).
  assert (Hno1 : no_io (procs l1)).
  { by apply (same_jobs_no_io _ _ Hsame1). }
  destruct po as [proc|].
  - assert (Hio0 : io_now (deref (procs l1) proc) (time (self l1)) = []).
    { unfold io_now. unfold deref. rewrite list_lookup_total_alt.
      destruct (procs l1 !! proc) as [p|] eqn:Hp; simpl; [|done].
      by rewrite (Forall_lookup_1 _ _ _ _ Hno1 Hp). }
    apply execute_some_cases in He
      as (page & m' & Hrand & [[Ha ->]|(Ha & b & l2 & Hio & Hb)]).
    + simpl. lia.
    + rewrite Hio0 in Hio. simpl in Hio. injection Hio as <- <-.
      apply cpu_tick_spec in Hb as (-> & _). simpl. lia.
  - unfold execute in He. injection He as <-. simpl. lia.
Qed.

Lemma loop_no_io fuel : forall max_ticks l,
  well_formed l -> no_io (procs l) ->
  (Z.to_nat (max_ticks - time (self l)) <= fuel)%nat ->
  exists l', loop rng fuel max_ticks l = Ok (Some l') /\
    time (self l') <= Z.max (time (self l)) max_ticks.
Proof.
  induction fuel as [|fuel IH]; intros max_ticks l Hwf Hno Hfuel; simpl.
  - destruct (loop_cond max_ticks l) eqn:Hc.
    + unfold loop_cond in Hc. apply andb_true_iff in Hc as [Hc _].
      apply Z.ltb_lt in Hc. lia.
    + exists l. split; [done | lia].
  - destruct (loop_cond max_ticks l) eqn:Hc.
    + unfold loop_cond in Hc. apply andb_true_iff in Hc as [Hc _].
      apply Z.ltb_lt in Hc.
      destruct (step_total l Hwf) as (l1 & Hstep & Hwf1). rewrite Hstep.
      simpl. destruct (step_no_io _ _ Hno Hstep) as [Ht Hno1].
      destruct (IH max_ticks l1 Hwf1 Hno1) as (l' & Hl' & Hle); [lia|].
      exists l'. split; [done | lia].
    + exists l. split; [done | lia].
Qed.

(** ** The times recorded for a process *)

Lemma io_loop_pres (P : Process.t -> Process.t -> Prop) proc ios :
  (forall p, P p p) -> (forall p q r, P p q -> P q r -> P p r) ->
  (forall p v, P p (Process.set_remaining v p)) ->
  (forall p v, P p (Process.set_waiting_time v p)) ->
  forall l b l', io_loop proc ios l = Ok (b, l') ->
  forall r, P (deref (procs l) r) (deref (procs l') r).
Proof.
  intros Hrefl Htrans Hrem Hwait.
  induction ios as [|io ios IH]; intros l b l' H r; simpl in H.
  - injection H as <- <-. apply Hrefl.
  - destruct (FileSimulator.request _ _ _ _ _ _) as [[g rel] fs'].
    simpl in H. destruct g.
    + apply IH with (r := r) in H. simpl in H.
      eapply Htrans; [|exact H].
      apply (deref_update_pres P); [done|]. intros p. apply Hrem.
    + apply rbind_ok in H as (s' & _ & [= <- <-]). simpl.
      apply (deref_update_pres P); [done|]. intros p. apply Hwait.
Qed.

Lemma io_loop_history proc ios l b l' :
  io_loop proc ios l = Ok (b, l') ->
  forall r,
    Process.start_time (deref (procs l') r)
      = Process.start_time (deref (procs l) r) /\
    Process.finish_time (deref (procs l') r)
      = Process.finish_time (deref (procs l) r).
Proof.
  intros H r.
  apply (io_loop_pres (fun p p' =>
           Process.start_time p' = Process.start_time p /\
           Process.finish_time p' = Process.finish_time p) proc ios)
    with (l := l) (b := b) (l' := l'); try done.
  intros p q r0 [? ?] [? ?]. split; congruence.
Qed.

Lemma elem_of_active l r :
  r ∈ active l <->
  r ∈ members (scheduler (self l)) \/ running_proc l = Some r.
Proof.
  unfold active, running_list. rewrite elem_of_app.
  destruct (running_proc l) as [p|].
  - rewrite list_elem_of_singleton. split.
    + intros [? | ->]; [by left | by right].
    + intros [?|[= ->]]; [by left | by right].
  - split.
    + intros [?|?%elem_of_nil]; [by left | done].
    + intros [?|?]; [by left | done].
Qed.

Lemma io_loop_active proc ios l b l' :
  io_loop proc ios l = Ok (b, l') -> running_proc l = Some proc ->
  forall r, r ∈ active l' -> r ∈ active l.
Proof.
  intros H Hrun r. rewrite !elem_of_active.
  pose proof (io_loop_outcome _ _ _ _ _ H) as (_ & _ & _ & Hf & Ht).
  destruct b.
  - destruct (Ht eq_refl) as [Hnone Hadd].
    apply add_process_members in Hadd. rewrite Hnone, Hadd, elem_of_app.
    intros [[?|Hr%list_elem_of_singleton]|?]; [by left | | done].
    right. by subst.
  - destruct (Hf eq_refl) as (-> & -> & _). done.
Qed.

Lemma cpu_tick_history proc l l' :
  cpu_tick proc l = Ok l' ->
  (forall r, Process.start_time (deref (procs l') r)
             = Process.start_time (deref (procs l) r)) /\
  (forall r, r ≠ proc ->
     Process.finish_time (deref (procs l') r)
     = Process.finish_time (deref (procs l) r)) /\
  (finished (self l') = finished (self l) ++ [proc] /\
   running_proc l' = None /\
   ((proc < length (procs l))%nat ->
    Process.finish_time (deref (procs l') proc) = Some (time (self l')))
   \/
   finished (self l') = finished (self l) /\
   Process.finish_time (deref (procs l') proc)
   = Process.finish_time (deref (procs l) proc)).
Proof.
  unfold cpu_tick. intros H.
  set (procs1 := update (procs l) proc _) in H.
  assert (H1 : forall r,
    Process.start_time (deref procs1 r) = Process.start_time (deref (procs l) r)
    /\ Process.finish_time (deref procs1 r)
       = Process.finish_time (deref (procs l) r)).
  { intros r. apply (deref_update_pres (fun p p' =>
      Process.start_time p' = Process.start_time p /\
      Process.finish_time p' = Process.finish_time p)); done. }
  destruct (_ <=? 0).
  - injection H as <-. simpl. split_and!.
    + intros r. rewrite <- (proj1 (H1 r)).
      apply (deref_update_pres (fun p p' =>
        Process.start_time p' = Process.start_time p)); done.
    + intros r Hne. rewrite deref_update_ne by done. apply H1.
    + left. split_and!; try done. intros Hv.
      rewrite deref_update_eq; [done|]. unfold procs1.
      by rewrite length_update.
  - assert (Hp : procs l' = procs1 /\ finished (self l') = finished (self l)).
    { simpl in H. destruct (Scheduler.is_round_robin _).
      - destruct (_ <=? 0).
        + by apply rbind_ok in H as (s' & _ & [= <-]).
        + by injection H as <-.
      - by injection H as <-. }
    destruct Hp as [-> Hf]. split_and!.
    + intros r. apply H1.
    + intros r _. apply H1.
    + right. split; [done|]. apply H1.
Qed.

Lemma cpu_tick_active proc l l' :
  cpu_tick proc l = Ok l' -> running_proc l = Some proc ->
  forall r, r ∈ active l' -> r ∈ active l.
Proof.
  intros H Hrun r. rewrite !elem_of_active.
  apply cpu_tick_cases in H as (_ & Hcase).
  destruct Hcase as [(_ & -> & -> & _)
                    |[(_ & _ & -> & Hadd & _)|(_ & -> & -> & _)]];
    try done.
  - intros [?|?]; [by left | done].
  - apply add_process_members in Hadd. rewrite Hadd, elem_of_app.
    intros [[?|Hr%list_elem_of_singleton]|?]; [by left | | done].
    right. by subst.
Qed.

Lemma update_arrival st (r r' : ref) (f : Process.t -> Process.t) :
  (forall p, Process.arrival (f p) = Process.arrival p) ->
  Process.arrival (deref (update st r f) r') = Process.arrival (deref st r').
Proof.
  intros Hf. apply (deref_update_pres (fun p p' =>
    Process.arrival p' = Process.arrival p)); done.
Qed.

Lemma deref_update_invalid st (r r' : ref) (f : Process.t -> Process.t) :
  ~ (r < length st)%nat -> deref (update st r f) r' = deref st r'.
Proof.
  intros Hv. unfold deref, update. rewrite list_lookup_total_alter.
  by rewrite decide_False by (intros [_ ?]; lia).
Qed.

Lemma dispatch_timeline l po l1 :
  dispatch l = Ok (po, l1) -> timeline l -> timeline l1.
Proof.
  intros H [Hact Hst Hrun Hfin].
  pose proof (dispatch_spec _ _ _ H)
    as (Ht & _ & _ & Hf & _ & _ & _ & _ & Hrun1 & _ & [Hlen Hsame] & Hflds).
  apply dispatch_cases in H as (sched1 & pend1 & Hadm & _ & Hcase).
  apply bring_arrivals_spec in Hadm as (adm & _ & Hmem & Harr & _).
  assert (Hact1 : forall r, r ∈ members sched1 ->
            Process.arrival (deref (procs l) r) <= time (self l)).
  { intros r Hr. rewrite Hmem in Hr. apply elem_of_app in Hr as [Hr|Hr].
    - apply Hact, elem_of_active. by left.
    - by apply (proj1 (Forall_forall _ _) Harr). }
  assert (Harrival : forall r, Process.arrival (deref (procs l1) r)
                               = Process.arrival (deref (procs l) r)).
  { intros r. by destruct (Hsame r) as (_ & -> & _). }
  destruct Hcase as [(p & Hr & -> & Hs1 & _ & Hp)|(Hr & Htick & Hm)].
  - split.
    + intros r. rewrite elem_of_active, Hrun1, Hs1, Ht, Harrival.
      intros [?|[= <-]]; [by apply Hact1|].
      apply Hact, elem_of_active. by right.
    + intros r t. rewrite Hp, Ht. apply Hst.
    + intros r. rewrite Hrun1, Hp. intros [= <-]. apply Hrun. done.
    + intros r. rewrite Hf, Hp, Ht. apply Hfin.
  - apply tick_members in Htick. destruct po as [proc|].
    + destruct Hm as [_ Hp].
      assert (Hproc : Process.arrival (deref (procs l) proc) <= time (self l)).
      { apply Hact1. rewrite Htick. by left. }
      assert (Hstart : forall r t,
        Process.start_time (deref (procs l1) r) = Some t ->
        Process.start_time (deref (procs l) r) = Some t \/
        (r = proc /\ t = time (self l) /\
         Process.start_time (deref (procs l) r) = None)).
      { intros r t. rewrite Hp.
        destruct (Process.start_time (deref (procs l) proc)) eqn:Hsp;
          [by left|].
        destruct (decide (r = proc)) as [->|Hne].
        - destruct (decide (proc < length (procs l))%nat) as [Hv|Hv].
          + rewrite deref_update_eq by done. simpl. intros [= <-]. by right.
          + rewrite deref_update_invalid by done. by left.
        - rewrite deref_update_ne by done. by left. }
      split.
      * intros r. rewrite elem_of_active, Hrun1, Ht, Harrival.
        intros [?|[= <-]]; [|done]. apply Hact1. rewrite Htick. by right.
      * intros r t Hs. rewrite Harrival, Ht.
        apply Hstart in Hs as [Hs|(-> & -> & _)]; [by apply Hst | lia].
      * intros r. rewrite Hrun1. intros [= <-] Hv. rewrite Hp.
        destruct (Process.start_time (deref (procs l) proc)) eqn:Hsp.
        -- by rewrite Hsp.
        -- rewrite deref_update_eq by (by rewrite <- Hlen). done.
      * intros r. rewrite Hf, Hlen, Ht. intros Hr0 Hv.
        destruct (Hfin r Hr0 Hv) as (t0 & ft & Hs0 & Hf0 & Hlt).
        exists t0, ft. split_and!; [ | | lia | lia].
        -- rewrite Hp.
           destruct (Process.start_time (deref (procs l) proc)) eqn:Hsp;
             [done|].
           rewrite deref_update_ne; [done|]. intros ->. congruence.
        -- by rewrite (proj1 (proj2 (Hflds r))).
    + destruct Htick as [Hnil Hs]. destruct Hm as [_ Hp]. split.
      * intros r. rewrite elem_of_active, Hrun1, Hs, Hnil.
        intros [?%elem_of_nil|?]; done.
      * intros r t. rewrite Hp, Ht. apply Hst.
      * intros r. by rewrite Hrun1.
      * intros r. rewrite Hf, Hp, Ht. apply Hfin.
Qed.

Lemma execute_timeline po l1 l' :
  execute rng po l1 = Ok l' -> running_proc l1 = po ->
  durations_nonneg (procs l1) -> timeline l1 -> timeline l'.
Proof.
  intros H Hrun0 Hdur [Hact Hst Hrun Hfin].
  pose proof (execute_same_jobs _ _ _ H) as [Hlen Hsame].
  assert (Harrival : forall r, Process.arrival (deref (procs l') r)
                               = Process.arrival (deref (procs l1) r)).
  { intros r. by destruct (Hsame r) as (_ & -> & _). }
  destruct po as [proc|].
  2:{ unfold execute in H. injection H as <-. split; simpl.
      - intros r Hr. specialize (Hact r Hr). lia.
      - intros r t Hs. specialize (Hst r t Hs). lia.
      - intros r. by rewrite Hrun0.
      - intros r Hr Hv. destruct (Hfin r Hr Hv) as (t0 & ft & ? & ? & ?).
        exists t0, ft. split_and!; try done; lia. }
  apply execute_some_cases in H
    as (page & m' & Hrand & [[Ha ->]|(Ha & b & l2 & Hio & Hb)]).
  { split; simpl.
    - intros r Hr. specialize (Hact r Hr). lia.
    - intros r t Hs. specialize (Hst r t Hs). lia.
    - intros r Hr Hv. by apply Hrun.
    - intros r Hr Hv. destruct (Hfin r Hr Hv) as (t0 & ft & ? & ? & ?).
      exists t0, ft. split_and!; try done; lia. }
  pose proof (io_loop_self _ _ _ _ _ Hio)
    as (Ht2 & _ & _ & Hf2 & _ & _ & _ & _ & _ & [Hlen2 _]).
  pose proof (io_loop_history _ _ _ _ _ Hio) as Hh2.
  pose proof (io_loop_active _ _ _ _ _ Hio Hrun0) as Ha2.
  simpl in Ht2, Hf2, Hh2, Hlen2.
  assert (Hmono : time (self l1) <= time (self l2)).
  { rewrite Ht2.
    pose proof (sum_durations_nonneg
      (granted_ios (fs (self l1)) (Process.pid (deref (procs l1) proc))
         (time (self l1)) (io_now (deref (procs l1) proc) (time (self l1))))) as Hs.
    assert (0 <= sum_durations
      (granted_ios (fs (self l1)) (Process.pid (deref (procs l1) proc))
         (time (self l1)) (io_now (deref (procs l1) proc) (time (self l1)))));
      [|lia].
    apply Hs, granted_ios_Forall, io_now_Forall.
    by apply durations_nonneg_deref. }
  assert (Hact2 : forall r, r ∈ active l2 -> r ∈ active l1).
  { intros r Hr. apply Ha2 in Hr. revert Hr. rewrite !elem_of_active. done. }
  destruct b.
  - subst l2. split.
    + intros r Hr. rewrite Harrival. specialize (Hact r (Hact2 r Hr)). lia.
    + intros r t. rewrite Harrival, (proj1 (Hh2 r)). intros Hs.
      specialize (Hst r t Hs). lia.
    + intros r Hr.
      pose proof (io_loop_outcome _ _ _ _ _ Hio) as (_ & _ & _ & _ & Hbt).
      destruct (Hbt eq_refl) as [Hnone _]. congruence.
    + intros r. rewrite Hf2, Hlen2. intros Hr Hv.
      destruct (Hfin r Hr Hv) as (t0 & ft & ? & ? & ?).
      exists t0, ft. rewrite (proj1 (Hh2 r)), (proj2 (Hh2 r)).
      split_and!; try done; lia.
  - pose proof (io_loop_outcome _ _ _ _ _ Hio) as (_ & _ & _ & Hbf & _).
    destruct (Hbf eq_refl) as (Hrun2 & _). simpl in Hrun2.
    pose proof (cpu_tick_spec _ _ _ Hb) as (Ht' & _ & _ & _ & _ & _ & _ & [Hlen' _]).
    pose proof (cpu_tick_history _ _ _ Hb) as (Hs' & Hfo' & Hcase).
    pose proof (cpu_tick_active _ _ _ Hb ltac:(congruence)) as Ha'.
    assert (Hstart : forall r, Process.start_time (deref (procs l') r)
                               = Process.start_time (deref (procs l1) r)).
    { intros r. by rewrite Hs', (proj1 (Hh2 r)). }
    split.
    + intros r Hr. rewrite Harrival.
      specialize (Hact r (Hact2 r (Ha' r Hr))). lia.
    + intros r t. rewrite Harrival, Hstart. intros Hs.
      specialize (Hst r t Hs). lia.
    + intros r Hr Hv. rewrite Hstart. apply Hrun; [|lia].
      apply cpu_tick_cases in Hb as (_ & Hc).
      destruct Hc as [(_ & Hn & _)|[(_ & _ & Hn & _)|(_ & Hn & _)]];
        congruence.
    + intros r Hr Hv. rewrite Hstart.
      assert (Hold : r ∈ finished (self l1) -> r ≠ proc ->
        exists t0 ft, Process.start_time (deref (procs l1) r) = Some t0 /\
          Process.finish_time (deref (procs l') r) = Some ft /\
          t0 < ft <= time (self l')).
      { intros Hr1 Hne. destruct (Hfin r Hr1 ltac:(lia))
          as (t0 & ft & ? & ? & ?).
        exists t0, ft. rewrite (Hfo' r Hne), (proj2 (Hh2 r)).
        split_and!; try done; lia. }
      assert (Hnew : (proc < length (procs l1))%nat ->
        Process.finish_time (deref (procs l') proc) = Some (time (self l')) ->
        exists t0 ft, Process.start_time (deref (procs l1) proc) = Some t0 /\
          Process.finish_time (deref (procs l') proc) = Some ft /\
          t0 < ft <= time (self l')).
      { intros Hv1 Hft.
        destruct (Hrun proc Hrun0 Hv1) as [t0 Ht0].
        specialize (Hst proc t0 Ht0).
        exists t0, (time (self l')). split_and!; try done; lia. }
      destruct Hcase as [(Hf' & _ & Hft)|(Hf' & Hft)].
      * rewrite Hf', Hf2 in Hr.
        destruct (decide (r = proc)) as [->|Hne].
        -- apply Hnew; [lia|]. apply Hft. lia.
        -- apply Hold; [|done].
           apply elem_of_app in Hr as [?|?%list_elem_of_singleton]; done.
      * rewrite Hf', Hf2 in Hr.
        destruct (decide (r = proc)) as [->|Hne]; [|by apply Hold].
        destruct (Hfin proc Hr ltac:(lia)) as (t0 & ft & ? & ? & ?).
        exists t0, ft. rewrite Hft, (proj2 (Hh2 proc)).
        split_and!; try done; lia.
Qed.

Lemma step_timeline l l' :
  step rng l = Ok l' -> durations_nonneg (procs l) ->
  timeline l -> timeline l'.
Proof.
  intros H Hdur Htl. apply step_inv in H as (po & l1 & Hd & He).
  pose proof (dispatch_spec _ _ _ Hd)
    as (_ & _ & _ & _ & _ & _ & _ & _ & Hrun & _).
  apply (execute_timeline po l1 l' He Hrun).
  - eapply durations_nonneg_same_jobs; [exact Hdur|].
    by eapply dispatch_same_jobs.
  - by eapply dispatch_timeline.
Qed.

Lemma iterate_timeline n : forall l l',
  iterate rng n l = Ok l' -> durations_nonneg (procs l) -> timeline l ->
  timeline l' /\ same_jobs (procs l) (procs l').
Proof.
  induction n as [|n IH]; intros l l' H Hdur Htl; simpl in H.
  - injection H as <-. split; [done | apply same_jobs_refl].
  - apply rbind_ok in H as (l1 & Hstep & H).
    pose proof (step_slack_mono rng _ _ Hdur Hstep) as [_ Hdur1].
    pose proof (step_slack rng _ _ Hstep) as [_ Hsame].
    destruct (IH _ _ H Hdur1 (step_timeline _ _ Hstep Hdur Htl)) as [? ?].
    split; [done|]. by eapply same_jobs_trans.
Qed.

Lemma start_timeline (s : Simulator.t) st :
  configured s st -> members (scheduler s) = [] -> fresh st ->
  timeline (start s st).
Proof.
  intros Hc Hempty Hfresh.
  apply configured_fresh in Hc as (_ & _ & _ & Hfin).
  assert (Hnone : forall r, Process.start_time (deref st r) = None).
  { intros r. unfold deref. rewrite list_lookup_total_alt.
    destruct (st !! r) as [p|] eqn:Hp; simpl; [|done].
    by destruct (Forall_lookup_1 _ _ _ _ Hfresh Hp). }
  split; simpl.
  - intros r. rewrite elem_of_active. simpl. rewrite Hempty.
    intros [?%elem_of_nil|?]; done.
  - intros r t. by rewrite Hnone.
  - done.
  - intros r. rewrite Hfin. by intros ?%elem_of_nil.
Qed.

(** X21. No process starts before it arrives: in a run from a freshly
    configured simulator whose I/O durations are not negative, a recorded
    start time is never earlier than the arrival time of the process, and
    never later than the clock. *)
Theorem no_process_starts_before_it_arrives
  (s : Simulator.t) (st : store) (l : loop_state) (r : ref) (t : Z) :
  configured s st -> members (scheduler s) = [] -> fresh st ->
  durations_nonneg st -> reachable rng s st l ->
  Process.start_time (deref (procs l) r) = Some t ->
  Process.arrival (deref st r) <= t <= time (self l).
Proof.
  intros Hc Hempty Hfresh Hdur [n Hn] Hs.
  destruct (iterate_timeline n _ _ Hn Hdur (start_timeline s st Hc Hempty Hfresh))
    as [[_ Hst _ _] [_ Hsame]].
  destruct (Hsame r) as (_ & Harr & _). simpl in Harr. rewrite <- Harr.
  by apply Hst.
Qed.

(** X22. Every finished process has a complete record: in a run from a
    freshly configured simulator whose I/O durations are not negative, a
    process in [finished] has a start time and a finish time with
    [arrival <= start_time < finish_time <= time], so its turnaround is at
    least one tick and [compute_metrics] never takes the branch for a
    missing finish time. *)
Theorem finished_process_has_its_times
  (s : Simulator.t) (st : store) (l : loop_state) (r : ref) :
  configured s st -> members (scheduler s) = [] -> fresh st ->
  durations_nonneg st -> reachable rng s st l ->
  r ∈ finished (self l) -> (r < length st)%nat ->
  exists t0 ft,
    Process.start_time (deref (procs l) r) = Some t0 /\
    Process.finish_time (deref (procs l) r) = Some ft /\
    Process.arrival (deref st r) <= t0 /\ t0 < ft <= time (self l) /\
    1 <= turnaround_of (deref (procs l) r).
Proof.
  intros Hc Hempty Hfresh Hdur [n Hn] Hr Hv.
  destruct (iterate_timeline n _ _ Hn Hdur (start_timeline s st Hc Hempty Hfresh))
    as [[_ Hst _ Hfin] [Hlen Hsame]].
  simpl in Hlen. destruct (Hfin r Hr ltac:(lia)) as (t0 & ft & Hs0 & Hf0 & Hlt).
  destruct (Hsame r) as (_ & Harr & _). simpl in Harr.
  specialize (Hst r t0 Hs0).
  exists t0, ft. split_and!; try done; try lia.
  unfold turnaround_of. rewrite Hf0. lia.
Qed.

(** ** A workload without I/O runs to the end *)

Lemma iterate_no_io n : forall l l',
  no_io (procs l) -> iterate rng n l = Ok l' -> no_io (procs l').
Proof.
  induction n as [|n IH]; intros l l' Hno H; simpl in H.
  - by injection H as <-.
  - apply rbind_ok in H as (l1 & Hstep & H).
    destruct (step_no_io _ _ Hno Hstep) as [_ Hno1]. by eapply IH.
Qed.

Lemma iterate_counters n : forall l l',
  iterate rng n l = Ok l' ->
  0 <= cpu_busy_ticks (self l') - cpu_busy_ticks (self l)
    <= total_ticks (self l') - total_ticks (self l).
Proof.
  induction n as [|n IH]; intros l l' H; simpl in H.
  - injection H as <-. lia.
  - apply rbind_ok in H as (l1 & Hstep & H).
    apply IH in H. apply step_counters in Hstep as (dc & dt & ? & ? & ? & ?).
    lia.
Qed.

Lemma no_io_durations st : no_io st -> durations_nonneg st.
Proof.
  intros H. eapply Forall_impl; [exact H|]. simpl. intros p ->. constructor.
Qed.

(** X20. A ready simulator whose processes have no I/O events runs to
    the end.  Every turn of its loop moves the clock by exactly one, so
    the loop of [run] stops within [max_ticks - time] turns, at a clock
    that does not exceed [max_ticks] (or the clock it started from).
    [run] then returns the metrics, with that clock as the time elapsed,
    unless a division of [compute_metrics] raises [OverflowError].  That
    does not happen when the simulator is as [add_process] left it, no
    process has been started, and [max_ticks], the arrival times and the
    CPU demands are within a bound [B] (from below, for the latter two)
    with [3 * B] in the range of floats: then [run] returns the
    metrics. *)
Theorem run_without_io_returns
  {F : Type} (fdiv : Z -> Z -> F) (fmul : F -> Z -> F)
  (fuel : nat) (max_ticks : Z) (s : Simulator.t) (st : store) :
  ready s st -> no_io st ->
  (Z.to_nat (max_ticks - time s) <= fuel)%nat ->
  (forall l l', reachable rng s st l -> step rng l = Ok l' ->
     time (self l') = time (self l) + 1) /\
  (exists l, loop rng fuel max_ticks (start s st) = Ok (Some l) /\
     time (self l) <= Z.max (time s) max_ticks /\
     ((exists m st',
         compute_metrics fdiv fmul (self l) (procs l) = Ok (m, st') /\
         run rng fdiv fmul fuel max_ticks s st
         = Ok (Some (m, with_procs st' l)) /\
         time_elapsed m = time (self l)) \/
      run rng fdiv fmul fuel max_ticks s st = Raise OverflowError)) /\
  (forall B,
     configured s st -> fresh st ->
     0 <= B -> max_ticks <= B ->
     Forall (fun p => - B <= Process.arrival p /\
                      - B <= Process.total_cpu p) st ->
     3 * B < float_limit ->
     exists m l,
       run rng fdiv fmul fuel max_ticks s st = Ok (Some (m, l)) /\
       time_elapsed m = time (self l) /\
       time_elapsed m <= Z.max 0 max_ticks).
Proof.
  intros Hready Hno Hfuel. pose proof (start_wf s st Hready) as Hwf.
  destruct (loop_no_io fuel max_ticks (start s st) Hwf Hno Hfuel)
    as (l & Hloop & Hle).
  simpl in Hle.
  split_and!.
  - intros l0 l' [n Hn] Hstep.
    pose proof (iterate_no_io n (start s st) l0 Hno Hn) as Hno0.
    by destruct (step_no_io _ _ Hno0 Hstep).
  - exists l. split; [done|]. split; [done|]. unfold run. rewrite Hloop.
    simpl.
    destruct (compute_metrics_cases fdiv fmul (self l) (procs l))
      as [Hraise|(m & st' & Hm & Ht)].
    + right. by rewrite Hraise.
    + left. exists m, st'. by rewrite Hm.
  - intros B Hc Hfresh HB Hmax Hbound HM.
    pose proof (configured_fresh _ _ Hc) as (Ht0 & Htt0 & Hcb0 & _).
    pose proof (loop_iterate _ _ _ _ Hloop) as (n & _ & Hn & _).
    destruct (iterate_total n _ Hwf) as (l2 & Hl2 & Hwfl).
    assert (l2 = l) by congruence. subst l2.
    destruct (iterate_timeline n _ _ Hn (no_io_durations _ Hno)
                (start_timeline s st Hc (ready_empty _ _ Hready) Hfresh))
      as [[_ Hst _ Hfin] [Hlen Hsame]].
    simpl in Hlen, Hsame.
    pose proof (iterate_counters n _ _ Hn) as Hcnt. simpl in Hcnt.
    assert (Hvalid : Forall (fun r => (r < length (procs l))%nat)
                            (finished (self l))).
    { pose proof (wf_refs _ Hwfl) as Hrefs. unfold valid_refs, population in Hrefs.
      rewrite !Forall_app in Hrefs. by destruct Hrefs as (_ & _ & _ & ?). }
    destruct (compute_metrics_in_range fdiv fmul (self l) (procs l) (3 * B))
      as (m & st' & Hm & Ht); try done; try lia.
    { intros r Hr.
      pose proof (proj1 (Forall_forall _ _) Hvalid r Hr) as Hv. simpl in Hv.
      destruct (Hfin r Hr Hv) as (t0 & ft & Hs0 & Hf0 & Hlt).
      specialize (Hst r t0 Hs0).
      destruct (Hsame r) as (_ & Harr & Hcpu & _).
      assert (Hp : - B <= Process.arrival (deref st r) /\
                   - B <= Process.total_cpu (deref st r)).
      { unfold deref. rewrite list_lookup_total_alt.
        destruct (st !! r) as [p|] eqn:Hp.
        - simpl. exact (Forall_lookup_1 _ _ _ _ Hbound Hp).
        - apply lookup_ge_None in Hp. lia. }
      unfold turnaround_of. rewrite Hf0. rewrite Harr, Hcpu. lia. }
    unfold run. rewrite Hloop. simpl. rewrite Hm. simpl.
    eexists _, _. split; [reflexivity|]. simpl. split; [done|].
    rewrite Ht. lia.
Qed.

(** ** What a run leaves alone in a process *)

Lemma same_settings_refl p : same_settings p p.
Proof. by repeat split. Qed.

Lemma same_settings_trans p q r :
  same_settings p q -> same_settings q r -> same_settings p r.
Proof.
  intros (?&?&?&?&?&?&?&?) (?&?&?&?&?&?&?&?). repeat split; congruence.
Qed.

Lemma update_settings st (r r' : ref) (f : Process.t -> Process.t) :
  (forall p, same_settings p (f p)) ->
  same_settings (deref st r') (deref (update st r f) r').
Proof.
  intros Hf. apply (deref_update_pres same_settings);
    [apply same_settings_refl | done].
Qed.

Lemma dispatch_settings l po l1 r :
  dispatch l = Ok (po, l1) ->
  same_settings (deref (procs l) r) (deref (procs l1) r).
Proof.
  intros H. apply dispatch_cases in H as (sched1 & pend1 & _ & _ & Hcase).
  destruct Hcase as [(p & _ & _ & _ & _ & ->)|(_ & _ & Hm)];
    [apply same_settings_refl|].
  destruct po as [proc|]; destruct Hm as [_ ->];
    [|apply same_settings_refl].
  destruct (Process.start_time _); [apply same_settings_refl|].
  apply update_settings. intros p. by repeat split.
Qed.

Lemma cpu_tick_settings proc l l' r :
  cpu_tick proc l = Ok l' ->
  same_settings (deref (procs l) r) (deref (procs l') r).
Proof.
  unfold cpu_tick. intros H.
  set (procs1 := update (procs l) proc _) in H.
  assert (H1 : same_settings (deref (procs l) r) (deref procs1 r)).
  { apply update_settings. intros p. by repeat split. }
  destruct (_ <=? 0).
  - injection H as <-. simpl.
    eapply same_settings_trans; [exact H1|].
    apply update_settings. intros p. by repeat split.
  - assert (Hp : procs l' = procs1); [|by rewrite Hp].
    simpl in H. destruct (Scheduler.is_round_robin _).
    + destruct (_ <=? 0).
      * by apply rbind_ok in H as (s' & _ & [= <-]).
      * by injection H as <-.
    + by injection H as <-.
Qed.

Lemma execute_settings po l1 l' r :
  execute rng po l1 = Ok l' ->
  same_settings (deref (procs l1) r) (deref (procs l') r).
Proof.
  intros H. destruct po as [proc|].
  2:{ unfold execute in H. injection H as <-. apply same_settings_refl. }
  apply execute_some_cases in H
    as (page & m' & Hrand & [[Ha ->]|(Ha & b & l2 & Hio & Hb)]);
    [apply same_settings_refl|].
  assert (H2 : same_settings (deref (procs l1) r) (deref (procs l2) r)).
  { apply (io_loop_pres same_settings proc _ same_settings_refl
             same_settings_trans) with (r := r) in Hio; [done | |];
      intros p v; by repeat split. }
  destruct b; [by subst|].
  eapply same_settings_trans; [exact H2|]. by eapply cpu_tick_settings.
Qed.

Lemma step_settings l l' r :
  step rng l = Ok l' ->
  same_settings (deref (procs l) r) (deref (procs l') r).
Proof.
  intros H. apply step_inv in H as (po & l1 & Hd & He).
  eapply same_settings_trans;
    [by eapply dispatch_settings | by eapply execute_settings].
Qed.

Lemma iterate_settings n : forall l l' r,
  iterate rng n l = Ok l' ->
  same_settings (deref (procs l) r) (deref (procs l') r).
Proof.
  induction n as [|n IH]; intros l l' r H; simpl in H.
  - injection H as <-. apply same_settings_refl.
  - apply rbind_ok in H as (l1 & Hstep & H).
    eapply same_settings_trans; [by eapply step_settings | by apply IH].
Qed.

Lemma metrics_loop_settings fin : forall st tw tu r,
  same_settings (deref st r) (deref (metrics_loop fin st tw tu).1.1 r) /\
  Process.remaining (deref (metrics_loop fin st tw tu).1.1 r)
    = Process.remaining (deref st r) /\
  Process.start_time (deref (metrics_loop fin st tw tu).1.1 r)
    = Process.start_time (deref st r) /\
  Process.finish_time (deref (metrics_loop fin st tw tu).1.1 r)
    = Process.finish_time (deref st r).
Proof.
  induction fin as [|p fin IH]; intros st tw tu r; simpl.
  - split; [apply same_settings_refl | done].
  - set (st1 := update st p _).
    destruct (IH st1 (tw + Process.waiting_time (deref st1 p))
                (tu + turnaround_of (deref st p)) r) as (H1 & H2 & H3 & H4).
    assert (H0 : same_settings (deref st r) (deref st1 r) /\
      Process.remaining (deref st1 r) = Process.remaining (deref st r) /\
      Process.start_time (deref st1 r) = Process.start_time (deref st r) /\
      Process.finish_time (deref st1 r) = Process.finish_time (deref st r)).
    { apply (deref_update_pres (fun q q' =>
        same_settings q q' /\
        Process.remaining q' = Process.remaining q /\
        Process.start_time q' = Process.start_time q /\
        Process.finish_time q' = Process.finish_time q)).
      - intros q. split; [apply same_settings_refl | done].
      - intros q. by repeat split. }
    destruct H0 as (H1' & H2' & H3' & H4').
    split_and!; [by eapply same_settings_trans | congruence..].
Qed.

(** X24. The engine changes nothing of a process but its progress: in
    every state of a run, and in what [run] returns, each process has the
    pid, arrival, total CPU demand, priority, number of pages, I/O events,
    [last_run_tick] and [page_table] it had when the run began.  So the
    page table of a process stays as built (every page absent) while the
    memory manager loads its pages, and [last_run_tick] is never set.
    [compute_metrics] changes only [waiting_time]. *)
Theorem run_changes_only_progress_fields
  {F : Type} (fdiv : Z -> Z -> F) (fmul : F -> Z -> F)
  (s : Simulator.t) (st : store) (r : ref) :
  (forall l, reachable rng s st l ->
     same_settings (deref st r) (deref (procs l) r)) /\
  (forall fuel max_ticks m l,
     run rng fdiv fmul fuel max_ticks s st = Ok (Some (m, l)) ->
     same_settings (deref st r) (deref (procs l) r)) /\
  (forall m st',
     compute_metrics fdiv fmul s st = Ok (m, st') ->
     same_settings (deref st r) (deref st' r) /\
     Process.remaining (deref st' r) = Process.remaining (deref st r) /\
     Process.start_time (deref st' r) = Process.start_time (deref st r) /\
     Process.finish_time (deref st' r) = Process.finish_time (deref st r)).
Proof.
  assert (Hm : forall (s1 : Simulator.t) st1 m st',
    compute_metrics fdiv fmul s1 st1 = Ok (m, st') ->
    same_settings (deref st1 r) (deref st' r) /\
    Process.remaining (deref st' r) = Process.remaining (deref st1 r) /\
    Process.start_time (deref st' r) = Process.start_time (deref st1 r) /\
    Process.finish_time (deref st' r) = Process.finish_time (deref st1 r)).
  { intros s1 st1 m st' H. unfold compute_metrics in H.
    pose proof (metrics_loop_settings (finished s1) st1 0 0 r) as Hloop.
    destruct (metrics_loop _ _ _ _) as [[st2 tw] tu]. simpl in Hloop.
    apply rbind_ok in H as (aw & _ & H).
    apply rbind_ok in H as (at' & _ & H).
    by apply rbind_ok in H as (u & _ & [= _ <-]). }
  split_and!.
  - intros l [n Hn]. by apply (iterate_settings n _ _ r) in Hn.
  - intros fuel max_ticks m l H. unfold run in H.
    apply rbind_ok in H as ([l0|] & Hloop & H); [|done].
    apply rbind_ok in H as ([m0 st0] & Hcm & [= <- <-]). simpl.
    apply loop_iterate in Hloop as (n & _ & Hn & _).
    apply (iterate_settings n _ _ r) in Hn. simpl in Hn.
    eapply same_settings_trans; [exact Hn|]. by apply (Hm _ _ _ _ Hcm).
  - intros m st'. apply Hm.
Qed.

(** ** Arrivals *)

Lemma insert_by_arrival_perm st r (l : list ref) :
  insert_by_arrival st r l ≡ₚ r :: l.
Proof.
  induction l as [|x l IH]; simpl; [done|].
  destruct (_ <=? _); [done|]. rewrite IH. apply perm_swap.
Qed.

Lemma insert_by_arrival_sorted st r (l : list ref) :
  by_arrival st l -> by_arrival st (insert_by_arrival st r l).
Proof.
  induction l as [|x l IH]; simpl.
  - intros _. split; [constructor | done].
  - intros [Hx Hl].
    destruct (Z.leb_spec (Process.arrival (deref st r))
                (Process.arrival (deref st x))) as [Hle|Hgt]; simpl.
    + split; [|done]. constructor; [done|].
      eapply Forall_impl; [exact Hx|]. simpl. intros y Hy. lia.
    + split; [|by apply IH]. rewrite insert_by_arrival_perm.
      constructor; [lia | done].
Qed.

Lemma by_arrival_app_r st (l1 l2 : list ref) :
  by_arrival st (l1 ++ l2) -> by_arrival st l2.
Proof. induction l1 as [|x l1 IH]; simpl; [done|]. intros [_ H]. by apply IH. Qed.

Lemma insert_by_arrival_stable st a r (l : list ref) :
  arriving_at st a (insert_by_arrival st r l) = arriving_at st a (r :: l).
Proof.
  unfold arriving_at. induction l as [|x l IH]; simpl; [done|].
  destruct (Z.leb_spec (Process.arrival (deref st r))
              (Process.arrival (deref st x))) as [Hle|Hgt]; [done|].
  rewrite filter_cons, IH, !filter_cons.
  destruct (decide (Process.arrival (deref st x) = a)) as [Hx|Hx];
    destruct (decide (Process.arrival (deref st r) = a)) as [Hr|Hr];
    try done. lia.
Qed.

Lemma sort_by_arrival_sorted st (rs : list ref) :
  by_arrival st (sort_by_arrival st rs).
Proof.
  unfold sort_by_arrival. induction rs as [|r rs IH]; simpl.
  - done.
  - by apply insert_by_arrival_sorted.
Qed.

Lemma sort_by_arrival_stable st a (rs : list ref) :
  arriving_at st a (sort_by_arrival st rs) = arriving_at st a rs.
Proof.
  unfold sort_by_arrival. induction rs as [|r rs IH]; simpl; [done|].
  rewrite insert_by_arrival_stable. unfold arriving_at in *.
  by rewrite !filter_cons, IH.
Qed.

Lemma step_pending l l' :
  step rng l = Ok l' ->
  exists adm, pending l = adm ++ pending l' /\
    Forall (fun r => Process.arrival (deref (procs l) r) <= time (self l)) adm /\
    (forall r, head (pending l') = Some r ->
               time (self l) < Process.arrival (deref (procs l) r)).
Proof.
  intros H. apply step_inv in H as (po & l1 & Hd & He).
  assert (Hp : pending l' = pending l1).
  { destruct po as [proc|].
    - apply execute_some_cases in He
        as (page & m' & Hrand & [[Ha ->]|(Ha & b & l2 & Hio & Hb)]); [done|].
      apply io_loop_self in Hio as (_&_&_&_&_&_& Hp2 & _). simpl in Hp2.
      destruct b; [by subst|].
      apply cpu_tick_cases in Hb as [Hp' _]. congruence.
    - unfold execute in He. by injection He as <-. }
  apply dispatch_cases in Hd as (sched1 & pend1 & Hadm & Hpend & _).
  apply bring_arrivals_spec in Hadm as (adm & Hsplit & _ & Harr & Hhead & _).
  exists adm. rewrite Hp, Hpend. by split_and!.
Qed.

(** The arrivals loop is a run of [add_process] calls, one for each
    process it takes from the front of [pending], in the order of the
    list; under round robin they join the end of the queue in that
    order. *)
Lemma bring_arrivals_adds st now : forall pend sched sched' pend',
  bring_arrivals st now sched pend = Ok (sched', pend') ->
  exists adm, pend = adm ++ pend' /\
    sched_run sched ((fun r => (st, SAdd r)) <$> adm) = Ok sched' /\
    (Scheduler.is_round_robin sched = true ->
     members sched' = members sched ++ adm) /\
    Forall (fun r => Process.arrival (deref st r) <= now) adm /\
    (forall r, head pend' = Some r -> now < Process.arrival (deref st r)).
Proof.
  induction pend as [|p pend IH]; intros sched sched' pend' H; simpl in H.
  - injection H as <- <-. exists []. split_and!; try done.
    intros _. by rewrite app_nil_r.
  - destruct (Z.leb_spec (Process.arrival (deref st p)) now) as [Hle|Hgt].
    + apply rbind_ok in H as (sched1 & Hadd & H).
      apply IH in H as (adm & -> & Hrun & Hmem & Hadm & Hhead).
      exists (p :: adm). split_and!; try done.
      * csimpl. unfold sched_do. simpl. by rewrite Hadd.
      * intros Hrr. rewrite Hmem.
        -- rewrite (rr_add_process_members _ _ _ _ Hrr Hadd).
           by rewrite <- app_assoc.
        -- by rewrite (add_process_kind _ _ _ _ Hadd).
      * by constructor.
    + injection H as <- <-. exists []. split_and!; try done.
      * intros _. by rewrite app_nil_r.
      * intros r [= <-]. lia.
Qed.

(** X25. Processes enter the scheduler in order of arrival, ties in the
    order in which they were added, each in the first turn of the loop
    whose clock has reached its arrival.  [run] sorts the added processes
    by arrival with a stable sort; in every state of a run the processes
    that have not entered yet are a tail of that sorted list; and a turn
    admits exactly those at the front whose arrival is not later than
    its clock, so after it every process still pending arrives later.
    The first part of a turn hands the admitted processes to the
    scheduler by [add_process], one by one in the order of the list, and
    only then continues with the scheduler so obtained (asking it for the
    next process when none is running); under round robin the admitted
    processes are at the end of the queue, in that order. *)
Theorem arrivals_enter_in_order
  (s : Simulator.t) (st : store) :
  let sorted := sort_by_arrival st (ready_list s) in
  (sorted ≡ₚ ready_list s /\ by_arrival st sorted /\
   forall a, arriving_at st a sorted = arriving_at st a (ready_list s)) /\
  (forall l, reachable rng s st l ->
     exists entered, sorted = entered ++ pending l) /\
  (forall l l', reachable rng s st l -> step rng l = Ok l' ->
     exists adm, pending l = adm ++ pending l' /\
       Forall (fun r => Process.arrival (deref st r) <= time (self l)) adm /\
       Forall (fun r => time (self l) < Process.arrival (deref st r))
              (pending l')) /\
  (forall l po l1, reachable rng s st l -> dispatch l = Ok (po, l1) ->
     exists adm sched1,
       pending l = adm ++ pending l1 /\
       Forall (fun r => Process.arrival (deref st r) <= time (self l)) adm /\
       (forall r, head (pending l1) = Some r ->
                  time (self l) < Process.arrival (deref st r)) /\
       sched_run (scheduler (self l)) ((fun r => (procs l, SAdd r)) <$> adm)
       = Ok sched1 /\
       (Scheduler.is_round_robin (scheduler (self l)) = true ->
        members sched1 = members (scheduler (self l)) ++ adm) /\
       match running_proc l with
       | Some _ => scheduler (self l1) = sched1
       | None =>
           Scheduler.tick sched1 (procs l) (time (self l))
           = Ok (po, scheduler (self l1))
       end).
Proof.
  intros sorted.
  assert (Hsuffix : forall n l, iterate rng n (start s st) = Ok l ->
            exists entered, sorted = entered ++ pending l).
  { induction n as [|n IH]; intros l H.
    - injection H as <-. by exists [].
    - destruct (iterate_snoc n _ _ H) as (l0 & H0 & Hs).
      destruct (IH l0 H0) as [entered ->].
      apply step_pending in Hs as (adm & -> & _).
      exists (entered ++ adm). by rewrite <- app_assoc. }
  split_and!.
  - apply sort_by_arrival_perm.
  - apply sort_by_arrival_sorted.
  - intros a. apply sort_by_arrival_stable.
  - intros l [n Hn]. by eapply Hsuffix.
  - intros l l' [n Hn] Hstep.
    assert (Harr : forall r, Process.arrival (deref (procs l) r)
                             = Process.arrival (deref st r)).
    { intros r. by destruct (iterate_settings n _ _ r Hn) as (_ & -> & _). }
    destruct (Hsuffix n l Hn) as [entered Hsorted].
    destruct (step_pending _ _ Hstep) as (adm & Hsplit & Hadm & Hhead).
    exists adm. split_and!; [done | |].
    + eapply Forall_impl; [exact Hadm|]. simpl. intros r. by rewrite Harr.
    + pose proof (sort_by_arrival_sorted st (ready_list s)) as Hs.
      fold sorted in Hs. rewrite Hsorted, Hsplit in Hs.
      apply by_arrival_app_r, by_arrival_app_r in Hs.
      destruct (pending l') as [|p q] eqn:Hq; [constructor|].
      specialize (Hhead p eq_refl). rewrite Harr in Hhead.
      destruct Hs as [Hall _].
      constructor; [done|].
      eapply Forall_impl; [exact Hall|]. simpl. intros y Hy. lia.
  - intros l po l1 [n Hn] Hd.
    assert (Harr : forall r, Process.arrival (deref (procs l) r)
                             = Process.arrival (deref st r)).
    { intros r. by destruct (iterate_settings n _ _ r Hn) as (_ & -> & _). }
    apply dispatch_cases in Hd as (sched1 & pend1 & Hadm & Hpend & Hcase).
    apply bring_arrivals_adds in Hadm
      as (adm & Hsplit & Hrun & Hmem & Harrived & Hhead).
    exists adm, sched1. rewrite Hpend. split_and!; try done.
    + eapply Forall_impl; [exact Harrived|]. simpl. intros r.
      by rewrite Harr.
    + intros r Hr. rewrite <- Harr. by apply Hhead.
    + destruct Hcase as [(p & -> & _ & Hs1 & _)|(-> & Htick & _)]; done.
Qed.

(** ** The log of the lock manager during a run *)

Lemma chronological_extend (l new : list FileSimulator.log_entry) lo hi :
  lo <= hi ->
  FileSpec.chronological l ->
  Forall (fun e => FileSpec.log_tick e <= lo) l ->
  FileSpec.chronological new ->
  Forall (fun e => lo <= FileSpec.log_tick e <= hi) new ->
  FileSpec.chronological (l ++ new) /\
  Forall (fun e => FileSpec.log_tick e <= hi) (l ++ new).
Proof.
  intros Hlohi Hl Hlo Hnew Hin.
  assert (Hhi : Forall (fun e => FileSpec.log_tick e <= hi) new).
  { eapply Forall_impl; [exact Hin|]. simpl. intros e He. lia. }
  induction l as [|a l IH]; simpl; [done|].
  destruct Hl as [Ha Hl]. apply Forall_cons in Hlo as [Halo Hlo].
  destruct (IH Hl Hlo) as [IH1 IH2]. split_and!; try done.
  - apply Forall_app. split; [done|].
    eapply Forall_impl; [exact Hin|]. simpl. intros e He. lia.
  - constructor; [lia | done].
Qed.

Lemma chronological_same_tick (l : list FileSimulator.log_entry) t :
  Forall (fun e => FileSpec.log_tick e = t) l -> FileSpec.chronological l.
Proof.
  induction 1 as [|a l Ha Hl IH]; simpl; [done|]. split; [|done].
  eapply Forall_impl; [exact Hl|]. simpl. intros e He. lia.
Qed.

Lemma handover_ticks t (w : gmap string (list FileSimulator.waiter))
  (fs0 : list string) :
  Forall (fun e => FileSpec.log_tick e = t)
    (concat ((fun f => FileSimulator.handover_log t f (FileSimulator.queue w f))
               <$> fs0)).
Proof.
  induction fs0 as [|f fs0 IH]; simpl; [constructor|].
  apply Forall_app. split; [|done].
  destruct (FileSimulator.queue w f) as [|[[p o] d] q]; simpl;
    [constructor|]. by repeat constructor.
Qed.

Lemma granted_log_ticks pid G : forall now,
  Forall (fun io => 0 <= IOOperation.duration io) G ->
  FileSpec.chronological (granted_log pid now G) /\
  Forall (fun e => now <= FileSpec.log_tick e <= now + sum_durations G)
         (granted_log pid now G).
Proof.
  induction G as [|io G IH]; intros now HG; simpl; [by split|].
  apply Forall_cons in HG as [Hio HG].
  destruct (IH (now + IOOperation.duration io) HG) as [IH1 IH2].
  pose proof (sum_durations_nonneg G HG) as Hsum.
  fold (sum_durations G).
  split_and!; try done.
  - eapply Forall_impl; [exact IH2|]. simpl. intros e He.
    unfold FileSpec.log_tick at 1. simpl. lia.
  - constructor.
    + unfold FileSpec.log_tick. simpl. lia.
    + eapply Forall_impl; [exact IH2|]. simpl. intros e He. lia.
Qed.

Lemma requests_log_ticks l :
  durations_nonneg (procs l) ->
  FileSpec.chronological (requests_log rng l) /\
  Forall (fun e => time (self l) <= FileSpec.log_tick e
                   <= time (self l) + sum_durations (granted_in_step rng l))
         (requests_log rng l).
Proof.
  intros Hdur. pose proof (granted_in_step_nonneg rng l Hdur) as HG.
  unfold requests_log. destruct (process_of_step l) as [proc|]; [|by split].
  destruct (granted_log_ticks (Process.pid (deref (procs l) proc))
              (granted_in_step rng l) (time (self l)) HG) as [Hc Hb].
  pose proof (sum_durations_nonneg _ HG) as Hsum.
  destruct (snd <$> denied_in_step rng l) as [io|]; simpl.
  - assert (Hq : Forall (fun e =>
        time (self l) + sum_durations (granted_in_step rng l)
          <= FileSpec.log_tick e
          <= time (self l) + sum_durations (granted_in_step rng l))
      [(time (self l) + sum_durations (granted_in_step rng l),
        Process.pid (deref (procs l) proc),
        IOOperation.filename io, IOOperation.op io, "queued"%string)]).
    { repeat constructor; unfold FileSpec.log_tick; simpl; lia. }
    assert (Hb' : Forall (fun e => FileSpec.log_tick e
        <= time (self l) + sum_durations (granted_in_step rng l))
        (granted_log (Process.pid (deref (procs l) proc)) (time (self l))
           (granted_in_step rng l))).
    { eapply Forall_impl; [exact Hb|]. simpl. intros e He. lia. }
    assert (Hcq : FileSpec.chronological
      [(time (self l) + sum_durations (granted_in_step rng l),
        Process.pid (deref (procs l) proc),
        IOOperation.filename io, IOOperation.op io, "queued"%string)]).
    { simpl. split; [constructor | done]. }
    destruct (chronological_extend _ _ _ _ (Z.le_refl _) Hc Hb' Hcq Hq)
      as [H1 H2].
    split; [done|]. apply Forall_app. split; [done|].
    eapply Forall_impl; [exact Hq|]. simpl. intros e He. lia.
  - by rewrite app_nil_r.
Qed.

Lemma step_chronological l l' :
  OrdDict.wf (FileSimulator.locks (fs (self l))) ->
  durations_nonneg (procs l) ->
  step rng l = Ok l' ->
  FileSpec.chronological (FileSimulator.log (fs (self l))) ->
  Forall (fun e => FileSpec.log_tick e <= time (self l))
         (FileSimulator.log (fs (self l))) ->
  FileSpec.chronological (FileSimulator.log (fs (self l'))) /\
  Forall (fun e => FileSpec.log_tick e <= time (self l'))
         (FileSimulator.log (fs (self l'))).
Proof.
  intros Hwf Hdur Hstep Hc Hb.
  rewrite (step_log rng _ _ Hstep).
  unfold FileSimulator.release_expired.
  rewrite release_fold_log by (by apply to_release_NoDup).
  pose proof (handover_ticks (time (self l))
                (FileSimulator.waiting (fs (self l)))
                (FileSimulator.to_release (time (self l))
                   (FileSimulator.locks (fs (self l))))) as Hh.
  assert (Hh' : Forall (fun e => time (self l) <= FileSpec.log_tick e
                                  <= time (self l))
    (concat ((fun f => FileSimulator.handover_log (time (self l)) f
                         (FileSimulator.queue
                            (FileSimulator.waiting (fs (self l))) f))
               <$> FileSimulator.to_release (time (self l))
                     (FileSimulator.locks (fs (self l)))))).
  { eapply Forall_impl; [exact Hh|]. simpl. intros e He. lia. }
  destruct (chronological_extend _ _ (time (self l)) (time (self l))
              (Z.le_refl _) Hc Hb (chronological_same_tick _ _ Hh) Hh')
    as [Hc1 Hb1].
  destruct (requests_log_ticks l Hdur) as [Hc2 Hb2].
  pose proof (sum_durations_nonneg _ (granted_in_step_nonneg rng l Hdur))
    as Hsum.
  assert (Hle : time (self l)
                <= time (self l) + sum_durations (granted_in_step rng l))
    by lia.
  destruct (chronological_extend _ _ _ _ Hle Hc1 Hb1 Hc2 Hb2)
    as [Hc3 Hb3].
  split; [done|].
  eapply Forall_impl; [exact Hb3|]. simpl. intros e He.
  pose proof (step_slack rng _ _ Hstep) as [Hslack _].
  pose proof (step_counters _ _ Hstep) as (dc & dt & _ & Hdt & ? & ?).
  unfold slack in Hslack. lia.
Qed.

(** X26. The log of the lock manager is in order of time: in a run that
    starts with a fresh lock manager and has no negative I/O duration, no
    line of the log has a tick earlier than a line before it, and no line
    is later than the clock. *)
Theorem lock_log_is_chronological
  (s : Simulator.t) (st : store) (l : loop_state) :
  fs s = FileSimulator.init -> durations_nonneg st ->
  reachable rng s st l ->
  FileSpec.chronological (FileSimulator.log (fs (self l))) /\
  Forall (fun e => FileSpec.log_tick e <= time (self l))
         (FileSimulator.log (fs (self l))).
Proof.
  intros Hfs Hdur [n Hn].
  assert (Hgen : forall k l0 l1, iterate rng k l0 = Ok l1 ->
    OrdDict.wf (FileSimulator.locks (fs (self l0))) ->
    durations_nonneg (procs l0) ->
    FileSpec.chronological (FileSimulator.log (fs (self l0))) ->
    Forall (fun e => FileSpec.log_tick e <= time (self l0))
           (FileSimulator.log (fs (self l0))) ->
    FileSpec.chronological (FileSimulator.log (fs (self l1))) /\
    Forall (fun e => FileSpec.log_tick e <= time (self l1))
           (FileSimulator.log (fs (self l1)))).
  { induction k as [|k IH]; intros l0 l1 H Hwf0 Hdur0 Hc0 Hb0; simpl in H.
    - by injection H as <-.
    - apply rbind_ok in H as (l2 & Hstep & H).
      destruct (step_chronological _ _ Hwf0 Hdur0 Hstep Hc0 Hb0) as [Hc2 Hb2].
      destruct (step_past_or_held rng 0 ""%string _ _ Hwf0 Hdur0 Hstep)
        as (Hwf2 & Hdur2 & _).
      by apply (IH _ _ H). }
  apply (Hgen _ _ _ Hn); simpl; rewrite ?Hfs; simpl; try done.
  apply NoDup_nil_2.
Qed.

End EngineExtra.

(** ** The properties on concrete workloads *)

Section EngineExtraExamples.
Import Simulator EngineSpec SchedulerSpec RunSpec.

Lemma pair_configured :
  configured (Examples.simulator Workloads.pair_store) Workloads.pair_store.
Proof. eexists _, _, _, _, _. reflexivity. Qed.

Lemma pair_ready :
  ready (Examples.simulator Workloads.pair_store) Workloads.pair_store.
Proof.
  split.
  - exists 1, "FIFO"%string. split; [lia|].
    exists (Examples.memory 1 "FIFO"), []. split; reflexivity.
  - repeat constructor.
  - apply (bool_decide_unpack _). by vm_compute.
  - repeat constructor.
  - apply (bool_decide_unpack _). by vm_compute.
  - reflexivity.
  - reflexivity.
Qed.


Lemma pair_fresh : fresh Workloads.pair_store.
Proof. repeat constructor. Qed.

Lemma pair_durations : durations_nonneg Workloads.pair_store.
Proof. repeat constructor. Qed.

Lemma pair_no_io : no_io Workloads.pair_store.
Proof. repeat constructor. Qed.

Lemma processes_are_conserved_witness :
  let s := Examples.simulator Workloads.pair_store in
  let l := Examples.after 4 Workloads.pair_rr in
  reachable Examples.rng0 s Workloads.pair_store l /\
  population l ≡ₚ ready_list s ++ members (scheduler s) ++ finished s.
Proof.
  intros s l.
  assert (Hr : reachable Examples.rng0 s Workloads.pair_store l).
  { exists 4%nat. vm_compute. reflexivity. }
  split; [exact Hr|].
  exact (processes_are_conserved Examples.rng0 s Workloads.pair_store l Hr).
Defined.

Lemma early_exit_means_all_finished_witness :
  let s := Examples.simulator Workloads.pair_store in
  exists m l,
    run Examples.rng0 Qdiv_int Qmul_int 30 100 s Workloads.pair_store
      = Ok (Some (m, l)) /\
    time_elapsed m < 100 /\
    pending l = [] /\ running_proc l = None /\
    members (scheduler (self l)) = [] /\
    finished (self l) ≡ₚ ready_list s ++ members (scheduler s) ++ finished s /\
    finished_count m
    = Z.of_nat (length (ready_list s ++ members (scheduler s) ++ finished s)).
Proof.
  intros s.
  assert (H : exists m l,
    run Examples.rng0 Qdiv_int Qmul_int 30 100 s Workloads.pair_store
      = Ok (Some (m, l)) /\ time_elapsed m < 100).
  { vm_compute. eexists _, _. split; reflexivity. }
  destruct H as (m & l & Hrun & Ht).
  exists m, l. split; [exact Hrun|]. split; [exact Ht|].
  exact (early_exit_means_all_finished Examples.rng0 Qdiv_int Qmul_int
           30 100 s Workloads.pair_store m l Hrun Ht).
Defined.

Lemma busy_ticks_are_counted_ticks_witness :
  let s := Examples.simulator Workloads.pair_store in
  let l := Examples.after 6 Workloads.pair_rr in
  configured s Workloads.pair_store /\
  iterate Examples.rng0 6 (start s Workloads.pair_store) = Ok l /\
  0 <= cpu_busy_ticks (self l) <= total_ticks (self l) /\
  total_ticks (self l) <= Z.of_nat 6.
Proof.
  intros s l.
  assert (Hn : iterate Examples.rng0 6 (start s Workloads.pair_store) = Ok l).
  { vm_compute. reflexivity. }
  split; [exact pair_configured|]. split; [exact Hn|].
  exact (busy_ticks_are_counted_ticks Examples.rng0 s Workloads.pair_store
           6 l pair_configured Hn).
Defined.

Lemma round_robin_turn_is_within_quantum_witness :
  let s := Examples.simulator Workloads.pair_store in
  let l0 := Workloads.pair_rr in
  let l2 := Examples.after 2 Workloads.pair_rr in
  let l3 := Examples.after 3 Workloads.pair_rr in
  reachable Examples.rng0 s Workloads.pair_store l2 /\
  running_proc l2 = Some 0%nat /\
  1 <= rr_quantum_left l2 <= quantum s /\
  running_proc l0 = None /\ running_proc l3 = None /\
  cpu_busy_ticks (self l3) - cpu_busy_ticks (self l0) <= quantum s /\
  step Examples.rng0 l2 = Ok l3 /\
  (finished (self l3) = finished (self l2) ++ [0%nat] \/
   (finished (self l3) = finished (self l2) /\
    exists q, members (scheduler (self l3)) = q ++ [0%nat])).
Proof.
  intros s l0 l2 l3.
  assert (Hr0 : reachable Examples.rng0 s Workloads.pair_store l0).
  { exists 0%nat. reflexivity. }
  assert (Hr2 : reachable Examples.rng0 s Workloads.pair_store l2).
  { exists 2%nat. vm_compute. reflexivity. }
  assert (Hrr : Scheduler.is_round_robin (scheduler s) = true) by reflexivity.
  assert (Hq : 1 <= quantum s) by (vm_compute; discriminate).
  assert (Hrun : running_proc l2 = Some 0%nat) by (vm_compute; reflexivity).
  assert (Hfree : running_proc l0 = None) by reflexivity.
  assert (Hnone : running_proc l3 = None) by (vm_compute; reflexivity).
  destruct (round_robin_turn_is_within_quantum Examples.rng0 s
              Workloads.pair_store l2 Hr2 Hrr Hq) as (Hinv & _ & Hends).
  destruct (round_robin_turn_is_within_quantum Examples.rng0 s
              Workloads.pair_store l0 Hr0 Hrr Hq) as (_ & Hcount & _).
  split; [exact Hr2|]. split; [exact Hrun|].
  split; [apply Hinv; rewrite Hrun; by eexists|].
  split; [exact Hfree|]. split; [exact Hnone|]. split.
  - apply (Hcount 2%nat l3 Hfree).
    + vm_compute. reflexivity.
    + intros k lk Hk Hlk.
      assert (Hcases : k = 1%nat \/ k = 2%nat) by lia.
      destruct Hcases as [-> | ->]; vm_compute in Hlk;
        injection Hlk as <-; eexists; reflexivity.
  - apply (Hends 0%nat (Examples.dispatched l2) l3);
      [vm_compute; reflexivity | vm_compute; reflexivity | exact Hnone].
Defined.

Lemma heap_schedulers_do_not_preempt_witness :
  let l := Examples.after 2 Workloads.pair_sjf in
  let l' := Examples.after 3 Workloads.pair_sjf in
  step Examples.rng0 l = Ok l' /\
  running_proc l = Some 0%nat /\
  (running_proc l' = Some 0%nat \/
   (running_proc l' = None /\
    (finished (self l') = finished (self l) ++ [0%nat] \/
     exists io, denied_in_step Examples.rng0 l = Some (0%nat, io)))).
Proof.
  intros l l'.
  assert (Hs : step Examples.rng0 l = Ok l') by (vm_compute; reflexivity).
  assert (Hrun : running_proc l = Some 0%nat) by (vm_compute; reflexivity).
  split; [exact Hs|]. split; [exact Hrun|].
  apply (heap_schedulers_do_not_preempt Examples.rng0 l l' 0%nat Hs);
    [vm_compute; reflexivity | exact Hrun].
Defined.



Lemma run_without_io_returns_witness :
  let s := Examples.simulator Workloads.pair_store in
  let l1 := Examples.after 1 Workloads.pair_rr in
  let l2 := Examples.after 2 Workloads.pair_rr in
  ready s Workloads.pair_store /\ no_io Workloads.pair_store /\
  time (self l2) = time (self l1) + 1 /\
  exists m l,
    run Examples.rng0 Qdiv_int Qmul_int 100 100 s Workloads.pair_store
      = Ok (Some (m, l)) /\
    time_elapsed m = time (self l) /\
    time_elapsed m <= Z.max 0 100.
Proof.
  intros s l1 l2. split; [exact pair_ready|]. split; [exact pair_no_io|].
  assert (Hfuel : (Z.to_nat (100 - time s) <= 100)%nat) by (vm_compute; lia).
  destruct (run_without_io_returns Examples.rng0 Qdiv_int Qmul_int 100 100 s
              Workloads.pair_store pair_ready pair_no_io Hfuel)
    as (Hclock & _ & Hbound).
  split.
  - apply Hclock.
    + exists 1%nat. vm_compute. reflexivity.
    + vm_compute. reflexivity.
  - apply (Hbound 100).
    + exact pair_configured.
    + exact pair_fresh.
    + lia.
    + lia.
    + repeat constructor; simpl; lia.
    + vm_compute. reflexivity.
Defined.

Lemma no_process_starts_before_it_arrives_witness :
  let s := Examples.simulator Workloads.pair_store in
  let l := Examples.after 5 Workloads.pair_rr in
  reachable Examples.rng0 s Workloads.pair_store l /\
  Process.start_time (deref (procs l) 1%nat) = Some 3 /\
  Process.arrival (deref Workloads.pair_store 1%nat) <= 3 <= time (self l).
Proof.
  intros s l.
  assert (Hr : reachable Examples.rng0 s Workloads.pair_store l).
  { exists 5%nat. vm_compute. reflexivity. }
  assert (Hs : Process.start_time (deref (procs l) 1%nat) = Some 3)
    by (vm_compute; reflexivity).
  split; [exact Hr|]. split; [exact Hs|].
  exact (no_process_starts_before_it_arrives Examples.rng0 s
           Workloads.pair_store l 1%nat 3 pair_configured eq_refl pair_fresh
           pair_durations Hr Hs).
Defined.

Lemma finished_process_has_its_times_witness :
  let s := Examples.simulator Workloads.pair_store in
  let l := Examples.after 12 Workloads.pair_rr in
  reachable Examples.rng0 s Workloads.pair_store l /\
  finished (self l) = [1%nat; 0%nat] /\
  exists t0 ft,
    Process.start_time (deref (procs l) 0%nat) = Some t0 /\
    Process.finish_time (deref (procs l) 0%nat) = Some ft /\
    Process.arrival (deref Workloads.pair_store 0%nat) <= t0 /\
    t0 < ft <= time (self l) /\
    1 <= turnaround_of (deref (procs l) 0%nat).
Proof.
  intros s l.
  assert (Hr : reachable Examples.rng0 s Workloads.pair_store l).
  { exists 12%nat. vm_compute. reflexivity. }
  assert (Hf : finished (self l) = [1%nat; 0%nat]) by (vm_compute; reflexivity).
  split; [exact Hr|]. split; [exact Hf|].
  apply (finished_process_has_its_times Examples.rng0 s
           Workloads.pair_store l 0%nat pair_configured eq_refl pair_fresh
           pair_durations Hr).
  - rewrite Hf. right. left.
  - vm_compute. lia.
Defined.

Lemma run_changes_only_progress_fields_witness :
  let s := Examples.simulator Workloads.pair_store in
  let l := Examples.after 12 Workloads.pair_rr in
  reachable Examples.rng0 s Workloads.pair_store l /\
  same_settings (deref Workloads.pair_store 0%nat) (deref (procs l) 0%nat) /\
  Process.page_table (deref (procs l) 0%nat) = [(0, false)].
Proof.
  intros s l.
  assert (Hr : reachable Examples.rng0 s Workloads.pair_store l).
  { exists 12%nat. vm_compute. reflexivity. }
  destruct (run_changes_only_progress_fields Examples.rng0 Qdiv_int Qmul_int
              s Workloads.pair_store 0%nat) as (Hreach & _ & _).
  pose proof (Hreach l Hr) as Hset.
  split; [exact Hr|]. split; [exact Hset|].
  destruct Hset as (_ & _ & _ & _ & _ & _ & _ & ->). reflexivity.
Defined.

Lemma arrivals_enter_in_order_witness :
  let s := Examples.simulator Workloads.trio_store in
  let l := Workloads.trio_rr in
  let l1 := Examples.dispatched l in
  reachable Examples.rng0 s Workloads.trio_store l /\
  dispatch l = Ok (Some 0%nat, l1) /\
  pending l = [0%nat; 1%nat; 2%nat] /\ pending l1 = [] /\
  exists sched1,
    sched_run (scheduler (self l))
      [(procs l, SAdd 0%nat); (procs l, SAdd 1%nat); (procs l, SAdd 2%nat)]
    = Ok sched1 /\
    members sched1 = [0%nat; 1%nat; 2%nat] /\
    Scheduler.tick sched1 (procs l) (time (self l))
    = Ok (Some 0%nat, scheduler (self l1)).
Proof.
  intros s l l1.
  assert (Hr : reachable Examples.rng0 s Workloads.trio_store l).
  { exists 0%nat. reflexivity. }
  assert (Hd : dispatch l = Ok (Some 0%nat, l1)) by (vm_compute; reflexivity).
  assert (Hp : pending l = [0%nat; 1%nat; 2%nat]) by (vm_compute; reflexivity).
  assert (Hp1 : pending l1 = []) by (vm_compute; reflexivity).
  split; [exact Hr|]. split; [exact Hd|]. split; [exact Hp|].
  split; [exact Hp1|].
  pose proof (arrivals_enter_in_order Examples.rng0 s Workloads.trio_store)
    as H.
  cbv zeta in H. destruct H as (_ & _ & _ & Hdisp).
  destruct (Hdisp l (Some 0%nat) l1 Hr Hd)
    as (adm & sched1 & Hsplit & _ & _ & Hrun & Hmem & Htick).
  rewrite Hp, Hp1, app_nil_r in Hsplit. subst adm.
  exists sched1. split; [exact Hrun|]. split; [|exact Htick].
  exact (Hmem eq_refl).
Defined.

Lemma lock_log_is_chronological_witness :
  let s := Examples.simulator Examples.contended_store in
  let l := Examples.after 4 Examples.contended in
  reachable Examples.rng0 s Examples.contended_store l /\
  FileSpec.chronological (FileSimulator.log (fs (self l))) /\
  Forall (fun e => FileSpec.log_tick e <= time (self l))
         (FileSimulator.log (fs (self l))).
Proof.
  intros s l.
  assert (Hr : reachable Examples.rng0 s Examples.contended_store l).
  { exists 4%nat. vm_compute. reflexivity. }
  split; [exact Hr|].
  apply (lock_log_is_chronological Examples.rng0 s Examples.contended_store l);
    [reflexivity | | exact Hr].
  repeat constructor; simpl; lia.
Defined.

End EngineExtraExamples.
